(** * BasicYamlParser: a shallow embedding of [BasicYamlParser.hpp]

    The header-only parser is embedded function by function.  Strings are
    [string] (a [std::string] is a sequence of bytes), [int] and [size_t]
    values are [Z], [nat] or [N] as noted, a [YamlNode] is a record with the
    five fields of the C++ struct, raw pointers into the tree are paths from
    the root, exceptions are a [Throw] result, and the [std::istream] the
    parser reads is a buffer with a get position and its two state bits. *)

From Stdlib Require Import String Ascii List ZArith NArith Bool Lia PeanoNat.
Import ListNotations.

Local Open Scope string_scope.
Local Open Scope bool_scope.

(* ================================================================== *)
(** * Part I: definitions *)
(* ================================================================== *)

(** ** Characters *)

Definition NUL : ascii := ascii_of_nat 0.
Definition TAB : ascii := ascii_of_nat 9.
Definition LF : ascii := ascii_of_nat 10.
Definition SPACE : ascii := ascii_of_nat 32.
Definition DQUOTE : ascii := ascii_of_nat 34.
Definition SQUOTE : ascii := ascii_of_nat 39.
Definition BACKSLASH : ascii := ascii_of_nat 92.

Definition code (c : ascii) : nat := nat_of_ascii c.

(** [std::isspace] in the C locale: space, and the controls 9 to 13. *)
Definition isspace (c : ascii) : bool :=
  (code c =? 32)%nat || ((9 <=? code c)%nat && (code c <=? 13)%nat).

(** [std::isdigit]. *)
Definition isdigit (c : ascii) : bool :=
  (48 <=? code c)%nat && (code c <=? 57)%nat.

Definition isupper (c : ascii) : bool :=
  (65 <=? code c)%nat && (code c <=? 90)%nat.

Definition isalpha (c : ascii) : bool :=
  isupper c || ((97 <=? code c)%nat && (code c <=? 122)%nat).

(** [std::tolower] on an [unsigned char], C locale. *)
Definition tolower (c : ascii) : ascii :=
  if isupper c then ascii_of_nat (code c + 32) else c.

(** The value of [c - '0']. *)
Definition digit_val (c : ascii) : Z := Z.of_nat (code c) - 48.

(** ** [std::string] members *)

(** [s.substr(n)] for [n <= s.size()]. *)
Fixpoint drop (n : nat) (s : string) : string :=
  match n, s with
  | O, _ => s
  | S n', String _ r => drop n' r
  | S _, EmptyString => EmptyString
  end.

(** [s.substr(0, n)]; as in C++ the count is clipped to the size. *)
Fixpoint take (n : nat) (s : string) : string :=
  match n, s with
  | O, _ => EmptyString
  | S n', String c r => String c (take n' r)
  | S _, EmptyString => EmptyString
  end.

(** [s.substr(pos, len)]; every call of the parser has [pos <= s.size()],
    where C++ does not throw. *)
Definition substr (s : string) (pos len : nat) : string := take len (drop pos s).

Definition empty (s : string) : bool :=
  match s with EmptyString => true | _ => false end.

(** [s[0]]: for an empty [std::string] this is the terminating NUL. *)
Definition front (s : string) : ascii :=
  match s with EmptyString => NUL | String c _ => c end.

(** [s.back()]; the parser calls it on non-empty strings only, and NUL
    stands for the undefined read otherwise. *)
Fixpoint back (s : string) : ascii :=
  match s with
  | EmptyString => NUL
  | String c EmptyString => c
  | String _ r => back r
  end.

(** [s.find(c)]: [None] is [npos]. *)
Fixpoint find (c : ascii) (s : string) : option nat :=
  match s with
  | EmptyString => None
  | String d r => if Ascii.eqb d c then Some O else option_map S (find c r)
  end.

Fixpoint starts_with (p s : string) : bool :=
  match p, s with
  | EmptyString, _ => true
  | String a p', String b s' => Ascii.eqb a b && starts_with p' s'
  | String _ _, EmptyString => false
  end.

(** [s.find(p)] for a string pattern. *)
Fixpoint find_str (p s : string) : option nat :=
  if starts_with p s then Some O
  else match s with
       | EmptyString => None
       | String _ r => option_map S (find_str p r)
       end.

Fixpoint mem (c : ascii) (set : string) : bool :=
  match set with
  | EmptyString => false
  | String d r => Ascii.eqb c d || mem c r
  end.

Fixpoint find_first_not_of (set : string) (s : string) : option nat :=
  match s with
  | EmptyString => None
  | String c r => if mem c set then option_map S (find_first_not_of set r) else Some O
  end.

Fixpoint find_last_not_of (set : string) (s : string) : option nat :=
  match s with
  | EmptyString => None
  | String c r =>
      match find_last_not_of set r with
      | Some i => Some (S i)
      | None => if mem c set then None else Some O
      end
  end.

(** The blanks [trim] and [rtrim] strip: a space and a tab. *)
Definition BLANKS : string := String SPACE (String TAB EmptyString).

(** A text that starts with text: it is not empty, and its first byte is
    no blank and no newline. *)
Definition BLANKS_LF : string := String SPACE (String TAB (String LF EmptyString)).

Definition starts_text (s : string) : bool :=
  negb (empty s) && negb (mem (front s) BLANKS_LF).

(** [YamlParser::trim] (lines 469-476). *)
Definition trim (str : string) : string :=
  let first := find_first_not_of BLANKS str in
  let last := find_last_not_of BLANKS str in
  match first, last with
  | Some f, Some l => substr str f (l - f + 1)
  | _, _ => EmptyString
  end.

(** [YamlParser::rtrim] (lines 481-487). *)
Definition rtrim (str : string) : string :=
  match find_last_not_of BLANKS str with
  | None => EmptyString
  | Some l => substr str 0 (l + 1)
  end.

(** [YamlParser::iequals] (lines 190-195): [std::equal] over both ranges
    with the lower-cased bytes compared, so the lengths must agree. *)
Fixpoint iequals (a b : string) : bool :=
  match a, b with
  | EmptyString, EmptyString => true
  | String c1 a', String c2 b' => Ascii.eqb (tolower c1) (tolower c2) && iequals a' b'
  | _, _ => false
  end.

(** The strings [std::getline(stream, item, delim)] yields, one after the
    other, from a [std::istringstream] over [s]: a final delimiter ends the
    last item and starts no empty one. *)
Fixpoint getlines (delim : ascii) (s : string) : list string :=
  match s with
  | EmptyString => []
  | String c r =>
      if Ascii.eqb c delim then EmptyString :: getlines delim r
      else match getlines delim r with
           | [] => [String c EmptyString]
           | l :: ls => String c l :: ls
           end
  end.

(** ** The document tree (lines 30-57) *)

Inductive YamlNodeType : Type := Scalar | Sequence | Mapping.

Inductive ScalarStyle : Type := Plain | Literal | Folded.

Definition YamlNodeType_eqb (a b : YamlNodeType) : bool :=
  match a, b with
  | Scalar, Scalar | Sequence, Sequence | Mapping, Mapping => true
  | _, _ => false
  end.

(** [struct YamlNode]: every node carries all five fields, [type] only says
    which of them is meant.  The [std::map] is its list of entries in key
    order. *)
#[warnings="-register-all"]
Inductive YamlNode : Type :=
  mkNode {
    type : YamlNodeType;
    style : ScalarStyle;
    scalarValue : string;
    sequence : list YamlNode;
    mapping : list (string * YamlNode)
  }.

(** [YamlNode(t)], the constructor; [YamlNode()] is [newYamlNode Scalar]. *)
Definition newYamlNode (t : YamlNodeType) : YamlNode :=
  mkNode t Plain EmptyString [] [].

Definition set_type (t : YamlNodeType) (n : YamlNode) : YamlNode :=
  mkNode t (style n) (scalarValue n) (sequence n) (mapping n).
Definition set_style (s : ScalarStyle) (n : YamlNode) : YamlNode :=
  mkNode (type n) s (scalarValue n) (sequence n) (mapping n).
Definition set_scalarValue (v : string) (n : YamlNode) : YamlNode :=
  mkNode (type n) (style n) v (sequence n) (mapping n).
Definition set_sequence (l : list YamlNode) (n : YamlNode) : YamlNode :=
  mkNode (type n) (style n) (scalarValue n) l (mapping n).
Definition set_mapping (m : list (string * YamlNode)) (n : YamlNode) : YamlNode :=
  mkNode (type n) (style n) (scalarValue n) (sequence n) m.

(** [m.find(key)] on the [std::map]. *)
Fixpoint map_find {A : Type} (key : string) (m : list (string * A)) : option A :=
  match m with
  | [] => None
  | (k, v) :: r => if String.eqb k key then Some v else map_find key r
  end.

(** [m[key] = v]: the entry is overwritten in place when the key is there,
    and put at its place in key order ([std::less<std::string>], bytes
    compared unsigned) otherwise. *)
Fixpoint map_assign {A : Type} (key : string) (v : A) (m : list (string * A))
  : list (string * A) :=
  match m with
  | [] => [(key, v)]
  | (k, w) :: r =>
      match String.compare key k with
      | Eq => (k, v) :: r
      | Lt => (key, v) :: (k, w) :: r
      | Gt => (k, w) :: map_assign key v r
      end
  end.

(** What [YamlError] carries besides its message: which [throw] raised it,
    and the line (and column) given there. *)
Inductive YamlErrorKind : Type :=
  | TabsInIndentation
  | InvalidIndentation
  | UnexpectedIndentAfterScalar
  | MissingColon
  | EmptyKey
  | AmbiguousColon
  | FlowMissingColon
  | FlowEmptyKey
  | NotAScalar
  | NotAMapping
  | NotASequence.

Record YamlError : Type :=
  mkError { err_kind : YamlErrorKind; err_line : Z; err_col : Z }.

(** The outcome of code that may throw.  [Stuck] is no C++ outcome: it marks
    a loop of the model that ran out of fuel, or a frame whose path leads
    nowhere. *)
Inductive result (A : Type) : Type :=
  | Ok (a : A)
  | Throw (e : YamlError)
  | Stuck.
Arguments Ok {A} a.
Arguments Throw {A} e.
Arguments Stuck {A}.

Definition bind {A B : Type} (r : result A) (k : A -> result B) : result B :=
  match r with
  | Ok a => k a
  | Throw e => Throw e
  | Stuck => Stuck
  end.

Notation "x <- c1 ;; c2" := (bind c1 (fun x => c2))
  (at level 61, c1 at next level, right associativity).
Notation "' p <- c1 ;; c2" := (bind c1 (fun x => let p := x in c2))
  (at level 61, p pattern, c1 at next level, right associativity).

Definition throw {A : Type} (k : YamlErrorKind) (ln : Z) : result A :=
  Throw (mkError k ln (-1)).

(** ** The scalar classifier (lines 153-264) *)

(** The digits [strtol] reads in base 10 after the sign: how many, and
    their value on top of [acc]. *)
Fixpoint scan_digits (s : string) (acc : Z) : nat * Z :=
  match s with
  | String c r =>
      if isdigit c then
        let '(n, v) := scan_digits r (acc * 10 + digit_val c) in (S n, v)
      else (O, acc)
  | EmptyString => (O, acc)
  end.

Fixpoint skip_space (s : string) : nat :=
  match s with
  | String c r => if isspace c then S (skip_space r) else O
  | EmptyString => O
  end.

(** The range of [long] (LP64) and of [long long]. *)
Definition LONG_MIN : Z := - 2 ^ 63.
Definition LONG_MAX : Z := 2 ^ 63 - 1.

(** [std::stol(val, &pos)]: [strtol] in base 10 on [val.c_str()]: leading
    white space, an optional sign, digits.  [None] is either exception
    ([invalid_argument]: no digit; [out_of_range]: outside [long]);
    otherwise the value and [pos]. *)
Definition stol (val : string) : option (Z * nat) :=
  let ws := skip_space val in
  let s1 := drop ws val in
  let '(sg, neg) :=
    match s1 with
    | String c _ =>
        if Ascii.eqb c "-" then (1, true)
        else if Ascii.eqb c "+" then (1, false) else (O, false)
    | EmptyString => (O, false)
    end in
  let '(n, v) := scan_digits (drop sg s1) 0 in
  let v := if neg then (- v)%Z else v in
  match n with
  | O => None
  | S _ =>
      if (LONG_MIN <=? v)%Z && (v <=? LONG_MAX)%Z then Some (v, ws + sg + n)
      else None
  end.

(** [std::from_chars(b, e, v)] for [long long] in base 10: an optional minus
    sign and digits, no white space and no plus sign.  The result is where
    [ptr] stands and the value when [ec] is [std::errc{}]. *)
Definition from_chars (s : string) : nat * option Z :=
  let '(sg, neg) :=
    match s with
    | String c _ => if Ascii.eqb c "-" then (1, true) else (O, false)
    | EmptyString => (O, false)
    end in
  let '(n, v) := scan_digits (drop sg s) 0 in
  let v := if neg then (- v)%Z else v in
  match n with
  | O => (O, None)
  | S _ =>
      if (LONG_MIN <=? v)%Z && (v <=? LONG_MAX)%Z then (sg + n, Some v)
      else (sg + n, None)
  end.

(** *** The subject sequence of [strtod] *)

Definition ishex (c : ascii) : bool :=
  isdigit c
  || ((97 <=? code (tolower c))%nat && (code (tolower c) <=? 102)%nat).

Fixpoint span (p : ascii -> bool) (s : string) : nat :=
  match s with
  | String c r => if p c then S (span p r) else O
  | EmptyString => O
  end.

(** Case-insensitive prefix test against a lower-case word. *)
Fixpoint prefix_ci (word s : string) : bool :=
  match word, s with
  | EmptyString, _ => true
  | String a w', String b s' => Ascii.eqb a (tolower b) && prefix_ci w' s'
  | String _ _, EmptyString => false
  end.

(** The exponent part after a mantissa: the marker [e] (lower case given),
    an optional sign and at least one digit; 0 when it is not all there. *)
Definition exponent_len (marker : ascii) (s : string) : nat :=
  match s with
  | String c r =>
      if Ascii.eqb (tolower c) marker then
        let sg := match r with
                  | String d _ => if Ascii.eqb d "-" || Ascii.eqb d "+" then 1 else O
                  | EmptyString => O
                  end in
        let n := span isdigit (drop sg r) in
        match n with O => O | S _ => 1 + sg + n end
      else O
  | EmptyString => O
  end.

(** A mantissa: digits, optionally with one radix point, at least one digit
    in all; 0 when there is none. *)
Definition mantissa_len (digit : ascii -> bool) (s : string) : nat :=
  let n1 := span digit s in
  match drop n1 s with
  | String c r =>
      if Ascii.eqb c "." then
        let n2 := span digit r in
        match (n1 + n2)%nat with O => O | S _ => n1 + 1 + n2 end
      else n1
  | EmptyString => n1
  end.

(** The part after [nan]: an n-char-sequence in parentheses, if complete. *)
Definition nan_tail_len (s : string) : nat :=
  match s with
  | String c r =>
      if Ascii.eqb c "(" then
        let n := span (fun d => isdigit d || isalpha d || Ascii.eqb d "_") r in
        match drop n r with
        | String e _ => if Ascii.eqb e ")" then n + 2 else O
        | EmptyString => O
        end
      else O
  | EmptyString => O
  end.

(** The number after white space and sign: infinity, NaN, hexadecimal or
    decimal floating constant; 0 when there is none. *)
Definition float_body_len (s : string) : nat :=
  if prefix_ci "infinity" s then 8
  else if prefix_ci "inf" s then 3
  else if prefix_ci "nan" s then 3 + nan_tail_len (drop 3 s)
  else
    let hex :=
      if prefix_ci "0x" s then
        match mantissa_len ishex (drop 2 s) with
        | O => O
        | S m => 2 + S m + exponent_len "p" (drop (2 + S m) s)
        end
      else O in
    match hex with
    | S _ => hex
    | O =>
        match mantissa_len isdigit s with
        | O => O
        | S m => S m + exponent_len "e" (drop (S m) s)
        end
    end.

(** Where [strtod(str, &endp)] leaves [endp], as an offset into [str]:
    0 when no conversion is performed. *)
Definition strtod_end (s : string) : nat :=
  let ws := skip_space s in
  let s1 := drop ws s in
  let sg := match s1 with
            | String c _ => if Ascii.eqb c "-" || Ascii.eqb c "+" then 1 else O
            | EmptyString => O
            end in
  match float_body_len (drop sg s1) with
  | O => O
  | S n => ws + sg + S n
  end.

(** [s.c_str()] as C reads it: the bytes before the first NUL. *)
Fixpoint c_str (s : string) : string :=
  match s with
  | EmptyString => EmptyString
  | String c r => if Ascii.eqb c NUL then EmptyString else String c (c_str r)
  end.

(** [deduceType]'s [std::variant]. *)
Inductive Deduced (double : Type) : Type :=
  | DNull
  | DString (s : string)
  | DLong (l : Z)
  | DDouble (d : double)
  | DBool (b : bool).
Arguments DNull {double}.
Arguments DString {double} s.
Arguments DLong {double} l.
Arguments DDouble {double} d.
Arguments DBool {double} b.

Section Classifier.

(** Floating point is not computed here.  The [double] that [strtod] returns
    for a C string, and whether it sets [errno] to [ERANGE] for it, are what
    the C library makes them. *)
Variable double : Type.
Variable strtod_value : string -> double.
Variable strtod_erange : string -> bool.

(** [std::stod(val, &pos)]: [strtod] on [val.c_str()]; [None] is either
    exception ([invalid_argument]: no conversion; [out_of_range]: [ERANGE]). *)
Definition stod (val : string) : option (double * nat) :=
  match strtod_end (c_str val) with
  | O => None
  | S n => if strtod_erange (c_str val) then None
           else Some (strtod_value (c_str val), S n)
  end.

(** [YamlParser::deduceType] (lines 153-180). *)
Definition deduceType (val : string) : Deduced double :=
  let after_long :=
    match stod val with
    | Some (d, pos) => if (pos =? String.length val)%nat then Some d else None
    | None => None
    end in
  let after_double :=
    if iequals val "Yes" || iequals val "True" || iequals val "on" || iequals val "true"
    then DBool true
    else if iequals val "No" || iequals val "False" || iequals val "off" || iequals val "false"
    then DBool false
    else if iequals val "null" || String.eqb val "~" || empty val
    then DNull
    else DString val in
  match stol val with
  | Some (l, pos) =>
      if (pos =? String.length val)%nat then DLong l
      else match after_long with Some d => DDouble d | None => after_double end
  | None => match after_long with Some d => DDouble d | None => after_double end
  end.

(** *** The classifier as the specification words it *)

Fixpoint lower (s : string) : string :=
  match s with
  | EmptyString => EmptyString
  | String c r => String (tolower c) (lower r)
  end.

Definition in_words (s : string) (ws : list string) : bool :=
  existsb (String.eqb (lower s)) ws.

Definition parses_fully_as_integer (val : string) : option Z :=
  match stol val with
  | Some (l, pos) => if (pos =? String.length val)%nat then Some l else None
  | None => None
  end.

Definition parses_fully_as_double (val : string) : option double :=
  match stod val with
  | Some (d, pos) => if (pos =? String.length val)%nat then Some d else None
  | None => None
  end.

Definition is_null_spelling (val : string) : bool :=
  String.eqb (lower val) "null" || String.eqb val "~" || String.eqb val "".

Definition deduceType_spec (val : string) : Deduced double :=
  match parses_fully_as_integer val with
  | Some l => DLong l
  | None =>
      match parses_fully_as_double val with
      | Some d => DDouble d
      | None =>
          if in_words val ["yes"; "true"; "on"] then DBool true
          else if in_words val ["no"; "false"; "off"] then DBool false
          else if is_null_spelling val then DNull
          else DString val
      end
  end.

(** *** Predicates and accessors (lines 198-264) *)

Definition isScalar (n : YamlNode) : bool := YamlNodeType_eqb (type n) Scalar.
Definition isMap (n : YamlNode) : bool := YamlNodeType_eqb (type n) Mapping.
Definition isSeq (n : YamlNode) : bool := YamlNodeType_eqb (type n) Sequence.

Definition asString (n : YamlNode) : result string :=
  if negb (isScalar n) then throw NotAScalar (-1) else Ok (scalarValue n).
Definition asMap (n : YamlNode) : result (list (string * YamlNode)) :=
  if negb (isMap n) then throw NotAMapping (-1) else Ok (mapping n).
Definition asSeq (n : YamlNode) : result (list YamlNode) :=
  if negb (isSeq n) then throw NotASequence (-1) else Ok (sequence n).

Definition toBool (n : YamlNode) : option bool :=
  if negb (isScalar n) then None
  else
    let val := scalarValue n in
    if iequals val "null" || String.eqb val "~" || empty val then None
    else if iequals val "true" || iequals val "yes" || iequals val "on" then Some true
    else if iequals val "false" || iequals val "no" || iequals val "off" then Some false
    else None.

Definition toInt (n : YamlNode) : option Z :=
  if negb (isScalar n) then None
  else
    let s := scalarValue n in
    if iequals s "null" || String.eqb s "~" || empty s then None
    else
      match from_chars s with
      | (ptr, Some v) => if (ptr =? String.length s)%nat then Some v else None
      | (_, None) => None
      end.

(** [*endp == 0]: [endp] stands on the terminator of [c_str s]. *)
Definition toDouble (n : YamlNode) : option double :=
  if negb (isScalar n) then None
  else
    let s := scalarValue n in
    if iequals s "null" || String.eqb s "~" || empty s then None
    else
      if negb (strtod_erange (c_str s))
         && (strtod_end (c_str s) =? String.length (c_str s))%nat
      then Some (strtod_value (c_str s))
      else None.

End Classifier.

Arguments deduceType {double} strtod_value strtod_erange val.
Arguments deduceType_spec {double} strtod_value strtod_erange val.
Arguments toDouble {double} strtod_value strtod_erange n.
Arguments stod {double} strtod_value strtod_erange val.
Arguments parses_fully_as_double {double} strtod_value strtod_erange val.


(** ** The query layer (lines 269-364) *)

(** [NodeView]: a pointer to a node of the finished tree, or null. *)
Definition NodeView : Type := option YamlNode.

Definition is_scalar (v : NodeView) : bool :=
  match v with Some n => isScalar n | None => false end.
Definition is_map (v : NodeView) : bool :=
  match v with Some n => isMap n | None => false end.
Definition is_seq (v : NodeView) : bool :=
  match v with Some n => isSeq n | None => false end.

(** [operator[](const std::string &)]. *)
Definition index_key (v : NodeView) (key : string) : NodeView :=
  if negb (is_map v) then None
  else match v with
       | Some n => map_find key (mapping n)
       | None => None
       end.

(** [operator[](size_t)]. *)
Definition index_at (v : NodeView) (idx : N) : NodeView :=
  if negb (is_seq v) then None
  else match v with
       | Some n =>
           if (N.of_nat (List.length (sequence n)) <=? idx)%N then None
           else nth_error (sequence n) (N.to_nat idx)
       | None => None
       end.

(** The inner loop that collects a token: up to a dot or an opening
    bracket. *)
Fixpoint scan_token (p : string) : string * string :=
  match p with
  | String c r =>
      if Ascii.eqb c "." || Ascii.eqb c "[" then (EmptyString, p)
      else let '(tok, rest) := scan_token r in (String c tok, rest)
  | EmptyString => (EmptyString, EmptyString)
  end.

(** The loop over the digits of an index; [size_t] wraps at [2^64]. *)
Fixpoint scan_index (p : string) (idx : N) : N * string :=
  match p with
  | String c r =>
      if isdigit c
      then scan_index r ((idx * 10 + Z.to_N (digit_val c)) mod 2 ^ 64)%N
      else (idx, p)
  | EmptyString => (idx, EmptyString)
  end.

(** Lines 324-337 of a turn of [at_path]: the index in brackets, if the
    rest starts with one.  [inl v] returns [v], [inr] goes on. *)
Definition at_path_index (p1 : string) (cur1 : NodeView)
  : NodeView + (string * NodeView) :=
  match p1 with
  | String c r =>
      if Ascii.eqb c "[" then
        let '(idx, p2) := scan_index r 0%N in
        match p2 with
        | String d p3 =>
            if negb (Ascii.eqb d "]") then inl None
            else match index_at cur1 idx with
                 | None => inl None
                 | Some n => inr (p3, Some n)
                 end
        | EmptyString => inl None
        end
      else inr (p1, cur1)
  | EmptyString => inr (p1, cur1)
  end.

(** One turn of the [while (p < end)] loop of [at_path] (lines 315-337) on
    a non-empty rest that does not start with a dot. *)
Definition at_path_turn (p : string) (cur : NodeView) : NodeView + (string * NodeView) :=
  let '(token, p1) := scan_token p in
  if negb (empty token) then
    match index_key cur token with
    | None => inl None
    | Some n => at_path_index p1 (Some n)
    end
  else at_path_index p1 cur.

Fixpoint at_path_loop (fuel : nat) (p : string) (cur : NodeView) : result NodeView :=
  match p with
  | EmptyString => Ok cur
  | String c r =>
      match fuel with
      | O => Stuck
      | S fuel' =>
          if Ascii.eqb c "." then at_path_loop fuel' r cur
          else match at_path_turn p cur with
               | inl v => Ok v
               | inr (p', cur') => at_path_loop fuel' p' cur'
               end
      end
  end.

(** [NodeView::at_path] (lines 304-340); every turn of its loop moves [p]
    forward, so the length of the path bounds the turns. *)
Definition at_path (v : NodeView) (path : string) : result NodeView :=
  at_path_loop (String.length path) path v.

Section Value.

Variable double : Type.
Variable strtod_value : string -> double.
Variable strtod_erange : string -> bool.

(** [as_str] and the [to_*] members dereference the view: a null view is
    undefined there, which [Stuck] stands for. *)
Definition as_str (v : NodeView) : result string :=
  match v with Some n => asString n | None => Stuck end.
Definition to_bool (v : NodeView) : result (option bool) :=
  match v with Some n => Ok (toBool n) | None => Stuck end.
Definition to_int (v : NodeView) : result (option Z) :=
  match v with Some n => Ok (toInt n) | None => Stuck end.
Definition to_double (v : NodeView) : result (option double) :=
  match v with Some n => Ok (toDouble strtod_value strtod_erange n) | None => Stuck end.

(** [value<T>(path, def)] (lines 342-363), one definition per branch of its
    [if constexpr]. *)
Definition value_string (view : NodeView) (path : string) (def : string) : result string :=
  v <- at_path view path ;;
  match v with
  | None => Ok def
  | Some _ => if is_scalar v then as_str v else Ok def
  end.

Definition value_bool (view : NodeView) (path : string) (def : bool) : result bool :=
  v <- at_path view path ;;
  match v with
  | None => Ok def
  | Some _ => b <- to_bool v ;; Ok (match b with Some x => x | None => def end)
  end.

(** [T] integral and not [bool]: [static_cast<T>] is [cast], the reduction
    of a [long long] to the width of [T]. *)
Definition value_integral {T : Type} (cast : Z -> T)
    (view : NodeView) (path : string) (def : T) : result T :=
  v <- at_path view path ;;
  match v with
  | None => Ok def
  | Some _ => i <- to_int v ;; Ok (match i with Some x => cast x | None => def end)
  end.

(** [T] floating point: [static_cast<T>] of the [double] is [cast]. *)
Definition value_floating {T : Type} (cast : double -> T)
    (view : NodeView) (path : string) (def : T) : result T :=
  v <- at_path view path ;;
  match v with
  | None => Ok def
  | Some _ =>
      d <- to_double v ;; Ok (match d with Some x => cast x | None => def end)
  end.

(** Any other [T]. *)
Definition value_other {T : Type} (view : NodeView) (path : string) (def : T) : result T :=
  v <- at_path view path ;;
  match v with
  | None => Ok def
  | Some _ => Ok def
  end.

End Value.

Arguments to_double {double} strtod_value strtod_erange v.
Arguments value_floating {double} strtod_value strtod_erange {T} cast view path def.

(** [static_cast] of a [long long] to a signed integer type of [bits] bits
    (two's complement, as C++20 fixes it) and to an unsigned one. *)
Definition cast_signed (bits : Z) (x : Z) : Z :=
  ((x + 2 ^ (bits - 1)) mod 2 ^ bits - 2 ^ (bits - 1))%Z.
Definition cast_unsigned (bits : Z) (x : Z) : Z := (x mod 2 ^ bits)%Z.


(** ** The input stream *)

(** A [std::istream] over a string buffer: the buffer, the get position,
    and the state bits the parser's calls read and write. *)
Record istream : Type :=
  mkStream { buf : string; gpos : nat; eofbit : bool; failbit : bool }.

(** [std::stringstream ss(input)]. *)
Definition stringstream (text : string) : istream := mkStream text 0 false false.

Definition good (s : istream) : bool := negb (eofbit s) && negb (failbit s).

(** [std::getline(input, line)] as a loop condition: [Some line] when the
    stream does not fail.  The sentry sets [failbit] on a stream that is
    not good; the end of the buffer sets [eofbit], and [failbit] as well
    when no character was extracted; the newline is extracted and dropped. *)
Definition getline (s : istream) : option string * istream :=
  if negb (good s) then (None, mkStream (buf s) (gpos s) (eofbit s) true)
  else
    let rest := drop (gpos s) (buf s) in
    match find LF rest with
    | Some i => (Some (take i rest), mkStream (buf s) (gpos s + i + 1) false false)
    | None =>
        if empty rest then (None, mkStream (buf s) (gpos s) true true)
        else (Some rest, mkStream (buf s) (String.length (buf s)) true false)
    end.

(** [input.tellg()]: [None] is [pos_type(-1)]. *)
Definition tellg (s : istream) : option nat * istream :=
  if negb (good s) then (None, mkStream (buf s) (gpos s) (eofbit s) true)
  else (Some (gpos s), s).

(** The seek both [seekg] overloads end in: [eofbit] is cleared first, a
    failed stream is left alone, a target outside the buffer sets
    [failbit]. *)
Definition seek_to (target : Z) (s : istream) : istream :=
  if failbit s then mkStream (buf s) (gpos s) false true
  else if (0 <=? target)%Z && (target <=? Z.of_nat (String.length (buf s)))%Z
       then mkStream (buf s) (Z.to_nat target) false false
       else mkStream (buf s) (gpos s) false true.

(** [input.seekg(pos)]. *)
Definition seekg (pos : option nat) (s : istream) : istream :=
  seek_to (match pos with Some p => Z.of_nat p | None => -1 end)%Z s.

(** [input.seekg(off, std::ios::cur)]. *)
Definition seekg_cur (off : Z) (s : istream) : istream :=
  seek_to (Z.of_nat (gpos s) + off)%Z s.

(** ** The parser's helpers (lines 504-732) *)

(** The comment stripping of both loops: [line.resize(line.find('#'))]. *)
Definition strip_comment (line : string) : string :=
  match find "#" line with
  | Some commentPos => take commentPos line
  | None => line
  end.

Fixpoint getIndent_loop (line : string) (indent : nat) (lineNum : Z) : result nat :=
  match line with
  | String c r =>
      if Ascii.eqb c SPACE then getIndent_loop r (S indent) lineNum
      else if Ascii.eqb c TAB
           then Throw (mkError TabsInIndentation lineNum (Z.of_nat indent + 1))
           else Ok indent
  | EmptyString => Ok indent
  end.

(** [YamlParser::getIndent] (lines 504-517). *)
Definition getIndent (line : string) (lineNum : Z) : result nat :=
  getIndent_loop line 0 lineNum.

(** [YamlParser::unescape] (lines 538-568). *)
Fixpoint unescape (s : string) : string :=
  match s with
  | EmptyString => EmptyString
  | String c r =>
      if Ascii.eqb c BACKSLASH then
        match r with
        | String d r' =>
            String (if Ascii.eqb d "n" then LF
                    else if Ascii.eqb d "t" then TAB
                    else if Ascii.eqb d BACKSLASH then BACKSLASH
                    else if Ascii.eqb d SQUOTE then SQUOTE
                    else if Ascii.eqb d DQUOTE then DQUOTE
                    else d)
                   (unescape r')
        | EmptyString => String c EmptyString
        end
      else String c (unescape r)
  end.

Definition is_quote (c : ascii) : bool := Ascii.eqb c DQUOTE || Ascii.eqb c SQUOTE.

(** The dequoting of a flow item (lines 583-585 and 615-617). *)
Definition dequote_flow (val : string) : string :=
  if is_quote (front val) && (1 <? String.length val)%nat
     && Ascii.eqb (back val) (front val)
  then unescape (substr val 1 (String.length val - 2))
  else val.

Definition scalar_node (val : string) : YamlNode :=
  set_scalarValue val (newYamlNode Scalar).

(** [YamlParser::parseFlowSequence] (lines 575-592). *)
Definition parseFlowSequence (flowContent : string) (lineNum : Z) : YamlNode :=
  fold_left
    (fun seq item =>
       let val := trim item in
       if negb (empty val)
       then set_sequence (sequence seq ++ [scalar_node (dequote_flow val)])%list seq
       else seq)
    (getlines "," flowContent)
    (newYamlNode Sequence).

(** [YamlParser::parseFlowMapping] (lines 600-623). *)
Definition parseFlowMapping (flowContent : string) (lineNum : Z) : result YamlNode :=
  fold_left
    (fun acc pair =>
       map <- acc ;;
       match find ":" pair with
       | None => throw FlowMissingColon lineNum
       | Some colon =>
           let key := trim (substr pair 0 colon) in
           let val := trim (drop (colon + 1) pair) in
           if empty key then throw FlowEmptyKey lineNum
           else Ok (set_mapping
                      (map_assign key (scalar_node (dequote_flow val)) (mapping map))
                      map)
       end)
    (getlines "," flowContent)
    (Ok (newYamlNode Mapping)).

Definition INT_MAX : Z := 2 ^ 31 - 1.

(** The local variables of [parseBlockScalar] that its loop carries. *)
Record block_state : Type :=
  mkBlock {
    blockLines : list string;
    hasContent : bool;
    minDelta : Z;
    lineNum : Z;
    block_input : istream
  }.

(** The [while (std::getline(input, line))] loop of [parseBlockScalar]
    (lines 639-665). *)
Fixpoint parseBlockScalar_loop (fuel : nat) (baseIndent : Z) (b : block_state)
  : result block_state :=
  match fuel with
  | O => Stuck
  | S fuel' =>
      match getline (block_input b) with
      | (None, input') =>
          Ok (mkBlock (blockLines b) (hasContent b) (minDelta b) (lineNum b) input')
      | (Some line0, input') =>
          let lineNum' := (lineNum b + 1)%Z in
          let line := strip_comment line0 in
          nextIndent <- getIndent line lineNum' ;;
          let trimmed := trim line in
          if empty trimmed then
            parseBlockScalar_loop fuel' baseIndent
              (mkBlock (if hasContent b then (blockLines b ++ [EmptyString])%list
                        else blockLines b)
                       (hasContent b) (minDelta b) lineNum' input')
          else if (Z.of_nat nextIndent <=? baseIndent)%Z then
            Ok (mkBlock (blockLines b) (hasContent b) (minDelta b) (lineNum' - 1)%Z
                  (seekg_cur (- (Z.of_nat (String.length line) + 1))%Z input'))
          else
            let delta := (Z.of_nat nextIndent - baseIndent)%Z in
            parseBlockScalar_loop fuel' baseIndent
              (mkBlock (blockLines b ++ [drop nextIndent line])%list true
                       (if (delta <? minDelta b)%Z then delta else minDelta b)
                       lineNum' input')
      end
  end.

(** The content built after the loop (lines 670-675): every block line
    followed by a newline.  [minDelta] is not read. *)
Definition block_content (lines : list string) : string :=
  fold_left (fun content ln => content ++ ln ++ String LF EmptyString) lines EmptyString.

(** [YamlParser::parseBlockScalar] (lines 632-676): the content, the line
    number and the stream it leaves.  Each successful [getline] moves the
    get position on, so the size of the buffer bounds the turns. *)
Definition parseBlockScalar (baseIndent : Z) (lineNum0 : Z) (input0 : istream)
  : result (string * Z * istream) :=
  b <- parseBlockScalar_loop (S (String.length (buf input0))) baseIndent
         (mkBlock [] false INT_MAX lineNum0 input0) ;;
  Ok (block_content (blockLines b), lineNum b, block_input b).

(** [YamlParser::applyChomp] (lines 684-701). *)
Definition applyChomp (content : string) (chomp : ascii) : string :=
  if empty content then content
  else
    match find_last_not_of (String LF EmptyString) content with
    | None => EmptyString
    | Some lastNonNewline =>
        let base := substr content 0 (lastNonNewline + 1) in
        if Ascii.eqb chomp "-" then base
        else if Ascii.eqb chomp "+" then content
        else base ++ String LF EmptyString
    end.

(** The body of the loop of [foldBlock] (lines 716-729) on the locals
    [folded], [first] and [newParagraph]. *)
Definition foldBlock_step (acc : string * (bool * bool)) (ln : string)
  : string * (bool * bool) :=
  let '(folded, (first, newParagraph)) := acc in
  if empty ln then (folded, (first, true))
  else
    let sep := if first then EmptyString
               else if newParagraph then String LF EmptyString
               else String SPACE EmptyString in
    (folded ++ sep ++ rtrim ln, (false, false)).

(** [YamlParser::foldBlock] (lines 708-732). *)
Definition foldBlock (content : string) : string :=
  fst (fold_left foldBlock_step (getlines LF content) (EmptyString, (true, false))).

(** ** The indentation stack machine (lines 737-898) *)

(** A pointer into the tree under [root]: the way down from the root, by
    mapping key or by sequence index. *)
Inductive step : Type :=
  | PKey (key : string)
  | PIdx (idx : nat).

Definition path : Type := list step.

Fixpoint map_alter {A : Type} (f : A -> A) (key : string) (m : list (string * A))
  : list (string * A) :=
  match m with
  | [] => []
  | (k, v) :: r => if String.eqb k key then (k, f v) :: r else (k, v) :: map_alter f key r
  end.

Fixpoint list_alter {A : Type} (f : A -> A) (i : nat) (l : list A) : list A :=
  match l, i with
  | [], _ => []
  | x :: r, O => f x :: r
  | x :: r, S i' => x :: list_alter f i' r
  end.

(** The node a pointer stands on. *)
Fixpoint node_at (p : path) (n : YamlNode) : option YamlNode :=
  match p with
  | [] => Some n
  | PKey k :: p' =>
      match map_find k (mapping n) with
      | Some c => node_at p' c
      | None => None
      end
  | PIdx i :: p' =>
      match nth_error (sequence n) i with
      | Some c => node_at p' c
      | None => None
      end
  end.

(** A write through a pointer. *)
Fixpoint node_update (p : path) (f : YamlNode -> YamlNode) (n : YamlNode) : YamlNode :=
  match p with
  | [] => f n
  | PKey k :: p' => set_mapping (map_alter (node_update p' f) k (mapping n)) n
  | PIdx i :: p' => set_sequence (list_alter (node_update p' f) i (sequence n)) n
  end.

(** The locals of [parseStream].  The head of [stack] is [stack.back()]. *)
Record pstate : Type :=
  mkState {
    root : YamlNode;
    stack : list (path * Z);
    lastScalarNode : option path;
    linecount : Z;
    input : istream
  }.

(** Lines 755-757: pop while more than one frame is left and the indent is
    not beyond the top frame's. *)
Fixpoint pop_frames (indent : Z) (stk : list (path * Z)) : list (path * Z) :=
  match stk with
  | top :: ((_ :: _) as below) =>
      if (indent <=? snd top)%Z then pop_frames indent below else stk
  | _ => stk
  end.

(** Lines 769-772 and 819-822: the container takes the type the line asks
    for, and loses its sequence items when that changes its type. *)
Definition retype (t : YamlNodeType) (n : YamlNode) : YamlNode :=
  if negb (YamlNodeType_eqb (type n) t) then set_sequence [] (set_type t n) else n.

(** Lines 774-793: the item a line starting with a dash stands for. *)
Definition sequence_item (itemValue : string) : YamlNode :=
  if negb (empty itemValue) then
    match find ":" itemValue with
    | Some colonPos =>
        let key := trim (substr itemValue 0 colonPos) in
        let val := trim (drop (colonPos + 1) itemValue) in
        let item := set_type Mapping (newYamlNode Scalar) in
        if negb (empty key)
        then set_mapping (map_assign key (scalar_node val) (mapping item)) item
        else item
    | None => scalar_node itemValue
    end
  else set_type Mapping (newYamlNode Scalar).

(** [currentNode->mapping[key] = newNode] after lines 819-822. *)
Definition assign_child (key : string) (newNode : YamlNode) (cur : YamlNode) : YamlNode :=
  let cur' := retype Mapping cur in
  set_mapping (map_assign key newNode (mapping cur')) cur'.

(** Lines 850-858: the value with a matching pair of quotes taken off and
    the escapes resolved, and [wasQuoted]. *)
Definition dequote (value : string) : string * bool :=
  if is_quote (front value) && (1 <? String.length value)%nat
     && Ascii.eqb (back value) (front value)
  then (unescape (substr value 1 (String.length value - 2)), true)
  else (value, false).

(** Lines 829-836: the chomp indicator after a block indicator. *)
Definition chomp_of (value : string) : ascii :=
  match value with
  | String _ (String c _) =>
      if Ascii.eqb c "-" || Ascii.eqb c "+" then c else SPACE
  | _ => SPACE
  end.

(** Lines 878-888: the type of a child without a value, from a look at
    the next line; the stream is put back where it was. *)
Definition peek_type (ln : Z) (input0 : istream) : result (YamlNodeType * istream) :=
  let '(pos, in1) := tellg input0 in
  match getline in1 with
  | (Some peekLine, in2) =>
      peekIndent <- getIndent peekLine (ln + 1) ;;
      let peekContent := trim (drop peekIndent peekLine) in
      Ok (if negb (empty peekContent) && Ascii.eqb (front peekContent) "-"
          then Sequence else Mapping,
          seekg pos in2)
  | (None, in2) => Ok (Mapping, in2)
  end.

(** Lines 867-874: the node of a value after the dequoting and the second
    trim: a flow sequence, a flow mapping or a plain scalar. *)
Definition value_node (value2 : string) (ln : Z) : result YamlNode :=
  if Ascii.eqb (front value2) "[" && Ascii.eqb (back value2) "]"
  then Ok (parseFlowSequence (substr value2 1 (String.length value2 - 2)) ln)
  else if Ascii.eqb (front value2) "{" && Ascii.eqb (back value2) "}"
  then parseFlowMapping (substr value2 1 (String.length value2 - 2)) ln
  else Ok (scalar_node value2).

(** Lines 768-798: a line whose content starts with a dash. *)
Definition sequence_line (st : pstate) (stk : list (path * Z)) (cur : path)
    (indent : nat) (content : string) : result pstate :=
  match node_at cur (root st) with
  | None => Stuck
  | Some currentNode =>
      let itemValue := trim (drop 1 content) in
      let item := sequence_item itemValue in
      let container := retype Sequence currentNode in
      let root' :=
        node_update cur
          (fun n => set_sequence (sequence (retype Sequence n) ++ [item])%list
                      (retype Sequence n))
          (root st) in
      let stk' :=
        if YamlNodeType_eqb (type item) Mapping && empty itemValue
        then ((cur ++ [PIdx (List.length (sequence container))])%list, Z.of_nat indent) :: stk
        else stk in
      Ok (mkState root' stk' (lastScalarNode st) (linecount st) (input st))
  end.

(** Lines 800-893: any other line, a mapping entry. *)
Definition mapping_line (st : pstate) (stk : list (path * Z)) (cur : path)
    (indent : nat) (line content : string) : result pstate :=
  match find ":" content with
  | None =>
      match lastScalarNode st with
      | Some target =>
          Ok (mkState
                (node_update target
                   (fun n => set_scalarValue
                               (scalarValue n ++ String LF EmptyString ++ trim line) n)
                   (root st))
                stk (lastScalarNode st) (linecount st) (input st))
      | None => throw MissingColon (linecount st)
      end
  | Some colonPos =>
      let key := trim (substr content 0 colonPos) in
      let value := trim (drop (colonPos + 1) content) in
      if empty key then throw EmptyKey (linecount st)
      else if negb (empty value) then
        if Ascii.eqb (front value) "|" || Ascii.eqb (front value) ">" then
          '(block, ln, input') <-
             parseBlockScalar (Z.of_nat indent) (linecount st) (input st) ;;
          let sty := if Ascii.eqb (front value) "|" then Literal else Folded in
          let block' := match sty with Folded => foldBlock block | _ => block end in
          let newNode :=
            set_scalarValue (applyChomp block' (chomp_of value))
              (set_style sty (newYamlNode Scalar)) in
          Ok (mkState (node_update cur (assign_child key newNode) (root st))
                stk None ln input')
        else
          let '(value1, wasQuoted) := dequote value in
          if negb wasQuoted
             && match find_str ": " value1 with Some _ => true | None => false end
          then throw AmbiguousColon (linecount st)
          else
            newNode <- value_node (trim value1) (linecount st) ;;
            Ok (mkState (node_update cur (assign_child key newNode) (root st))
                  stk
                  (if YamlNodeType_eqb (type newNode) Scalar
                   then Some (cur ++ [PKey key])%list else None)
                  (linecount st) (input st))
      else
        '(inferredType, input') <- peek_type (linecount st) (input st) ;;
        Ok (mkState
              (node_update cur (assign_child key (newYamlNode inferredType)) (root st))
              (((cur ++ [PKey key])%list, Z.of_nat indent) :: stk)
              None (linecount st) input')
  end.

(** The body of the [while] loop of [parseStream] (lines 746-894) for the
    line just read: [st] has the line counted and the stream past it. *)
Definition parseLine (st : pstate) (line0 : string) : result pstate :=
  let line := strip_comment line0 in
  if empty line || empty (trim line) then Ok st
  else
    indent <- getIndent line (linecount st) ;;
    let content := trim (drop indent line) in
    match pop_frames (Z.of_nat indent) (stack st) with
    | [] => throw InvalidIndentation (linecount st)
    | ((cur, frameIndent) :: _) as stk =>
        if (frameIndent <? Z.of_nat indent)%Z
           && match lastScalarNode st with Some _ => true | None => false end
        then throw UnexpectedIndentAfterScalar (linecount st)
        else if Ascii.eqb (front content) "-"
             then sequence_line st stk cur indent content
             else mapping_line st stk cur indent line content
    end.

(** One turn of the loop: [inl] is the [return root] after the last line. *)
Definition parseTurn (st : pstate) : result (YamlNode + pstate) :=
  match getline (input st) with
  | (None, _) => Ok (inl (root st))
  | (Some line0, input') =>
      st' <- parseLine
               (mkState (root st) (stack st) (lastScalarNode st)
                        (linecount st + 1)%Z input')
               line0 ;;
      Ok (inr st')
  end.

Fixpoint parseLoop (fuel : nat) (st : pstate) : result YamlNode :=
  match fuel with
  | O => Stuck
  | S fuel' =>
      r <- parseTurn st ;;
      match r with
      | inl node => Ok node
      | inr st' => parseLoop fuel' st'
      end
  end.

(** The locals of [parseStream] before its loop (lines 739-743). *)
Definition initial_state (input0 : istream) : pstate :=
  mkState (newYamlNode Mapping) [([], (-1)%Z)] None 0%Z input0.

(** [YamlParser::parseStream] (lines 737-898).  Every turn leaves the get
    position beyond where it found it, so the size of the buffer bounds
    the turns before the one that finds no line. *)
Definition parseStream (input0 : istream) : result YamlNode :=
  parseLoop (S (String.length (buf input0))) (initial_state input0).

(** [YamlParser::parse] (lines 68-72). *)
Definition parse (text : string) : result YamlNode :=
  parseStream (stringstream text).

(** ** The other helpers, the printer and the emitter *)

(** [YamlParser::ltrim] (lines 492-497): the first [count] bytes are
    dropped, whatever they are. *)
Definition ltrim (str : string) (count : nat) : string :=
  if (String.length str <=? count)%nat then EmptyString else drop count str.

Fixpoint countLeadingSpaces_loop (line : string) (indent : nat) : nat :=
  match line with
  | String c r =>
      if Ascii.eqb c SPACE then countLeadingSpaces_loop r (S indent) else indent
  | EmptyString => indent
  end.

(** [YamlParser::countLeadingSpaces] (lines 522-533). *)
Definition countLeadingSpaces (line : string) : nat :=
  countLeadingSpaces_loop line 0.

(** [std::string(n, c)]. *)
Fixpoint fill (n : nat) (c : ascii) : string :=
  match n with
  | O => EmptyString
  | S n' => String c (fill n' c)
  end.

(** What [std::endl] and the newline add to the output. *)
Definition endl : string := String LF EmptyString.

(** The loop both writers run over the lines of a block scalar: each line
    [std::getline] yields, after [subIndentStr] and with a line end. *)
Definition write_lines (subIndentStr : string) (scalarValue0 : string) : string :=
  fold_left (fun out subline => out ++ subIndentStr ++ subline ++ endl)
            (getlines LF scalarValue0) EmptyString.

(** [YamlParser::printYamlNode] (lines 94-146): what it writes to
    [std::cout].  [indent] is the [int] of the source, never negative. *)
Fixpoint printYamlNode (node : YamlNode) (indent : nat) {struct node} : string :=
  let indentStr := fill (indent * 2) SPACE in
  match node with
  | mkNode Scalar Literal sv _ _ =>
      indentStr ++ "|" ++ endl ++ write_lines (fill ((indent + 1) * 2) SPACE) sv
  | mkNode Scalar Folded sv _ _ =>
      indentStr ++ ">" ++ endl ++ write_lines (fill ((indent + 1) * 2) SPACE) sv
  | mkNode Scalar Plain sv _ _ => indentStr ++ sv ++ endl
  | mkNode Sequence _ _ sq _ =>
      (fix items (l : list YamlNode) : string :=
         match l with
         | [] => EmptyString
         | item :: r =>
             indentStr ++ "- "
             ++ (if isScalar item then scalarValue item ++ endl
                 else endl ++ printYamlNode item (indent + 1))
             ++ items r
         end) sq
  | mkNode Mapping _ _ _ mp =>
      (fix entries (l : list (string * YamlNode)) : string :=
         match l with
         | [] => EmptyString
         | (key, value) :: r =>
             (if isScalar value
              then indentStr ++ key ++ ": " ++ scalarValue value ++ endl
              else indentStr ++ key ++ ":" ++ endl ++ printYamlNode value (indent + 1))
             ++ entries r
         end) mp
  end.

(** The test of the emitter for an item it writes on the line of its dash
    or key: a plain scalar. *)
Definition plain_scalar (n : YamlNode) : bool :=
  YamlNodeType_eqb (type n) Scalar
  && match style n with Plain => true | _ => false end.

(** The texts joined by [", "] (lines 402-406 and 427-433). *)
Fixpoint comma_joined (ls : list string) : string :=
  match ls with
  | [] => EmptyString
  | [l] => l
  | l :: r => l ++ ", " ++ comma_joined r
  end.

Definition has_newline (s : string) : bool :=
  match find LF s with Some _ => true | None => false end.

(** [YamlParser::emitYaml] (lines 367-448): what it writes to [os]. *)
Fixpoint emitYaml (node : YamlNode) (indent : nat) {struct node} : string :=
  let ind := fill (indent * 2) SPACE in
  match node with
  | mkNode Scalar sty sv _ _ =>
      match sty with
      | Literal =>
          if has_newline sv
          then ind ++ "|" ++ endl ++ write_lines (fill ((indent + 1) * 2) SPACE) sv
          else ind ++ sv
      | Folded =>
          if has_newline sv
          then ind ++ ">" ++ endl ++ write_lines (fill ((indent + 1) * 2) SPACE) sv
          else ind ++ sv
      | Plain => ind ++ sv
      end
  | mkNode Sequence _ _ sq _ =>
      if forallb plain_scalar sq && (List.length sq <=? 5)%nat
      then ind ++ "[" ++ comma_joined (map scalarValue sq) ++ "]" ++ endl
      else
        (fix items (l : list YamlNode) : string :=
           match l with
           | [] => EmptyString
           | item :: r =>
               ind ++ "- "
               ++ (if plain_scalar item then scalarValue item ++ endl
                   else endl ++ emitYaml item (indent + 1))
               ++ items r
           end) sq
  | mkNode Mapping _ _ _ mp =>
      if forallb (fun kv => plain_scalar (snd kv)) mp && (List.length mp <=? 5)%nat
      then ind ++ "{"
           ++ comma_joined (map (fun kv => fst kv ++ ": " ++ scalarValue (snd kv)) mp)
           ++ "}" ++ endl
      else
        (fix entries (l : list (string * YamlNode)) : string :=
           match l with
           | [] => EmptyString
           | (key, value) :: r =>
               ind ++ key ++ ": "
               ++ (if plain_scalar value then scalarValue value ++ endl
                   else endl ++ emitYaml value (indent + 1))
               ++ entries r
           end) mp
  end.

(** [YamlParser::toYamlString] (lines 449-454). *)
Definition toYamlString (node : YamlNode) : string := emitYaml node 0.

(** [struct Document] and [loadString] (lines 459-464). *)
Record Document : Type := mkDocument { document_root : YamlNode }.

Definition view (d : Document) : NodeView := Some (document_root d).

Definition loadString (text : string) : result Document :=
  r <- parse text ;; Ok (mkDocument r).

(** ** The states a parse runs through *)

(** The states of [parseStream] on [input0] at the head of its loop. *)
Inductive reachable (input0 : istream) : pstate -> Prop :=
  | reach_initial : reachable input0 (initial_state input0)
  | reach_turn (st st' : pstate) :
      reachable input0 st -> parseTurn st = Ok (inr st') -> reachable input0 st'.

(** The state after [k] turns of the loop, or at its end if that is sooner. *)
Fixpoint turns (k : nat) (st : pstate) : result pstate :=
  match k with
  | O => Ok st
  | S k' =>
      r <- parseTurn st ;;
      match r with
      | inl _ => Ok st
      | inr st' => turns k' st'
      end
  end.

(** The frame at the bottom of the stack. *)
Definition bottom_indent (stk : list (path * Z)) : option Z :=
  match rev stk with
  | [] => None
  | f :: _ => Some (snd f)
  end.

(** A line that [parseLine] does not skip. *)
Definition is_blank (line0 : string) : bool :=
  empty (strip_comment line0) || empty (trim (strip_comment line0)).

(** A root mapping with one entry. *)
Definition root_with (key : string) (child : YamlNode) : YamlNode :=
  mkNode Mapping Plain EmptyString [] [(key, child)].

(** ** Single mapping lines *)

(** The text holds no byte [c]. *)
Definition lacks (c : ascii) (s : string) : bool :=
  match find c s with None => true | Some _ => false end.

(** The text before the colon of a mapping line that is the whole input:
    no newline, no comment sign and no colon in it, no tab in its
    indentation, a key that is not empty, and no dash to start it. *)
Definition valid_key_text (k : string) : bool :=
  lacks LF k && lacks "#" k && lacks ":" k
  && match getIndent k 0 with Ok _ => true | _ => false end
  && negb (empty (trim k))
  && negb (Ascii.eqb (front (trim k)) "-").

(** The text after the colon: no newline and no comment sign in it. *)
Definition valid_value_text (v : string) : bool := lacks LF v && lacks "#" v.

(** The trimmed value starts with a block indicator. *)
Definition block_indicated (value : string) : bool :=
  Ascii.eqb (front value) "|" || Ascii.eqb (front value) ">".

(** The text holds a colon followed by a space. *)
Definition has_colon_space (s : string) : bool :=
  match find_str ": " s with Some _ => true | None => false end.

(** The text is in brackets or in braces. *)
Definition flow_delimited (s : string) : bool :=
  (Ascii.eqb (front s) "[" && Ascii.eqb (back s) "]")
  || (Ascii.eqb (front s) "{" && Ascii.eqb (back s) "}").

(** What [parse] returns for the one line [key: value], from its trimmed
    key and its trimmed value. *)
Definition single_mapping_line (key value : string) : result YamlNode :=
  if empty value then Ok (root_with key (newYamlNode Mapping))
  else if block_indicated value then
    Ok (root_with key
          (set_style (if Ascii.eqb (front value) "|" then Literal else Folded)
                     (newYamlNode Scalar)))
  else if negb (snd (dequote value)) && has_colon_space (fst (dequote value))
  then throw AmbiguousColon 1
  else
    newNode <- value_node (trim (fst (dequote value))) 1 ;;
    Ok (root_with key newNode).

(** A value that [parse] is to store as a plain scalar: not empty after
    trimming, no block indicator, no colon and space unless in quotes, and
    not in brackets or braces once dequoted. *)
Definition valid_scalar_value (v : string) : bool :=
  valid_value_text v
  && negb (empty (trim v))
  && negb (block_indicated (trim v))
  && negb (negb (snd (dequote (trim v))) && has_colon_space (fst (dequote (trim v))))
  && negb (flow_delimited (trim (fst (dequote (trim v))))).

(** The byte an escape stands for: a newline for [n], a tab for [t], and
    the escaped byte itself otherwise. *)
Definition escape_byte (d : ascii) : ascii :=
  if Ascii.eqb d "n" then LF else if Ascii.eqb d "t" then TAB else d.

(** The escapes of a text resolved, as a relation between the text and the
    result: a backslash and the byte after it give the byte the escape
    stands for, a backslash at the very end stays, and every other byte is
    copied. *)
Inductive escapes_resolved : string -> string -> Prop :=
| resolved_nil : escapes_resolved EmptyString EmptyString
| resolved_lone :
    escapes_resolved (String BACKSLASH EmptyString) (String BACKSLASH EmptyString)
| resolved_escape (d : ascii) (r out : string) :
    escapes_resolved r out ->
    escapes_resolved (String BACKSLASH (String d r)) (String (escape_byte d) out)
| resolved_byte (c : ascii) (r out : string) :
    c <> BACKSLASH -> escapes_resolved r out ->
    escapes_resolved (String c r) (String c out).

(** The dequoted text of a trimmed value: for a value between two double
    quotes or two single quotes, what is between them with the escapes
    resolved; for any other value, the value. *)
Definition dequoted (value text : string) : Prop :=
  (exists (q : ascii) (body : string),
      (q = DQUOTE \/ q = SQUOTE)
      /\ value = String q (body ++ String q EmptyString)
      /\ escapes_resolved body text)
  \/ ((forall (q : ascii) (body : string),
          q = DQUOTE \/ q = SQUOTE ->
          value <> String q (body ++ String q EmptyString))
      /\ text = value).

(** Leading blanks dropped, and trailing blanks dropped. *)
Fixpoint lstrip (s : string) : string :=
  match s with
  | String c r => if mem c BLANKS then lstrip r else s
  | EmptyString => EmptyString
  end.

Fixpoint rstrip (s : string) : string :=
  match s with
  | EmptyString => EmptyString
  | String c r =>
      match rstrip r with
      | EmptyString => if mem c BLANKS then EmptyString else String c EmptyString
      | r' => String c r'
      end
  end.

(** ** The lines of a block *)

(** [n] spaces. *)
Fixpoint spaces (n : nat) : string :=
  match n with
  | O => EmptyString
  | S n' => String SPACE (spaces n')
  end.

Fixpoint all_spaces (l : string) : bool :=
  match l with
  | EmptyString => true
  | String c r => Ascii.eqb c SPACE && all_spaces r
  end.

(** The lines, each with its line end. *)
Fixpoint unlines (ls : list string) : string :=
  match ls with
  | [] => EmptyString
  | l :: r => l ++ String LF (unlines r)
  end.

(** The lines joined by line ends. *)
Fixpoint newline_joined (ls : list string) : string :=
  match ls with
  | [] => EmptyString
  | [l] => l
  | l :: r => l ++ String LF (newline_joined r)
  end.

(** A content line of a block indented by [d]: [d] spaces and then text,
    without newline and comment sign. *)
Definition content_line (d : nat) (l : string) : bool :=
  lacks LF l && lacks "#" l
  && starts_with (spaces d) l && starts_text (drop d l).

(** A line of a block indented by [d]: spaces only, or a content line. *)
Definition block_line (d : nat) (l : string) : bool :=
  all_spaces l || content_line d l.

(** What the lines add to [blockLines], given [hasContent] before them: a
    content line its text without the indentation, a line of spaces the
    empty line once there is content. *)
Fixpoint block_texts (d : nat) (hc : bool) (ls : list string) : list string :=
  match ls with
  | [] => []
  | l :: r =>
      if all_spaces l
      then if hc then EmptyString :: block_texts d hc r else block_texts d hc r
      else drop d l :: block_texts d true r
  end.

(** The text a block line stands for: none for a line of spaces, and the
    line without the indentation otherwise. *)
Definition line_text (d : nat) (l : string) : string :=
  if all_spaces l then EmptyString else drop d l.

(** Lines of a block that start and end with a content line. *)
Definition block_core (d : nat) (core : list string) : bool :=
  forallb (block_line d) core
  && match core with
     | [] => false
     | first :: _ => content_line d first
     end
  && content_line d (last core EmptyString).

(** The line that ends a block: not blank, without newline and comment
    sign, no tab in its indentation, and indented no more than the header. *)
Definition terminator_line (baseIndent : Z) (t : string) : bool :=
  lacks LF t && lacks "#" t && negb (empty (trim t))
  && match getIndent t 0 with
     | Ok i => (Z.of_nat i <=? baseIndent)%Z
     | _ => false
     end.

(** The literal text as claim C4 words it: the lines with their least
    common indentation stripped, joined by newlines, and one newline. *)
Definition leading_spaces (l : string) : nat := span (Ascii.eqb SPACE) l.

Definition least_indent (ls : list string) : nat :=
  match ls with
  | [] => 0
  | l :: r => fold_left (fun m x => Nat.min m (leading_spaces x)) r (leading_spaces l)
  end.

Definition claimed_literal_text (ls : list string) : string :=
  newline_joined (map (drop (least_indent ls)) ls) ++ String LF EmptyString.

(** ** The chomp step as the specification words it *)

(** The text with all its trailing newlines removed. *)
Fixpoint strip_trailing_newlines (s : string) : string :=
  match s with
  | EmptyString => EmptyString
  | String c r =>
      match strip_trailing_newlines r with
      | EmptyString => if Ascii.eqb c LF then EmptyString else String c EmptyString
      | r' => String c r'
      end
  end.

(** [k] newlines. *)
Fixpoint newlines (k : nat) : string :=
  match k with
  | O => EmptyString
  | S k' => String LF (newlines k')
  end.

(** ** A C library to evaluate with *)

(** Where a theorem evaluates the classifier on a given input, a [double]
    is written as the text [strtod] converted, and no conversion reports a
    range error. *)
Definition text_of_double : string -> string := fun text => text.
Definition no_range_error : string -> bool := fun _ => false.

(** ** Writing test inputs *)

(** A line end, and a text between double quotes. *)
Definition nl : string := String LF EmptyString.
Definition quoted (s : string) : string := String DQUOTE (s ++ String DQUOTE EmptyString).

(** ** The documents of the repository's tests *)

Definition path_lookup_text : string :=
  nl ++ "a:" ++ nl ++ "  b:" ++ nl ++ "    - 1" ++ nl ++ "    - 2" ++ nl
  ++ "  c: three" ++ nl ++ "    ".

(** [loadString(text).view()]; a parse that throws leaves no view. *)
Definition view_of (text : string) : NodeView :=
  match parse text with
  | Ok r => Some r
  | _ => None
  end.

(** ** What bounds the loops *)

(** The get position is inside the buffer. *)
Definition wf_stream (s : istream) : Prop := gpos s <= String.length (buf s).

(** How many calls of [std::getline] a stream can still answer before one
    fails: one for each byte left and the failing one. *)
Definition calls_left (s : istream) : nat :=
  if good s then S (String.length (buf s) - gpos s) else 1.

(** [p] leads to a node on the way to [q]. *)
Definition is_prefix (p q : path) : Prop := exists r, q = (p ++ r)%list.

(** The frames under a frame of path [top]: each path is a prefix of the
    path of the frame above it. *)
Fixpoint chain (top : path) (stk : list (path * Z)) : Prop :=
  match stk with
  | [] => True
  | (p, _) :: below => is_prefix p top /\ chain p below
  end.

(** The stack of a state: not empty, its paths a chain, and the path of
    its top frame the path of a node. *)
Definition stack_ok (r : YamlNode) (stk : list (path * Z)) : Prop :=
  match stk with
  | [] => False
  | (cur, _) :: below => chain cur below /\ exists n, node_at cur r = Some n
  end.

(** The invariant of the loop of [parseStream]. *)
Definition state_ok (st : pstate) : Prop :=
  bottom_indent (stack st) = Some (-1)%Z
  /\ stack_ok (root st) (stack st)
  /\ wf_stream (input st).

(** ** Devices of the proofs, and the inputs of their witnesses *)

(** All the spellings of a lower-case word, whatever the case of each byte. *)
Fixpoint variants (w : string) : list string :=
  match w with
  | EmptyString => [EmptyString]
  | String d r =>
      flat_map (fun v => [String d v; String (ascii_of_nat (code d - 32)) v])
               (variants r)
  end.

(** Neither [stol] nor [strtod] converts anything of the string. *)
Definition not_a_number (val : string) : bool :=
  match stol val with None => true | Some _ => false end
  && (strtod_end (c_str val) =? 0)%nat.

(** The invariant of the loop of [parseBlockScalar]: no block line before
    the first content line, and the first block line starts with text. *)
Definition block_inv (b : block_state) : Prop :=
  (hasContent b = false -> blockLines b = [])
  /\ (hasContent b = true ->
      exists l ls, blockLines b = l :: ls /\ starts_text l = true).

(** The block of the literal test with empty lines, read after its header. *)
Definition C5_example_input : istream :=
  stringstream ("  First line." ++ nl ++ nl ++ "  Last line." ++ nl ++ "    ").

Definition C5_example_block : block_state :=
  Eval vm_compute in
    match parseBlockScalar_loop 40 0 (mkBlock [] false INT_MAX 1 C5_example_input) with
    | Ok b => b
    | _ => mkBlock [] false 0 0 C5_example_input
    end.

(** The input of a scalar continued on a second line, the state after its
    first line, and the stream after the second line is read. *)
Definition C1_input : istream := stringstream ("key: hello" ++ nl ++ "world").

Definition C1_state : pstate :=
  Eval vm_compute in
    match turns 1 (initial_state C1_input) with
    | Ok st => st
    | _ => initial_state C1_input
    end.

(** A sequence under a key, and then a further key at the depth of its
    items. *)
Definition C3_text : string := "a:" ++ nl ++ "  - x" ++ nl ++ "  b:".

(** The state in which the third line of [C3_text] is processed, and the
    state after it. *)
Definition C3_state : pstate :=
  Eval vm_compute in
    match turns 2 (initial_state (stringstream C3_text)) with
    | Ok st =>
        mkState (root st) (stack st) (lastScalarNode st) (linecount st + 1)%Z
                (snd (getline (input st)))
    | _ => initial_state (stringstream "")
    end.

Definition C3_state_after : pstate :=
  Eval vm_compute in
    match parseLine C3_state "  b:" with
    | Ok st => st
    | _ => C3_state
    end.

(** The state in which the only line of an input is processed. *)
Definition single_line_state (text : string) : pstate :=
  mkState (newYamlNode Mapping) [([], (-1)%Z)] None 1
          (mkStream text (String.length text) true false).

Definition flow_error (r : result YamlNode) : Prop :=
  match r with
  | Throw e => err_kind e = FlowMissingColon \/ err_kind e = FlowEmptyKey
  | _ => True
  end.

(** ** Devices of the further properties *)

(** The text holds blanks only. *)
Fixpoint blank_only (s : string) : bool :=
  match s with
  | EmptyString => true
  | String c r => mem c BLANKS && blank_only r
  end.

(** The stream over [pre ++ rest] that has read [pre]; [e] is its
    [eofbit], set when a last line without line end has been read. *)
Definition stream_at (pre rest : string) (e : bool) : istream :=
  mkStream (pre ++ rest) (String.length pre) e false.

(** The state a turn hands to the body of the loop: the line counted, and
    the stream past it. *)
Definition line_state (st : pstate) (s : istream) : pstate :=
  mkState (root st) (stack st) (lastScalarNode st) (linecount st + 1)%Z s.

(** The text of a sequence item that is stored as it stands: no newline,
    comment sign or colon in it, not empty, and no blank at its ends. *)
Definition seq_item_text (x : string) : bool :=
  lacks LF x && lacks "#" x && lacks ":" x
  && negb (empty x) && String.eqb (trim x) x.

(** The line of a sequence item at indentation [d]. *)
Definition dash_line (d : nat) (x : string) : string := spaces d ++ "- " ++ x.

(** What a line starting with a dash does to the container (lines 768-772
    and 795). *)
Definition push_item (item : YamlNode) (n : YamlNode) : YamlNode :=
  set_sequence (sequence (retype Sequence n) ++ [item])%list (retype Sequence n).

(** The sequence of the plain scalars of the texts. *)
Definition sequence_of (xs : list string) : YamlNode :=
  mkNode Sequence Plain EmptyString (map scalar_node xs) [].

(** The container after the lines of the items [xs]. *)
Definition push_all (xs : list string) (n : YamlNode) : YamlNode :=
  fold_left (fun m x => push_item (scalar_node x) m) xs n.

(** The content of a line: the line without its comment and without the
    blanks at its ends. *)
Definition content_of (l : string) : string := trim (strip_comment l).

(** The text is in a pair of quotes, as the parser tests it (lines
    583, 615 and 850-853). *)
Definition in_quotes (x : string) : bool :=
  is_quote (front x) && (1 <? String.length x)%nat && Ascii.eqb (back x) (front x).

(** The text of an item of a flow sequence that is stored as it stands:
    as for a block sequence, and no comma in it and no quotes around it. *)
Definition flow_item_text (x : string) : bool :=
  seq_item_text x && lacks "," x && negb (in_quotes x).

(** A pair of a flow mapping as [parseFlowMapping] reads it: its key, its
    value, and whether it is accepted (a colon, and a key before it). *)
Definition flow_pair_key (pair : string) : string :=
  match find ":" pair with
  | Some colon => trim (substr pair 0 colon)
  | None => EmptyString
  end.

Definition flow_pair_value (pair : string) : string :=
  match find ":" pair with
  | Some colon => dequote_flow (trim (drop (colon + 1) pair))
  | None => EmptyString
  end.

Definition flow_pair_ok (pair : string) : bool :=
  match find ":" pair with
  | Some _ => negb (empty (flow_pair_key pair))
  | None => false
  end.

(** The value of the last of the pairs with the key, if there is one. *)
Definition flow_lookup (key : string) (pairs : list string) : option YamlNode :=
  fold_left
    (fun acc pair =>
       if String.eqb (flow_pair_key pair) key
       then Some (scalar_node (flow_pair_value pair)) else acc)
    pairs None.

(** The body of the loop of [parseFlowMapping] (lines 604-619). *)
Definition flow_pair_step (lineNum : Z) (acc : result YamlNode) (pair : string)
  : result YamlNode :=
  map <- acc ;;
  match find ":" pair with
  | None => throw FlowMissingColon lineNum
  | Some colon =>
      let key := trim (substr pair 0 colon) in
      let val := trim (drop (colon + 1) pair) in
      if empty key then throw FlowEmptyKey lineNum
      else Ok (set_mapping
                 (map_assign key (scalar_node (dequote_flow val)) (mapping map))
                 map)
  end.

(** A key that [at_path] reads as one token: not empty, and without a dot
    and an opening bracket. *)
Definition path_key (k : string) : bool :=
  negb (empty k) && lacks "." k && lacks "[" k.

(** A run of digits. *)
Fixpoint all_digits (ds : string) : bool :=
  match ds with
  | EmptyString => true
  | String c r => isdigit c && all_digits r
  end.

(** The number a run of digits writes in base ten, without bound. *)
Fixpoint decimal_from (ds : string) (acc : N) : N :=
  match ds with
  | EmptyString => acc
  | String c r => decimal_from r (acc * 10 + Z.to_N (digit_val c))%N
  end.

Definition decimal (ds : string) : N := decimal_from ds 0%N.

(** The bytes that start something else than a plain text at the start of
    a key or a value: the dash of an item, the block indicators, the
    opening bracket and brace, and the quotes. *)
Definition indicator (c : ascii) : bool :=
  mem c (String "-" (String "|" (String ">" (String "[" (String "{"
           (String DQUOTE (String SQUOTE EmptyString))))))).

(** A plain text, for a key or a value: not empty, no blank at its ends,
    no newline, comment sign, colon or comma in it, and no indicator at
    its start. *)
Definition simple_text (x : string) : bool :=
  seq_item_text x && lacks "," x && negb (indicator (front x)).

(** The line [printYamlNode] and the emitter write for an entry with a
    plain scalar value. *)
Definition entry_line (kv : string * string) : string :=
  fst kv ++ ": " ++ snd kv.

(** The mapping of the entries, each value a plain scalar. *)
Definition flat_mapping (kvs : list (string * string)) : YamlNode :=
  mkNode Mapping Plain EmptyString []
         (map (fun kv => (fst kv, scalar_node (snd kv))) kvs).

(** The texts joined by one space. *)
Fixpoint space_joined (ls : list string) : string :=
  match ls with
  | [] => EmptyString
  | [l] => l
  | l :: r => l ++ " " ++ space_joined r
  end.

(** ** The shape of the trees [parse] builds *)

(** A key of the tree: not empty, and no blank at its ends. *)
Definition key_okb (k : string) : bool := negb (empty k) && String.eqb (trim k) k.

(** A scalar has no children, and a mapping no sequence items. *)
Definition shape_okb (t : YamlNodeType) (sq : list YamlNode)
    (mp : list (string * YamlNode)) : bool :=
  match t with
  | Scalar => match sq, mp with [], [] => true | _, _ => false end
  | Mapping => match sq with [] => true | _ :: _ => false end
  | Sequence => true
  end.

(** Every node of the tree has its shape, and every key is a key. *)
Fixpoint node_okb (n : YamlNode) : bool :=
  match n with
  | mkNode t _ _ sq mp =>
      shape_okb t sq mp
      && forallb node_okb sq
      && forallb (fun kv => key_okb (fst kv) && node_okb (snd kv)) mp
  end.

(** The root of a document: a container, with the style and the empty
    scalar text it was made with. *)
Definition root_okb (r : YamlNode) : bool :=
  node_okb r
  && negb (YamlNodeType_eqb (type r) Scalar)
  && match style r with Plain => true | _ => false end
  && empty (scalarValue r).

(** The lines of a key and, under it, its sequence items at indentation
    [d]; and what a document of such sections stands for. *)
Definition section_lines (d : nat) (sec : string * list string) : list string :=
  (fst sec ++ ":") :: map (dash_line d) (snd sec).

Definition section_ok (sec : string * list string) : bool :=
  simple_text (fst sec)
  && match snd sec with [] => false | _ :: _ => true end
  && forallb seq_item_text (snd sec).

Definition sections_mapping (secs : list (string * list string))
  : list (string * YamlNode) :=
  fold_left (fun m sec => map_assign (fst sec) (sequence_of (snd sec)) m) secs [].

(** The items of the last of the sections with the key. *)
Definition sections_lookup (key : string) (secs : list (string * list string))
  : option YamlNode :=
  fold_left
    (fun acc sec => if String.eqb (fst sec) key then Some (sequence_of (snd sec)) else acc)
    secs None.

(** The carriage return of a line that ends in CR LF. *)
Definition CR : ascii := ascii_of_nat 13.

(** What may follow the content of a line: nothing, or a comment. *)
Definition comment_text (cm : string) : bool :=
  lacks LF cm && (empty cm || Ascii.eqb (front cm) "#").

(** The node of a block scalar (lines 829-846), from the trimmed value of
    its header and the text [parseBlockScalar] returns. *)
Definition block_value (value content : string) : YamlNode :=
  set_scalarValue
    (applyChomp (if Ascii.eqb (front value) "|" then content else foldBlock content)
                (chomp_of value))
    (set_style (if Ascii.eqb (front value) "|" then Literal else Folded)
               (newYamlNode Scalar)).

(* ================================================================== *)
(** * Part II: theorems *)
(* ================================================================== *)

(** ** Characters and strings *)

Lemma ascii_eqb_refl (c : ascii) : Ascii.eqb c c = true.
Proof. apply Ascii.eqb_eq; reflexivity. Qed.

Lemma tolower_idem (c : ascii) : tolower (tolower c) = tolower c.
Proof. destruct c as [[] [] [] [] [] [] [] []]; reflexivity. Qed.

(** A byte that lower-cases to [d] is [d] or the byte 32 below it. *)
Lemma tolower_cases (c d : ascii) :
  tolower c = d -> c = d \/ c = ascii_of_nat (code d - 32).
Proof.
  intros <-.
  destruct c as [[] [] [] [] [] [] [] []]; vm_compute; auto.
Qed.

Lemma iequals_lower (a b : string) :
  iequals a b = String.eqb (lower a) (lower b).
Proof.
  revert b; induction a as [|c a IH]; intros [|d b]; simpl; try reflexivity.
  now rewrite IH.
Qed.

Lemma empty_eqb (s : string) : empty s = String.eqb s "".
Proof. now destruct s. Qed.

Lemma empty_true (s : string) : empty s = true -> s = "".
Proof. now destruct s. Qed.

Lemma length_drop (n : nat) (s : string) :
  String.length (drop n s) = String.length s - n.
Proof.
  revert s; induction n as [|n IH]; intros [|c s]; simpl; auto.
Qed.

Lemma drop_drop (n m : nat) (s : string) : drop n (drop m s) = drop (m + n) s.
Proof.
  revert s; induction m as [|m IH]; intros s; simpl; auto.
  destruct s; simpl; auto. now destruct n.
Qed.

Lemma drop_all (s : string) : drop (String.length s) s = "".
Proof. induction s; simpl; auto. Qed.

Lemma take_all (s : string) : take (String.length s) s = s.
Proof. induction s; simpl; congruence. Qed.

Lemma take_drop (n : nat) (s : string) : take n s ++ drop n s = s.
Proof.
  revert s; induction n as [|n IH]; intros [|c s]; simpl; auto.
  now rewrite IH.
Qed.

Lemma append_nil_r (s : string) : s ++ "" = s.
Proof. induction s; simpl; congruence. Qed.

Lemma append_assoc (a b c : string) : (a ++ b) ++ c = a ++ b ++ c.
Proof. induction a; simpl; congruence. Qed.

Lemma length_append (a b : string) :
  String.length (a ++ b) = String.length a + String.length b.
Proof. induction a; simpl; auto. Qed.

Lemma drop_append (a b : string) : drop (String.length a) (a ++ b) = b.
Proof. induction a; simpl; auto. Qed.

Lemma take_append (a b : string) : take (String.length a) (a ++ b) = a.
Proof. induction a; simpl; congruence. Qed.

(** ** C8: the classifier follows the precedence of the specification *)

Lemma bool_words (val : string) :
  iequals val "Yes" || iequals val "True" || iequals val "on" || iequals val "true"
  = in_words val ["yes"; "true"; "on"].
Proof.
  unfold in_words. rewrite !iequals_lower.
  change (lower "Yes") with "yes"; change (lower "True") with "true";
    change (lower "on") with "on"; change (lower "true") with "true".
  unfold existsb.
  destruct (String.eqb (lower val) "yes"), (String.eqb (lower val) "true"),
    (String.eqb (lower val) "on"); reflexivity.
Qed.

Lemma bool_words_false (val : string) :
  iequals val "No" || iequals val "False" || iequals val "off" || iequals val "false"
  = in_words val ["no"; "false"; "off"].
Proof.
  unfold in_words. rewrite !iequals_lower.
  change (lower "No") with "no"; change (lower "False") with "false";
    change (lower "off") with "off"; change (lower "false") with "false".
  unfold existsb.
  destruct (String.eqb (lower val) "no"), (String.eqb (lower val) "false"),
    (String.eqb (lower val) "off"); reflexivity.
Qed.

Lemma null_words (val : string) :
  iequals val "null" || String.eqb val "~" || empty val = is_null_spelling val.
Proof.
  unfold is_null_spelling. rewrite iequals_lower, empty_eqb.
  reflexivity.
Qed.

(** [deduceType] is the cascade the specification words. *)
Lemma deduceType_cascade :
  forall (double : Type) (strtod_value : string -> double)
         (strtod_erange : string -> bool) (val : string),
    deduceType strtod_value strtod_erange val
    = deduceType_spec strtod_value strtod_erange val.
Proof.
  intros double sv er val.
  unfold deduceType, deduceType_spec, parses_fully_as_integer, parses_fully_as_double.
  rewrite bool_words, bool_words_false, null_words.
  destruct (stol val) as [[l pos]|].
  - destruct (pos =? String.length val)%nat; [reflexivity|].
    destruct (stod sv er val) as [[d p]|]; [|reflexivity].
    destruct (p =? String.length val)%nat; reflexivity.
  - destruct (stod sv er val) as [[d p]|]; [|reflexivity].
    destruct (p =? String.length val)%nat; reflexivity.
Qed.

(** C8.  For every raw scalar, [deduceType] is the cascade of the
    specification: the integer when [stol] reads the whole string; else the
    double when [stod] reads the whole string; else true or false for a word
    of the two boolean sets, whatever its case; else the absent value for a
    spelling of null, the tilde or the empty string; else the string.  As a
    function it is total, and the cascade gives each string one outcome. *)
Theorem C8_deduceType_precedence :
  forall (double : Type) (strtod_value : string -> double)
         (strtod_erange : string -> bool) (val : string),
    deduceType strtod_value strtod_erange val
    = deduceType_spec strtod_value strtod_erange val.
Proof.
  intros double sv er val.
  rewrite (deduceType_cascade double sv er val).
  unfold deduceType_spec. reflexivity.
Qed.

(** ** C9: the typed accessors against the classifier *)

Lemma lower_variants (val w : string) : lower val = w -> In val (variants w).
Proof.
  revert w; induction val as [|c val IH]; intros w H; simpl in H; subst w.
  - now left.
  - simpl. apply in_flat_map. exists val. split; [now apply IH|].
    destruct (tolower_cases c (tolower c) eq_refl) as [E|E].
    + left. now rewrite <- E.
    + right. left. now rewrite <- E.
Qed.

Lemma words_not_numbers (val w : string) :
  In w ["yes"; "true"; "on"; "no"; "false"; "off"; "null"] ->
  lower val = w -> not_a_number val = true.
Proof.
  intros Hw Hl. apply lower_variants in Hl.
  assert (A : forallb (fun w => forallb not_a_number (variants w))
                ["yes"; "true"; "on"; "no"; "false"; "off"; "null"] = true)
    by (vm_compute; reflexivity).
  rewrite forallb_forall in A. specialize (A w Hw).
  rewrite forallb_forall in A. now apply A.
Qed.

Lemma not_a_number_parses (double : Type) (sv : string -> double)
    (er : string -> bool) (val : string) :
  not_a_number val = true ->
  parses_fully_as_integer val = None /\ parses_fully_as_double sv er val = None.
Proof.
  unfold not_a_number, parses_fully_as_integer, parses_fully_as_double, stod.
  intros H. apply andb_prop in H as [H1 H2].
  apply Nat.eqb_eq in H2. rewrite H2.
  destruct (stol val); [discriminate|]. split; reflexivity.
Qed.

Lemma in_words_inv (val : string) (ws : list string) :
  in_words val ws = true -> exists w, In w ws /\ lower val = w.
Proof.
  unfold in_words. intros H. apply existsb_exists in H as [w [Hi He]].
  apply String.eqb_eq in He. now exists w.
Qed.

Lemma null_spelling_cases (val : string) :
  is_null_spelling val = true -> lower val = "null" \/ val = "~" \/ val = "".
Proof.
  unfold is_null_spelling. intros H.
  apply orb_prop in H as [H|H]; [apply orb_prop in H as [H|H]|];
    apply String.eqb_eq in H; auto.
Qed.

Lemma deduceType_null (double : Type) (sv : string -> double)
    (er : string -> bool) (val : string) :
  is_null_spelling val = true -> deduceType sv er val = DNull.
Proof.
  intros H. rewrite deduceType_cascade. unfold deduceType_spec.
  rewrite H.
  destruct (null_spelling_cases val H) as [E|[E|E]].
  - destruct (not_a_number_parses double sv er val) as [-> ->].
    { apply (words_not_numbers val "null"); [simpl; tauto|exact E]. }
    unfold in_words. rewrite E. reflexivity.
  - subst val. reflexivity.
  - subst val. reflexivity.
Qed.

Lemma scan_digits_span (s : string) (acc : Z) :
  fst (scan_digits s acc) = span isdigit s.
Proof.
  revert acc; induction s as [|c s IH]; intros acc; simpl; auto.
  destruct (isdigit c); simpl; auto.
  specialize (IH (acc * 10 + digit_val c)%Z).
  destruct (scan_digits s (acc * 10 + digit_val c)); simpl in *. now rewrite IH.
Qed.

Lemma span_le (p : ascii -> bool) (s : string) : span p s <= String.length s.
Proof. induction s as [|c s IH]; simpl; [lia|]. destruct (p c); simpl; lia. Qed.

(** What a digit is not. *)
Lemma digit_facts (c : ascii) :
  isdigit c = true ->
  isspace c = false /\ Ascii.eqb c "-" = false /\ Ascii.eqb c "+" = false
  /\ Ascii.eqb c "." = false /\ Ascii.eqb c NUL = false
  /\ Ascii.eqb "i" (tolower c) = false /\ Ascii.eqb "n" (tolower c) = false
  /\ Ascii.eqb "x" (tolower c) = false /\ Ascii.eqb (tolower c) "e" = false.
Proof.
  destruct c as [[] [] [] [] [] [] [] []]; intros H; try discriminate H;
    repeat split; reflexivity.
Qed.

Lemma prefix_ci_cons (a b : ascii) (w s : string) :
  prefix_ci (String a w) (String b s) = Ascii.eqb a (tolower b) && prefix_ci w s.
Proof. reflexivity. Qed.

Lemma prefix_ci_first (a b : ascii) (w s : string) :
  Ascii.eqb a (tolower b) = false -> prefix_ci (String a w) (String b s) = false.
Proof. intros H. now rewrite prefix_ci_cons, H. Qed.

(** A string of digits only is a floating constant as a whole. *)
Lemma float_body_digits (b : string) :
  b <> "" -> span isdigit b = String.length b ->
  float_body_len b = String.length b.
Proof.
  intros Hne Hall.
  destruct b as [|c b]; [congruence|]. simpl in Hall.
  destruct (isdigit c) eqn:Hc; [|discriminate].
  destruct (digit_facts c Hc) as (_ & _ & _ & Hdot & _ & Hi & Hn & _ & _).
  injection Hall as Hall.
  assert (Hx : prefix_ci "0x" (String c b) = false).
  { rewrite prefix_ci_cons.
    destruct b as [|d b]; [now rewrite andb_false_r|].
    simpl in Hall. destruct (isdigit d) eqn:Hd; [|discriminate].
    destruct (digit_facts d Hd) as (_ & _ & _ & _ & _ & _ & _ & Hx & _).
    rewrite (prefix_ci_first _ _ _ _ Hx). apply andb_false_r. }
  unfold float_body_len. rewrite Hx.
  rewrite !(prefix_ci_first "i" c _ _ Hi), (prefix_ci_first "n" c _ _ Hn).
  assert (Hm : mantissa_len isdigit (String c b) = S (String.length b)).
  { unfold mantissa_len. simpl span. rewrite Hc, Hall.
    change (drop (S (String.length b)) (String c b)) with (drop (String.length b) b).
    now rewrite drop_all. }
  rewrite Hm.
  change (drop (S (String.length b)) (String c b)) with (drop (String.length b) b).
  rewrite drop_all. simpl. lia.
Qed.

Lemma skip_space_none (s : string) : isspace (front s) = false -> skip_space s = 0.
Proof. destruct s as [|c s]; simpl; [reflexivity|]. now intros ->. Qed.

(** An integer that [stol] reads to the end is read to the end by [strtod]. *)
Lemma stol_full_strtod (s : string) (l : Z) :
  stol s = Some (l, String.length s) -> strtod_end s = String.length s.
Proof.
  unfold stol, strtod_end.
  set (ws := skip_space s). set (s1 := drop ws s).
  assert (Hsg : forall sg neg,
            (let '(n, v) := scan_digits (drop sg s1) 0 in
             let v := if neg : bool then (- v)%Z else v in
             match n with
             | O => None
             | S _ => if (LONG_MIN <=? v)%Z && (v <=? LONG_MAX)%Z
                      then Some (v, ws + sg + n) else None
             end) = Some (l, String.length s) ->
            match float_body_len (drop sg s1) with
            | O => O
            | S n => ws + sg + S n
            end = String.length s).
  { intros sg neg H.
    pose proof (scan_digits_span (drop sg s1) 0) as Hn.
    destruct (scan_digits (drop sg s1) 0) as [n v]. simpl in Hn.
    destruct n as [|n]; [discriminate|]. cbv zeta in H.
    destruct ((LONG_MIN <=? (if neg then (- v)%Z else v))%Z
              && ((if neg then (- v)%Z else v) <=? LONG_MAX)%Z); [|discriminate].
    injection H as _ Hlen.
    assert (Hb : String.length (drop sg s1) = S n).
    { unfold s1. rewrite !length_drop. lia. }
    rewrite float_body_digits.
    - rewrite Hb. exact Hlen.
    - intros E. rewrite E in Hb. discriminate.
    - congruence. }
  destruct s1 as [|c r] eqn:E1.
  - apply (Hsg 0 false).
  - destruct (Ascii.eqb c "-") eqn:Em; simpl orb.
    + apply (Hsg 1 true).
    + destruct (Ascii.eqb c "+") eqn:Ep.
      * apply (Hsg 1 false).
      * apply (Hsg 0 false).
Qed.

(** Without leading white space or plus sign, [from_chars] to the end of
    the string is [stol] to the end of the string. *)
Lemma from_chars_stol (s : string) :
  isspace (front s) = false -> Ascii.eqb (front s) "+" = false ->
  match from_chars s with
  | (ptr, Some v) => if (ptr =? String.length s)%nat then Some v else None
  | (_, None) => None
  end = parses_fully_as_integer s.
Proof.
  intros Hsp Hplus. unfold parses_fully_as_integer, from_chars, stol.
  rewrite (skip_space_none s Hsp). change (drop 0 s) with s.
  assert (Hsg : forall sg neg,
    match
      (let '(n, v) := scan_digits (drop sg s) 0 in
       let v0 := if neg : bool then (- v)%Z else v in
       match n with
       | O => (O, None)
       | S _ => if (LONG_MIN <=? v0)%Z && (v0 <=? LONG_MAX)%Z
                then (sg + n, Some v0) else (sg + n, None)
       end)
    with
    | (ptr, Some v) => if (ptr =? String.length s)%nat then Some v else None
    | (_, None) => None
    end =
    match
      (let '(n, v) := scan_digits (drop sg s) 0 in
       let v0 := if neg : bool then (- v)%Z else v in
       match n with
       | O => None
       | S _ => if (LONG_MIN <=? v0)%Z && (v0 <=? LONG_MAX)%Z
                then Some (v0, 0 + sg + n) else None
       end)
    with
    | Some (l, pos) => if (pos =? String.length s)%nat then Some l else None
    | None => None
    end).
  { intros sg neg. destruct (scan_digits (drop sg s) 0) as [n v].
    destruct n as [|n]; [reflexivity|]. cbv zeta.
    destruct ((LONG_MIN <=? (if neg then (- v)%Z else v))%Z
              && ((if neg then (- v)%Z else v) <=? LONG_MAX)%Z); reflexivity. }
  destruct s as [|c r].
  - apply (Hsg 0 false).
  - simpl in Hplus. destruct (Ascii.eqb c "-") eqn:Em.
    + apply (Hsg 1 true).
    + rewrite Hplus. apply (Hsg 0 false).
Qed.

Lemma from_chars_blank (s : string) :
  isspace (front s) || Ascii.eqb (front s) "+" = true ->
  snd (from_chars s) = None.
Proof.
  destruct s as [|c r]; [discriminate|]. simpl front. intros H.
  unfold from_chars.
  assert (Em : Ascii.eqb c "-" = false).
  { destruct c as [[] [] [] [] [] [] [] []]; try reflexivity; discriminate H. }
  assert (Ed : isdigit c = false).
  { destruct c as [[] [] [] [] [] [] [] []]; try reflexivity; discriminate H. }
  rewrite Em. simpl. now rewrite Ed.
Qed.

Lemma toBool_true_words (val : string) :
  iequals val "true" || iequals val "yes" || iequals val "on"
  = in_words val ["yes"; "true"; "on"].
Proof.
  rewrite <- bool_words.
  destruct (iequals val "Yes") eqn:E1, (iequals val "True") eqn:E2,
    (iequals val "on"), (iequals val "true") eqn:E3, (iequals val "yes") eqn:E4;
    try reflexivity; rewrite iequals_lower in *;
    change (lower "Yes") with "yes" in *; change (lower "True") with "true" in *;
    change (lower "true") with "true" in *; change (lower "yes") with "yes" in *;
    congruence.
Qed.

Lemma toBool_false_words (val : string) :
  iequals val "false" || iequals val "no" || iequals val "off"
  = in_words val ["no"; "false"; "off"].
Proof.
  rewrite <- bool_words_false.
  destruct (iequals val "No") eqn:E1, (iequals val "False") eqn:E2,
    (iequals val "off"), (iequals val "false") eqn:E3, (iequals val "no") eqn:E4;
    try reflexivity; rewrite iequals_lower in *;
    change (lower "No") with "no" in *; change (lower "False") with "false" in *;
    change (lower "false") with "false" in *; change (lower "no") with "no" in *;
    congruence.
Qed.

Lemma in_words_not_numbers (double : Type) (sv : string -> double)
    (er : string -> bool) (val : string) (ws : list string) :
  incl ws ["yes"; "true"; "on"; "no"; "false"; "off"; "null"] ->
  in_words val ws = true ->
  parses_fully_as_integer val = None /\ parses_fully_as_double sv er val = None.
Proof.
  intros Hi H. apply in_words_inv in H as [w [Hw Hl]].
  apply not_a_number_parses. apply (words_not_numbers val w); auto.
Qed.

Lemma true_words_incl :
  incl ["yes"; "true"; "on"] ["yes"; "true"; "on"; "no"; "false"; "off"; "null"].
Proof. intros x H; simpl in *; tauto. Qed.

Lemma false_words_incl :
  incl ["no"; "false"; "off"] ["yes"; "true"; "on"; "no"; "false"; "off"; "null"].
Proof. intros x H; simpl in *; tauto. Qed.

(** A word of the true set is no word of the false set. *)
Lemma true_word_not_false (val : string) :
  in_words val ["yes"; "true"; "on"] = true ->
  in_words val ["no"; "false"; "off"] = false.
Proof.
  intros H. apply in_words_inv in H as [w [Hw Hl]].
  unfold in_words. rewrite Hl.
  simpl in Hw. destruct Hw as [<-|[<-|[<-|[]]]]; reflexivity.
Qed.

Lemma toBool_classifier (double : Type) (sv : string -> double)
    (er : string -> bool) (n : YamlNode) :
  toBool n =
  if isScalar n
  then match deduceType sv er (scalarValue n) with
       | DBool b => Some b
       | _ => None
       end
  else None.
Proof.
  unfold toBool. destruct (isScalar n); [simpl negb; cbv iota|reflexivity].
  set (val := scalarValue n).
  rewrite null_words, toBool_true_words, toBool_false_words.
  destruct (is_null_spelling val) eqn:Hnull.
  { now rewrite (deduceType_null double sv er val Hnull). }
  rewrite deduceType_cascade. unfold deduceType_spec. rewrite Hnull.
  destruct (in_words val ["yes"; "true"; "on"]) eqn:Ht.
  { destruct (in_words_not_numbers double sv er val _ true_words_incl Ht)
      as [-> ->]. reflexivity. }
  destruct (in_words val ["no"; "false"; "off"]) eqn:Hf.
  { destruct (in_words_not_numbers double sv er val _ false_words_incl Hf)
      as [-> ->]. reflexivity. }
  destruct (parses_fully_as_integer val); [reflexivity|].
  destruct (parses_fully_as_double sv er val); reflexivity.
Qed.

Lemma toInt_classifier (double : Type) (sv : string -> double)
    (er : string -> bool) (n : YamlNode) :
  toInt n =
  if isScalar n
     && negb (isspace (front (scalarValue n))
              || Ascii.eqb (front (scalarValue n)) "+")
  then match deduceType sv er (scalarValue n) with
       | DLong l => Some l
       | _ => None
       end
  else None.
Proof.
  unfold toInt. destruct (isScalar n); [simpl negb; cbv iota|reflexivity].
  set (s := scalarValue n). rewrite null_words. rewrite andb_true_l.
  destruct (is_null_spelling s) eqn:Hnull.
  { rewrite (deduceType_null double sv er s Hnull).
    now destruct (negb _). }
  destruct (isspace (front s) || Ascii.eqb (front s) "+") eqn:Hb; simpl negb; cbv iota.
  { pose proof (from_chars_blank s Hb) as H.
    destruct (from_chars s) as [ptr [v|]]; [discriminate H|reflexivity]. }
  apply orb_false_elim in Hb as [Hsp Hpl].
  rewrite (from_chars_stol s Hsp Hpl).
  rewrite deduceType_cascade. unfold deduceType_spec.
  destruct (parses_fully_as_integer s); [reflexivity|].
  destruct (parses_fully_as_double sv er s); [reflexivity|].
  destruct (in_words s ["yes"; "true"; "on"]); [reflexivity|].
  destruct (in_words s ["no"; "false"; "off"]); [reflexivity|].
  destruct (is_null_spelling s); reflexivity.
Qed.

Lemma toDouble_classifier (double : Type) (sv : string -> double)
    (er : string -> bool) (n : YamlNode) :
  c_str (scalarValue n) = scalarValue n ->
  toDouble sv er n =
  if isScalar n
  then match deduceType sv er (scalarValue n) with
       | DDouble d => Some d
       | DLong _ => if er (scalarValue n) then None else Some (sv (scalarValue n))
       | _ => None
       end
  else None.
Proof.
  intros Hc. unfold toDouble. destruct (isScalar n); [simpl negb; cbv iota|reflexivity].
  rewrite Hc. set (s := scalarValue n) in *. rewrite null_words.
  destruct (is_null_spelling s) eqn:Hnull.
  { now rewrite (deduceType_null double sv er s Hnull). }
  rewrite deduceType_cascade. unfold deduceType_spec. rewrite Hnull.
  destruct (parses_fully_as_integer s) as [l|] eqn:Hi.
  { unfold parses_fully_as_integer in Hi.
    destruct (stol s) as [[l' pos]|] eqn:Hs; [|discriminate].
    destruct (pos =? String.length s)%nat eqn:Hp; [|discriminate].
    apply Nat.eqb_eq in Hp. subst pos.
    rewrite (stol_full_strtod s l' Hs), Nat.eqb_refl.
    now destruct (er s). }
  unfold parses_fully_as_double, stod. rewrite Hc.
  destruct (strtod_end s) as [|e] eqn:He.
  - destruct s as [|c r]; [discriminate Hnull|].
    simpl String.length. rewrite andb_false_r.
    destruct (in_words _ _); [reflexivity|].
    destruct (in_words _ _); reflexivity.
  - destruct (er s); simpl negb; cbv iota.
    + destruct (in_words _ _); [reflexivity|].
      destruct (in_words _ _); reflexivity.
    + rewrite andb_true_l.
      destruct (S e =? String.length s)%nat; [reflexivity|].
      destruct (in_words _ _); [reflexivity|].
      destruct (in_words _ _); reflexivity.
Qed.

Lemma accessors_reject (double : Type) (sv : string -> double)
    (er : string -> bool) (n : YamlNode) :
  isScalar n = false \/ is_null_spelling (scalarValue n) = true ->
  toBool n = None /\ toInt n = None /\ toDouble sv er n = None.
Proof.
  unfold toBool, toInt, toDouble. rewrite !null_words.
  intros [->| ->]; [now repeat split|].
  destruct (isScalar n); now repeat split.
Qed.

(** C9 as stated fails.  The scalar [+42] is an integer for [deduceType],
    and [toInt] returns no value for it; the scalar [42] is an integer and
    no double for [deduceType], and [toDouble] returns a value for it. *)
Lemma C9_counterexample_plus_sign :
  toInt (scalar_node "+42") = None
  /\ deduceType text_of_double no_range_error "+42" = DLong 42%Z
  /\ toDouble text_of_double no_range_error (scalar_node "42") = Some "42"
  /\ deduceType text_of_double no_range_error "42" = DLong 42%Z.
Proof. repeat split; vm_compute; reflexivity. Qed.

(** C9, amended.  For every node: [toBool] returns a value exactly when the
    node is a scalar that [deduceType] classifies as boolean, and then that
    boolean.  [toInt] returns a value exactly when the node is a scalar that
    [deduceType] classifies as integer and that does not begin with white
    space or a plus sign, and then that integer ([long] being 64 bits wide).
    [toDouble], on a scalar without a NUL byte, returns the classifier's
    double where [deduceType] classifies a double, the conversion of the
    text where it classifies an integer, and no value otherwise.  All three
    return no value for a node that is no scalar and for a spelling of the
    classifier's null set. *)
Theorem C9_accessors_against_classifier :
  forall (double : Type) (strtod_value : string -> double)
         (strtod_erange : string -> bool) (n : YamlNode),
    toBool n =
      (if isScalar n
       then match deduceType strtod_value strtod_erange (scalarValue n) with
            | DBool b => Some b
            | _ => None
            end
       else None)
    /\ toInt n =
      (if isScalar n
          && negb (isspace (front (scalarValue n))
                   || Ascii.eqb (front (scalarValue n)) "+")
       then match deduceType strtod_value strtod_erange (scalarValue n) with
            | DLong l => Some l
            | _ => None
            end
       else None)
    /\ (c_str (scalarValue n) = scalarValue n ->
        toDouble strtod_value strtod_erange n =
          if isScalar n
          then match deduceType strtod_value strtod_erange (scalarValue n) with
               | DDouble d => Some d
               | DLong _ => if strtod_erange (scalarValue n) then None
                            else Some (strtod_value (scalarValue n))
               | _ => None
               end
          else None)
    /\ (isScalar n = false \/ is_null_spelling (scalarValue n) = true ->
        toBool n = None /\ toInt n = None
        /\ toDouble strtod_value strtod_erange n = None).
Proof.
  intros double sv er n. split; [|split; [|split]].
  - apply toBool_classifier.
  - apply toInt_classifier.
  - apply toDouble_classifier.
  - apply accessors_reject.
Qed.

(** ** The loop of [at_path] ends *)

Lemma scan_token_length (p : string) :
  String.length (snd (scan_token p)) <= String.length p.
Proof.
  induction p as [|c r IH]; simpl; [lia|].
  destruct (Ascii.eqb c "." || Ascii.eqb c "["); simpl; [lia|].
  destruct (scan_token r); simpl in *; lia.
Qed.

Lemma scan_token_progress (c : ascii) (r : string) :
  Ascii.eqb c "." || Ascii.eqb c "[" = false ->
  String.length (snd (scan_token (String c r))) <= String.length r.
Proof.
  intros H. simpl. rewrite H.
  pose proof (scan_token_length r). destruct (scan_token r); simpl in *; lia.
Qed.

Lemma scan_token_bracket (c : ascii) (r : string) :
  Ascii.eqb c "[" = true -> scan_token (String c r) = ("", String c r).
Proof. intros H. simpl. rewrite H. now rewrite orb_true_r. Qed.

Lemma scan_index_length (p : string) (idx : N) :
  String.length (snd (scan_index p idx)) <= String.length p.
Proof.
  revert idx; induction p as [|c r IH]; intros idx; simpl; [lia|].
  destruct (isdigit c); simpl; [|lia].
  etransitivity; [apply IH|lia].
Qed.

(** A turn of [at_path] that goes on has moved [p] forward, and a turn that
    returns early returns the null view. *)
Lemma at_path_index_spec (p1 : string) (cur1 : NodeView) :
  match at_path_index p1 cur1 with
  | inl v => v = None
  | inr (p', _) =>
      String.length p' <= String.length p1
      /\ (Ascii.eqb (front p1) "[" = true -> String.length p' < String.length p1)
  end.
Proof.
  unfold at_path_index. destruct p1 as [|d p1']; [simpl; split; [lia|discriminate]|].
  simpl front. destruct (Ascii.eqb d "["); [|split; [lia|discriminate]].
  pose proof (scan_index_length p1' 0%N) as Hl2.
  destruct (scan_index p1' 0%N) as [idx p2]. simpl in Hl2.
  destruct p2 as [|e p3]; [exact eq_refl|].
  destruct (negb (Ascii.eqb e "]")); [exact eq_refl|].
  destruct (index_at cur1 idx); [|exact eq_refl]. simpl in *. lia.
Qed.

Lemma at_path_turn_spec (c : ascii) (r : string) (cur : NodeView) :
  Ascii.eqb c "." = false ->
  match at_path_turn (String c r) cur with
  | inl v => v = None
  | inr (p', _) => String.length p' <= String.length r
  end.
Proof.
  intros Hdot. unfold at_path_turn.
  assert (Hgo : forall cur1,
             String.length (snd (scan_token (String c r))) <= String.length r
             \/ snd (scan_token (String c r)) = String c r /\ Ascii.eqb c "[" = true ->
             match at_path_index (snd (scan_token (String c r))) cur1 with
             | inl v => v = None
             | inr (p', _) => String.length p' <= String.length r
             end).
  { intros cur1 H.
    pose proof (at_path_index_spec (snd (scan_token (String c r))) cur1) as Hs.
    destruct (at_path_index (snd (scan_token (String c r))) cur1) as [v|[p' c']];
      [exact Hs|].
    destruct Hs as [Hle Hlt]. destruct H as [H|[H1 H2]]; [lia|].
    rewrite H1 in Hlt, Hle. simpl in Hlt. specialize (Hlt H2). lia. }
  assert (Hcase : String.length (snd (scan_token (String c r))) <= String.length r
             \/ snd (scan_token (String c r)) = String c r /\ Ascii.eqb c "[" = true).
  { destruct (Ascii.eqb c "[") eqn:Hbr.
    - right. now rewrite (scan_token_bracket c r Hbr).
    - left. apply scan_token_progress. now rewrite Hdot, Hbr. }
  destruct (scan_token (String c r)) as [token p1]. simpl snd in *.
  destruct (negb (empty token)); [|now apply Hgo].
  destruct (index_key cur token); [now apply Hgo|exact eq_refl].
Qed.

Lemma at_path_loop_total (fuel : nat) (p : string) (cur : NodeView) :
  String.length p <= fuel -> exists v, at_path_loop fuel p cur = Ok v.
Proof.
  revert p cur; induction fuel as [|fuel IH]; intros p cur Hlen.
  - destruct p; [now exists cur|simpl in Hlen; lia].
  - destruct p as [|c r]; [now exists cur|]. simpl in Hlen.
    cbn [at_path_loop].
    destruct (Ascii.eqb c ".") eqn:Hdot.
    + apply IH. lia.
    + pose proof (at_path_turn_spec c r cur Hdot) as Ht.
      destruct (at_path_turn (String c r) cur) as [v|[p' cur']].
      * now exists v.
      * apply IH. lia.
Qed.

Lemma at_path_total (view : NodeView) (path : string) :
  exists v, at_path view path = Ok v.
Proof. apply at_path_loop_total. lia. Qed.

(** ** C5: the chomp step on extracted block text *)

Lemma strip_decompose (s : string) :
  exists k, s = strip_trailing_newlines s ++ newlines k.
Proof.
  induction s as [|c r [k IH]]; [now exists 0|]. simpl.
  destruct (strip_trailing_newlines r) as [|d r'] eqn:E.
  - destruct (Ascii.eqb c LF) eqn:Ec.
    + apply Ascii.eqb_eq in Ec. subst c. exists (S k). simpl. now rewrite IH at 1.
    + exists k. simpl. now rewrite IH at 1.
  - exists k. simpl. now rewrite IH at 1.
Qed.

Lemma strip_no_trailing_newline (s : string) :
  strip_trailing_newlines s <> "" -> back (strip_trailing_newlines s) <> LF.
Proof.
  induction s as [|c r IH]; simpl; [congruence|].
  destruct (strip_trailing_newlines r) as [|d r'] eqn:E.
  - destruct (Ascii.eqb c LF) eqn:Ec; [congruence|].
    intros _. simpl. intros ->. discriminate Ec.
  - intros _. simpl in *. apply IH. congruence.
Qed.

(** [find_last_not_of] of the newline cuts where the stripping cuts. *)
Lemma find_last_not_of_strip (s : string) :
  match find_last_not_of (String LF "") s with
  | None => strip_trailing_newlines s = ""
  | Some i => take (S i) s = strip_trailing_newlines s
              /\ strip_trailing_newlines s <> ""
  end.
Proof.
  induction s as [|c r IH]; simpl; [reflexivity|].
  destruct (find_last_not_of (String LF "") r) as [i|].
  - destruct IH as [IH1 IH2]. rewrite IH1.
    destruct (strip_trailing_newlines r); [congruence|]. split; congruence.
  - rewrite IH. rewrite orb_false_r.
    destruct (Ascii.eqb c LF); [reflexivity|]. simpl. split; congruence.
Qed.

Lemma starts_text_find_last (s : string) :
  starts_text s = true -> find_last_not_of (String LF "") s <> None.
Proof.
  destruct s as [|c r]; [discriminate|]. unfold starts_text. simpl.
  intros H. destruct (find_last_not_of (String LF "") r); [congruence|].
  rewrite orb_false_r.
  destruct (Ascii.eqb c LF) eqn:E; [|congruence].
  apply Ascii.eqb_eq in E. subst c. discriminate H.
Qed.

(** The chomp laws on a text that is empty or starts with text. *)
Lemma applyChomp_laws (text : string) :
  text = "" \/ starts_text text = true ->
  applyChomp text "-" = strip_trailing_newlines text
  /\ applyChomp text "+" = text
  /\ (forall c, Ascii.eqb c "-" = false -> Ascii.eqb c "+" = false ->
         applyChomp text c
         = if empty text then "" else strip_trailing_newlines text ++ nl).
Proof.
  intros [->|H]; [repeat split; intros; reflexivity|].
  pose proof (starts_text_find_last text H) as Hf.
  pose proof (find_last_not_of_strip text) as Hs.
  unfold applyChomp.
  destruct text as [|c r]; [discriminate H|]. simpl empty. cbv iota.
  destruct (find_last_not_of (String LF "") (String c r)) as [i|]; [|congruence].
  destruct Hs as [Hs _]. unfold substr. change (drop 0 (String c r)) with (String c r).
  rewrite Nat.add_1_r, Hs.
  repeat split; intros; try reflexivity.
  now rewrite H0, H1.
Qed.

Lemma find_take_none (c : ascii) (s : string) (n : nat) :
  find c s = None -> find c (take n s) = None.
Proof.
  revert n; induction s as [|d r IH]; intros [|n] H; simpl in *; try reflexivity.
  destruct (Ascii.eqb d c); [discriminate|].
  destruct (find c r); [discriminate|]. now rewrite IH.
Qed.

Lemma find_take_before (c : ascii) (s : string) (i : nat) :
  find c s = Some i -> find c (take i s) = None.
Proof.
  revert i; induction s as [|d r IH]; intros i H; simpl in *; [discriminate|].
  destruct (Ascii.eqb d c) eqn:E.
  - injection H as <-. reflexivity.
  - destruct (find c r) as [j|]; [|discriminate]. injection H as <-.
    simpl. rewrite E. now rewrite IH.
Qed.

Lemma find_drop_none (c : ascii) (s : string) (n : nat) :
  find c s = None -> find c (drop n s) = None.
Proof.
  revert s; induction n as [|n IH]; intros [|d r] H; simpl in *; auto.
  destruct (Ascii.eqb d c); [discriminate|].
  destruct (find c r) eqn:E; [discriminate|]. now apply IH.
Qed.

(** A line [std::getline] hands out holds no newline. *)
Lemma getline_no_LF (s s' : istream) (l : string) :
  getline s = (Some l, s') -> find LF l = None.
Proof.
  unfold getline. destruct (negb (good s)); [discriminate|].
  destruct (find LF (drop (gpos s) (buf s))) as [i|] eqn:E.
  - intros H. injection H as <- _. now apply find_take_before.
  - destruct (empty (drop (gpos s) (buf s))); [discriminate|].
    intros H. injection H as <- _. exact E.
Qed.

Lemma strip_comment_no_LF (l : string) :
  find LF l = None -> find LF (strip_comment l) = None.
Proof.
  intros H. unfold strip_comment. destruct (find "#" l); [|exact H].
  now apply find_take_none.
Qed.

Lemma trim_cons_blank (c : ascii) (r : string) :
  mem c BLANKS = true -> trim (String c r) = trim r.
Proof.
  intros H. unfold trim.
  change (find_first_not_of BLANKS (String c r))
    with (if mem c BLANKS then option_map S (find_first_not_of BLANKS r) else Some 0).
  change (find_last_not_of BLANKS (String c r))
    with (match find_last_not_of BLANKS r with
          | Some i => Some (S i)
          | None => if mem c BLANKS then None else Some 0
          end).
  rewrite H.
  destruct (find_first_not_of BLANKS r) as [f|], (find_last_not_of BLANKS r) as [l|];
    reflexivity.
Qed.

(** Where [getIndent] returns, the line goes on with text after the
    indent, unless it is blank. *)
Lemma getIndent_content (line : string) (k n : nat) (ln : Z) :
  getIndent_loop line k ln = Ok n ->
  empty (trim line) = false -> find LF line = None ->
  k <= n /\ starts_text (drop (n - k) line) = true.
Proof.
  revert k; induction line as [|c r IH]; intros k H Ht Hl; [discriminate Ht|].
  simpl in H. destruct (Ascii.eqb c SPACE) eqn:Es.
  - apply Ascii.eqb_eq in Es. subst c.
    rewrite trim_cons_blank in Ht by reflexivity.
    simpl in Hl. destruct (find LF r) eqn:Hl'; [discriminate|].
    destruct (IH (S k) H Ht eq_refl) as [Hle Hst]. split; [lia|].
    replace (n - k) with (S (n - S k)) by lia. exact Hst.
  - destruct (Ascii.eqb c TAB) eqn:Et; [discriminate|].
    injection H as <-. split; [lia|]. rewrite Nat.sub_diag. simpl drop.
    unfold starts_text. simpl. rewrite Es, Et.
    simpl in Hl. destruct (Ascii.eqb c LF); [discriminate|].
    reflexivity.
Qed.

Lemma starts_text_append (a b : string) :
  starts_text a = true -> starts_text (a ++ b) = true.
Proof. destruct a; [discriminate|]. auto. Qed.

Lemma block_content_starts (acc : string) (ls : list string) :
  starts_text acc = true ->
  starts_text (fold_left (fun content ln => content ++ ln ++ String LF "") ls acc) = true.
Proof.
  revert acc; induction ls as [|l ls IH]; intros acc H; simpl; [exact H|].
  apply IH. now apply starts_text_append.
Qed.

Lemma parseBlockScalar_loop_inv (fuel : nat) (baseIndent : Z) (b b' : block_state) :
  block_inv b ->
  parseBlockScalar_loop fuel baseIndent b = Ok b' -> block_inv b'.
Proof.
  revert b; induction fuel as [|fuel IH]; intros b Hinv H; [discriminate|].
  simpl in H.
  destruct (getline (block_input b)) as [[line0|] input'] eqn:Eg.
  2:{ injection H as <-. exact Hinv. }
  pose proof (strip_comment_no_LF _ (getline_no_LF _ _ _ Eg)) as Hl.
  destruct (getIndent (strip_comment line0) (lineNum b + 1)) as [n| |] eqn:Ei;
    simpl in H; try discriminate.
  destruct (empty (trim (strip_comment line0))) eqn:Et.
  - apply IH in H; [exact H|]. destruct Hinv as [H1 H2]. split; simpl.
    + intros Hc. rewrite Hc. now apply H1.
    + intros Hc. rewrite Hc. destruct (H2 Hc) as (l & ls & -> & Hs).
      exists l, (ls ++ [""])%list. now split.
  - destruct (Z.of_nat n <=? baseIndent)%Z.
    + injection H as <-. exact Hinv.
    + apply IH in H; [exact H|]. destruct Hinv as [H1 H2]. split; simpl.
      * discriminate.
      * intros _. destruct (hasContent b).
        -- destruct (H2 eq_refl) as (l & ls & -> & Hs).
           exists l, (ls ++ [drop n (strip_comment line0)])%list. now split.
        -- rewrite (H1 eq_refl). simpl. eexists _, []. split; [reflexivity|].
           destruct (getIndent_content _ _ _ _ Ei Et Hl) as [_ Hs].
           now rewrite Nat.sub_0_r in Hs.
Qed.

Lemma getlines_first (c : ascii) (r : string) :
  Ascii.eqb c LF = false ->
  exists l ls, getlines LF (String c r) = String c l :: ls.
Proof.
  intros H. simpl. rewrite H. destruct (getlines LF r); eauto.
Qed.

Lemma foldBlock_step_starts (ls : list string) (acc : string * (bool * bool)) :
  starts_text (fst acc) = true ->
  starts_text (fst (fold_left foldBlock_step ls acc)) = true.
Proof.
  revert acc; induction ls as [|l ls IH]; intros [folded [first newp]] H; [exact H|].
  simpl fold_left. apply IH. unfold foldBlock_step.
  destruct (empty l); [exact H|]. simpl. now apply starts_text_append.
Qed.

Lemma rtrim_starts (c : ascii) (r : string) :
  mem c BLANKS = false -> exists r', rtrim (String c r) = String c r'.
Proof.
  intros H. unfold rtrim.
  change (find_last_not_of BLANKS (String c r))
    with (match find_last_not_of BLANKS r with
          | Some i => Some (S i)
          | None => if mem c BLANKS then None else Some 0
          end).
  rewrite H.
  destruct (find_last_not_of BLANKS r); unfold substr; simpl; eauto.
Qed.

(** Folding keeps the text empty, or starting with text. *)
Lemma foldBlock_starts (text : string) :
  starts_text text = true -> starts_text (foldBlock text) = true.
Proof.
  destruct text as [|c r]; [discriminate|]. unfold starts_text. simpl negb.
  rewrite andb_true_l. intros H. apply negb_true_iff in H.
  assert (Hlf : Ascii.eqb c LF = false).
  { simpl in H. now destruct (Ascii.eqb c SPACE), (Ascii.eqb c TAB), (Ascii.eqb c LF). }
  assert (Hb : mem c BLANKS = false).
  { simpl in *. now destruct (Ascii.eqb c SPACE), (Ascii.eqb c TAB). }
  destruct (getlines_first c r Hlf) as (l & ls & E).
  unfold foldBlock. rewrite E. simpl fold_left.
  destruct (rtrim_starts c l Hb) as [r' Er].
  change (starts_text (fst (fold_left foldBlock_step ls
            (foldBlock_step ("", (true, false)) (String c l)))) = true).
  apply foldBlock_step_starts. unfold foldBlock_step. simpl. rewrite Er.
  unfold starts_text. simpl. simpl in H. now rewrite H.
Qed.

Lemma block_inv_initial (ln : Z) (input0 : istream) :
  block_inv (mkBlock [] false INT_MAX ln input0).
Proof. split; simpl; [reflexivity|discriminate]. Qed.

(** The text of a block, folded or not, is empty when the block has no
    content line and starts with text when it has one. *)
Lemma extracted_text_shape (b : block_state) (text : string) :
  block_inv b ->
  text = block_content (blockLines b)
  \/ text = foldBlock (block_content (blockLines b)) ->
  if hasContent b then starts_text text = true else text = "".
Proof.
  intros [H1 H2] Ht. destruct (hasContent b).
  - destruct (H2 eq_refl) as (l & ls & E & Hs).
    assert (Hc : starts_text (block_content (blockLines b)) = true).
    { rewrite E. unfold block_content. simpl fold_left.
      apply block_content_starts. now apply starts_text_append. }
    destruct Ht as [->| ->]; [exact Hc|now apply foldBlock_starts].
  - rewrite (H1 eq_refl) in Ht. destruct Ht as [->| ->]; reflexivity.
Qed.

(** C5.  For the text the extractor hands to the chomp step (the lines of a
    block joined, folded or not): the strip indicator removes all trailing
    newlines; the keep indicator returns the text unchanged; any other
    indicator, the clip default, returns the text without its trailing
    newlines followed by exactly one newline; and with no content line
    the result is the empty string whatever the indicator. *)
Theorem C5_chomp_on_extracted_text :
  forall (fuel : nat) (baseIndent lineNum0 : Z) (input0 : istream)
         (b : block_state) (text : string),
    parseBlockScalar_loop fuel baseIndent (mkBlock [] false INT_MAX lineNum0 input0)
      = Ok b ->
    text = block_content (blockLines b)
    \/ text = foldBlock (block_content (blockLines b)) ->
    applyChomp text "-" = strip_trailing_newlines text
    /\ applyChomp text "+" = text
    /\ (forall c, Ascii.eqb c "-" = false -> Ascii.eqb c "+" = false ->
           applyChomp text c
           = if hasContent b then strip_trailing_newlines text ++ nl else "")
    /\ (hasContent b = false -> forall c, applyChomp text c = "")
    /\ (exists k, text = strip_trailing_newlines text ++ newlines k)
    /\ (hasContent b = true -> back (strip_trailing_newlines text) <> LF).
Proof.
  intros fuel baseIndent ln input0 b text Hloop Ht.
  pose proof (parseBlockScalar_loop_inv _ _ _ _ (block_inv_initial ln input0) Hloop)
    as Hinv.
  pose proof (extracted_text_shape b text Hinv Ht) as Hshape.
  assert (Hlaws : text = "" \/ starts_text text = true).
  { destruct (hasContent b); auto. }
  destruct (applyChomp_laws text Hlaws) as (L1 & L2 & L3).
  split; [exact L1|]. split; [exact L2|]. split; [|split; [|split]].
  - intros c Hm Hp. rewrite (L3 c Hm Hp).
    destruct (hasContent b); [|now rewrite Hshape].
    destruct text; [discriminate Hshape|reflexivity].
  - intros Hc c. rewrite Hc in Hshape. now rewrite Hshape.
  - apply strip_decompose.
  - intros Hc. rewrite Hc in Hshape. apply strip_no_trailing_newline.
    pose proof (starts_text_find_last text Hshape) as Hf.
    pose proof (find_last_not_of_strip text) as Hs.
    destruct (find_last_not_of (String LF "") text); [tauto|congruence].
Qed.

Lemma C5_chomp_witness :
  applyChomp (block_content (blockLines C5_example_block)) "-"
    = strip_trailing_newlines (block_content (blockLines C5_example_block))
  /\ applyChomp (block_content (blockLines C5_example_block)) "+"
    = block_content (blockLines C5_example_block)
  /\ (forall c, Ascii.eqb c "-" = false -> Ascii.eqb c "+" = false ->
         applyChomp (block_content (blockLines C5_example_block)) c
         = if hasContent C5_example_block
           then strip_trailing_newlines (block_content (blockLines C5_example_block)) ++ nl
           else "")
  /\ (hasContent C5_example_block = false ->
      forall c, applyChomp (block_content (blockLines C5_example_block)) c = "")
  /\ (exists k, block_content (blockLines C5_example_block)
                = strip_trailing_newlines (block_content (blockLines C5_example_block))
                  ++ newlines k)
  /\ (hasContent C5_example_block = true ->
      back (strip_trailing_newlines (block_content (blockLines C5_example_block))) <> LF).
Proof.
  apply (C5_chomp_on_extracted_text 40 0 1 C5_example_input C5_example_block).
  - vm_compute. reflexivity.
  - left. reflexivity.
Defined.

(** ** C1: a line after a plain scalar *)

Lemma bottom_indent_cons (f g : path * Z) (stk : list (path * Z)) :
  bottom_indent (f :: g :: stk) = bottom_indent (g :: stk).
Proof.
  unfold bottom_indent. simpl.
  destruct (rev stk) as [|h t]; reflexivity.
Qed.

(** After the pops the top frame is less indented than the line, as the
    root frame at the bottom has indent -1. *)
Lemma pop_frames_top (indent : Z) (stk : list (path * Z)) :
  (0 <= indent)%Z -> bottom_indent stk = Some (-1)%Z ->
  exists cur frameIndent below,
    pop_frames indent stk = (cur, frameIndent) :: below
    /\ (frameIndent <? indent)%Z = true
    /\ bottom_indent (pop_frames indent stk) = Some (-1)%Z.
Proof.
  intros Hi. induction stk as [|f stk IH]; intros Hb; [discriminate|].
  destruct stk as [|g stk].
  - destruct f as [cur fi]. exists cur, fi, []. simpl.
    unfold bottom_indent in Hb. simpl in Hb. injection Hb as ->.
    repeat split. apply Z.ltb_lt. lia.
  - rewrite bottom_indent_cons in Hb.
    change (pop_frames indent (f :: g :: stk))
      with (if (indent <=? snd f)%Z then pop_frames indent (g :: stk)
            else f :: g :: stk).
    destruct (indent <=? snd f)%Z eqn:E.
    + now apply IH.
    + destruct f as [cur fi]. exists cur, fi, (g :: stk). simpl in E.
      repeat split; [apply Z.ltb_lt; apply Z.leb_gt in E; lia|].
      now rewrite bottom_indent_cons.
Qed.

(** With a last scalar recorded, a line that is not blank never gets to
    the classification of its content. *)
Lemma parseLine_after_scalar (st : pstate) (line0 : string) (target : path) :
  bottom_indent (stack st) = Some (-1)%Z ->
  lastScalarNode st = Some target ->
  is_blank line0 = false ->
  exists e, parseLine st line0 = Throw e
            /\ err_line e = linecount st
            /\ (err_kind e = UnexpectedIndentAfterScalar
                \/ err_kind e = TabsInIndentation).
Proof.
  intros Hb Hl Hn. unfold parseLine. unfold is_blank in Hn. rewrite Hn.
  unfold getIndent.
  assert (Ht : forall line k, match getIndent_loop line k (linecount st) with
                              | Ok _ => True
                              | Throw e => err_line e = linecount st
                                           /\ err_kind e = TabsInIndentation
                              | Stuck => False
                              end).
  { induction line as [|c r IH]; intros k; simpl; [exact I|].
    destruct (Ascii.eqb c SPACE); [apply IH|].
    destruct (Ascii.eqb c TAB); simpl; auto. }
  specialize (Ht (strip_comment line0) 0).
  destruct (getIndent_loop (strip_comment line0) 0 (linecount st)) as [indent|e|];
    [|exists e; tauto|contradiction].
  simpl bind.
  destruct (pop_frames_top (Z.of_nat indent) (stack st) ltac:(lia) Hb)
    as (cur & fi & below & -> & Hlt & _).
  rewrite Hlt, Hl. simpl.
  eexists. split; [reflexivity|]. simpl. auto.
Qed.

(** Every state of a parse has the root frame, of indent -1, at the bottom
    of its stack. *)
Lemma pop_frames_bottom (indent : Z) (stk : list (path * Z)) :
  bottom_indent (pop_frames indent stk) = bottom_indent stk.
Proof.
  induction stk as [|f stk IH]; [reflexivity|].
  destruct stk as [|g stk]; [reflexivity|].
  change (pop_frames indent (f :: g :: stk))
    with (if (indent <=? snd f)%Z then pop_frames indent (g :: stk)
          else f :: g :: stk).
  destruct (indent <=? snd f)%Z; [|reflexivity].
  now rewrite IH, bottom_indent_cons.
Qed.

Lemma bottom_indent_push (f : path * Z) (stk : list (path * Z)) :
  stk <> [] -> bottom_indent (f :: stk) = bottom_indent stk.
Proof. destruct stk as [|g stk]; [congruence|]. intros _. apply bottom_indent_cons. Qed.

Lemma parseLine_bottom (st st' : pstate) (line0 : string) :
  bottom_indent (stack st) = Some (-1)%Z ->
  parseLine st line0 = Ok st' ->
  bottom_indent (stack st') = Some (-1)%Z.
Proof.
  intros Hb. unfold parseLine.
  destruct (empty (strip_comment line0) || empty (trim (strip_comment line0))).
  { intros H. now injection H as <-. }
  destruct (getIndent (strip_comment line0) (linecount st)) as [indent| |];
    simpl bind; try discriminate.
  pose proof (pop_frames_bottom (Z.of_nat indent) (stack st)) as Hp.
  rewrite Hb in Hp.
  destruct (pop_frames (Z.of_nat indent) (stack st)) as [|[cur fi] below] eqn:Es;
    [discriminate|].
  set (stk := (cur, fi) :: below) in *.
  assert (Hne : stk <> []) by discriminate.
  destruct ((fi <? Z.of_nat indent)%Z
            && match lastScalarNode st with Some _ => true | None => false end);
    [discriminate|].
  destruct (Ascii.eqb (front (trim (drop indent (strip_comment line0)))) "-").
  - unfold sequence_line. destruct (node_at cur (root st)); [|discriminate].
    intros H. injection H as <-. simpl.
    destruct (_ && _); [rewrite bottom_indent_push|]; auto.
  - unfold mapping_line.
    destruct (find ":" (trim (drop indent (strip_comment line0)))) as [colonPos|].
    2:{ destruct (lastScalarNode st); [|discriminate].
        intros H. now injection H as <-. }
    destruct (empty _); [discriminate|].
    destruct (negb (empty _)).
    + destruct (Ascii.eqb _ "|" || Ascii.eqb _ ">").
      * destruct (parseBlockScalar _ _ _) as [[[block ln] input']| |];
          simpl bind; try discriminate.
        intros H. now injection H as <-.
      * destruct (dequote _) as [value1 wasQuoted].
        destruct (negb wasQuoted && _); [discriminate|].
        match goal with
        | |- context [bind ?m _] => destruct m as [newNode| |]
        end; simpl bind; try discriminate.
        intros H. now injection H as <-.
    + destruct (peek_type _ _) as [[ty input']| |]; simpl bind; try discriminate.
      intros H. injection H as <-. simpl. now rewrite bottom_indent_push.
Qed.

Lemma reachable_bottom (input0 : istream) (st : pstate) :
  reachable input0 st -> bottom_indent (stack st) = Some (-1)%Z.
Proof.
  induction 1 as [|st st' _ IH Ht]; [reflexivity|].
  unfold parseTurn in Ht.
  destruct (getline (input st)) as [[line0|] input']; [|discriminate].
  destruct (parseLine _ line0) as [st''| |] eqn:E; simpl in Ht; try discriminate.
  injection Ht as <-. refine (parseLine_bottom _ _ _ _ E). exact IH.
Qed.

(** C1.  The code does not do what the claim says.  In every state a parse
    reaches, once a plain scalar value has been recorded as the last
    scalar, the next line that is not blank makes the turn throw (the
    indentation error of line 765, or the tab error): the continuation of
    lines 802-804 is never reached, whether the line holds a colon or not. *)
Theorem C1_line_after_scalar_throws :
  forall (input0 : istream) (st : pstate) (target : path)
         (line0 : string) (input' : istream),
    reachable input0 st ->
    lastScalarNode st = Some target ->
    getline (input st) = (Some line0, input') ->
    is_blank line0 = false ->
    exists e, parseTurn st = Throw e
              /\ err_line e = (linecount st + 1)%Z
              /\ (err_kind e = UnexpectedIndentAfterScalar
                  \/ err_kind e = TabsInIndentation).
Proof.
  intros input0 st target line0 input' Hr Hl Hg Hn.
  unfold parseTurn. rewrite Hg.
  destruct (parseLine_after_scalar
              (mkState (root st) (stack st) (lastScalarNode st)
                       (linecount st + 1)%Z input')
              line0 target (reachable_bottom _ _ Hr) Hl Hn) as (e & -> & H1 & H2).
  exists e. simpl. auto.
Qed.

Lemma C1_line_after_scalar_witness :
  exists e, parseTurn C1_state = Throw e
            /\ err_line e = (linecount C1_state + 1)%Z
            /\ (err_kind e = UnexpectedIndentAfterScalar
                \/ err_kind e = TabsInIndentation).
Proof.
  apply (C1_line_after_scalar_throws C1_input C1_state [PKey "key"] "world"
           (mkStream (buf C1_input) 16 true false)).
  - apply (reach_turn C1_input (initial_state C1_input)); [constructor|].
    vm_compute. reflexivity.
  - reflexivity.
  - vm_compute. reflexivity.
  - vm_compute. reflexivity.
Defined.

(** The claim's own input: the second line is rejected, not appended. *)
Example parse_continuation_line :
  parse ("key: hello" ++ nl ++ "world")
  = Throw (mkError UnexpectedIndentAfterScalar 2 (-1)).
Proof. vm_compute. reflexivity. Qed.

(** A sibling key after a plain scalar is rejected the same way. *)
Example parse_sibling_after_scalar :
  parse ("a: 1" ++ nl ++ "b: 2") = Throw (mkError UnexpectedIndentAfterScalar 2 (-1)).
Proof. vm_compute. reflexivity. Qed.

(** ** C2: the type of the root *)

(** C2.  The code does not do what the claim and the comment of [parse]
    say: on the input [- a] the parse returns, and the root it returns is
    a Sequence, with the scalar [a] as its item. *)
Theorem C2_root_becomes_sequence :
  parse "- a" = Ok (mkNode Sequence Plain "" [scalar_node "a"] []).
Proof. vm_compute. reflexivity. Qed.

(** The empty input gives the empty root mapping. *)
Example parse_empty_input : parse "" = Ok (newYamlNode Mapping).
Proof. vm_compute. reflexivity. Qed.

(** ** C3: the type of a container that has children *)

Lemma map_find_alter {A : Type} (f : A -> A) (key : string) (m : list (string * A)) :
  map_find key (map_alter f key m) = option_map f (map_find key m).
Proof.
  induction m as [|[k v] m IH]; [reflexivity|]. simpl.
  destruct (String.eqb k key) eqn:E; simpl; rewrite E; [reflexivity|exact IH].
Qed.

Lemma nth_error_alter {A : Type} (f : A -> A) (i : nat) (l : list A) :
  nth_error (list_alter f i l) i = option_map f (nth_error l i).
Proof.
  revert i; induction l as [|x l IH]; intros [|i]; simpl; auto.
Qed.

(** A write through a pointer that stands on a node changes that node. *)
Lemma node_at_update (p : path) (f : YamlNode -> YamlNode) (r n : YamlNode) :
  node_at p r = Some n -> node_at p (node_update p f r) = Some (f n).
Proof.
  revert r; induction p as [|[k|i] p IH]; intros r H; simpl in *.
  - now injection H as ->.
  - rewrite map_find_alter. destruct (map_find k (mapping r)); [|discriminate].
    simpl. now apply IH.
  - rewrite nth_error_alter. destruct (nth_error (sequence r) i); [|discriminate].
    simpl. now apply IH.
Qed.

Lemma retype_type (t : YamlNodeType) (n : YamlNode) : type (retype t n) = t.
Proof.
  unfold retype. destruct (YamlNodeType_eqb (type n) t) eqn:E; simpl; [|reflexivity].
  destruct (type n), t; (reflexivity || discriminate).
Qed.

Lemma retype_fields (t : YamlNodeType) (n : YamlNode) :
  mapping (retype t n) = mapping n
  /\ scalarValue (retype t n) = scalarValue n
  /\ style (retype t n) = style n
  /\ sequence (retype t n) = if YamlNodeType_eqb (type n) t then sequence n else [].
Proof.
  unfold retype. destruct (YamlNodeType_eqb (type n) t); simpl; auto.
Qed.




(** ** Blanks at the ends of a string *)

Local Arguments mem : simpl never.

Lemma find_last_not_of_rstrip (s : string) :
  match find_last_not_of BLANKS s with
  | None => rstrip s = ""
  | Some i => take (S i) s = rstrip s /\ rstrip s <> ""
  end.
Proof.
  induction s as [|c r IH]; [reflexivity|].
  change (find_last_not_of BLANKS (String c r))
    with (match find_last_not_of BLANKS r with
          | Some i => Some (S i)
          | None => if mem c BLANKS then None else Some 0
          end).
  cbn [rstrip].
  destruct (find_last_not_of BLANKS r) as [i|].
  - destruct IH as [IH1 IH2].
    change (take (S (S i)) (String c r)) with (String c (take (S i) r)).
    rewrite IH1.
    destruct (rstrip r); [congruence|]. split; congruence.
  - rewrite IH. destruct (mem c BLANKS); [reflexivity|]. simpl. split; congruence.
Qed.

Lemma trim_strip (s : string) : trim s = rstrip (lstrip s).
Proof.
  induction s as [|c r IH]; [reflexivity|].
  cbn [lstrip]. destruct (mem c BLANKS) eqn:Hc.
  - now rewrite trim_cons_blank.
  - unfold trim.
    change (find_first_not_of BLANKS (String c r))
      with (if mem c BLANKS then option_map S (find_first_not_of BLANKS r) else Some 0).
    rewrite Hc.
    pose proof (find_last_not_of_rstrip (String c r)) as H.
    destruct (find_last_not_of BLANKS (String c r)) as [l|].
    + destruct H as [H _]. unfold substr. change (drop 0 (String c r)) with (String c r).
      now rewrite Nat.sub_0_r, Nat.add_1_r.
    + now rewrite H.
Qed.

Lemma lstrip_append (a b : string) : lstrip a <> "" -> lstrip (a ++ b) = lstrip a ++ b.
Proof.
  induction a as [|c r IH]; [simpl; congruence|]. simpl.
  destruct (mem c BLANKS); [exact IH|reflexivity].
Qed.

Lemma rstrip_append (a b : string) : rstrip b <> "" -> rstrip (a ++ b) = a ++ rstrip b.
Proof.
  intros Hb. induction a as [|c r IH]; [reflexivity|]. simpl. rewrite IH.
  destruct (r ++ rstrip b) eqn:E; [|reflexivity].
  destruct r; simpl in E; [congruence|discriminate].
Qed.

Lemma rstrip_cons (c : ascii) (r : string) :
  mem c BLANKS = false -> rstrip (String c r) = String c (rstrip r).
Proof. intros H. simpl. rewrite H. now destruct (rstrip r). Qed.

Lemma lstrip_idem (s : string) : lstrip (lstrip s) = lstrip s.
Proof.
  induction s as [|c r IH]; [reflexivity|]. simpl.
  destruct (mem c BLANKS) eqn:E; [exact IH|]. simpl. now rewrite E.
Qed.

Lemma rstrip_idem (s : string) : rstrip (rstrip s) = rstrip s.
Proof.
  induction s as [|c r IH]; [reflexivity|]. simpl.
  destruct (rstrip r) as [|d r'] eqn:E.
  - destruct (mem c BLANKS) eqn:Ec; [reflexivity|]. simpl. now rewrite Ec.
  - change (rstrip (String c (String d r')))
      with (match rstrip (String d r') with
            | "" => if mem c BLANKS then "" else String c ""
            | String a s0 => String c (String a s0)
            end).
    now rewrite IH.
Qed.

Lemma lstrip_rstrip (s : string) : lstrip (rstrip s) = rstrip (lstrip s).
Proof.
  induction s as [|c r IH]; [reflexivity|].
  cbn [lstrip]. destruct (mem c BLANKS) eqn:Ec.
  - rewrite <- IH. simpl. destruct (rstrip r) as [|d r'] eqn:E.
    + now rewrite Ec.
    + simpl. now rewrite Ec.
  - rewrite rstrip_cons by exact Ec. simpl. now rewrite Ec.
Qed.

Lemma trim_lstrip (s : string) : trim (lstrip s) = trim s.
Proof. now rewrite !trim_strip, lstrip_idem. Qed.

Lemma trim_rstrip (s : string) : trim (rstrip s) = trim s.
Proof. now rewrite !trim_strip, lstrip_rstrip, rstrip_idem. Qed.

Lemma lstrip_front (s : string) : lstrip s <> "" -> mem (front (lstrip s)) BLANKS = false.
Proof.
  induction s as [|c r IH]; [simpl; congruence|]. simpl.
  destruct (mem c BLANKS) eqn:E; [exact IH|]. intros _. exact E.
Qed.

Lemma rstrip_front (s : string) :
  mem (front s) BLANKS = false -> s <> "" -> front (rstrip s) = front s.
Proof.
  destruct s as [|c r]; [congruence|]. simpl. intros H _. rewrite H.
  now destruct (rstrip r).
Qed.

Lemma trim_nonempty_lstrip (s : string) : empty (trim s) = false -> lstrip s <> "".
Proof. rewrite trim_strip. intros H E. now rewrite E in H. Qed.

Lemma front_trim (s : string) :
  empty (trim s) = false -> front (trim s) = front (lstrip s).
Proof.
  intros H. pose proof (trim_nonempty_lstrip s H) as Hn.
  rewrite trim_strip. apply rstrip_front; [now apply lstrip_front|exact Hn].
Qed.

(** ** Finding a byte in a concatenation *)

Lemma find_append_none (c : ascii) (a b : string) :
  find c a = None -> find c b = None -> find c (a ++ b) = None.
Proof.
  induction a as [|d r IH]; [auto|]. simpl.
  destruct (Ascii.eqb d c); [discriminate|].
  destruct (find c r); [discriminate|]. intros _ Hb. now rewrite IH.
Qed.

Lemma find_append_first (c : ascii) (a b : string) :
  find c a = None -> find c (a ++ String c b) = Some (String.length a).
Proof.
  induction a as [|d r IH]; simpl.
  - now rewrite ascii_eqb_refl.
  - destruct (Ascii.eqb d c); [discriminate|].
    destruct (find c r); [discriminate|]. intros _. now rewrite IH.
Qed.

Lemma find_lstrip_none (c : ascii) (s : string) :
  find c s = None -> find c (lstrip s) = None.
Proof.
  induction s as [|d r IH]; [auto|]. intros H. cbn [lstrip].
  destruct (mem d BLANKS); [|exact H].
  apply IH. simpl in H. destruct (Ascii.eqb d c); [discriminate|].
  now destruct (find c r).
Qed.

Lemma lacks_true (c : ascii) (s : string) : lacks c s = true -> find c s = None.
Proof. unfold lacks. now destruct (find c s). Qed.

(** ** The indentation of a line *)

Lemma getIndent_loop_ln (line : string) (k : nat) (ln ln' : Z) (n : nat) :
  getIndent_loop line k ln = Ok n -> getIndent_loop line k ln' = Ok n.
Proof.
  revert k; induction line as [|c r IH]; intros k; simpl; [auto|].
  destruct (Ascii.eqb c SPACE); [apply IH|].
  destruct (Ascii.eqb c TAB); [discriminate|auto].
Qed.

Lemma getIndent_loop_append (line rest : string) (k n : nat) (ln : Z) :
  getIndent_loop line k ln = Ok n -> lstrip line <> "" ->
  getIndent_loop (line ++ rest) k ln = Ok n.
Proof.
  revert k; induction line as [|c r IH]; intros k H Hl; [now simpl in Hl|].
  simpl in *. destruct (Ascii.eqb c SPACE) eqn:Es.
  - apply IH; [exact H|]. apply Ascii.eqb_eq in Es. subst c. exact Hl.
  - destruct (Ascii.eqb c TAB); [discriminate|exact H].
Qed.

Lemma getIndent_loop_lstrip (line : string) (k n : nat) (ln : Z) :
  getIndent_loop line k ln = Ok n ->
  k <= n /\ lstrip (drop (n - k) line) = lstrip line.
Proof.
  revert k; induction line as [|c r IH]; intros k H; simpl in H.
  - injection H as <-. split; [lia|]. now rewrite Nat.sub_diag.
  - destruct (Ascii.eqb c SPACE) eqn:Es.
    + destruct (IH _ H) as [Hle Hs]. split; [lia|].
      replace (n - k) with (S (n - S k)) by lia. cbn [drop]. rewrite Hs.
      apply Ascii.eqb_eq in Es. subst c. reflexivity.
    + destruct (Ascii.eqb c TAB); [discriminate|]. injection H as <-.
      split; [lia|]. now rewrite Nat.sub_diag.
Qed.

(** ** The parse of a single mapping line *)

Lemma find_none_drop_all (s : string) :
  find LF s = None -> s <> "" ->
  find LF (drop 0 s) = None /\ empty (drop 0 s) = false.
Proof. destruct s; [congruence|]. intros H _. now split. Qed.

(** [std::getline] on a fresh stream over one line without line end. *)
Lemma getline_fresh (text : string) :
  find LF text = None -> text <> "" ->
  getline (stringstream text)
  = (Some text, mkStream text (String.length text) true false).
Proof.
  intros H Hne. unfold getline, stringstream. simpl.
  rewrite H. destruct text; [congruence|reflexivity].
Qed.

(** A stream that is not good ends the loop. *)
Lemma parseLoop_not_good (st : pstate) (fuel : nat) :
  good (input st) = false -> parseLoop (S fuel) st = Ok (root st).
Proof.
  intros H. simpl. unfold parseTurn, getline. now rewrite H.
Qed.

Lemma parse_single_line (text : string) :
  find LF text = None -> text <> "" ->
  parse text
  = (st' <- parseLine (single_line_state text) text ;;
     parseLoop (String.length text) st').
Proof.
  intros H Hne. unfold parse, parseStream.
  change (buf (stringstream text)) with text.
  cbn [parseLoop]. unfold parseTurn.
  change (input (initial_state (stringstream text))) with (stringstream text).
  rewrite (getline_fresh text H Hne).
  change (mkState _ _ _ _ _) with (single_line_state text).
  now destruct (parseLine (single_line_state text) text).
Qed.

Lemma length_pos (s : string) : s <> "" -> exists k, String.length s = S k.
Proof. destruct s; [congruence|]. intros _. now eexists. Qed.

(** A line [k:v] with a valid text before the colon: it holds no comment,
    is not blank, has the indent of [k], and its content is [k] without
    leading blanks, the colon, and [v] without trailing blanks. *)
Lemma mapping_line_anatomy (k v : string) (ln : Z) :
  valid_key_text k = true -> valid_value_text v = true ->
  strip_comment (k ++ String ":" v) = k ++ String ":" v
  /\ find LF (k ++ String ":" v) = None
  /\ trim (k ++ String ":" v) = lstrip k ++ String ":" (rstrip v)
  /\ exists indent,
       getIndent k 0 = Ok indent
       /\ getIndent (k ++ String ":" v) ln = Ok indent
       /\ trim (drop indent (k ++ String ":" v)) = lstrip k ++ String ":" (rstrip v)
       /\ find ":" (lstrip k) = None
       /\ lstrip k <> ""
       /\ front (lstrip k) = front (trim k).
Proof.
  unfold valid_key_text, valid_value_text. intros Hk Hv.
  repeat (apply andb_prop in Hk as [Hk ?]). apply andb_prop in Hv as [Hv1 Hv2].
  apply lacks_true in Hk, H3, H2, Hv1, Hv2.
  apply negb_true_iff in H0, H.
  pose proof (trim_nonempty_lstrip k H0) as Hne.
  assert (Hr : rstrip (lstrip k ++ String ":" v) = lstrip k ++ String ":" (rstrip v)).
  { rewrite rstrip_append; [now rewrite rstrip_cons|].
    rewrite rstrip_cons by reflexivity. discriminate. }
  split; [|split; [|split]].
  - unfold strip_comment. rewrite find_append_none; auto.
    simpl. now rewrite Hv2.
  - apply find_append_none; auto. simpl. now rewrite Hv1.
  - now rewrite trim_strip, lstrip_append by exact Hne.
  - destruct (getIndent k 0) as [indent| |] eqn:Ei; try discriminate.
    exists indent. split; [reflexivity|]. unfold getIndent in *.
    apply (getIndent_loop_ln _ _ _ ln) in Ei.
    split; [now apply getIndent_loop_append|].
    pose proof (getIndent_loop_lstrip _ _ _ _
                  (getIndent_loop_append k (String ":" v) 0 indent ln Ei Hne))
      as [_ Hs].
    rewrite Nat.sub_0_r in Hs.
    split; [|split; [|split]].
    + now rewrite trim_strip, Hs, lstrip_append by exact Hne.
    + now apply find_lstrip_none.
    + exact Hne.
    + symmetry. now apply front_trim.
Qed.

Lemma drop_append_cons (a : string) (c : ascii) (b : string) :
  drop (String.length a + 1) (a ++ String c b) = b.
Proof. induction a; simpl; auto. Qed.

Lemma empty_append_cons (a : string) (c : ascii) (b : string) :
  empty (a ++ String c b) = false.
Proof. now destruct a. Qed.

(** The mapping branch of the loop body on the only line of an input,
    followed by the rest of the loop. *)
Lemma mapping_line_single (text line content : string) (indent colonPos : nat) :
  text <> "" ->
  find ":" content = Some colonPos ->
  empty (trim (substr content 0 colonPos)) = false ->
  (st' <- mapping_line (single_line_state text) [([], (-1)%Z)] [] indent line content ;;
   parseLoop (String.length text) st')
  = single_mapping_line (trim (substr content 0 colonPos))
                        (trim (drop (colonPos + 1) content)).
Proof.
  intros Hne Hc Hk. destruct (length_pos text Hne) as [fuel Hlen].
  unfold mapping_line, single_mapping_line. rewrite Hc, Hk.
  set (key := trim (substr content 0 colonPos)).
  set (value := trim (drop (colonPos + 1) content)).
  destruct (empty value) eqn:Ev; simpl negb; cbv iota.
  - unfold peek_type, tellg, getline. simpl. rewrite Hlen.
    rewrite parseLoop_not_good by reflexivity. reflexivity.
  - unfold block_indicated.
    destruct (Ascii.eqb (front value) "|" || Ascii.eqb (front value) ">") eqn:Eb.
    + unfold parseBlockScalar. cbn [parseBlockScalar_loop block_input].
      unfold getline. simpl. rewrite Hlen.
      rewrite parseLoop_not_good by reflexivity.
      destruct (Ascii.eqb (front value) "|"); reflexivity.
    + destruct (dequote value) as [value1 wasQuoted]. simpl fst. simpl snd.
      unfold has_colon_space.
      destruct (negb wasQuoted
                && match find_str ": " value1 with Some _ => true | None => false end);
        [reflexivity|].
      change (linecount (single_line_state text)) with 1%Z.
      destruct (value_node (trim value1) 1) as [newNode| |]; simpl bind;
        try reflexivity.
      rewrite Hlen. rewrite parseLoop_not_good by reflexivity. reflexivity.
Qed.

(** The parse of an input that is one mapping line. *)
Lemma parse_mapping_line (k v : string) :
  valid_key_text k = true -> valid_value_text v = true ->
  parse (k ++ String ":" v) = single_mapping_line (trim k) (trim v).
Proof.
  intros Hk Hv.
  destruct (mapping_line_anatomy k v 1 Hk Hv)
    as (Hsc & Hlf & Htrim & indent & _ & Hi & Hcontent & Hcolon & Hne & Hfront).
  assert (Hline : k ++ String ":" v <> "").
  { destruct k; discriminate. }
  rewrite parse_single_line by assumption.
  unfold parseLine. rewrite Hsc, Htrim.
  assert (Hb : empty (k ++ String ":" v) || empty (lstrip k ++ String ":" (rstrip v))
               = false).
  { now rewrite !empty_append_cons. }
  rewrite Hb. change (linecount (single_line_state (k ++ String ":" v))) with 1%Z.
  rewrite Hi. simpl bind. rewrite Hcontent.
  change (stack (single_line_state (k ++ String ":" v))) with [([] : path, (-1)%Z)].
  change (pop_frames (Z.of_nat indent) [([], (-1)%Z)]) with [([] : path, (-1)%Z)].
  change (lastScalarNode (single_line_state (k ++ String ":" v))) with (@None path).
  rewrite andb_false_r.
  assert (Hdash : Ascii.eqb (front (lstrip k ++ String ":" (rstrip v))) "-" = false).
  { unfold valid_key_text in Hk. apply andb_prop in Hk as [_ Hd].
    apply negb_true_iff in Hd. rewrite <- Hfront in Hd.
    destruct (lstrip k); [congruence|exact Hd]. }
  rewrite Hdash.
  pose proof (find_append_first ":" (lstrip k) (rstrip v) Hcolon) as Hfind.
  rewrite (mapping_line_single _ _ _ indent (String.length (lstrip k)) Hline Hfind).
  - unfold substr. change (drop 0 ?x) with x.
    rewrite take_append, drop_append_cons, trim_lstrip, trim_rstrip. reflexivity.
  - unfold substr. change (drop 0 ?x) with x. rewrite take_append, trim_lstrip.
    unfold valid_key_text in Hk. apply andb_prop in Hk as [Hk _].
    apply andb_prop in Hk as [_ Hk]. now apply negb_true_iff in Hk.
Qed.

(** ** One line [key: value]: the tests *)

(** The tests [SimpleScalar], [SimpleQuoted] and [EscapedQuoted]. *)
Example parse_simple_scalar :
  parse "value: hello" = Ok (root_with "value" (scalar_node "hello")).
Proof. vm_compute. reflexivity. Qed.

Example parse_escaped_quoted :
  parse ("msg: " ++ quoted ("Line one" ++ String BACKSLASH "nLine two"))
  = Ok (root_with "msg" (scalar_node ("Line one" ++ nl ++ "Line two"))).
Proof. vm_compute. reflexivity. Qed.

(** ** C6: a colon and a space in a value *)

Lemma parseFlowMapping_error (flowContent : string) (ln : Z) :
  flow_error (parseFlowMapping flowContent ln).
Proof.
  unfold parseFlowMapping.
  assert (H : forall l acc, flow_error acc ->
            flow_error
              (fold_left
                 (fun acc pair =>
                    map <- acc ;;
                    match find ":" pair with
                    | None => throw FlowMissingColon ln
                    | Some colon =>
                        let key := trim (substr pair 0 colon) in
                        let val := trim (drop (colon + 1) pair) in
                        if empty key then throw FlowEmptyKey ln
                        else Ok (set_mapping
                                   (map_assign key (scalar_node (dequote_flow val))
                                      (mapping map))
                                   map)
                    end) l acc)).
  { induction l as [|pair l IH]; intros acc Ha; [exact Ha|].
    simpl fold_left. apply IH.
    destruct acc as [map|e|]; simpl; auto.
    destruct (find ":" pair); simpl; auto.
    destruct (empty _); simpl; auto. }
  apply H. exact I.
Qed.

Lemma value_node_error (value2 : string) (ln : Z) (e : YamlError) :
  value_node value2 ln = Throw e -> err_kind e <> AmbiguousColon.
Proof.
  unfold value_node.
  destruct (_ && _); [discriminate|].
  destruct (_ && _); [|discriminate].
  pose proof (parseFlowMapping_error
                (substr value2 1 (String.length value2 - 2)) ln) as H.
  intros E. rewrite E in H. simpl in H. destruct H as [-> | ->]; discriminate.
Qed.




(** The two inputs of the claim, the tests [UnquotedWithColon] and
    [SimpleQuoted]. *)
Example parse_unquoted_colon :
  parse "key: hello: world" = throw AmbiguousColon 1.
Proof. vm_compute. reflexivity. Qed.

Example parse_quoted_colon :
  parse ("key: " ++ quoted "hello: world")
  = Ok (root_with "key" (scalar_node "hello: world")).
Proof. vm_compute. reflexivity. Qed.

(** ** C4: the text of a literal block *)

Local Arguments starts_text : simpl never.

(** [std::getline] on a line that ends in a newline. *)
Lemma getline_at (text pre l rest : string) :
  text = pre ++ l ++ String LF rest -> find LF l = None ->
  getline (mkStream text (String.length pre) false false)
  = (Some l, mkStream text (String.length pre + String.length l + 1) false false).
Proof.
  intros -> Hl. unfold getline. simpl good. cbv iota. simpl negb. cbv iota.
  cbn [buf gpos]. rewrite drop_append, (find_append_first LF l rest Hl).
  now rewrite take_append.
Qed.

(** [std::getline] at the end of the buffer. *)
Lemma getline_at_end (text : string) :
  getline (mkStream text (String.length text) false false)
  = (None, mkStream text (String.length text) true true).
Proof.
  unfold getline. simpl good. cbv iota. simpl negb. cbv iota.
  cbn [buf gpos]. now rewrite drop_all.
Qed.

Lemma all_spaces_facts (l : string) (ln : Z) :
  all_spaces l = true ->
  find LF l = None /\ strip_comment l = l
  /\ (forall k, getIndent_loop l k ln = Ok (k + String.length l))
  /\ trim l = "".
Proof.
  intros H.
  assert (A : find LF l = None /\ find "#" l = None
              /\ (forall k, getIndent_loop l k ln = Ok (k + String.length l))
              /\ lstrip l = "").
  { induction l as [|c r IH]; [repeat split; intros; simpl; f_equal; lia|].
    cbn [all_spaces] in H. apply andb_prop in H as [Hc Hr].
    destruct (IH Hr) as (I1 & I2 & I3 & I4).
    apply Ascii.eqb_eq in Hc. subst c.
    cbn [find getIndent_loop lstrip String.length].
    rewrite I1, I2, I4, ascii_eqb_refl.
    change (Ascii.eqb SPACE LF) with false. change (Ascii.eqb SPACE "#") with false.
    change (mem SPACE BLANKS) with true.
    repeat split; auto. intros k. rewrite I3. f_equal. lia. }
  destruct A as (A1 & A2 & A3 & A4). repeat split; auto.
  - unfold strip_comment. now rewrite A2.
  - now rewrite trim_strip, A4.
Qed.

Lemma starts_with_spaces (d : nat) (l : string) :
  starts_with (spaces d) l = true -> l = spaces d ++ drop d l.
Proof.
  revert l; induction d as [|d IH]; intros l H; [reflexivity|].
  destruct l as [|c r]; [discriminate|]. cbn [starts_with spaces] in H.
  apply andb_prop in H as [Hc Hr]. apply Ascii.eqb_eq in Hc. subst c.
  cbn [spaces drop append]. f_equal. now apply IH.
Qed.

Lemma starts_text_cons (c : ascii) (r : string) :
  starts_text (String c r) = true ->
  Ascii.eqb c SPACE = false /\ Ascii.eqb c TAB = false /\ Ascii.eqb c LF = false.
Proof.
  unfold starts_text, BLANKS_LF, mem. cbn [empty front negb andb].
  intros H. apply negb_true_iff in H.
  destruct (Ascii.eqb c SPACE); [discriminate|].
  destruct (Ascii.eqb c TAB); [discriminate|].
  destruct (Ascii.eqb c LF); [discriminate|]. auto.
Qed.

Lemma getIndent_loop_spaces (d k : nat) (body : string) (ln : Z) :
  starts_text body = true ->
  getIndent_loop (spaces d ++ body) k ln = Ok (k + d).
Proof.
  intros Hb. revert k; induction d as [|d IH]; intros k.
  - cbn [spaces append]. destruct body as [|c r]; [discriminate|].
    destruct (starts_text_cons c r Hb) as (E1 & E2 & _).
    cbn [getIndent_loop]. rewrite E1, E2. f_equal. lia.
  - cbn [spaces append getIndent_loop]. rewrite ascii_eqb_refl, IH. f_equal. lia.
Qed.

Lemma lstrip_spaces (d : nat) (body : string) : lstrip (spaces d ++ body) = lstrip body.
Proof. induction d; [reflexivity|]. cbn [spaces append lstrip]. exact IHd. Qed.

Lemma starts_text_lstrip (body : string) :
  starts_text body = true -> lstrip body = body /\ body <> "".
Proof.
  destruct body as [|c r]; [discriminate|]. intros H.
  destruct (starts_text_cons c r H) as (E1 & E2 & _).
  cbn [lstrip]. unfold mem, BLANKS. rewrite E1, E2.
  split; [reflexivity|discriminate].
Qed.

Lemma content_line_facts (d : nat) (l : string) (ln : Z) :
  content_line d l = true ->
  find LF l = None /\ strip_comment l = l
  /\ getIndent l ln = Ok d
  /\ empty (trim l) = false
  /\ all_spaces l = false
  /\ starts_text (drop d l) = true.
Proof.
  unfold content_line. intros H. do 3 (apply andb_prop in H as [H ?]).
  apply lacks_true in H, H2. pose proof (starts_with_spaces d l H1) as E.
  destruct (starts_text_lstrip _ H0) as [Hl Hne].
  split; [exact H|]. split; [unfold strip_comment; now rewrite H2|].
  split; [|split; [|split]].
  - unfold getIndent. rewrite E. now rewrite getIndent_loop_spaces.
  - rewrite trim_strip, E, lstrip_spaces, Hl.
    destruct (drop d l) as [|c r] eqn:Ed; [congruence|].
    pose proof (lstrip_front (String c r)) as Hf. rewrite Hl in Hf.
    rewrite rstrip_cons; [reflexivity|]. apply Hf. discriminate.
  - destruct (all_spaces l) eqn:Ea; [|reflexivity].
    destruct (all_spaces_facts l ln Ea) as (_ & _ & _ & Ht).
    rewrite trim_strip, E, lstrip_spaces, Hl in Ht.
    destruct (drop d l) as [|c r] eqn:Ed; [congruence|].
    pose proof (lstrip_front (String c r)) as Hf. rewrite Hl in Hf.
    rewrite rstrip_cons in Ht; [discriminate|]. apply Hf. discriminate.
  - exact H0.
Qed.

(** A turn of the loop of [parseBlockScalar], on the locals spelled out. *)
Lemma parseBlockScalar_loop_turn (fuel : nat) (baseIndent : Z)
    (bl : list string) (hc : bool) (md ln : Z) (input0 : istream) :
  parseBlockScalar_loop (S fuel) baseIndent (mkBlock bl hc md ln input0)
  = match getline input0 with
    | (None, input') => Ok (mkBlock bl hc md ln input')
    | (Some line0, input') =>
        nextIndent <- getIndent (strip_comment line0) (ln + 1) ;;
        if empty (trim (strip_comment line0)) then
          parseBlockScalar_loop fuel baseIndent
            (mkBlock (if hc then (bl ++ [""])%list else bl) hc md (ln + 1)%Z input')
        else if (Z.of_nat nextIndent <=? baseIndent)%Z then
          Ok (mkBlock bl hc md (ln + 1 - 1)%Z
                (seekg_cur (- (Z.of_nat (String.length (strip_comment line0)) + 1))%Z
                           input'))
        else
          parseBlockScalar_loop fuel baseIndent
            (mkBlock (bl ++ [drop nextIndent (strip_comment line0)])%list true
                     (if (Z.of_nat nextIndent - baseIndent <? md)%Z
                      then (Z.of_nat nextIndent - baseIndent)%Z else md)
                     (ln + 1)%Z input')
    end.
Proof. reflexivity. Qed.

(** The loop of [parseBlockScalar] over the lines of a block. *)
Lemma parseBlockScalar_loop_lines (d : nat) (baseIndent : Z) (text rest : string) :
  (baseIndent < Z.of_nat d)%Z ->
  forall (ls : list string) (fuel : nat) (pre : string)
         (bl : list string) (hc : bool) (md ln : Z),
    forallb (block_line d) ls = true ->
    text = pre ++ unlines ls ++ rest ->
    exists md',
      parseBlockScalar_loop (List.length ls + fuel) baseIndent
        (mkBlock bl hc md ln (mkStream text (String.length pre) false false))
      = parseBlockScalar_loop fuel baseIndent
          (mkBlock (bl ++ block_texts d hc ls)
                   (hc || existsb (fun l => negb (all_spaces l)) ls)
                   md' (ln + Z.of_nat (List.length ls))
                   (mkStream text (String.length pre + String.length (unlines ls))
                             false false)).
Proof.
  intros Hd. induction ls as [|l ls IH]; intros fuel pre bl hc md ln Hls Htext.
  - exists md. cbn [List.length unlines block_texts existsb String.length plus].
    now rewrite app_nil_r, orb_false_r, Z.add_0_r, Nat.add_0_r.
  - cbn [forallb] in Hls. apply andb_prop in Hls as [Hl Hls].
    assert (Htext' : text = (pre ++ l ++ String LF "") ++ unlines ls ++ rest).
    { rewrite Htext. cbn [unlines]. rewrite !append_assoc. reflexivity. }
    assert (Hlen : String.length (pre ++ l ++ String LF "")
                   = String.length pre + String.length l + 1).
    { rewrite !length_append. simpl. lia. }
    assert (Hget : find LF l = None ->
              getline (mkStream text (String.length pre) false false)
              = (Some l, mkStream text (String.length (pre ++ l ++ String LF ""))
                           false false)).
    { intros Hlf. rewrite Hlen. apply (getline_at text pre l (unlines ls ++ rest));
        [|exact Hlf]. rewrite Htext. cbn [unlines]. now rewrite !append_assoc. }
    assert (Hpos : String.length (pre ++ l ++ String LF "") + String.length (unlines ls)
                   = String.length pre + String.length (unlines (l :: ls))).
    { rewrite Hlen. cbn [unlines]. rewrite length_append. simpl. lia. }
    assert (Hln : forall z, (z + 1 + Z.of_nat (List.length ls)
                             = z + Z.of_nat (List.length (l :: ls)))%Z).
    { intros z. cbn [List.length]. lia. }
    cbn [List.length plus]. rewrite parseBlockScalar_loop_turn.
    unfold block_line in Hl. destruct (all_spaces l) eqn:Ea.
    + destruct (all_spaces_facts l (ln + 1) Ea) as (Hlf & Hsc & Hgi & Htr).
      rewrite (Hget Hlf), Hsc. unfold getIndent. rewrite Hgi. simpl bind.
      rewrite Htr. cbn [empty].
      destruct (IH fuel (pre ++ l ++ String LF "")
                  (if hc then (bl ++ [""])%list else bl) hc md (ln + 1)%Z Hls Htext')
        as [md' ->].
      exists md'. rewrite Hpos, Hln. cbn [block_texts existsb]. rewrite Ea.
      cbn [negb orb]. f_equal. f_equal.
      destruct hc; [now rewrite <- app_assoc|reflexivity].
    + simpl orb in Hl.
      destruct (content_line_facts d l (ln + 1) Hl) as (Hlf & Hsc & Hgi & Htr & _ & _).
      rewrite (Hget Hlf), Hsc, Hgi. simpl bind. rewrite Htr.
      replace (Z.of_nat d <=? baseIndent)%Z with false
        by (symmetry; apply Z.leb_gt; lia).
      destruct (IH fuel (pre ++ l ++ String LF "") (bl ++ [drop d l])%list true
                  (if (Z.of_nat d - baseIndent <? md)%Z
                   then (Z.of_nat d - baseIndent)%Z else md)
                  (ln + 1)%Z Hls Htext')
        as [md' ->].
      exists md'. rewrite Hpos, Hln. cbn [block_texts existsb]. rewrite Ea.
      cbn [negb orb]. rewrite orb_true_r. f_equal. f_equal.
      now rewrite <- app_assoc.
Qed.

(** *** The text of the lines *)

Lemma block_texts_lead (d : nat) (lead ls : list string) :
  forallb all_spaces lead = true ->
  block_texts d false (lead ++ ls) = block_texts d false ls.
Proof.
  induction lead as [|l lead IH]; [reflexivity|]. cbn [forallb app block_texts].
  intros H. apply andb_prop in H as [-> H]. now apply IH.
Qed.

Lemma block_texts_content (d : nat) (ls : list string) :
  block_texts d true ls = map (line_text d) ls.
Proof.
  induction ls as [|l ls IH]; [reflexivity|]. cbn [block_texts map].
  unfold line_text at 1. destruct (all_spaces l); now rewrite IH.
Qed.

Lemma line_text_trail (d : nat) (trail : list string) :
  forallb all_spaces trail = true ->
  map (line_text d) trail = repeat "" (List.length trail).
Proof.
  induction trail as [|l trail IH]; [reflexivity|]. cbn [forallb map List.length repeat].
  intros H. apply andb_prop in H as [Hl H]. unfold line_text at 1. rewrite Hl.
  now rewrite IH.
Qed.

Lemma block_content_unlines (ts : list string) : block_content ts = unlines ts.
Proof.
  unfold block_content.
  assert (H : forall acc,
             fold_left (fun content ln => content ++ ln ++ String LF "") ts acc
             = acc ++ unlines ts).
  { induction ts as [|t ts IH]; intros acc; cbn [fold_left unlines].
    - now rewrite append_nil_r.
    - rewrite IH, !append_assoc. reflexivity. }
  apply H.
Qed.

Lemma unlines_app (a b : list string) : unlines (a ++ b) = unlines a ++ unlines b.
Proof.
  induction a as [|x a IH]; [reflexivity|]. cbn [app unlines].
  now rewrite IH, append_assoc.
Qed.

Lemma unlines_empty_lines (k : nat) : unlines (repeat "" k) = newlines k.
Proof. induction k as [|k IH]; [reflexivity|]. cbn [repeat unlines newlines]. now rewrite IH. Qed.

Lemma unlines_joined (a : list string) :
  a <> [] -> unlines a = newline_joined a ++ String LF "".
Proof.
  induction a as [|x a IH]; [congruence|]. intros _. cbn [unlines].
  destruct a as [|y a]; [reflexivity|].
  change (newline_joined (x :: y :: a)) with (x ++ String LF (newline_joined (y :: a))).
  rewrite IH by discriminate. rewrite append_assoc. reflexivity.
Qed.

Lemma strip_newlines (k : nat) : strip_trailing_newlines (newlines k) = "".
Proof.
  induction k as [|k IH]; [reflexivity|]. cbn [newlines strip_trailing_newlines].
  now rewrite IH, ascii_eqb_refl.
Qed.

Lemma back_cons (c : ascii) (r : string) : r <> "" -> back (String c r) = back r.
Proof. destruct r; [congruence|reflexivity]. Qed.

Lemma strip_append_newlines (x : string) (k : nat) :
  x <> "" -> back x <> LF -> strip_trailing_newlines (x ++ newlines k) = x.
Proof.
  induction x as [|c r IH]; [congruence|]. intros _ Hb.
  cbn [append strip_trailing_newlines].
  destruct r as [|d r].
  - cbn [append]. rewrite strip_newlines.
    destruct (Ascii.eqb c LF) eqn:E; [|reflexivity].
    apply Ascii.eqb_eq in E. now elim Hb.
  - rewrite IH; [reflexivity|discriminate|].
    rewrite back_cons in Hb by discriminate. exact Hb.
Qed.

Lemma back_append_cons (a : string) (c : ascii) (y : string) :
  y <> "" -> back (a ++ String c y) = back y.
Proof.
  intros Hy. induction a as [|x a IH].
  - cbn [append]. now apply back_cons.
  - cbn [append]. rewrite back_cons; [exact IH|]. now destruct a.
Qed.

Lemma newline_joined_back (a : list string) :
  a <> [] -> last a "" <> "" ->
  newline_joined a <> "" /\ back (newline_joined a) = back (last a "").
Proof.
  induction a as [|x a IH]; [congruence|]. intros _ Hl.
  destruct a as [|y a]; [now split|].
  change (last (x :: y :: a) "") with (last (y :: a) "") in *.
  destruct (IH ltac:(discriminate) Hl) as [Hne Hb].
  change (newline_joined (x :: y :: a)) with (x ++ String LF (newline_joined (y :: a))).
  split; [now destruct x|]. rewrite back_append_cons by exact Hne. exact Hb.
Qed.

Lemma last_map_text (f : string -> string) (a : list string) :
  a <> [] -> last (map f a) "" = f (last a "").
Proof.
  induction a as [|x a IH]; [congruence|]. intros _.
  destruct a as [|y a]; [reflexivity|].
  change (last (map f (x :: y :: a)) "") with (last (map f (y :: a)) "").
  change (last (x :: y :: a) "") with (last (y :: a) "").
  apply IH. discriminate.
Qed.

Lemma find_none_back (c : ascii) (s : string) :
  find c s = None -> s <> "" -> back s <> c.
Proof.
  induction s as [|d r IH]; [congruence|]. intros H _. cbn [find] in H.
  destruct (Ascii.eqb d c) eqn:E; [discriminate|].
  destruct (find c r) eqn:Er; [discriminate|].
  destruct r as [|e r].
  - cbn [back]. intros ->. now rewrite ascii_eqb_refl in E.
  - rewrite back_cons by discriminate. apply IH; [reflexivity|discriminate].
Qed.

(** The clipped text of a block: the lines from the first content line to
    the last, joined by newlines, and one newline. *)
Lemma clipped_block_text (d : nat) (lead core trail : list string) :
  forallb all_spaces lead = true ->
  block_core d core = true ->
  forallb all_spaces trail = true ->
  applyChomp (block_content (block_texts d false (lead ++ core ++ trail))) SPACE
  = newline_joined (map (line_text d) core) ++ nl.
Proof.
  intros Hlead Hcore Htrail. unfold block_core in Hcore.
  apply andb_prop in Hcore as [Hcore Hlast]. apply andb_prop in Hcore as [_ Hfirst].
  destruct core as [|c1 more]; [discriminate|].
  destruct (content_line_facts d c1 0 Hfirst) as (_ & _ & _ & _ & Hns & Hst).
  destruct (content_line_facts d _ 0 Hlast) as (Hlf & _ & _ & _ & Hns' & Hst').
  rewrite block_texts_lead by exact Hlead.
  change ((c1 :: more) ++ trail)%list with (c1 :: (more ++ trail))%list.
  cbn [block_texts]. rewrite Hns, block_texts_content.
  replace (drop d c1 :: map (line_text d) (more ++ trail))
    with (map (line_text d) (c1 :: more) ++ map (line_text d) trail)%list
    by (rewrite map_app; cbn [map]; unfold line_text at 1; now rewrite Hns).
  rewrite (line_text_trail d trail Htrail), block_content_unlines, unlines_app,
    unlines_empty_lines, unlines_joined by discriminate.
  set (x := newline_joined (map (line_text d) (c1 :: more))).
  assert (Hx : x <> "" /\ back x <> LF).
  { destruct (newline_joined_back (map (line_text d) (c1 :: more))) as [H1 H2].
    - discriminate.
    - rewrite last_map_text by discriminate. unfold line_text. rewrite Hns'.
      now destruct (starts_text_lstrip _ Hst').
    - split; [exact H1|]. unfold x. rewrite H2, last_map_text by discriminate.
      unfold line_text. rewrite Hns'.
      apply find_none_back; [now apply find_drop_none|].
      now destruct (starts_text_lstrip _ Hst'). }
  destruct Hx as [Hx1 Hx2].
  assert (Hstart : starts_text ((x ++ String LF "") ++ newlines (List.length trail)) = true).
  { do 2 apply starts_text_append. unfold x. cbn [map]. unfold line_text at 1.
    rewrite Hns. destruct (map (line_text d) more); [exact Hst|].
    now apply starts_text_append. }
  destruct (applyChomp_laws _ (or_intror Hstart)) as (_ & _ & L3).
  rewrite (L3 SPACE eq_refl eq_refl).
  rewrite append_assoc. change (String LF "" ++ newlines (List.length trail))
    with (newlines (S (List.length trail))).
  rewrite strip_append_newlines by assumption.
  destruct (x ++ newlines (S (List.length trail))) eqn:E; [|reflexivity].
  destruct x; [congruence|discriminate].
Qed.

Lemma length_unlines (ls : list string) : List.length ls <= String.length (unlines ls).
Proof.
  induction ls as [|l ls IH]; [simpl; lia|]. cbn [List.length unlines].
  rewrite length_append. simpl. lia.
Qed.

Lemma block_lines_of_parts (d : nat) (lead core trail : list string) :
  forallb all_spaces lead = true ->
  block_core d core = true ->
  forallb all_spaces trail = true ->
  forallb (block_line d) (lead ++ core ++ trail) = true.
Proof.
  intros Hl Hc Ht. unfold block_core in Hc.
  apply andb_prop in Hc as [Hc _]. apply andb_prop in Hc as [Hc _].
  assert (A : forall ls, forallb all_spaces ls = true ->
                         forallb (block_line d) ls = true).
  { induction ls as [|x ls IH]; [reflexivity|]. cbn [forallb]. intros H.
    apply andb_prop in H as [Hx H]. unfold block_line at 1. rewrite Hx. now apply IH. }
  rewrite !forallb_app, (A lead Hl), Hc, (A trail Ht). reflexivity.
Qed.

(** C4 as stated fails.  A comment sign in a block line ends the line for
    the extractor too: the block line [a # b] is stored as [a] and a space.
    And every content line loses all of its own indentation, not the least
    common one (which the loop computes as [minDelta] and never uses): the
    second line of the second block is stored without the two spaces it is
    indented more than the first. *)
Lemma C4_counterexample_comment_and_indent :
  parse ("k: |" ++ nl ++ "  a # b" ++ nl)
    = Ok (root_with "k" (mkNode Scalar Literal ("a " ++ nl) [] []))
  /\ claimed_literal_text ["  a # b"] = "a # b" ++ nl
  /\ parse ("k: |" ++ nl ++ "  a" ++ nl ++ "    b" ++ nl)
    = Ok (root_with "k" (mkNode Scalar Literal ("a" ++ nl ++ "b" ++ nl) [] []))
  /\ claimed_literal_text ["  a"; "    b"] = "a" ++ nl ++ "  b" ++ nl.
Proof. repeat split; vm_compute; reflexivity. Qed.

(** The extractor on a block of uniformly indented lines: the content, the
    line number and the stream it leaves. *)
Lemma extract_block (baseIndent : Z) (d : nat) (ls : list string)
    (rest pre : string) (ln : Z) :
  (baseIndent < Z.of_nat d)%Z ->
  forallb (block_line d) ls = true ->
  rest = ""
  \/ (exists t rest', rest = t ++ String LF rest'
                      /\ terminator_line baseIndent t = true) ->
  parseBlockScalar baseIndent ln
    (mkStream (pre ++ unlines ls ++ rest) (String.length pre) false false)
  = Ok (block_content (block_texts d false ls),
        (ln + Z.of_nat (List.length ls))%Z,
        mkStream (pre ++ unlines ls ++ rest)
                 (String.length pre + String.length (unlines ls))
                 (empty rest) (empty rest)).
Proof.
  intros Hd Hls Hrest.
  set (text := pre ++ unlines ls ++ rest).
  assert (Hfuel : exists k, S (String.length text) = List.length ls + S k).
  { exists (String.length text - List.length ls).
    pose proof (length_unlines ls). unfold text. rewrite !length_append. lia. }
  destruct Hfuel as [k Hk].
  unfold parseBlockScalar. cbn [buf]. rewrite Hk.
  destruct (parseBlockScalar_loop_lines d baseIndent text rest Hd ls (S k) pre
              [] false INT_MAX ln Hls eq_refl) as [md' ->].
  rewrite parseBlockScalar_loop_turn. cbn [app orb].
  destruct Hrest as [-> | (t & rest' & -> & Ht)].
  - replace (String.length pre + String.length (unlines ls)) with (String.length text)
      by (unfold text; rewrite !length_append; simpl; lia).
    rewrite getline_at_end. reflexivity.
  - unfold terminator_line in Ht. do 3 (apply andb_prop in Ht as [Ht ?]).
    apply lacks_true in Ht, H1. apply negb_true_iff in H0.
    destruct (getIndent t 0) as [i| |] eqn:Ei; try discriminate.
    unfold getIndent in Ei.
    apply (getIndent_loop_ln _ _ _ (ln + Z.of_nat (List.length ls) + 1)) in Ei.
    replace (String.length pre + String.length (unlines ls))
      with (String.length (pre ++ unlines ls)) by now rewrite length_append.
    rewrite (getline_at text (pre ++ unlines ls) t rest');
      [|unfold text; now rewrite append_assoc|exact Ht].
    assert (Hsc : strip_comment t = t) by (unfold strip_comment; now rewrite H1).
    rewrite Hsc. unfold getIndent. rewrite Ei. simpl bind. rewrite H0, H.
    cbn [bind blockLines lineNum block_input].
    replace (ln + Z.of_nat (List.length ls) + 1 - 1)%Z
      with (ln + Z.of_nat (List.length ls))%Z by lia.
    rewrite empty_append_cons.
    unfold seekg_cur, seek_to. cbn [failbit gpos buf].
    assert (Hin : (0 <=? Z.of_nat (String.length (pre ++ unlines ls)
                                   + String.length t + 1)
                         + - (Z.of_nat (String.length t) + 1))%Z
                  && (Z.of_nat (String.length (pre ++ unlines ls)
                                + String.length t + 1)
                      + - (Z.of_nat (String.length t) + 1)
                      <=? Z.of_nat (String.length text))%Z = true).
    { apply andb_true_intro. split; apply Z.leb_le; [lia|].
      unfold text. rewrite !length_append. simpl. lia. }
    rewrite Hin. do 3 f_equal. lia.
Qed.

(** The first line of an input, when it is a mapping line: the loop body
    takes the mapping branch with the root as the container, and finds the
    key and the value the line is written with. *)
Lemma parseLine_first_mapping (st : pstate) (k v : string) :
  valid_key_text k = true -> valid_value_text v = true ->
  stack st = [([], (-1)%Z)] -> lastScalarNode st = None ->
  exists indent colonPos content,
    getIndent k 0 = Ok indent
    /\ parseLine st (k ++ String ":" v)
       = mapping_line st [([], (-1)%Z)] [] indent (k ++ String ":" v) content
    /\ find ":" content = Some colonPos
    /\ trim (substr content 0 colonPos) = trim k
    /\ trim (drop (colonPos + 1) content) = trim v
    /\ find LF (k ++ String ":" v) = None.
Proof.
  intros Hk Hv Hstack Hlast.
  destruct (mapping_line_anatomy k v (linecount st) Hk Hv)
    as (Hsc & Hlf & Htrim & indent & Hik & Hi & Hcontent & Hcolon & Hne & Hfront).
  exists indent, (String.length (lstrip k)), (lstrip k ++ String ":" (rstrip v)).
  split; [exact Hik|]. split; [|split; [|split; [|split]]].
  - unfold parseLine. rewrite Hsc, Htrim, !empty_append_cons. cbn [orb].
    rewrite Hi. simpl bind. rewrite Hcontent, Hstack, Hlast.
    change (pop_frames (Z.of_nat indent) [([], (-1)%Z)]) with [([] : path, (-1)%Z)].
    cbv iota. rewrite andb_false_r.
    assert (Hdash : Ascii.eqb (front (lstrip k ++ String ":" (rstrip v))) "-" = false).
    { unfold valid_key_text in Hk. apply andb_prop in Hk as [_ Hd].
      apply negb_true_iff in Hd. rewrite <- Hfront in Hd.
      destruct (lstrip k); [congruence|exact Hd]. }
    now rewrite Hdash.
  - now apply find_append_first.
  - unfold substr. change (drop 0 ?x) with x. now rewrite take_append, trim_lstrip.
  - now rewrite drop_append_cons, trim_rstrip.
  - exact Hlf.
Qed.

(** The parse of an input that is the header of a literal block and the
    lines of the block, to the end of the input. *)
Lemma parse_literal_block (k v : string) (indent d : nat) (ls : list string) :
  valid_key_text k = true -> valid_value_text v = true ->
  trim v = "|" -> getIndent k 0 = Ok indent -> indent < d ->
  forallb (block_line d) ls = true ->
  parse ((k ++ String ":" v) ++ String LF (unlines ls))
  = Ok (root_with (trim k)
          (mkNode Scalar Literal
             (applyChomp (block_content (block_texts d false ls)) SPACE) [] [])).
Proof.
  intros Hk Hv Hbar Hik Hd Hls.
  set (header := k ++ String ":" v).
  set (text := header ++ String LF (unlines ls)).
  set (st1 := mkState (newYamlNode Mapping) [([], (-1)%Z)] None 1
                (mkStream text (String.length header + 1) false false)).
  destruct (parseLine_first_mapping st1 k v Hk Hv eq_refl eq_refl)
    as (indent' & colonPos & content & Hik' & Hline & Hfind & Hkey & Hval & Hlf).
  rewrite Hik in Hik'. injection Hik' as <-.
  unfold parse, parseStream. change (buf (stringstream text)) with text.
  cbn [parseLoop]. unfold parseTurn.
  change (input (initial_state (stringstream text)))
    with (mkStream text (String.length "") false false).
  rewrite (getline_at text "" header (unlines ls) eq_refl Hlf).
  change (mkState _ _ _ _ _) with st1.
  fold header in Hline. rewrite Hline.
  unfold mapping_line. rewrite Hfind, Hkey, Hval, Hbar.
  assert (Hke : empty (trim k) = false).
  { unfold valid_key_text in Hk. apply andb_prop in Hk as [Hk _].
    apply andb_prop in Hk as [_ Hk]. now apply negb_true_iff in Hk. }
  rewrite Hke. cbn [empty negb front]. change (Ascii.eqb "|" "|") with true.
  cbn [orb]. change (linecount st1) with 1%Z.
  change (input st1)
    with (mkStream text (String.length header + 1) false false).
  assert (Htext : text = (header ++ String LF "") ++ unlines ls ++ "").
  { unfold text. now rewrite append_nil_r, append_assoc. }
  assert (Hpre : String.length header + 1 = String.length (header ++ String LF "")).
  { rewrite length_append. reflexivity. }
  rewrite Htext, Hpre.
  rewrite (extract_block (Z.of_nat indent) d ls "" (header ++ String LF "") 1);
    [|lia|exact Hls|now left].
  rewrite <- Htext. simpl bind. cbn [chomp_of].
  destruct (length_pos text) as [fuel Hlen]; [unfold text; now destruct header|].
  rewrite Hlen, parseLoop_not_good by reflexivity. reflexivity.
Qed.

(** C4, amended.  Take a block after a header of indent [baseIndent]: blank
    lines [lead], then lines [core] that start and end with a content line,
    then blank lines [trail], where blank lines are lines of spaces and all
    content lines are indented by the same [d > baseIndent] and hold no
    comment sign.  When the block is followed by the end of the input, or
    by a line that is not blank, holds no comment sign, is indented no more
    than the header and ends in a newline, the extractor consumes exactly
    the lines of the block and leaves the cursor at the line that follows
    them; what the clip default then stores is the lines of [core] without
    their indentation (its blank lines as empty lines), joined by newlines
    and followed by one newline.  And the parse of a header line [k:v]
    whose value is the literal indicator, followed by such a block to the
    end of the input, is a root Mapping whose only entry is that text as a
    Literal scalar under the trimmed key. *)
Theorem C4_literal_block_uniform_indent :
  forall (baseIndent : Z) (d : nat) (lead core trail : list string),
    (baseIndent < Z.of_nat d)%Z ->
    forallb all_spaces lead = true ->
    block_core d core = true ->
    forallb all_spaces trail = true ->
    (forall (rest pre : string) (ln : Z),
        rest = ""
        \/ (exists t rest', rest = t ++ String LF rest'
                            /\ terminator_line baseIndent t = true) ->
        exists (content : string) (input' : istream),
          parseBlockScalar baseIndent ln
            (mkStream (pre ++ unlines (lead ++ core ++ trail) ++ rest)
                      (String.length pre) false false)
          = Ok (content,
                (ln + Z.of_nat (List.length (lead ++ core ++ trail)))%Z, input')
          /\ gpos input'
             = String.length pre + String.length (unlines (lead ++ core ++ trail))
          /\ good input' = negb (empty rest)
          /\ applyChomp content SPACE
             = newline_joined (map (line_text d) core) ++ nl)
    /\ (forall (k v : string) (indent : nat),
           valid_key_text k = true -> valid_value_text v = true ->
           trim v = "|" -> getIndent k 0 = Ok indent ->
           Z.of_nat indent = baseIndent ->
           parse ((k ++ String ":" v) ++ String LF (unlines (lead ++ core ++ trail)))
           = Ok (root_with (trim k)
                   (mkNode Scalar Literal
                      (newline_joined (map (line_text d) core) ++ nl) [] []))).
Proof.
  intros baseIndent d lead core trail Hd Hlead Hcore Htrail.
  pose proof (block_lines_of_parts d lead core trail Hlead Hcore Htrail) as Hls.
  pose proof (clipped_block_text d lead core trail Hlead Hcore Htrail) as Hclip.
  split.
  - intros rest pre ln Hrest.
    rewrite (extract_block baseIndent d _ rest pre ln Hd Hls Hrest).
    eexists _, _. split; [reflexivity|]. split; [reflexivity|].
    split; [|exact Hclip]. unfold good. cbn [eofbit failbit].
    now destruct (empty rest).
  - intros k v indent Hk Hv Hbar Hik Hbase.
    rewrite (parse_literal_block k v indent d _ Hk Hv Hbar Hik ltac:(lia) Hls).
    now rewrite Hclip.
Qed.

(** The block of the test [LiteralWithEmptyLines]. *)
Lemma C4_literal_block_witness :
  (forall (rest pre : string) (ln : Z),
      rest = ""
      \/ (exists t rest', rest = t ++ String LF rest'
                          /\ terminator_line 0 t = true) ->
      exists (content : string) (input' : istream),
        parseBlockScalar 0 ln
          (mkStream (pre ++ unlines ([""] ++ ["  First line."; ""; "  Last line."]
                                     ++ ["    "]) ++ rest)
                    (String.length pre) false false)
        = Ok (content,
              (ln + Z.of_nat (List.length
                                ([""] ++ ["  First line."; ""; "  Last line."]
                                 ++ ["    "])))%Z, input')
        /\ gpos input'
           = String.length pre
             + String.length (unlines ([""] ++ ["  First line."; ""; "  Last line."]
                                       ++ ["    "]))
        /\ good input' = negb (empty rest)
        /\ applyChomp content SPACE
           = newline_joined (map (line_text 2) ["  First line."; ""; "  Last line."])
             ++ nl)
  /\ (forall (k v : string) (indent : nat),
         valid_key_text k = true -> valid_value_text v = true ->
         trim v = "|" -> getIndent k 0 = Ok indent ->
         Z.of_nat indent = 0%Z ->
         parse ((k ++ String ":" v)
                ++ String LF (unlines ([""] ++ ["  First line."; ""; "  Last line."]
                                       ++ ["    "])))
         = Ok (root_with (trim k)
                 (mkNode Scalar Literal
                    (newline_joined
                       (map (line_text 2) ["  First line."; ""; "  Last line."])
                     ++ nl) [] []))).
Proof.
  apply (C4_literal_block_uniform_indent 0 2 [""]
           ["  First line."; ""; "  Last line."] ["    "]).
  - lia.
  - reflexivity.
  - vm_compute. reflexivity.
  - reflexivity.
Defined.

(** The tests [LiteralScalar] and [LiteralWithEmptyLines]. *)
Example parse_literal_with_empty_lines :
  parse (nl ++ "notes: |" ++ nl ++ "  First line." ++ nl ++ nl
         ++ "  Third line after empty." ++ nl ++ nl ++ "  Last line." ++ nl ++ "    ")
  = Ok (root_with "notes"
          (mkNode Scalar Literal
             ("First line." ++ nl ++ nl ++ "Third line after empty." ++ nl ++ nl
              ++ "Last line." ++ nl) [] [])).
Proof. vm_compute. reflexivity. Qed.

(** ** The parse always returns or throws *)

Lemma find_some_lt (c : ascii) (s : string) (i : nat) :
  find c s = Some i -> i < String.length s.
Proof.
  revert i; induction s as [|d r IH]; intros i H; [discriminate|].
  cbn [find] in H. destruct (Ascii.eqb d c); [injection H as <-; simpl; lia|].
  destruct (find c r) as [j|]; [|discriminate]. injection H as <-.
  specialize (IH j eq_refl). simpl. lia.
Qed.

Lemma length_take (n : nat) (s : string) :
  n <= String.length s -> String.length (take n s) = n.
Proof.
  revert s; induction n as [|n IH]; intros [|c r] H; simpl in *; try lia.
  rewrite IH; lia.
Qed.

Lemma length_take_le (n : nat) (s : string) :
  String.length (take n s) <= String.length s.
Proof.
  revert s; induction n as [|n IH]; intros [|c r]; simpl; try lia.
  specialize (IH r). lia.
Qed.

(** A successful [std::getline] moves the get position on by the line, and
    by its line end when the stream stays good. *)
Lemma getline_some (s s' : istream) (l : string) :
  getline s = (Some l, s') -> wf_stream s ->
  good s = true /\ buf s' = buf s /\ wf_stream s'
  /\ calls_left s' < calls_left s
  /\ gpos s < gpos s'
  /\ gpos s + String.length l <= gpos s'
  /\ (good s' = true -> gpos s' = gpos s + String.length l + 1).
Proof.
  unfold getline, wf_stream, calls_left. intros H Hwf.
  destruct (good s) eqn:Hg; [|discriminate]. cbn [negb] in H.
  pose proof (length_drop (gpos s) (buf s)) as Hd.
  destruct (find LF (drop (gpos s) (buf s))) as [i|] eqn:Ef.
  - injection H as <- <-. apply find_some_lt in Ef.
    cbn [buf gpos good eofbit failbit negb andb].
    rewrite length_take by lia. repeat split; try lia.
  - destruct (empty (drop (gpos s) (buf s))) eqn:Ee; [discriminate|].
    injection H as <- <-.
    cbn [buf gpos good eofbit failbit negb andb].
    destruct (drop (gpos s) (buf s)) eqn:Ed; [discriminate|].
    cbn [String.length] in *.
    repeat split; try lia; discriminate.
Qed.

Lemma getline_none (s s' : istream) :
  getline s = (None, s') -> good s' = false.
Proof.
  unfold getline. destruct (good s) eqn:Hg; cbn [negb].
  - destruct (find LF (drop (gpos s) (buf s))); [discriminate|].
    destruct (empty (drop (gpos s) (buf s))); [|discriminate].
    intros H. injection H as <-. reflexivity.
  - intros H. injection H as <-. unfold good. cbn [eofbit failbit].
    now rewrite andb_false_r.
Qed.

Lemma length_strip_comment (l : string) :
  String.length (strip_comment l) <= String.length l.
Proof.
  unfold strip_comment. destruct (find "#" l); [apply length_take_le|lia].
Qed.

Lemma getIndent_total (line : string) (lineNum : Z) :
  getIndent line lineNum <> Stuck.
Proof.
  unfold getIndent. generalize 0.
  induction line as [|c r IH]; intros k; simpl; [discriminate|].
  destruct (Ascii.eqb c SPACE); [apply IH|].
  destruct (Ascii.eqb c TAB); discriminate.
Qed.

(** The loop of [parseBlockScalar] does not run out of fuel when it has a
    turn for every call the stream can answer; the stream it leaves is a
    stream over the same buffer, and when that is good, so was the stream
    it found, and the position is at most one byte before where it was. *)
Lemma parseBlockScalar_loop_total (fuel : nat) (baseIndent : Z) (b : block_state) :
  calls_left (block_input b) <= fuel -> wf_stream (block_input b) ->
  match parseBlockScalar_loop fuel baseIndent b with
  | Ok b' =>
      buf (block_input b') = buf (block_input b)
      /\ wf_stream (block_input b')
      /\ (good (block_input b') = true ->
          good (block_input b) = true
          /\ gpos (block_input b) <= gpos (block_input b') + 1)
  | Throw _ => True
  | Stuck => False
  end.
Proof.
  revert b; induction fuel as [|fuel IH]; intros b Hfuel Hwf.
  { unfold calls_left in Hfuel. destruct (good (block_input b)); lia. }
  destruct b as [bl hc md ln s]. cbn [block_input] in *.
  rewrite parseBlockScalar_loop_turn.
  destruct (getline s) as [[line0|] s'] eqn:Eg.
  2:{ cbn [block_input]. apply getline_none in Eg as Hng.
      assert (Hs' : buf s' = buf s /\ gpos s' = gpos s).
      { unfold getline in Eg. destruct (negb (good s)).
        - injection Eg as <-. now split.
        - destruct (find LF (drop (gpos s) (buf s))); [discriminate|].
          destruct (empty (drop (gpos s) (buf s))); [|discriminate].
          injection Eg as <-. now split. }
      destruct Hs' as [Hb Hp]. split; [exact Hb|]. split.
      - unfold wf_stream in *. now rewrite Hb, Hp.
      - rewrite Hng. discriminate. }
  destruct (getline_some s s' line0 Eg Hwf) as (Hg & Hb & Hwf' & Hc & Hlt & Hle & Hgood).
  pose proof (getIndent_total (strip_comment line0) (ln + 1)) as Hi.
  destruct (getIndent (strip_comment line0) (ln + 1)) as [nextIndent|e|];
    [|exact I|congruence].
  simpl bind.
  assert (Hrec : forall b1, block_input b1 = s' ->
            match parseBlockScalar_loop fuel baseIndent b1 with
            | Ok b' =>
                buf (block_input b') = buf s
                /\ wf_stream (block_input b')
                /\ (good (block_input b') = true ->
                    good s = true /\ gpos s <= gpos (block_input b') + 1)
            | Throw _ => True
            | Stuck => False
            end).
  { intros b1 Hb1. specialize (IH b1). rewrite Hb1 in IH.
    specialize (IH ltac:(lia) Hwf').
    destruct (parseBlockScalar_loop fuel baseIndent b1) as [b'| |]; auto.
    destruct IH as (I1 & I2 & I3). split; [congruence|]. split; [exact I2|].
    intros Hg'. destruct (I3 Hg') as [_ I4]. split; [exact Hg|lia]. }
  destruct (empty (trim (strip_comment line0))); [now apply Hrec|].
  destruct (Z.of_nat nextIndent <=? baseIndent)%Z; [|now apply Hrec].
  cbn [block_input]. unfold seekg_cur, seek_to.
  assert (Hf : failbit s' = false).
  { unfold getline in Eg. rewrite Hg in Eg. cbn [negb] in Eg.
    destruct (find LF (drop (gpos s) (buf s))).
    - now injection Eg as _ <-.
    - destruct (empty (drop (gpos s) (buf s))); [discriminate|].
      now injection Eg as _ <-. }
  rewrite Hf.
  pose proof (length_strip_comment line0) as Hsl.
  destruct ((0 <=? Z.of_nat (gpos s') + - (Z.of_nat (String.length (strip_comment line0)) + 1))%Z
            && (Z.of_nat (gpos s') + - (Z.of_nat (String.length (strip_comment line0)) + 1)
                <=? Z.of_nat (String.length (buf s')))%Z) eqn:Er.
  - apply andb_prop in Er as [E1 E2]. apply Z.leb_le in E1, E2.
    cbn [buf gpos]. split; [exact Hb|]. split.
    + unfold wf_stream. cbn [buf gpos]. lia.
    + intros _. split; [exact Hg|]. lia.
  - cbn [buf gpos]. split; [exact Hb|]. split; [exact Hwf'|].
    unfold good. cbn [eofbit failbit]. discriminate.
Qed.

Lemma parseFlowMapping_total (flowContent : string) (lineNum : Z) :
  parseFlowMapping flowContent lineNum <> Stuck.
Proof.
  unfold parseFlowMapping.
  generalize (getlines "," flowContent); intros l.
  assert (Ha : Ok (newYamlNode Mapping) <> Stuck) by discriminate.
  revert Ha. generalize (Ok (newYamlNode Mapping)).
  induction l as [|x l IH]; intros acc Ha; simpl; [exact Ha|].
  apply IH. destruct acc as [m|e|]; simpl; try discriminate; [|congruence].
  destruct (find ":" x); [|discriminate].
  destruct (empty _); discriminate.
Qed.

Lemma node_at_app (p q : path) (r : YamlNode) :
  node_at (p ++ q)%list r
  = match node_at p r with Some n => node_at q n | None => None end.
Proof.
  revert r; induction p as [|[k|i] p IH]; intros r; simpl; [reflexivity| |].
  - destruct (map_find k (mapping r)); [apply IH|reflexivity].
  - destruct (nth_error (sequence r) i); [apply IH|reflexivity].
Qed.

Lemma node_at_prefix (p q : path) (r : YamlNode) :
  is_prefix p q -> (exists n, node_at q r = Some n) -> exists n, node_at p r = Some n.
Proof.
  intros [t ->] [n Hn]. rewrite node_at_app in Hn.
  destruct (node_at p r) as [m|]; [now exists m|discriminate].
Qed.

Lemma map_find_assign {A : Type} (key : string) (v : A) (m : list (string * A)) :
  map_find key (map_assign key v m) = Some v.
Proof.
  induction m as [|[k w] m IH]; simpl.
  - now rewrite String.eqb_refl.
  - destruct (String.compare key k) eqn:E; simpl.
    + apply String.compare_eq_iff in E. subst k. now rewrite String.eqb_refl.
    + now rewrite String.eqb_refl.
    + destruct (String.eqb k key) eqn:Ek; [|exact IH].
      apply String.eqb_eq in Ek. subst k.
      pose proof (String.compare_antisym key key) as Hr.
      rewrite E in Hr. discriminate.
Qed.

Lemma pop_frames_ok (r : YamlNode) (indent : Z) (stk : list (path * Z)) :
  stack_ok r stk -> stack_ok r (pop_frames indent stk).
Proof.
  induction stk as [|f stk IH]; intros H; [exact H|].
  destruct stk as [|g stk]; [exact H|].
  change (pop_frames indent (f :: g :: stk))
    with (if (indent <=? snd f)%Z then pop_frames indent (g :: stk)
          else f :: g :: stk).
  destruct (indent <=? snd f)%Z; [|exact H].
  apply IH. destruct f as [cur fi], g as [p gi]. simpl in H |- *.
  destruct H as [[Hp Hc] Hv]. split; [exact Hc|].
  now apply (node_at_prefix p cur).
Qed.

(** A write at the top frame's node leaves the stack in order. *)
Lemma stack_ok_update (r : YamlNode) (cur : path) (fi : Z)
    (below : list (path * Z)) (f : YamlNode -> YamlNode) :
  stack_ok r ((cur, fi) :: below) ->
  stack_ok (node_update cur f r) ((cur, fi) :: below).
Proof.
  simpl. intros [Hc [n Hn]]. split; [exact Hc|].
  exists (f n). now apply node_at_update.
Qed.

(** A frame pushed for a child the write has just made. *)
Lemma stack_ok_push (r : YamlNode) (cur : path) (fi gi : Z)
    (below : list (path * Z)) (f : YamlNode -> YamlNode) (x : step) (n : YamlNode) :
  stack_ok r ((cur, fi) :: below) ->
  node_at cur r = Some n ->
  (exists c, node_at [x] (f n) = Some c) ->
  stack_ok (node_update cur f r) ((cur ++ [x], gi)%list :: (cur, fi) :: below).
Proof.
  simpl. intros [Hc _] Hn [c Hx]. split.
  - split; [now exists [x]|exact Hc].
  - exists c. rewrite node_at_app, (node_at_update cur f r n Hn). exact Hx.
Qed.

Lemma is_blank_length (line0 : string) :
  is_blank line0 = false -> 1 <= String.length line0.
Proof.
  unfold is_blank. destruct line0; [vm_compute; discriminate|simpl; lia].
Qed.

Lemma calls_left_bound (s : istream) :
  wf_stream s -> calls_left s <= S (String.length (buf s)).
Proof. unfold calls_left. destruct (good s); lia. Qed.

(** [peek_type] returns, and leaves the stream where it found it when it
    leaves it good. *)
Lemma peek_type_total (ln : Z) (s : istream) :
  wf_stream s ->
  match peek_type ln s with
  | Ok (_, s') =>
      buf s' = buf s /\ wf_stream s'
      /\ (good s' = true -> good s = true /\ gpos s <= gpos s' + 1)
  | Throw _ => True
  | Stuck => False
  end.
Proof.
  intros Hwf. unfold peek_type, tellg.
  destruct (good s) eqn:Hg; cbn [negb].
  - destruct (getline s) as [[peekLine|] in2] eqn:Eg.
    + destruct (getline_some s in2 peekLine Eg Hwf) as (_ & Hb & Hwf2 & _ & _ & _ & _).
      pose proof (getIndent_total peekLine (ln + 1)) as Ht.
      destruct (getIndent peekLine (ln + 1)) as [peekIndent|e|];
        [|exact I|congruence].
      simpl bind. unfold seekg, seek_to.
      destruct (failbit in2).
      * cbn [buf gpos]. repeat split; auto. unfold good. cbn [eofbit failbit].
        discriminate.
      * destruct (_ && _) eqn:Er; cbn [buf gpos].
        -- repeat split; auto.
           ++ unfold wf_stream in *. cbn [buf gpos]. rewrite Nat2Z.id, Hb. exact Hwf.
           ++ rewrite Nat2Z.id. lia.
        -- repeat split; auto; unfold good; cbn [eofbit failbit]; discriminate.
    + unfold getline in Eg. rewrite Hg in Eg. cbn [negb] in Eg.
      destruct (find LF (drop (gpos s) (buf s))); [discriminate|].
      destruct (empty (drop (gpos s) (buf s))); [|discriminate].
      injection Eg as <-. cbn [buf gpos]. repeat split; auto. lia.
  - assert (Hg1 : forall b p e, good (mkStream b p e true) = false).
    { intros b p e. unfold good. cbn [eofbit failbit]. apply andb_false_r. }
    unfold getline. rewrite Hg1. cbn [negb buf gpos eofbit].
    rewrite Hg1. repeat split; auto; discriminate.
Qed.

(** The body of the loop returns or throws; it leaves the stack in order,
    and the stream either as it found it or, after a line that is not
    blank, at most one byte before where it found it. *)
Lemma parseLine_total (st : pstate) (line0 : string) :
  state_ok st ->
  match parseLine st line0 with
  | Ok st' =>
      stack_ok (root st') (stack st')
      /\ wf_stream (input st')
      /\ buf (input st') = buf (input st)
      /\ (input st' = input st
          \/ (is_blank line0 = false
              /\ (good (input st') = true ->
                  good (input st) = true
                  /\ gpos (input st) <= gpos (input st') + 1)))
  | Throw _ => True
  | Stuck => False
  end.
Proof.
  intros (Hb & Hs & Hwf). unfold parseLine. fold (is_blank line0).
  destruct (is_blank line0) eqn:Hbl; [repeat split; auto|].
  pose proof (getIndent_total (strip_comment line0) (linecount st)) as Hi.
  destruct (getIndent (strip_comment line0) (linecount st)) as [indent|e|];
    [|exact I|congruence].
  simpl bind.
  destruct (pop_frames_top (Z.of_nat indent) (stack st) ltac:(lia) Hb)
    as (cur & fi & below & Es & Hlt & _).
  pose proof (pop_frames_ok (root st) (Z.of_nat indent) (stack st) Hs) as Hs'.
  rewrite Es in Hs' |- *. rewrite Hlt. cbn [andb].
  destruct (lastScalarNode st) eqn:El; [exact I|].
  pose proof Hs' as [Hc [n Hn]].
  destruct (Ascii.eqb (front (trim (drop indent (strip_comment line0)))) "-").
  - unfold sequence_line. rewrite Hn. cbn [root stack input].
    split; [|split; [exact Hwf|split; [reflexivity|left; reflexivity]]].
    destruct (_ && _).
    + apply stack_ok_push with (n := n); auto.
      eexists. cbn [node_at]. destruct (retype Sequence n) as [t sty sv sq mp].
      cbn [sequence set_sequence].
      rewrite nth_error_app2 by lia. rewrite Nat.sub_diag. reflexivity.
    + now apply stack_ok_update.
  - unfold mapping_line. rewrite El.
    destruct (find ":" (trim (drop indent (strip_comment line0)))) as [colonPos|];
      [|exact I].
    cbv zeta. destruct (empty (trim (substr _ 0 colonPos))); [exact I|].
    destruct (negb (empty _)).
    + destruct (Ascii.eqb _ "|" || Ascii.eqb _ ">").
      * unfold parseBlockScalar.
        pose proof (parseBlockScalar_loop_total
                      (S (String.length (buf (input st)))) (Z.of_nat indent)
                      (mkBlock [] false INT_MAX (linecount st) (input st))
                      (calls_left_bound _ Hwf) Hwf) as Hl.
        destruct (parseBlockScalar_loop _ _ _) as [b| |]; [|exact I|exact Hl].
        simpl bind. cbn [root stack input block_input] in Hl |- *.
        destruct Hl as (H1 & H2 & H3).
        split; [now apply stack_ok_update|].
        split; [exact H2|]. split; [exact H1|]. right. split; [reflexivity|exact H3].
      * destruct (dequote _) as [value1 wasQuoted].
        destruct (negb wasQuoted && _); [exact I|].
        assert (Hv : value_node (trim value1) (linecount st) <> Stuck).
        { unfold value_node. destruct (_ && _); [discriminate|].
          destruct (_ && _); [apply parseFlowMapping_total|discriminate]. }
        destruct (value_node (trim value1) (linecount st)) as [newNode|e|];
          [|exact I|congruence].
        simpl bind. cbn [root stack input].
        split; [now apply stack_ok_update|].
        split; [exact Hwf|]. split; [reflexivity|]. left. reflexivity.
    + pose proof (peek_type_total (linecount st) (input st) Hwf) as Hp.
      destruct (peek_type (linecount st) (input st)) as [[ty input']|e|];
        [|exact I|exact Hp].
      simpl bind. cbn [root stack input]. destruct Hp as (H1 & H2 & H3).
      split.
      * apply stack_ok_push with (n := n); auto.
        eexists. cbn [node_at]. unfold assign_child.
        destruct (retype Mapping n) as [t sty sv sq mp].
        cbn [mapping set_mapping]. rewrite map_find_assign. reflexivity.
      * split; [exact H2|]. split; [exact H1|]. right. split; [reflexivity|exact H3].
Qed.

(** A turn that goes on leaves a state in order, whose stream can answer
    fewer calls. *)
Lemma parseTurn_ok (st st' : pstate) :
  state_ok st -> parseTurn st = Ok (inr st') ->
  state_ok st' /\ calls_left (input st') < calls_left (input st).
Proof.
  intros Hok. unfold parseTurn.
  destruct (getline (input st)) as [[line0|] input'] eqn:Eg; [|discriminate].
  destruct Hok as (Hb & Hs & Hwf).
  destruct (getline_some _ _ _ Eg Hwf) as (Hg & Hbuf & Hwf' & Hc & Hlt & Hle & Hgood).
  set (st1 := mkState (root st) (stack st) (lastScalarNode st)
                (linecount st + 1)%Z input').
  assert (Hok1 : state_ok st1) by (repeat split; assumption).
  pose proof (parseLine_total st1 line0 Hok1) as Ht.
  destruct (parseLine st1 line0) as [st''|e|] eqn:Ep; [|discriminate|contradiction].
  simpl bind. intros H. injection H as <-.
  destruct Ht as (T1 & T2 & T3 & T4). cbn [input st1] in T3, T4. split.
  - split; [|split; assumption]. exact (parseLine_bottom st1 st'' line0 Hb Ep).
  - destruct T4 as [-> | [Hnb Hpos]]; [lia|].
    apply is_blank_length in Hnb.
    unfold calls_left. unfold wf_stream in *.
    rewrite Hg. rewrite T3, Hbuf in T2 |- *. rewrite Hbuf in Hwf'.
    destruct (good (input st'')) eqn:Hg'; [|lia].
    destruct (Hpos eq_refl) as [Hg1 Hp]. specialize (Hgood Hg1). lia.
Qed.

Lemma parseTurn_total (st : pstate) : state_ok st -> parseTurn st <> Stuck.
Proof.
  intros Hok. unfold parseTurn.
  destruct (getline (input st)) as [[line0|] input'] eqn:Eg; [|discriminate].
  destruct Hok as (Hb & Hs & Hwf).
  destruct (getline_some _ _ _ Eg Hwf) as (Hg & Hbuf & Hwf' & _).
  pose proof (parseLine_total
                (mkState (root st) (stack st) (lastScalarNode st)
                   (linecount st + 1)%Z input') line0
                ltac:(repeat split; assumption)) as Ht.
  destruct (parseLine _ line0) as [st''|e|]; [discriminate|discriminate|contradiction].
Qed.

Lemma calls_left_pos (s : istream) : wf_stream s -> 1 <= calls_left s.
Proof. unfold calls_left. destruct (good s); lia. Qed.

Lemma parseLoop_total (fuel : nat) (st : pstate) :
  state_ok st -> calls_left (input st) <= fuel ->
  parseLoop fuel st <> Stuck.
Proof.
  revert st; induction fuel as [|fuel IH]; intros st Hok Hfuel.
  { pose proof (calls_left_pos (input st) (proj2 (proj2 Hok))). lia. }
  cbn [parseLoop]. pose proof (parseTurn_total st Hok) as Ht.
  destruct (parseTurn st) as [[r|st']|e|] eqn:Et; try discriminate; [|congruence].
  simpl bind. destruct (parseTurn_ok st st' Hok Et) as [Hok' Hlt].
  apply IH; [exact Hok'|lia].
Qed.

(** With the turns it needs, the loop does the same whatever is left of
    the fuel. *)
Lemma parseLoop_fuel (f1 f2 : nat) (st : pstate) :
  state_ok st -> calls_left (input st) <= f1 -> calls_left (input st) <= f2 ->
  parseLoop f1 st = parseLoop f2 st.
Proof.
  revert f2 st; induction f1 as [|f1 IH]; intros f2 st Hok H1 H2.
  { pose proof (calls_left_pos (input st) (proj2 (proj2 Hok))). lia. }
  destruct f2 as [|f2].
  { pose proof (calls_left_pos (input st) (proj2 (proj2 Hok))). lia. }
  cbn [parseLoop].
  destruct (parseTurn st) as [[r|st']|e|] eqn:Et; try reflexivity.
  simpl bind. destruct (parseTurn_ok st st' Hok Et) as [Hok' Hlt].
  apply IH; [exact Hok'|lia|lia].
Qed.

(** The loop after a turn that goes on, and after the turn that ends it. *)
Lemma parseLoop_turn (fuel : nat) (st st' : pstate) :
  state_ok st -> calls_left (input st) <= fuel ->
  parseTurn st = Ok (inr st') ->
  parseLoop fuel st = parseLoop fuel st'.
Proof.
  intros Hok Hf Et. destruct fuel as [|fuel].
  { pose proof (calls_left_pos (input st) (proj2 (proj2 Hok))). lia. }
  destruct (parseTurn_ok st st' Hok Et) as [Hok' Hlt].
  rewrite (parseLoop_fuel (S fuel) fuel st') by (auto; lia).
  cbn [parseLoop]. now rewrite Et.
Qed.

Lemma parseLoop_end (fuel : nat) (st : pstate) (r : YamlNode) :
  state_ok st -> calls_left (input st) <= fuel ->
  parseTurn st = Ok (inl r) -> parseLoop fuel st = Ok r.
Proof.
  intros Hok Hf Et. destruct fuel as [|fuel].
  { pose proof (calls_left_pos (input st) (proj2 (proj2 Hok))). lia. }
  cbn [parseLoop]. now rewrite Et.
Qed.

Lemma initial_state_ok (text : string) : state_ok (initial_state (stringstream text)).
Proof.
  repeat split; simpl.
  - exists (newYamlNode Mapping). reflexivity.
  - unfold wf_stream. simpl. lia.
Qed.

Lemma parse_not_stuck (text : string) : parse text <> Stuck.
Proof.
  unfold parse, parseStream. apply parseLoop_total; [apply initial_state_ok|].
  unfold calls_left. simpl. lia.
Qed.

(** [parse] ends on every text, with a tree or with an error: every turn
    of the loop of [parseStream] leaves the stream at least one byte
    further, also after the look ahead for the type of a child and after a
    block scalar has put back the line that ends it, and every pointer on
    the stack points at a node of the tree. *)
Theorem parse_returns_or_throws :
  forall text : string,
    (exists n, parse text = Ok n) \/ (exists e, parse text = Throw e).
Proof.
  intros text. pose proof (parse_not_stuck text) as H.
  destruct (parse text) as [n|e|]; [left; now exists n|right; now exists e|congruence].
Qed.

(** ** The small helpers: [trim], [rtrim], [getIndent], [unescape], [iequals] *)

Lemma lstrip_split (s : string) :
  exists a, s = a ++ lstrip s /\ blank_only a = true.
Proof.
  induction s as [|c r [a [H1 H2]]]; [now exists ""|].
  cbn [lstrip]. destruct (mem c BLANKS) eqn:E.
  - exists (String c a). cbn [append blank_only]. rewrite E, H2.
    split; [now rewrite <- H1|reflexivity].
  - now exists "".
Qed.

Lemma rstrip_split (s : string) :
  exists b, s = rstrip s ++ b /\ blank_only b = true.
Proof.
  induction s as [|c r [b [H1 H2]]]; [now exists ""|].
  cbn [rstrip]. destruct (rstrip r) as [|d r'] eqn:Er.
  - cbn [append] in H1. subst b. destruct (mem c BLANKS) eqn:E.
    + exists (String c r). cbn [append blank_only]. now rewrite E, H2.
    + now exists r.
  - exists b. cbn [append] in *. split; [now rewrite <- H1|exact H2].
Qed.

Lemma rstrip_back (s : string) : mem (back (rstrip s)) BLANKS = false.
Proof.
  induction s as [|c r IH]; [reflexivity|].
  cbn [rstrip]. destruct (rstrip r) as [|d r'] eqn:Er.
  - destruct (mem c BLANKS) eqn:E; [reflexivity|exact E].
  - rewrite back_cons by discriminate. exact IH.
Qed.

Lemma rtrim_rstrip (s : string) : rtrim s = rstrip s.
Proof.
  unfold rtrim. pose proof (find_last_not_of_rstrip s) as H.
  destruct (find_last_not_of BLANKS s) as [l|]; [|now rewrite H].
  destruct H as [H _]. unfold substr. cbn [drop]. now rewrite Nat.add_1_r.
Qed.

(** [trim] takes off the blanks (spaces and tabs) at both ends, and
    nothing else: the text is its trimmed text between two runs of
    blanks, the trimmed text neither starts nor ends with a blank, and to
    trim it again changes nothing. *)
Theorem trim_takes_off_the_blanks :
  forall s : string,
    (exists a b, s = a ++ trim s ++ b
                 /\ blank_only a = true /\ blank_only b = true)
    /\ mem (front (trim s)) BLANKS = false
    /\ mem (back (trim s)) BLANKS = false
    /\ trim (trim s) = trim s.
Proof.
  intros s. rewrite !trim_strip. split; [|split; [|split]].
  - destruct (lstrip_split s) as [a [H1 H2]].
    destruct (rstrip_split (lstrip s)) as [b [H3 H4]].
    exists a, b. split; [|now split]. now rewrite <- H3.
  - destruct (lstrip s) as [|c r] eqn:E; [reflexivity|].
    pose proof (lstrip_front s) as Hf. rewrite E in Hf.
    specialize (Hf ltac:(discriminate)).
    rewrite rstrip_front; [exact Hf|exact Hf|discriminate].
  - apply rstrip_back.
  - now rewrite lstrip_rstrip, lstrip_idem, rstrip_idem.
Qed.

(** [rtrim] takes off the blanks at the end only: the text is its
    right-trimmed text and then a run of blanks, and the right-trimmed
    text does not end with a blank; the leading blanks are kept, and
    [trim] gives the same for both texts. *)
Theorem rtrim_takes_off_trailing_blanks :
  forall s : string,
    (exists b, s = rtrim s ++ b /\ blank_only b = true)
    /\ mem (back (rtrim s)) BLANKS = false
    /\ trim (rtrim s) = trim s.
Proof.
  intros s. rewrite rtrim_rstrip. split; [|split].
  - apply rstrip_split.
  - apply rstrip_back.
  - apply trim_rstrip.
Qed.

Lemma countLeadingSpaces_loop_shift (line : string) (k : nat) :
  countLeadingSpaces_loop line k = k + countLeadingSpaces_loop line 0.
Proof.
  revert k; induction line as [|c r IH]; intros k; cbn [countLeadingSpaces_loop]; [lia|].
  destruct (Ascii.eqb c SPACE); [|lia].
  rewrite (IH (S k)), (IH 1). lia.
Qed.

Lemma getIndent_loop_count (line : string) (k : nat) (ln : Z) :
  getIndent_loop line k ln
  = if Ascii.eqb (front (drop (countLeadingSpaces line) line)) TAB
    then Throw (mkError TabsInIndentation ln
                  (Z.of_nat (k + countLeadingSpaces line) + 1))
    else Ok (k + countLeadingSpaces line).
Proof.
  unfold countLeadingSpaces.
  revert k; induction line as [|c r IH]; intros k;
    cbn [getIndent_loop countLeadingSpaces_loop].
  - cbn [drop front]. change (Ascii.eqb NUL TAB) with false. cbv iota.
    now rewrite Nat.add_0_r.
  - destruct (Ascii.eqb c SPACE) eqn:Es.
    + rewrite (countLeadingSpaces_loop_shift r 1). cbn [Nat.add drop].
      rewrite IH. now rewrite !Nat.add_succ_r.
    + cbn [drop front]. rewrite Nat.add_0_r. reflexivity.
Qed.

(** [getIndent] and [countLeadingSpaces] count the same spaces: the one
    returns the count of the other, unless the byte after the leading
    spaces is a tab; then it throws, with the line number it was given and
    the column of the tab. *)
Theorem getIndent_counts_leading_spaces :
  forall (line : string) (lineNum : Z),
    getIndent line lineNum
    = if Ascii.eqb (front (drop (countLeadingSpaces line) line)) TAB
      then Throw (mkError TabsInIndentation lineNum
                    (Z.of_nat (countLeadingSpaces line) + 1))
      else Ok (countLeadingSpaces line).
Proof. intros line ln. unfold getIndent. now rewrite getIndent_loop_count. Qed.

Lemma unescape_two_steps (P : string -> Prop) :
  P "" -> (forall c, P (String c "")) ->
  (forall c d r, P r -> P (String d r) -> P (String c (String d r))) ->
  forall s, P s.
Proof.
  intros H0 H1 H2 s.
  enough (P s /\ forall c, P (String c s)) by tauto.
  induction s as [|d r [IH1 IH2]]; [split; auto|].
  split; [apply IH2|]. intros c. apply H2; auto.
Qed.

(** [unescape] never makes a text longer, and leaves a text without a
    backslash as it is. *)
Theorem unescape_shortens :
  forall s : string,
    String.length (unescape s) <= String.length s
    /\ (find BACKSLASH s = None -> unescape s = s).
Proof.
  intros s. pattern s. apply unescape_two_steps; clear s.
  - split; auto.
  - intros c. cbn [unescape]. destruct (Ascii.eqb c BACKSLASH); split; auto.
  - intros c d r [L1 E1] [L2 E2]. cbn [unescape find] in *.
    destruct (Ascii.eqb c BACKSLASH) eqn:Ec.
    + split; [cbn [String.length]; lia|discriminate].
    + destruct (Ascii.eqb d BACKSLASH) eqn:Ed.
      * split; [cbn [String.length] in *; lia|discriminate].
      * split; [cbn [String.length] in *; lia|].
        intros H. f_equal. apply E2.
        destruct (find BACKSLASH r); [discriminate|reflexivity].
Qed.

Lemma unescape_shortens_witness : unescape "a b" = "a b".
Proof. exact (proj2 (unescape_shortens "a b") eq_refl). Defined.

Lemma iequals_length (a b : string) :
  iequals a b = true -> String.length a = String.length b.
Proof.
  revert b; induction a as [|c a IH]; intros [|d b] H; try discriminate; auto.
  cbn [iequals] in H. apply andb_prop in H as [_ H]. cbn [String.length].
  now rewrite (IH b H).
Qed.

(** [iequals] is an equivalence on texts that relates texts of the same
    length only: it holds when the texts are the same once every upper
    case letter is made lower case. *)
Theorem iequals_equivalence :
  forall a b c : string,
    iequals a a = true
    /\ iequals a b = iequals b a
    /\ (iequals a b = true -> iequals b c = iequals a c)
    /\ (iequals a b = true -> String.length a = String.length b)
    /\ (iequals a b = true <-> lower a = lower b).
Proof.
  intros a b c. rewrite !iequals_lower. split; [|split; [|split; [|split]]].
  - apply String.eqb_refl.
  - apply String.eqb_sym.
  - intros H. apply String.eqb_eq in H. now rewrite H.
  - intros H. apply iequals_length. now rewrite iequals_lower.
  - apply String.eqb_eq.
Qed.

(** ** The loop of [parseStream], line by line *)

Lemma getlines_spec (rest : string) :
  match getlines LF rest with
  | [] => rest = ""
  | l :: ls =>
      find LF l = None
      /\ ((exists rest', rest = l ++ String LF rest' /\ getlines LF rest' = ls)
          \/ (rest = l /\ l <> "" /\ ls = []))
  end.
Proof.
  induction rest as [|c r IH]; [reflexivity|].
  cbn [getlines]. destruct (Ascii.eqb c LF) eqn:Ec.
  - apply Ascii.eqb_eq in Ec. subst c. split; [reflexivity|].
    left. now exists r.
  - destruct (getlines LF r) as [|l' ls'].
    + subst r. split; [cbn [find]; now rewrite Ec|]. right. repeat split. discriminate.
    + destruct IH as [Hf [[rest' [H1 H2]]|[H1 [H2 H3]]]].
      * split; [cbn [find]; now rewrite Ec, Hf|]. left. exists rest'.
        split; [now rewrite H1|exact H2].
      * split; [cbn [find]; now rewrite Ec, Hf|]. right.
        repeat split; [now rewrite H1|discriminate|exact H3].
Qed.

Lemma getline_at_last (pre l : string) :
  find LF l = None -> l <> "" ->
  getline (mkStream (pre ++ l) (String.length pre) false false)
  = (Some l, mkStream (pre ++ l) (String.length (pre ++ l)) true false).
Proof.
  intros Hf Hne. unfold getline, good. cbn [eofbit failbit negb andb buf gpos].
  rewrite drop_append, Hf. destruct l; [congruence|reflexivity].
Qed.

(** What [std::getline] finds at [stream_at pre rest e]: the first of the
    lines of [rest], and no line when there is none. *)
Lemma getline_stream_at (pre rest : string) (e : bool) :
  (e = true -> rest = "") ->
  match getlines LF rest with
  | [] => fst (getline (stream_at pre rest e)) = None
          /\ good (snd (getline (stream_at pre rest e))) = false
  | l :: ls =>
      exists pre' rest' e',
        getline (stream_at pre rest e) = (Some l, stream_at pre' rest' e')
        /\ pre' ++ rest' = pre ++ rest
        /\ getlines LF rest' = ls
        /\ (e' = true -> rest' = "")
        /\ find LF l = None
  end.
Proof.
  intros He. pose proof (getlines_spec rest) as Hs.
  destruct (getlines LF rest) as [|l ls].
  - subst rest. unfold stream_at, getline, good.
    cbn [eofbit failbit negb andb buf gpos]. rewrite andb_true_r.
    destruct e; cbn [negb]; [split; reflexivity|].
    rewrite drop_append. cbn [find empty]. split; reflexivity.
  - destruct Hs as [Hf [[rest' [H1 H2]]|[H1 [H2 H3]]]].
    + destruct e; [specialize (He eq_refl); subst rest; destruct l; discriminate|].
      exists (pre ++ l ++ String LF ""), rest', false.
      unfold stream_at. rewrite !append_assoc. cbn [append].
      rewrite (getline_at (pre ++ rest) pre l rest') by (try rewrite H1; auto).
      rewrite !length_append. cbn [String.length]. rewrite H1, Nat.add_assoc.
      repeat split; auto. discriminate.
    + destruct e; [specialize (He eq_refl); congruence|].
      exists (pre ++ rest), "", true. unfold stream_at.
      rewrite append_nil_r. subst l. rewrite getline_at_last by auto.
      repeat split; auto.
Qed.

(** The turn of the loop on the next line. *)
Lemma parseTurn_line (st : pstate) (pre rest : string) (e : bool)
    (l : string) (ls : list string) :
  input st = stream_at pre rest e -> (e = true -> rest = "") ->
  getlines LF rest = l :: ls ->
  exists pre' rest' e',
    pre' ++ rest' = pre ++ rest
    /\ getlines LF rest' = ls
    /\ (e' = true -> rest' = "")
    /\ find LF l = None
    /\ parseTurn st
       = (st' <- parseLine (line_state st (stream_at pre' rest' e')) l ;;
          Ok (inr st')).
Proof.
  intros Hin He Hl. pose proof (getline_stream_at pre rest e He) as Hg.
  rewrite Hl in Hg. destruct Hg as (pre' & rest' & e' & Hg & H1 & H2 & H3 & H4).
  exists pre', rest', e'. repeat split; auto.
  unfold parseTurn. now rewrite Hin, Hg.
Qed.

(** The turn of the loop when no line is left. *)
Lemma parseTurn_no_line (st : pstate) (pre rest : string) (e : bool) :
  input st = stream_at pre rest e -> (e = true -> rest = "") ->
  getlines LF rest = [] -> parseTurn st = Ok (inl (root st)).
Proof.
  intros Hin He Hl. pose proof (getline_stream_at pre rest e He) as Hg.
  rewrite Hl in Hg. destruct Hg as [Hg _].
  unfold parseTurn. rewrite Hin.
  destruct (getline (stream_at pre rest e)) as [[l|] s]; [discriminate|reflexivity].
Qed.

Lemma stream_at_wf (pre rest : string) (e : bool) : wf_stream (stream_at pre rest e).
Proof. unfold wf_stream, stream_at. cbn [buf gpos]. rewrite length_append. lia. Qed.

Lemma stream_at_calls (pre rest : string) (e : bool) :
  calls_left (stream_at pre rest e) <= S (String.length (pre ++ rest)).
Proof. apply (calls_left_bound (stream_at pre rest e)), stream_at_wf. Qed.

(** A text of blank lines: the loop skips every line. *)
Lemma blank_lines_run (ls : list string) :
  forall (pre rest : string) (e : bool) (st : pstate) (fuel : nat),
    getlines LF rest = ls -> forallb is_blank ls = true ->
    state_ok st -> input st = stream_at pre rest e -> (e = true -> rest = "") ->
    calls_left (input st) <= fuel ->
    parseLoop fuel st = Ok (root st).
Proof.
  induction ls as [|l ls IH]; intros pre rest e st fuel Hl Hb Hok Hin He Hf.
  - apply parseLoop_end; auto. now apply (parseTurn_no_line st pre rest e).
  - cbn [forallb] in Hb. apply andb_prop in Hb as [Hb1 Hb2].
    destruct (parseTurn_line st pre rest e l ls Hin He Hl)
      as (pre' & rest' & e' & H1 & H2 & H3 & H4 & Ht).
    assert (Hp : parseLine (line_state st (stream_at pre' rest' e')) l
                 = Ok (line_state st (stream_at pre' rest' e'))).
    { unfold parseLine. fold (is_blank l). now rewrite Hb1. }
    rewrite Hp in Ht. simpl bind in Ht.
    rewrite (parseLoop_turn fuel st _ Hok Hf Ht).
    destruct (parseTurn_ok st _ Hok Ht) as [Hok' Hlt].
    rewrite (IH pre' rest' e' _ fuel H2 Hb2 Hok' eq_refl H3); [reflexivity|].
    cbn [input line_state] in Hlt |- *. lia.
Qed.

(** A text in which every line is empty, blank or a comment is an empty
    document: [parse] returns the empty root mapping (and so it does for
    the empty text). *)
Theorem parse_blank_text :
  forall text : string,
    forallb is_blank (getlines LF text) = true ->
    parse text = Ok (newYamlNode Mapping).
Proof.
  intros text Hb. unfold parse, parseStream.
  apply (blank_lines_run (getlines LF text) "" text false); auto.
  - apply initial_state_ok.
  - discriminate.
  - apply (stream_at_calls "" text false).
Qed.

Lemma parse_blank_text_witness :
  parse ("# a comment" ++ nl ++ "   " ++ nl ++ nl) = Ok (newYamlNode Mapping).
Proof. apply parse_blank_text. vm_compute. reflexivity. Defined.

(** ** Writes through a pointer *)

Lemma map_alter_ext {A : Type} (f g : A -> A) (key : string) (m : list (string * A)) :
  (forall v, f v = g v) -> map_alter f key m = map_alter g key m.
Proof.
  intros H. induction m as [|[k v] m IH]; [reflexivity|]. simpl.
  destruct (String.eqb k key); [now rewrite H|now rewrite IH].
Qed.

Lemma list_alter_ext {A : Type} (f g : A -> A) (i : nat) (l : list A) :
  (forall v, f v = g v) -> list_alter f i l = list_alter g i l.
Proof.
  intros H. revert i; induction l as [|x l IH]; intros [|i]; simpl; auto.
  - now rewrite H.
  - now rewrite IH.
Qed.

Lemma map_alter_alter {A : Type} (f g : A -> A) (key : string) (m : list (string * A)) :
  map_alter g key (map_alter f key m) = map_alter (fun v => g (f v)) key m.
Proof.
  induction m as [|[k v] m IH]; [reflexivity|]. simpl.
  destruct (String.eqb k key) eqn:E; simpl; rewrite E; [reflexivity|now rewrite IH].
Qed.

Lemma list_alter_alter {A : Type} (f g : A -> A) (i : nat) (l : list A) :
  list_alter g i (list_alter f i l) = list_alter (fun v => g (f v)) i l.
Proof.
  revert i; induction l as [|x l IH]; intros [|i]; simpl; auto. now rewrite IH.
Qed.

Lemma map_alter_same {A : Type} (f : A -> A) (key : string) (m : list (string * A)) (v : A) :
  map_find key m = Some v -> f v = v -> map_alter f key m = m.
Proof.
  intros Hf Hv. induction m as [|[k w] m IH]; [reflexivity|]. simpl in *.
  destruct (String.eqb k key); [injection Hf as ->; now rewrite Hv|].
  now rewrite IH.
Qed.

Lemma list_alter_same {A : Type} (f : A -> A) (i : nat) (l : list A) (v : A) :
  nth_error l i = Some v -> f v = v -> list_alter f i l = l.
Proof.
  intros Hf Hv. revert i Hf; induction l as [|x l IH]; intros [|i] Hf; simpl in *; auto.
  - injection Hf as ->. now rewrite Hv.
  - now rewrite IH.
Qed.

Lemma node_update_ext (p : path) (f g : YamlNode -> YamlNode) (r : YamlNode) :
  (forall n, f n = g n) -> node_update p f r = node_update p g r.
Proof.
  intros H. revert r; induction p as [|[k|i] p IH]; intros r; simpl; auto.
  - f_equal. now apply map_alter_ext.
  - f_equal. now apply list_alter_ext.
Qed.

(** Two writes through the same pointer are one write. *)
Lemma node_update_update (p : path) (f g : YamlNode -> YamlNode) (r : YamlNode) :
  node_update p g (node_update p f r) = node_update p (fun n => g (f n)) r.
Proof.
  revert r; induction p as [|[k|i] p IH]; intros r; simpl; auto.
  - unfold set_mapping. simpl. f_equal. rewrite map_alter_alter.
    now apply map_alter_ext.
  - unfold set_sequence. simpl. f_equal. rewrite list_alter_alter.
    now apply list_alter_ext.
Qed.

(** A write of what is there changes nothing. *)
Lemma node_update_same (p : path) (f : YamlNode -> YamlNode) (r n : YamlNode) :
  node_at p r = Some n -> f n = n -> node_update p f r = r.
Proof.
  revert r; induction p as [|[k|i] p IH]; intros r Hn Hf; simpl in *.
  - now injection Hn as ->.
  - destruct (map_find k (mapping r)) as [c|] eqn:Ec; [|discriminate].
    rewrite (map_alter_same _ k _ c Ec (IH c Hn Hf)). now destruct r.
  - destruct (nth_error (sequence r) i) as [c|] eqn:Ec; [|discriminate].
    rewrite (list_alter_same _ i _ c Ec (IH c Hn Hf)). now destruct r.
Qed.

(** ** Block sequences *)

Lemma find_spaces (c : ascii) (d : nat) :
  Ascii.eqb SPACE c = false -> find c (spaces d) = None.
Proof.
  intros H. induction d as [|d IH]; [reflexivity|].
  cbn [spaces find]. now rewrite H, IH.
Qed.

Lemma length_spaces (d : nat) : String.length (spaces d) = d.
Proof. induction d as [|d IH]; [reflexivity|]. cbn [spaces String.length]. now rewrite IH. Qed.

Lemma drop_spaces (d : nat) (body : string) : drop d (spaces d ++ body) = body.
Proof. rewrite <- (length_spaces d) at 1. apply drop_append. Qed.

Lemma pop_frames_keep (indent fi : Z) (cur : path) (below : list (path * Z)) :
  (fi < indent)%Z -> pop_frames indent ((cur, fi) :: below) = (cur, fi) :: below.
Proof.
  intros H. destruct below as [|g below]; [reflexivity|].
  change (pop_frames indent ((cur, fi) :: g :: below))
    with (if (indent <=? fi)%Z then pop_frames indent (g :: below)
          else (cur, fi) :: g :: below).
  destruct (indent <=? fi)%Z eqn:E; [apply Z.leb_le in E; lia|reflexivity].
Qed.

Lemma trimmed_text (x : string) :
  String.eqb (trim x) x = true -> lstrip x = x /\ rstrip x = x.
Proof.
  intros H. apply String.eqb_eq in H. rewrite trim_strip in H. split.
  - rewrite <- H at 1. now rewrite lstrip_rstrip, lstrip_idem.
  - rewrite <- H at 1. now rewrite rstrip_idem.
Qed.

Lemma seq_item_text_facts (x : string) :
  seq_item_text x = true ->
  find LF x = None /\ find "#" x = None /\ find ":" x = None
  /\ x <> "" /\ trim x = x /\ rstrip x = x.
Proof.
  unfold seq_item_text. intros H. do 4 (apply andb_prop in H as [H ?]).
  apply lacks_true in H, H3, H2. repeat split; auto.
  - destruct x; [discriminate|discriminate].
  - now apply String.eqb_eq.
  - now apply trimmed_text.
Qed.

(** The body of the loop on the line of a plain sequence item. *)
Lemma parseLine_dash_line (st : pstate) (cur : path) (fi : Z)
    (below : list (path * Z)) (n : YamlNode) (d : nat) (x : string) :
  stack st = (cur, fi) :: below -> (fi < Z.of_nat d)%Z ->
  lastScalarNode st = None -> node_at cur (root st) = Some n ->
  seq_item_text x = true ->
  parseLine st (dash_line d x)
  = Ok (mkState (node_update cur (push_item (scalar_node x)) (root st))
          (stack st) None (linecount st) (input st)).
Proof.
  intros Hs Hfi Hl Hn Hx.
  destruct (seq_item_text_facts x Hx) as (X1 & X2 & X3 & X4 & X5 & X6).
  assert (Hbody : starts_text ("- " ++ x) = true) by reflexivity.
  assert (Hc : strip_comment (dash_line d x) = dash_line d x).
  { unfold strip_comment, dash_line.
    rewrite find_append_none; [reflexivity|now apply find_spaces|].
    cbn [append find]. change (Ascii.eqb "-" "#") with false.
    change (Ascii.eqb " " "#") with false. cbv iota. now rewrite X2. }
  assert (Ht : trim ("- " ++ x) = "- " ++ x).
  { rewrite trim_strip. cbn [append lstrip].
    change (mem "-" BLANKS) with false. cbv iota.
    rewrite rstrip_cons by reflexivity.
    change (String " " x) with (" " ++ x).
    rewrite rstrip_append by (rewrite X6; exact X4). now rewrite X6. }
  assert (Htl : trim (dash_line d x) = "- " ++ x).
  { unfold dash_line. rewrite trim_strip, lstrip_spaces, <- trim_strip. exact Ht. }
  assert (He : empty (dash_line d x) = false).
  { unfold dash_line. destruct d; reflexivity. }
  assert (Hgi : getIndent (dash_line d x) (linecount st) = Ok d).
  { unfold getIndent, dash_line.
    now rewrite (getIndent_loop_spaces d 0 ("- " ++ x) (linecount st) Hbody). }
  assert (Hd : drop d (dash_line d x) = "- " ++ x) by apply drop_spaces.
  unfold parseLine. rewrite Hc, Htl, He, Hgi. cbn [append empty orb].
  simpl bind. rewrite Hd, Ht, Hs.
  rewrite pop_frames_keep by exact Hfi. rewrite Hl, andb_false_r.
  cbn [append front]. change (Ascii.eqb "-" "-") with true. cbv iota.
  unfold sequence_line. rewrite Hn. cbn [drop].
  rewrite (trim_cons_blank " " x eq_refl), X5.
  assert (Hi : sequence_item x = scalar_node x).
  { unfold sequence_item. destruct x; [congruence|]. cbn [empty negb].
    now rewrite X3. }
  rewrite Hi. cbn [scalar_node type set_scalarValue newYamlNode YamlNodeType_eqb andb].
  rewrite Hl. reflexivity.
Qed.

(** The loop on the lines of plain sequence items, to the end of the
    text: the items are appended to the container of the top frame. *)
Lemma dash_lines_run (d : nat) (xs : list string) :
  forall (pre rest : string) (e : bool) (st : pstate) (fuel : nat)
         (cur : path) (fi : Z) (below : list (path * Z)) (n : YamlNode),
    getlines LF rest = map (dash_line d) xs ->
    forallb seq_item_text xs = true ->
    state_ok st -> input st = stream_at pre rest e -> (e = true -> rest = "") ->
    calls_left (input st) <= fuel ->
    stack st = (cur, fi) :: below -> (fi < Z.of_nat d)%Z ->
    lastScalarNode st = None -> node_at cur (root st) = Some n ->
    parseLoop fuel st = Ok (node_update cur (fun _ => push_all xs n) (root st)).
Proof.
  induction xs as [|x xs IH];
    intros pre rest e st fuel cur fi below n Hl Hx Hok Hin He Hf Hs Hfi Hls Hn.
  - rewrite (node_update_same cur (fun _ => push_all [] n) (root st) n Hn eq_refl).
    apply parseLoop_end; auto. now apply (parseTurn_no_line st pre rest e).
  - cbn [forallb map] in Hx, Hl. apply andb_prop in Hx as [Hx1 Hx2].
    destruct (parseTurn_line st pre rest e _ _ Hin He Hl)
      as (pre' & rest' & e' & H1 & H2 & H3 & H4 & Ht).
    rewrite (parseLine_dash_line (line_state st (stream_at pre' rest' e'))
               cur fi below n d x Hs Hfi Hls Hn Hx1) in Ht.
    simpl bind in Ht. cbn [root stack linecount input line_state] in Ht.
    rewrite (parseLoop_turn fuel st _ Hok Hf Ht).
    destruct (parseTurn_ok st _ Hok Ht) as [Hok' Hlt].
    rewrite (IH pre' rest' e' _ fuel cur fi below (push_item (scalar_node x) n)
               H2 Hx2 Hok' eq_refl H3); cbn [root stack lastScalarNode input];
      auto.
    + now rewrite node_update_update.
    + cbn [input] in Hlt. lia.
    + now apply node_at_update.
Qed.

Lemma push_all_sequence (xs : list string) (m : YamlNode) :
  type m = Sequence ->
  push_all xs m = set_sequence (sequence m ++ map scalar_node xs)%list m.
Proof.
  unfold push_all. revert m; induction xs as [|x xs IH]; intros m Hm.
  - destruct m. cbn. now rewrite app_nil_r.
  - cbn [fold_left map]. unfold push_item at 2. unfold retype. rewrite Hm.
    cbn [YamlNodeType_eqb negb]. rewrite IH by (now destruct m).
    destruct m. cbn. now rewrite <- app_assoc.
Qed.

Lemma push_all_root (x : string) (xs : list string) :
  push_all (x :: xs) (newYamlNode Mapping) = sequence_of (x :: xs).
Proof.
  unfold push_all. cbn [fold_left]. fold (push_all xs).
  now rewrite push_all_sequence.
Qed.

Lemma block_sequence_parse (text : string) (d : nat) (x : string) (xs : list string) :
  getlines LF text = map (dash_line d) (x :: xs) ->
  forallb seq_item_text (x :: xs) = true ->
  parse text = Ok (sequence_of (x :: xs)).
Proof.
  intros Hl Hx. unfold parse, parseStream.
  rewrite (dash_lines_run d (x :: xs) "" text false _ _ [] (-1)%Z []
             (newYamlNode Mapping) Hl Hx (initial_state_ok text) eq_refl);
    try reflexivity; try lia; try discriminate.
  - cbn [node_update root initial_state]. now rewrite push_all_root.
  - apply (stream_at_calls "" text false).
Qed.

(** A text whose lines are the lines of plain sequence items, all at the
    same indentation, is a sequence: [parse] returns a root of type
    Sequence with the items as plain scalars, in the order of the lines. *)
Theorem parse_block_sequence :
  forall (text : string) (d : nat) (x : string) (xs : list string),
    getlines LF text = map (dash_line d) (x :: xs) ->
    forallb seq_item_text (x :: xs) = true ->
    parse text = Ok (sequence_of (x :: xs)).
Proof. exact block_sequence_parse. Qed.

Lemma parse_block_sequence_witness :
  parse ("  - apple" ++ nl ++ "  - banana" ++ nl)
  = Ok (sequence_of ["apple"; "banana"]).
Proof.
  apply (parse_block_sequence _ 2 "apple" ["banana"]); vm_compute; reflexivity.
Defined.

(** The look ahead of a key without value when a line follows: the type
    is read off that line, and the stream is put back before it. *)
Lemma peek_type_next_line (ln : Z) (pre rest : string) (e : bool)
    (l : string) (ls : list string) :
  (e = true -> rest = "") -> getlines LF rest = l :: ls ->
  peek_type ln (stream_at pre rest e)
  = (peekIndent <- getIndent l (ln + 1) ;;
     Ok (if negb (empty (trim (drop peekIndent l)))
            && Ascii.eqb (front (trim (drop peekIndent l))) "-"
         then Sequence else Mapping,
         stream_at pre rest false)).
Proof.
  intros He Hl. destruct e; [rewrite (He eq_refl) in Hl; discriminate|].
  pose proof (getline_stream_at pre rest false He) as Hg. rewrite Hl in Hg.
  destruct Hg as (pre' & rest' & e' & Hg & H1 & _).
  unfold peek_type, tellg.
  change (good (stream_at pre rest false)) with true. cbn [negb].
  rewrite Hg. destruct (getIndent l (ln + 1)) as [peekIndent| |]; try reflexivity.
  simpl bind. do 2 f_equal.
  unfold seekg, seek_to, stream_at. cbn [failbit buf gpos]. rewrite H1.
  assert (Hr : ((0 <=? Z.of_nat (String.length pre))%Z
                && (Z.of_nat (String.length pre)
                    <=? Z.of_nat (String.length (pre ++ rest)))%Z) = true).
  { apply andb_true_intro. rewrite length_append. split; apply Z.leb_le; lia. }
  rewrite Hr. now rewrite Nat2Z.id.
Qed.

Lemma valid_key_text_facts (k : string) :
  valid_key_text k = true ->
  exists indent, getIndent k 0 = Ok indent /\ empty (trim k) = false.
Proof.
  unfold valid_key_text. intros H. do 2 (apply andb_prop in H as [H ?]).
  apply andb_prop in H as [_ H].
  destruct (getIndent k 0) as [indent| |]; try discriminate.
  exists indent. split; [reflexivity|]. now destruct (empty (trim k)).
Qed.



(** ** The printer and the emitter on sequences, read back *)

Lemma getlines_line (l rest : string) :
  find LF l = None -> getlines LF (l ++ String LF rest) = l :: getlines LF rest.
Proof.
  induction l as [|c l IH]; intros Hf.
  - cbn [append getlines]. now rewrite ascii_eqb_refl.
  - cbn [find] in Hf. destruct (Ascii.eqb c LF) eqn:Ec; [discriminate|].
    cbn [append getlines]. rewrite Ec, IH; [reflexivity|].
    now destruct (find LF l).
Qed.

Lemma getlines_unlines (ls : list string) :
  forallb (lacks LF) ls = true -> getlines LF (unlines ls) = ls.
Proof.
  induction ls as [|l ls IH]; [reflexivity|]. cbn [forallb unlines].
  intros H. apply andb_prop in H as [H1 H2].
  rewrite getlines_line by now apply lacks_true. now rewrite IH.
Qed.

Lemma dash_line_lacks_LF (d : nat) (x : string) :
  seq_item_text x = true -> lacks LF (dash_line d x) = true.
Proof.
  intros Hx. destruct (seq_item_text_facts x Hx) as (X1 & _).
  unfold lacks, dash_line. rewrite find_append_none; auto.
  - now apply find_spaces.
  - cbn [append find]. change (Ascii.eqb "-" LF) with false.
    change (Ascii.eqb " " LF) with false. cbv iota. now rewrite X1.
Qed.

Lemma dash_lines_lack_LF (d : nat) (xs : list string) :
  forallb seq_item_text xs = true ->
  forallb (lacks LF) (map (dash_line d) xs) = true.
Proof.
  induction xs as [|x xs IH]; [reflexivity|]. cbn [forallb map]. intros H.
  apply andb_prop in H as [H1 H2]. now rewrite dash_line_lacks_LF, IH.
Qed.

Lemma printYamlNode_sequence (xs : list string) :
  printYamlNode (sequence_of xs) 0 = unlines (map (dash_line 0) xs).
Proof.
  unfold sequence_of. cbn [printYamlNode Nat.mul fill append].
  induction xs as [|x xs IH]; [reflexivity|].
  cbn [map unlines]. rewrite <- IH.
  change (isScalar (scalar_node x)) with true.
  change (scalarValue (scalar_node x)) with x. cbv iota.
  unfold dash_line, endl. cbn [spaces append]. now rewrite append_assoc.
Qed.

Lemma emitYaml_long_sequence (xs : list string) :
  5 < List.length xs ->
  toYamlString (sequence_of xs) = unlines (map (dash_line 0) xs).
Proof.
  intros Hlen. unfold toYamlString, sequence_of. cbn [emitYaml Nat.mul fill append].
  assert (Hle : (List.length (map scalar_node xs) <=? 5)%nat = false).
  { apply Nat.leb_gt. now rewrite length_map. }
  rewrite Hle, andb_false_r. clear Hlen Hle.
  induction xs as [|x xs IH]; [reflexivity|].
  cbn [map unlines]. rewrite <- IH.
  change (plain_scalar (scalar_node x)) with true.
  change (scalarValue (scalar_node x)) with x. cbv iota.
  unfold dash_line, endl. cbn [spaces append]. now rewrite append_assoc.
Qed.

(** What [printYamlNode] writes for a sequence of plain items is read
    back by [parse] as that sequence. *)
Theorem print_parse_sequence :
  forall (x : string) (xs : list string),
    forallb seq_item_text (x :: xs) = true ->
    parse (printYamlNode (sequence_of (x :: xs)) 0) = Ok (sequence_of (x :: xs)).
Proof.
  intros x xs Hx. apply (block_sequence_parse _ 0); [|exact Hx].
  rewrite printYamlNode_sequence. apply getlines_unlines.
  now apply dash_lines_lack_LF.
Qed.

Lemma print_parse_sequence_witness :
  parse (printYamlNode (sequence_of ["a"; "b c"]) 0) = Ok (sequence_of ["a"; "b c"]).
Proof. apply print_parse_sequence. vm_compute. reflexivity. Defined.

(** ** The first content line of a text, and its errors *)

Lemma parseLoop_line (fuel : nat) (st st1 : pstate) (l : string) :
  state_ok st -> calls_left (input st) <= fuel ->
  parseTurn st = (st' <- parseLine st1 l ;; Ok (inr st')) ->
  parseLoop fuel st = (st' <- parseLine st1 l ;; parseLoop fuel st').
Proof.
  intros Hok Hf Ht. destruct (parseLine st1 l) as [st'| |] eqn:Ep; simpl bind in *.
  - now apply parseLoop_turn.
  - destruct fuel as [|fuel]; [pose proof (calls_left_pos _ (proj2 (proj2 Hok))); lia|].
    cbn [parseLoop]. now rewrite Ht.
  - destruct fuel as [|fuel]; [pose proof (calls_left_pos _ (proj2 (proj2 Hok))); lia|].
    cbn [parseLoop]. now rewrite Ht.
Qed.

(** The loop up to the first line that is not blank: the blank lines
    before it are counted and skipped. *)
Lemma first_content_line (blanks : list string) :
  forall (pre rest : string) (e : bool) (st : pstate) (fuel : nat)
         (l : string) (ls : list string),
    getlines LF rest = (blanks ++ l :: ls)%list ->
    forallb is_blank blanks = true ->
    state_ok st -> input st = stream_at pre rest e -> (e = true -> rest = "") ->
    calls_left (input st) <= fuel ->
    exists pre' rest' e',
      pre' ++ rest' = pre ++ rest
      /\ getlines LF rest' = ls
      /\ (e' = true -> rest' = "")
      /\ find LF l = None
      /\ parseLoop fuel st
         = (st' <- parseLine
                     (mkState (root st) (stack st) (lastScalarNode st)
                        (linecount st + Z.of_nat (List.length blanks) + 1)%Z
                        (stream_at pre' rest' e')) l ;;
            parseLoop fuel st').
Proof.
  induction blanks as [|b blanks IH]; intros pre rest e st fuel l ls Hl Hb Hok Hin He Hf.
  - cbn [app] in Hl.
    destruct (parseTurn_line st pre rest e l ls Hin He Hl)
      as (pre' & rest' & e' & H1 & H2 & H3 & H4 & Ht).
    exists pre', rest', e'. repeat split; auto.
    cbn [List.length Z.of_nat]. rewrite Z.add_0_r.
    now apply parseLoop_line.
  - cbn [app forallb] in Hl, Hb. apply andb_prop in Hb as [Hb1 Hb2].
    destruct (parseTurn_line st pre rest e b _ Hin He Hl)
      as (pre1 & rest1 & e1 & H1 & H2 & H3 & H4 & Ht).
    assert (Hp : parseLine (line_state st (stream_at pre1 rest1 e1)) b
                 = Ok (line_state st (stream_at pre1 rest1 e1))).
    { unfold parseLine. fold (is_blank b). now rewrite Hb1. }
    rewrite Hp in Ht. simpl bind in Ht.
    rewrite (parseLoop_turn fuel st _ Hok Hf Ht).
    destruct (parseTurn_ok st _ Hok Ht) as [Hok' Hlt].
    destruct (IH pre1 rest1 e1 (line_state st (stream_at pre1 rest1 e1)) fuel l ls
                H2 Hb2 Hok' eq_refl H3 ltac:(cbn [input line_state] in *; lia))
      as (pre' & rest' & e' & G1 & G2 & G3 & G4 & G5).
    exists pre', rest', e'. repeat split; auto; [congruence|].
    rewrite G5. cbn [root stack lastScalarNode linecount line_state].
    replace (linecount st + 1 + Z.of_nat (List.length blanks) + 1)%Z
      with (linecount st + Z.of_nat (List.length (b :: blanks)) + 1)%Z
      by (cbn [List.length]; lia).
    reflexivity.
Qed.

(** The first content line of a text, in the state the loop starts in. *)
Lemma parse_first_content_line (text : string) (blanks : list string)
    (l : string) (ls : list string) :
  getlines LF text = (blanks ++ l :: ls)%list ->
  forallb is_blank blanks = true ->
  exists s : istream,
    parse text
    = (st' <- parseLine
                (mkState (newYamlNode Mapping) [([], (-1)%Z)] None
                   (Z.of_nat (List.length blanks) + 1)%Z s) l ;;
       parseLoop (S (String.length text)) st').
Proof.
  intros Hl Hb.
  destruct (first_content_line blanks "" text false
              (initial_state (stringstream text)) (S (String.length text)) l ls
              Hl Hb (initial_state_ok text) eq_refl ltac:(discriminate)
              (stream_at_calls "" text false))
    as (pre' & rest' & e' & _ & _ & _ & _ & H).
  exists (stream_at pre' rest' e'). exact H.
Qed.

Lemma content_after_indent (line : string) (indent : nat) (ln : Z) :
  getIndent line ln = Ok indent -> trim (drop indent line) = trim line.
Proof.
  intros H. unfold getIndent in H.
  destruct (getIndent_loop_lstrip line 0 indent ln H) as [_ Hs].
  rewrite Nat.sub_0_r in Hs. now rewrite !trim_strip, Hs.
Qed.

(** The body of the loop on a first content line whose indentation is
    accepted and that is no sequence item: it is a mapping line. *)
Lemma parseLine_first_content (s : istream) (ln : Z) (l : string) (indent : nat) :
  is_blank l = false ->
  getIndent (strip_comment l) 0 = Ok indent ->
  Ascii.eqb (front (content_of l)) "-" = false ->
  parseLine (mkState (newYamlNode Mapping) [([], (-1)%Z)] None ln s) l
  = mapping_line (mkState (newYamlNode Mapping) [([], (-1)%Z)] None ln s)
      [([], (-1)%Z)] [] indent (strip_comment l) (content_of l).
Proof.
  intros Hb Hi Hd. unfold parseLine. fold (is_blank l). rewrite Hb.
  cbn [linecount stack lastScalarNode].
  rewrite (getIndent_loop_ln _ 0 0 ln indent Hi : getIndent _ ln = Ok indent).
  simpl bind. rewrite (content_after_indent _ _ _ Hi). fold (content_of l).
  change (pop_frames (Z.of_nat indent) [([], (-1)%Z)]) with [([] : path, (-1)%Z)].
  cbv iota. rewrite andb_false_r, Hd. reflexivity.
Qed.

Lemma first_line_missing_colon (text : string) (blanks : list string) (l : string)
    (ls : list string) (indent : nat) :
  getlines LF text = (blanks ++ l :: ls)%list ->
  forallb is_blank blanks = true ->
  is_blank l = false ->
  getIndent (strip_comment l) 0 = Ok indent ->
  Ascii.eqb (front (content_of l)) "-" = false ->
  lacks ":" (content_of l) = true ->
  parse text = throw MissingColon (Z.of_nat (List.length blanks) + 1).
Proof.
  intros Hl Hb Hnb Hi Hd Hc.
  destruct (parse_first_content_line text blanks l ls Hl Hb) as [s ->].
  rewrite (parseLine_first_content s _ l indent Hnb Hi Hd).
  unfold mapping_line. rewrite (lacks_true _ _ Hc). reflexivity.
Qed.

(** A first content line without a colon that is no sequence item: the
    parse throws the missing colon error, with the number of that line. *)
Theorem parse_missing_colon :
  forall (text : string) (blanks : list string) (l : string) (ls : list string)
         (indent : nat),
    getlines LF text = (blanks ++ l :: ls)%list ->
    forallb is_blank blanks = true ->
    is_blank l = false ->
    getIndent (strip_comment l) 0 = Ok indent ->
    Ascii.eqb (front (content_of l)) "-" = false ->
    lacks ":" (content_of l) = true ->
    parse text = throw MissingColon (Z.of_nat (List.length blanks) + 1).
Proof. exact first_line_missing_colon. Qed.

Lemma parse_missing_colon_witness :
  parse ("# settings" ++ nl ++ nl ++ "key value" ++ nl ++ "a: 1")
  = throw MissingColon 3.
Proof.
  apply (parse_missing_colon _ ["# settings"; ""] "key value" ["a: 1"] 0);
    vm_compute; reflexivity.
Defined.

(** A first content line that starts with a colon: the parse throws the
    empty key error, with the number of that line. *)
Theorem parse_empty_key :
  forall (text : string) (blanks : list string) (l : string) (ls : list string)
         (indent : nat),
    getlines LF text = (blanks ++ l :: ls)%list ->
    forallb is_blank blanks = true ->
    is_blank l = false ->
    getIndent (strip_comment l) 0 = Ok indent ->
    front (content_of l) = ":"%char ->
    parse text = throw EmptyKey (Z.of_nat (List.length blanks) + 1).
Proof.
  intros text blanks l ls indent Hl Hb Hnb Hi Hc.
  destruct (parse_first_content_line text blanks l ls Hl Hb) as [s ->].
  rewrite (parseLine_first_content s _ l indent Hnb Hi) by now rewrite Hc.
  unfold mapping_line. destruct (content_of l) as [|c r] eqn:E.
  - discriminate.
  - cbn [front] in Hc. subst c. cbn [find]. 
    change (Ascii.eqb ":" ":") with true. cbv iota. reflexivity.
Qed.

Lemma parse_empty_key_witness :
  parse (nl ++ "  : value") = throw EmptyKey 2.
Proof.
  apply (parse_empty_key _ [""] "  : value" [] 2); vm_compute; reflexivity.
Defined.

Lemma find_spaces_tab (c : ascii) (n : nat) (r : string) :
  Ascii.eqb SPACE c = false -> Ascii.eqb TAB c = false ->
  find c (spaces n ++ String TAB r) = option_map (fun q => n + 1 + q) (find c r).
Proof.
  intros Hs Ht. induction n as [|n IH].
  - cbn [spaces append find]. rewrite Ht. now destruct (find c r).
  - cbn [spaces append find]. rewrite Hs, IH. now destruct (find c r).
Qed.

Lemma take_spaces_tab (n q : nat) (r : string) :
  take (n + 1 + q) (spaces n ++ String TAB r) = spaces n ++ String TAB (take q r).
Proof.
  induction n as [|n IH]; [reflexivity|].
  cbn [spaces append Nat.add take]. now rewrite IH.
Qed.

Lemma getIndent_loop_tab (n k : nat) (r : string) (ln : Z) :
  getIndent_loop (spaces n ++ String TAB r) k ln
  = Throw (mkError TabsInIndentation ln (Z.of_nat (k + n) + 1)).
Proof.
  revert k; induction n as [|n IH]; intros k.
  - cbn [spaces append getIndent_loop]. change (Ascii.eqb TAB SPACE) with false.
    rewrite ascii_eqb_refl. cbv iota. now rewrite Nat.add_0_r.
  - cbn [spaces append getIndent_loop]. rewrite ascii_eqb_refl, IH.
    now rewrite Nat.add_succ_r.
Qed.

(** A first content line with a tab after its leading spaces: the parse
    throws the tab error, with the number of that line and the column of
    the tab.  (A line of blanks only is skipped before, tabs or not.) *)
Theorem parse_tab_in_indentation :
  forall (text : string) (blanks : list string) (n : nat) (r : string)
         (ls : list string),
    getlines LF text = (blanks ++ (spaces n ++ String TAB r)%string :: ls)%list ->
    forallb is_blank blanks = true ->
    is_blank (spaces n ++ String TAB r) = false ->
    parse text
    = Throw (mkError TabsInIndentation (Z.of_nat (List.length blanks) + 1)
               (Z.of_nat n + 1)).
Proof.
  intros text blanks n r ls Hl Hb Hnb.
  destruct (parse_first_content_line text blanks _ ls Hl Hb) as [s ->].
  unfold parseLine. fold (is_blank (spaces n ++ String TAB r)). rewrite Hnb.
  assert (Hs : exists r', strip_comment (spaces n ++ String TAB r)
                          = spaces n ++ String TAB r').
  { unfold strip_comment. rewrite find_spaces_tab by reflexivity.
    destruct (find "#" r) as [q|]; cbn [option_map].
    - exists (take q r). apply take_spaces_tab.
    - now exists r. }
  destruct Hs as [r' ->]. unfold getIndent. rewrite getIndent_loop_tab.
  reflexivity.
Qed.

Lemma parse_tab_in_indentation_witness :
  parse ("  " ++ String TAB "key: 1")
  = Throw (mkError TabsInIndentation 1 3).
Proof.
  apply (parse_tab_in_indentation _ [] 2 "key: 1" []); vm_compute; reflexivity.
Defined.

Lemma find_trim_none (c : ascii) (s : string) :
  find c s = None -> find c (trim s) = None.
Proof.
  intros H. rewrite trim_strip. apply find_lstrip_none in H.
  pose proof (find_last_not_of_rstrip (lstrip s)) as Hr.
  destruct (find_last_not_of BLANKS (lstrip s)) as [i|]; [|now rewrite Hr].
  destruct Hr as [<- _]. now apply find_take_none.
Qed.

Lemma find_comma_joined (c : ascii) (xs : list string) :
  Ascii.eqb "," c = false -> Ascii.eqb " " c = false ->
  forallb (lacks c) xs = true -> find c (comma_joined xs) = None.
Proof.
  intros H1 H2. induction xs as [|x xs IH]; [reflexivity|].
  cbn [forallb]. intros H. apply andb_prop in H as [Hx Hxs].
  apply lacks_true in Hx. specialize (IH Hxs).
  destruct xs as [|y xs]; [exact Hx|].
  change (comma_joined (x :: y :: xs)) with (x ++ ", " ++ comma_joined (y :: xs)).
  apply find_append_none; [exact Hx|].
  cbn [append find]. now rewrite H1, H2, IH.
Qed.

Lemma seq_items_lack (c : ascii) (xs : list string) :
  c = LF \/ c = "#"%char \/ c = ":"%char ->
  forallb seq_item_text xs = true -> forallb (lacks c) xs = true.
Proof.
  intros Hc. induction xs as [|x xs IH]; [reflexivity|]. cbn [forallb].
  intros H. apply andb_prop in H as [Hx Hxs]. rewrite (IH Hxs), andb_true_r.
  destruct (seq_item_text_facts x Hx) as (X1 & X2 & X3 & _).
  unfold lacks. destruct Hc as [->|[->| ->]]; [now rewrite X1|now rewrite X2|now rewrite X3].
Qed.

Lemma emitYaml_short_sequence (xs : list string) :
  List.length xs <= 5 ->
  toYamlString (sequence_of xs) = ("[" ++ comma_joined xs ++ "]") ++ endl.
Proof.
  intros Hlen. unfold toYamlString, sequence_of. cbn [emitYaml Nat.mul fill].
  assert (Hle : (List.length (map scalar_node xs) <=? 5)%nat = true).
  { apply Nat.leb_le. now rewrite length_map. }
  assert (Hp : forallb plain_scalar (map scalar_node xs) = true).
  { clear. induction xs as [|x xs IH]; [reflexivity|]. cbn [map forallb]. now rewrite IH. }
  assert (Hv : map scalarValue (map scalar_node xs) = xs).
  { clear. induction xs as [|x xs IH]; [reflexivity|]. cbn [map]. now rewrite IH. }
  rewrite Hle, Hp, Hv. cbn [andb append]. now rewrite !append_assoc.
Qed.

(** What [toYamlString] writes for a root sequence of plain items is read
    back by [parse] as that sequence when it has more than five items, the
    items being written one on a line; with at most five items it is
    written in brackets on one line, which [parse] refuses for the colon
    it misses. *)
Theorem emit_parse_sequence :
  forall xs : list string,
    forallb seq_item_text xs = true ->
    parse (toYamlString (sequence_of xs))
    = if (List.length xs <=? 5)%nat then throw MissingColon 1
      else Ok (sequence_of xs).
Proof.
  intros xs Hx. destruct (List.length xs <=? 5)%nat eqn:El.
  - apply Nat.leb_le in El. rewrite (emitYaml_short_sequence xs El).
    set (l := "[" ++ comma_joined xs ++ "]").
    assert (Hf : forall c, c = LF \/ c = "#"%char \/ c = ":"%char -> find c l = None).
    { intros c Hc. unfold l. cbn [append find].
      assert (E1 : Ascii.eqb "[" c = false) by (destruct Hc as [->|[->| ->]]; reflexivity).
      assert (E2 : Ascii.eqb "]" c = false) by (destruct Hc as [->|[->| ->]]; reflexivity).
      rewrite E1. rewrite find_append_none; [reflexivity| |cbn [find]; now rewrite E2].
      apply find_comma_joined; [| |now apply seq_items_lack];
        destruct Hc as [->|[->| ->]]; reflexivity. }
    assert (Hs : strip_comment l = l).
    { unfold strip_comment. now rewrite (Hf "#"%char) by auto. }
    assert (Ht : exists r, trim l = String "[" r).
    { rewrite trim_strip. unfold l. cbn [append lstrip].
      change (mem "[" BLANKS) with false. cbv iota.
      rewrite rstrip_cons by reflexivity. eauto. }
    destruct Ht as [r Ht].
    apply (first_line_missing_colon _ [] l [] 0).
    + unfold endl. rewrite getlines_line by (apply Hf; auto). reflexivity.
    + reflexivity.
    + unfold is_blank. rewrite Hs, Ht. reflexivity.
    + rewrite Hs. reflexivity.
    + unfold content_of. rewrite Hs, Ht. reflexivity.
    + unfold content_of, lacks. rewrite Hs, find_trim_none; [reflexivity|].
      apply Hf. auto.
  - apply Nat.leb_gt in El. rewrite (emitYaml_long_sequence xs El).
    destruct xs as [|x xs]; [simpl in El; lia|].
    apply (block_sequence_parse _ 0); [|exact Hx].
    apply getlines_unlines. now apply dash_lines_lack_LF.
Qed.

Lemma emit_parse_sequence_witness :
  parse (toYamlString (sequence_of ["a"; "b"])) = throw MissingColon 1.
Proof. apply (emit_parse_sequence ["a"; "b"]). vm_compute. reflexivity. Defined.

(** ** A text with one mapping line *)

Lemma parseLine_ok (st st' : pstate) (l : string) :
  state_ok st -> parseLine st l = Ok st' -> state_ok st'.
Proof.
  intros Hok Hp. pose proof (parseLine_total st l Hok) as Ht. rewrite Hp in Ht.
  destruct Ht as (T1 & T2 & _). destruct Hok as (Hb & _ & _).
  split; [exact (parseLine_bottom st st' l Hb Hp)|now split].
Qed.

(** The body of the loop on a mapping line with a value that is no block
    indicator, in the state the loop starts in. *)
Lemma mapping_line_value (ln : Z) (s : istream) (indent colonPos : nat)
    (line content : string) :
  find ":" content = Some colonPos ->
  empty (trim (substr content 0 colonPos)) = false ->
  empty (trim (drop (colonPos + 1) content)) = false ->
  block_indicated (trim (drop (colonPos + 1) content)) = false ->
  mapping_line (mkState (newYamlNode Mapping) [([], (-1)%Z)] None ln s)
    [([], (-1)%Z)] [] indent line content
  = if negb (snd (dequote (trim (drop (colonPos + 1) content))))
       && has_colon_space (fst (dequote (trim (drop (colonPos + 1) content))))
    then throw AmbiguousColon ln
    else
      newNode <- value_node
                   (trim (fst (dequote (trim (drop (colonPos + 1) content))))) ln ;;
      Ok (mkState (root_with (trim (substr content 0 colonPos)) newNode)
            [([], (-1)%Z)]
            (if YamlNodeType_eqb (type newNode) Scalar
             then Some [PKey (trim (substr content 0 colonPos))] else None)
            ln s).
Proof.
  intros Hc Hk Hv Hb. unfold mapping_line. rewrite Hc. cbv zeta. rewrite Hk, Hv.
  cbn [negb]. cbv iota. unfold block_indicated in Hb. rewrite Hb.
  cbn [linecount input root lastScalarNode].
  destruct (dequote (trim (drop (colonPos + 1) content))) as [value1 wasQuoted].
  cbn [fst snd]. unfold has_colon_space.
  destruct (negb wasQuoted && _); [reflexivity|].
  destruct (value_node (trim value1) ln) as [newNode| |]; reflexivity.
Qed.

(** The parse of a text whose only content line is a mapping line with a
    value, no block indicator: blank lines and comments before it only
    count for the line number, and those after it change nothing. *)
Lemma parse_one_value_line (text : string) (blanks trail : list string) (k v : string) :
  getlines LF text = (blanks ++ (k ++ String ":" v)%string :: trail)%list ->
  forallb is_blank blanks = true -> forallb is_blank trail = true ->
  valid_key_text k = true -> valid_value_text v = true ->
  empty (trim v) = false -> block_indicated (trim v) = false ->
  parse text
  = if negb (snd (dequote (trim v))) && has_colon_space (fst (dequote (trim v)))
    then throw AmbiguousColon (Z.of_nat (List.length blanks) + 1)
    else
      newNode <- value_node (trim (fst (dequote (trim v))))
                   (Z.of_nat (List.length blanks) + 1) ;;
      Ok (root_with (trim k) newNode).
Proof.
  intros Hl Hb Ht Hk Hv Hne Hbi. unfold parse, parseStream.
  cbn [buf stringstream].
  remember (S (String.length text)) as fuel eqn:Hfuel.
  destruct (first_content_line blanks "" text false
              (initial_state (stringstream text)) fuel _ trail
              Hl Hb (initial_state_ok text) eq_refl ltac:(discriminate)
              ltac:(subst fuel; apply (stream_at_calls "" text false)))
    as (pre' & rest' & e' & H1 & H2 & H3 & _ & H).
  rewrite H. clear H. cbn [root stack lastScalarNode linecount initial_state Z.add].
  set (st1 := mkState (newYamlNode Mapping) [([], (-1)%Z)] None
                (Z.of_nat (List.length blanks) + 1) (stream_at pre' rest' e')).
  assert (Hok1 : state_ok st1).
  { repeat split; [exists (newYamlNode Mapping); reflexivity|apply stream_at_wf]. }
  destruct (parseLine_first_mapping st1 k v Hk Hv eq_refl eq_refl)
    as (indent & colonPos & content & _ & Hp & Hfc & Hkey & Hval & _).
  destruct (valid_key_text_facts k Hk) as (_ & _ & Hke).
  pose proof (mapping_line_value (Z.of_nat (List.length blanks) + 1)
                (stream_at pre' rest' e') indent colonPos (k ++ String ":" v) content
                Hfc) as Hm.
  rewrite Hkey, Hval in Hm. specialize (Hm Hke Hne Hbi).
  fold st1 in Hm. rewrite <- Hp in Hm.
  destruct (negb (snd (dequote (trim v))) && has_colon_space (fst (dequote (trim v)))).
  { now rewrite Hm. }
  destruct (value_node (trim (fst (dequote (trim v)))) _) as [newNode| |] eqn:En;
    simpl bind in Hm |- *; rewrite Hm; try reflexivity.
  simpl bind.
  match goal with |- parseLoop fuel ?st = _ => set (st2 := st) end.
  assert (Hok2 : state_ok st2) by exact (parseLine_ok st1 st2 _ Hok1 Hm).
  apply (blank_lines_run trail pre' rest' e' st2 fuel H2 Ht Hok2 eq_refl H3).
  cbn [input st2]. subst fuel. change ("" ++ text) with text in H1.
  pose proof (stream_at_calls pre' rest' e') as Hc. now rewrite H1 in Hc.
Qed.

(** ** Flow sequences *)

Lemma trim_idem (s : string) : trim (trim s) = trim s.
Proof. now rewrite !trim_strip, lstrip_rstrip, lstrip_idem, rstrip_idem. Qed.

Lemma getlines_sep (c : ascii) (l rest : string) :
  find c l = None -> getlines c (l ++ String c rest) = l :: getlines c rest.
Proof.
  induction l as [|d l IH]; intros Hf.
  - cbn [append getlines]. now rewrite ascii_eqb_refl.
  - cbn [find] in Hf. destruct (Ascii.eqb d c) eqn:Ec; [discriminate|].
    cbn [append getlines]. rewrite Ec, IH; [reflexivity|].
    now destruct (find c l).
Qed.

Lemma getlines_single (c : ascii) (l : string) :
  find c l = None -> l <> "" -> getlines c l = [l].
Proof.
  induction l as [|d l IH]; intros Hf Hne; [congruence|].
  cbn [find] in Hf. destruct (Ascii.eqb d c) eqn:Ec; [discriminate|].
  cbn [getlines]. rewrite Ec. destruct l as [|d' l']; [reflexivity|].
  rewrite IH; [reflexivity| |discriminate].
  now destruct (find c (String d' l')).
Qed.

Lemma lstrip_blank_prefix (pad x : string) :
  blank_only pad = true -> lstrip (pad ++ x) = lstrip x.
Proof.
  induction pad as [|c pad IH]; [reflexivity|]. cbn [blank_only append lstrip].
  intros H. apply andb_prop in H as [Hc Hp]. rewrite Hc. now apply IH.
Qed.

Lemma trim_blank_prefix (pad x : string) :
  blank_only pad = true -> trim (pad ++ x) = trim x.
Proof. intros H. now rewrite !trim_strip, lstrip_blank_prefix. Qed.

Lemma flow_item_text_facts (x : string) :
  flow_item_text x = true ->
  seq_item_text x = true /\ find "," x = None /\ dequote_flow x = x.
Proof.
  unfold flow_item_text. intros H. do 2 (apply andb_prop in H as [H ?]).
  split; [exact H|]. split; [now apply lacks_true|].
  unfold dequote_flow. unfold in_quotes in H0. apply negb_true_iff in H0.
  now rewrite H0.
Qed.

Lemma set_sequence_app (acc : YamlNode) (a : YamlNode) (l : list YamlNode) :
  set_sequence (sequence (set_sequence (sequence acc ++ [a]) acc) ++ l)%list
               (set_sequence (sequence acc ++ [a])%list acc)
  = set_sequence (sequence acc ++ a :: l)%list acc.
Proof. destruct acc. cbn. now rewrite <- app_assoc. Qed.

(** The loop of [parseFlowSequence] on items written with a comma and a
    space between them. *)
Lemma flow_items_fold (ln : Z) (xs : list string) :
  forall (x pad : string) (acc : YamlNode),
    blank_only pad = true -> find "," pad = None ->
    forallb flow_item_text (x :: xs) = true ->
    fold_left
      (fun seq item =>
         let val := trim item in
         if negb (empty val)
         then set_sequence (sequence seq ++ [scalar_node (dequote_flow val)])%list seq
         else seq)
      (getlines "," (pad ++ comma_joined (x :: xs))) acc
    = set_sequence (sequence acc ++ map scalar_node (x :: xs))%list acc.
Proof.
  induction xs as [|y xs IH]; intros x pad acc Hp Hpc Hx;
    cbn [forallb] in Hx; apply andb_prop in Hx as [Hx1 Hx2];
    destruct (flow_item_text_facts x Hx1) as (Hs & Hc & Hq);
    destruct (seq_item_text_facts x Hs) as (_ & _ & _ & Hne & Ht & _).
  - cbn [comma_joined]. rewrite getlines_single.
    + cbn [fold_left]. cbv zeta. rewrite (trim_blank_prefix pad x Hp), Ht, Hq.
      destruct x; [congruence|reflexivity].
    + now apply find_append_none.
    + destruct pad; [exact Hne|discriminate].
  - change (comma_joined (x :: y :: xs)) with (x ++ ", " ++ comma_joined (y :: xs)).
    rewrite <- append_assoc. cbn [append].
    change (String " " (comma_joined (y :: xs))) with (" " ++ comma_joined (y :: xs)).
    rewrite getlines_sep by now apply find_append_none.
    cbn [fold_left]. cbv zeta. rewrite (trim_blank_prefix pad x Hp), Ht, Hq.
    assert (He : negb (empty x) = true) by (destruct x; [congruence|reflexivity]).
    rewrite He. rewrite (IH y " " _ eq_refl eq_refl Hx2).
    cbn [map]. apply set_sequence_app.
Qed.

Lemma parseFlowSequence_joined (xs : list string) (ln : Z) :
  forallb flow_item_text xs = true ->
  parseFlowSequence (comma_joined xs) ln = sequence_of xs.
Proof.
  intros Hx. unfold parseFlowSequence. destruct xs as [|x xs]; [reflexivity|].
  change (comma_joined (x :: xs)) with ("" ++ comma_joined (x :: xs)).
  now rewrite (flow_items_fold ln xs x "" _ eq_refl eq_refl Hx).
Qed.

Lemma find_str_colon_none (s : string) :
  find ":" s = None -> find_str ": " s = None.
Proof.
  induction s as [|c s IH]; [reflexivity|]. cbn [find].
  destruct (Ascii.eqb c ":") eqn:Ec; [discriminate|]. intros H.
  assert (Hs : find ":" s = None) by now destruct (find ":" s).
  cbn [find_str starts_with]. rewrite Ascii.eqb_sym, Ec. cbn [andb].
  now rewrite (IH Hs).
Qed.

Lemma back_append_last (a : string) (c : ascii) : back (a ++ String c "") = c.
Proof.
  induction a as [|d a IH]; [reflexivity|].
  cbn [append]. rewrite back_cons; [exact IH|]. destruct a; discriminate.
Qed.

Lemma flow_items_lack (c : ascii) (xs : list string) :
  c = LF \/ c = "#"%char \/ c = ":"%char ->
  forallb flow_item_text xs = true -> forallb (lacks c) xs = true.
Proof.
  intros Hc H. apply seq_items_lack; [exact Hc|].
  induction xs as [|x xs IH]; [reflexivity|]. cbn [forallb] in *.
  apply andb_prop in H as [Hx Hxs].
  destruct (flow_item_text_facts x Hx) as (Hs & _). now rewrite Hs, IH.
Qed.

(** The value of a key written as a flow sequence, the items with a comma
    and a space between them as the emitter writes them: [parse] stores a
    sequence of the items as plain scalars, in their order; an empty pair
    of brackets gives the empty sequence. *)
Theorem parse_flow_sequence_value :
  forall (text : string) (blanks trail : list string) (k v : string)
         (xs : list string),
    getlines LF text = (blanks ++ (k ++ String ":" v)%string :: trail)%list ->
    forallb is_blank blanks = true -> forallb is_blank trail = true ->
    valid_key_text k = true -> valid_value_text v = true ->
    trim v = "[" ++ comma_joined xs ++ "]" ->
    forallb flow_item_text xs = true ->
    parse text = Ok (root_with (trim k) (sequence_of xs)).
Proof.
  intros text blanks trail k v xs Hl Hb Ht Hk Hv Hval Hx.
  rewrite (parse_one_value_line text blanks trail k v Hl Hb Ht Hk Hv);
    rewrite Hval; try reflexivity.
  assert (Hc : find ":" ("[" ++ comma_joined xs ++ "]") = None).
  { cbn [append find]. change (Ascii.eqb "[" ":") with false. cbv iota.
    rewrite find_append_none; [reflexivity| |reflexivity].
    apply find_comma_joined; [reflexivity|reflexivity|].
    apply flow_items_lack; auto. }
  change (dequote ("[" ++ comma_joined xs ++ "]"))
    with ("[" ++ comma_joined xs ++ "]", false).
  cbn [fst snd negb andb]. unfold has_colon_space.
  rewrite (find_str_colon_none _ Hc). rewrite <- Hval, trim_idem, Hval.
  unfold value_node. cbn [append front].
  change (Ascii.eqb "[" "[") with true.
  change (String "[" (comma_joined xs ++ "]")) with ("[" ++ comma_joined xs ++ "]").
  replace (back ("[" ++ comma_joined xs ++ "]")) with "]"%char
    by (symmetry; apply (back_append_last ("[" ++ comma_joined xs))).
  change (Ascii.eqb "]" "]") with true. cbn [andb]. simpl bind.
  unfold substr. cbn [append drop String.length].
  rewrite length_append. cbn [String.length].
  replace (String.length (comma_joined xs) + 1 - 1)
    with (String.length (comma_joined xs)) by lia.
  rewrite take_append. now rewrite parseFlowSequence_joined.
Qed.

Lemma parse_flow_sequence_value_witness :
  parse ("scores: [85, 92.5, 78]" ++ nl)
  = Ok (root_with "scores" (sequence_of ["85"; "92.5"; "78"])).
Proof.
  apply (parse_flow_sequence_value _ [] [] "scores" " [85, 92.5, 78]"
           ["85"; "92.5"; "78"]); vm_compute; reflexivity.
Defined.

(** ** Flow mappings *)

Lemma map_find_assign_other {A : Type} (key k' : string) (v : A) (m : list (string * A)) :
  String.eqb key k' = false -> map_find k' (map_assign key v m) = map_find k' m.
Proof.
  intros Hne. induction m as [|[k w] m IH]; simpl.
  - now rewrite Hne.
  - destruct (String.compare key k) eqn:E; simpl.
    + apply String.compare_eq_iff in E. subst k. now rewrite Hne.
    + now rewrite Hne.
    + now rewrite IH.
Qed.

Lemma map_find_assign_any {A : Type} (key k' : string) (v : A) (m : list (string * A)) :
  map_find k' (map_assign key v m)
  = if String.eqb key k' then Some v else map_find k' m.
Proof.
  destruct (String.eqb key k') eqn:E.
  - apply String.eqb_eq in E. subst k'. apply map_find_assign.
  - now apply map_find_assign_other.
Qed.

Lemma flow_fold_throw (ln : Z) (pairs : list string) (e : YamlError) :
  fold_left (flow_pair_step ln) pairs (Throw e) = Throw e.
Proof. induction pairs as [|p pairs IH]; [reflexivity|]. cbn [fold_left]. exact IH. Qed.

Lemma flow_fold_spec (ln : Z) (pairs : list string) :
  forall m : YamlNode,
    match fold_left (flow_pair_step ln) pairs (Ok m) with
    | Ok n =>
        forallb flow_pair_ok pairs = true
        /\ type n = type m /\ sequence n = sequence m
        /\ forall key,
             map_find key (mapping n)
             = fold_left
                 (fun acc pair =>
                    if String.eqb (flow_pair_key pair) key
                    then Some (scalar_node (flow_pair_value pair)) else acc)
                 pairs (map_find key (mapping m))
    | Throw e =>
        forallb flow_pair_ok pairs = false
        /\ err_line e = ln /\ err_col e = (-1)%Z
        /\ (err_kind e = FlowMissingColon \/ err_kind e = FlowEmptyKey)
    | Stuck => False
    end.
Proof.
  induction pairs as [|p pairs IH]; intros m; [cbn; auto|].
  cbn [fold_left forallb]. unfold flow_pair_step at 2. cbn [bind].
  destruct (find ":" p) as [colon|] eqn:Ec.
  - cbv zeta. destruct (empty (trim (substr p 0 colon))) eqn:Ek.
    + assert (Hok : flow_pair_ok p = false).
      { unfold flow_pair_ok, flow_pair_key. now rewrite Ec, Ek. }
      rewrite Hok. unfold throw. rewrite flow_fold_throw. cbn. auto.
    + assert (Hok : flow_pair_ok p = true).
      { unfold flow_pair_ok, flow_pair_key. now rewrite Ec, Ek. }
      rewrite Hok. cbn [andb].
      specialize (IH (set_mapping
                 (map_assign (trim (substr p 0 colon))
                    (scalar_node (dequote_flow (trim (drop (colon + 1) p))))
                    (mapping m)) m)).
      match goal with
      | |- match ?t with _ => _ end => destruct t as [n|e|]
      end; auto.
      destruct IH as (I1 & I2 & I3 & I4). split; [exact I1|].
      split; [now destruct m|]. split; [now destruct m|].
      intros key. rewrite I4. f_equal.
      unfold flow_pair_key, flow_pair_value. rewrite Ec.
      destruct m. cbn [mapping set_mapping]. apply map_find_assign_any.
  - assert (Hok : flow_pair_ok p = false).
    { unfold flow_pair_ok. now rewrite Ec. }
    rewrite Hok. unfold throw. rewrite flow_fold_throw. cbn. auto.
Qed.

(** [parseFlowMapping] on any content: it returns a mapping when every
    pair between the commas has a colon and a key before it, and throws
    otherwise, with the line number it was given (so it throws for a
    blank between the braces, and for two commas in a row); in the mapping
    it returns, a key has the value of the last pair that has the key. *)
Theorem parseFlowMapping_last_pair_wins :
  forall (flowContent : string) (lineNum : Z),
    match parseFlowMapping flowContent lineNum with
    | Ok n =>
        forallb flow_pair_ok (getlines "," flowContent) = true
        /\ type n = Mapping /\ sequence n = []
        /\ forall key,
             map_find key (mapping n) = flow_lookup key (getlines "," flowContent)
    | Throw e =>
        forallb flow_pair_ok (getlines "," flowContent) = false
        /\ err_line e = lineNum /\ err_col e = (-1)%Z
        /\ (err_kind e = FlowMissingColon \/ err_kind e = FlowEmptyKey)
    | Stuck => False
    end.
Proof.
  intros flowContent ln. unfold parseFlowMapping, flow_lookup.
  exact (flow_fold_spec ln (getlines "," flowContent) (newYamlNode Mapping)).
Qed.

(** ** Paths of the query layer *)

Lemma at_path_loop_fuel (f1 f2 : nat) (p : string) (cur : NodeView) :
  String.length p <= f1 -> String.length p <= f2 ->
  at_path_loop f1 p cur = at_path_loop f2 p cur.
Proof.
  revert f2 p cur; induction f1 as [|f1 IH]; intros f2 p cur H1 H2.
  - destruct p; [now destruct f2|simpl in H1; lia].
  - destruct p as [|c r]; [now destruct f2|].
    destruct f2 as [|f2]; [simpl in H2; lia|].
    cbn [String.length] in H1, H2. cbn [at_path_loop].
    destruct (Ascii.eqb c ".") eqn:Hdot; [apply IH; lia|].
    pose proof (at_path_turn_spec c r cur Hdot) as Ht.
    destruct (at_path_turn (String c r) cur) as [v|[p' cur']]; [reflexivity|].
    apply IH; lia.
Qed.

Lemma at_path_turn_null (p : string) :
  match at_path_turn p None with
  | inl v => v = None
  | inr (_, cur') => cur' = None
  end.
Proof.
  unfold at_path_turn. destruct (scan_token p) as [token p1].
  assert (Hi : forall p1, match at_path_index p1 None with
                          | inl v => v = None
                          | inr (_, cur') => cur' = None
                          end).
  { clear. intros p1. unfold at_path_index. destruct p1 as [|c r]; [reflexivity|].
    destruct (Ascii.eqb c "["); [|reflexivity].
    destruct (scan_index r 0%N) as [idx p2]. destruct p2 as [|d p3]; [reflexivity|].
    destruct (negb (Ascii.eqb d "]")); reflexivity. }
  destruct (negb (empty token)); [reflexivity|apply Hi].
Qed.

(** On the null view every path leads to the null view. *)
Lemma at_path_loop_null (fuel : nat) (q : string) :
  String.length q <= fuel -> at_path_loop fuel q None = Ok None.
Proof.
  revert q; induction fuel as [|fuel IH]; intros q Hq.
  - destruct q; [reflexivity|simpl in Hq; lia].
  - destruct q as [|c r]; [reflexivity|]. cbn [String.length] in Hq.
    cbn [at_path_loop]. destruct (Ascii.eqb c ".") eqn:Hdot; [apply IH; lia|].
    pose proof (at_path_turn_spec c r None Hdot) as Ht.
    pose proof (at_path_turn_null (String c r)) as Hn.
    destruct (at_path_turn (String c r) None) as [v|[p' cur']]; [now subst v|].
    subst cur'. apply IH. lia.
Qed.

Lemma scan_token_append (p s : string) :
  Ascii.eqb (front s) "." = true ->
  scan_token (p ++ s) = (fst (scan_token p), snd (scan_token p) ++ s).
Proof.
  intros Hs. induction p as [|c r IH].
  - cbn [append scan_token fst snd]. destruct s as [|d s']; [discriminate|].
    cbn [front] in Hs. cbn [scan_token]. now rewrite Hs.
  - cbn [append scan_token]. destruct (Ascii.eqb c "." || Ascii.eqb c "["); [reflexivity|].
    rewrite IH. now destruct (scan_token r).
Qed.

Lemma scan_index_append (r s : string) (idx : N) :
  Ascii.eqb (front s) "." = true ->
  scan_index (r ++ s) idx = (fst (scan_index r idx), snd (scan_index r idx) ++ s).
Proof.
  intros Hs. revert idx; induction r as [|c r IH]; intros idx.
  - cbn [append scan_index fst snd]. destruct s as [|d s']; [discriminate|].
    cbn [front] in Hs. apply Ascii.eqb_eq in Hs. subst d. reflexivity.
  - cbn [append scan_index]. destruct (isdigit c); [apply IH|reflexivity].
Qed.

Lemma at_path_index_append (p1 s : string) (cur1 : NodeView) :
  Ascii.eqb (front s) "." = true ->
  at_path_index (p1 ++ s) cur1
  = match at_path_index p1 cur1 with
    | inl v => inl v
    | inr (p', cur') => inr (p' ++ s, cur')
    end.
Proof.
  intros Hs. unfold at_path_index. destruct p1 as [|c r].
  - cbn [append]. destruct s as [|d s']; [discriminate|].
    cbn [front] in Hs. apply Ascii.eqb_eq in Hs. subst d. reflexivity.
  - cbn [append]. destruct (Ascii.eqb c "["); [|reflexivity].
    rewrite (scan_index_append r s 0%N Hs).
    destruct (scan_index r 0%N) as [idx p2]. cbn [fst snd].
    destruct p2 as [|d p3].
    + cbn [append]. destruct s as [|d s']; [discriminate|].
      cbn [front] in Hs. apply Ascii.eqb_eq in Hs. subst d. reflexivity.
    + cbn [append]. destruct (negb (Ascii.eqb d "]")); [reflexivity|].
      destruct (index_at cur1 idx); reflexivity.
Qed.

Lemma at_path_turn_append (p s : string) (cur : NodeView) :
  Ascii.eqb (front s) "." = true ->
  at_path_turn (p ++ s) cur
  = match at_path_turn p cur with
    | inl v => inl v
    | inr (p', cur') => inr (p' ++ s, cur')
    end.
Proof.
  intros Hs. unfold at_path_turn. rewrite (scan_token_append p s Hs).
  destruct (scan_token p) as [token p1]. cbn [fst snd].
  destruct (negb (empty token)).
  - destruct (index_key cur token); [|reflexivity]. now apply at_path_index_append.
  - now apply at_path_index_append.
Qed.

Lemma at_path_loop_append (fuel : nat) (q : string) :
  forall (p : string) (cur : NodeView),
    String.length p <= fuel ->
    at_path_loop (fuel + S (String.length q)) (p ++ String "." q) cur
    = (w <- at_path_loop fuel p cur ;; at_path_loop (String.length q) q w).
Proof.
  induction fuel as [|fuel IH]; intros p cur Hp.
  - destruct p; [|simpl in Hp; lia]. cbn [append Nat.add at_path_loop bind].
    change (Ascii.eqb "." ".") with true. reflexivity.
  - destruct p as [|c r].
    + change (at_path_loop (S fuel) "" cur) with (Ok cur). cbn [bind append].
      rewrite (at_path_loop_fuel (S fuel + S (String.length q)) (S (String.length q)))
        by (cbn [String.length]; lia).
      cbn [at_path_loop]. change (Ascii.eqb "." ".") with true. reflexivity.
    + cbn [String.length] in Hp. cbn [append Nat.add at_path_loop].
      destruct (Ascii.eqb c ".") eqn:Hdot; [apply IH; lia|].
      change (String c (r ++ String "." q)) with (String c r ++ String "." q).
      rewrite (at_path_turn_append (String c r) (String "." q) cur eq_refl).
      pose proof (at_path_turn_spec c r cur Hdot) as Ht.
      destruct (at_path_turn (String c r) cur) as [v|[p' cur']].
      * subst v. cbn [bind]. symmetry. apply at_path_loop_null. lia.
      * apply IH. lia.
Qed.

(** Paths compose at a dot: the node at [p.q] is the node at [q] as seen
    from the node at [p], whatever the two paths are; and once a path has
    led to no node, nothing leads on from there. *)
Theorem at_path_composes :
  forall (v : NodeView) (p q : string),
    at_path v (p ++ String "." q) = (w <- at_path v p ;; at_path w q)
    /\ at_path None q = Ok None.
Proof.
  intros v p q. unfold at_path. split.
  - rewrite <- (at_path_loop_append (String.length p) q p v (le_n _)).
    apply at_path_loop_fuel; rewrite length_append; cbn [String.length]; lia.
  - apply at_path_loop_null. lia.
Qed.

Lemma scan_token_key (k : string) :
  lacks "." k = true -> lacks "[" k = true -> scan_token k = (k, "").
Proof.
  unfold lacks. induction k as [|c r IH]; [reflexivity|]. cbn [find scan_token].
  destruct (Ascii.eqb c ".") eqn:E1; [discriminate|].
  destruct (Ascii.eqb c "[") eqn:E2; [discriminate|]. cbn [orb].
  intros H1 H2. rewrite IH; [reflexivity| |].
  - now destruct (find "." r).
  - now destruct (find "[" r).
Qed.

Lemma scan_index_digits (ds s : string) (idx : N) :
  all_digits ds = true -> isdigit (front s) = false ->
  snd (scan_index (ds ++ s) idx) = s.
Proof.
  revert idx; induction ds as [|c r IH]; intros idx Hd Hs.
  - cbn [append]. destruct s as [|d s']; [reflexivity|].
    cbn [front] in Hs. cbn [scan_index]. now rewrite Hs.
  - cbn [all_digits] in Hd. apply andb_prop in Hd as [Hc Hr].
    cbn [append scan_index]. rewrite Hc. now apply IH.
Qed.

Lemma scan_index_value (ds s : string) (idx : N) :
  all_digits ds = true -> isdigit (front s) = false ->
  fst (scan_index (ds ++ s) idx) = fst (scan_index ds idx).
Proof.
  revert idx; induction ds as [|c r IH]; intros idx Hd Hs.
  - cbn [append]. destruct s as [|d s']; [reflexivity|].
    cbn [front] in Hs. cbn [scan_index]. now rewrite Hs.
  - cbn [all_digits] in Hd. apply andb_prop in Hd as [Hc Hr].
    cbn [append scan_index]. rewrite Hc. now apply IH.
Qed.

Lemma at_path_one_key (v : NodeView) (k : string) :
  path_key k = true -> at_path v k = Ok (index_key v k).
Proof.
  intros Hk. unfold path_key in Hk. do 2 (apply andb_prop in Hk as [Hk ?]).
  unfold at_path. destruct k as [|c r]; [discriminate|].
  cbn [String.length at_path_loop].
  assert (Hdot : Ascii.eqb c "." = false).
  { unfold lacks in H0. cbn [find] in H0. now destruct (Ascii.eqb c "."). }
  rewrite Hdot. unfold at_path_turn. rewrite (scan_token_key _ H0 H).
  cbn [empty negb]. destruct (index_key v (String c r)) as [n|]; [|reflexivity].
  cbn [at_path_index]. now destruct (String.length r).
Qed.

Lemma scan_token_key_bracket (k rest : string) :
  lacks "." k = true -> lacks "[" k = true ->
  scan_token (k ++ String "[" rest) = (k, String "[" rest).
Proof.
  unfold lacks. induction k as [|c r IH]; [reflexivity|]. cbn [find append scan_token].
  destruct (Ascii.eqb c ".") eqn:E1; [discriminate|].
  destruct (Ascii.eqb c "[") eqn:E2; [discriminate|]. cbn [orb].
  intros H1 H2. rewrite IH; [reflexivity| |].
  - now destruct (find "." r).
  - now destruct (find "[" r).
Qed.

Lemma at_path_index_brackets (ds : string) (cur : NodeView) :
  all_digits ds = true ->
  at_path_index ("[" ++ ds ++ "]") cur
  = match index_at cur (fst (scan_index ds 0%N)) with
    | None => inl None
    | Some n => inr ("", Some n)
    end.
Proof.
  intros Hd. cbn [append at_path_index]. change (Ascii.eqb "[" "[") with true.
  cbv iota.
  pose proof (scan_index_digits ds "]" 0%N Hd eq_refl) as H1.
  pose proof (scan_index_value ds "]" 0%N Hd eq_refl) as H2.
  destruct (scan_index (ds ++ "]") 0%N) as [idx p2]. cbn [fst snd] in H1, H2.
  subst p2. rewrite <- H2. change (Ascii.eqb "]" "]") with true. reflexivity.
Qed.

Lemma at_path_one_index (v : NodeView) (ds : string) :
  all_digits ds = true ->
  at_path v ("[" ++ ds ++ "]") = Ok (index_at v (fst (scan_index ds 0%N))).
Proof.
  intros Hd. unfold at_path. cbn [append String.length at_path_loop].
  change (Ascii.eqb "[" ".") with false. cbv iota.
  unfold at_path_turn. cbn [scan_token]. change (Ascii.eqb "[" ".") with false.
  change (Ascii.eqb "[" "[") with true. cbn [orb empty negb].
  change (String "[" (ds ++ "]")) with ("[" ++ ds ++ "]").
  rewrite (at_path_index_brackets ds v Hd).
  destruct (index_at v _) as [n|]; [|reflexivity].
  now destruct (String.length (ds ++ "]")).
Qed.

Lemma at_path_key_index (v : NodeView) (k ds : string) :
  path_key k = true -> all_digits ds = true ->
  at_path v (k ++ "[" ++ ds ++ "]")
  = Ok (index_at (index_key v k) (fst (scan_index ds 0%N))).
Proof.
  intros Hk Hd. unfold path_key in Hk. do 2 (apply andb_prop in Hk as [Hk ?]).
  unfold at_path. destruct k as [|c r]; [discriminate|].
  cbn [append String.length at_path_loop].
  assert (Hdot : Ascii.eqb c "." = false).
  { unfold lacks in H0. cbn [find] in H0. now destruct (Ascii.eqb c "."). }
  rewrite Hdot. unfold at_path_turn.
  pose proof (scan_token_key_bracket (String c r) (ds ++ "]") H0 H) as Hst.
  cbn [append] in Hst. rewrite Hst. cbn [empty negb].
  destruct (index_key v (String c r)) as [n|]; [|reflexivity].
  change (String "[" (ds ++ "]")) with ("[" ++ ds ++ "]").
  rewrite (at_path_index_brackets ds (Some n) Hd).
  destruct (index_at (Some n) _) as [m|]; [|reflexivity].
  now destruct (String.length (r ++ "[" ++ ds ++ "]")).
Qed.

(** A path that is one key is the lookup of that key, a path that is one
    index in brackets is the lookup of that index (its digits read in
    base ten, modulo [2^64]), and a key with an index after it is the one
    lookup after the other: a missing key, an index out of range and a
    node of another type give the null view. *)
Theorem at_path_key_and_index :
  forall (v : NodeView) (k ds : string),
    path_key k = true -> all_digits ds = true ->
    at_path v k = Ok (index_key v k)
    /\ at_path v ("[" ++ ds ++ "]") = Ok (index_at v (fst (scan_index ds 0%N)))
    /\ at_path v (k ++ "[" ++ ds ++ "]")
       = Ok (index_at (index_key v k) (fst (scan_index ds 0%N))).
Proof.
  intros v k ds Hk Hd. split; [|split].
  - now apply at_path_one_key.
  - now apply at_path_one_index.
  - now apply at_path_key_index.
Qed.

Lemma at_path_key_and_index_witness :
  at_path (Some (root_with "a" (sequence_of ["x"; "y"]))) "a[1]"
  = Ok (Some (scalar_node "y")).
Proof.
  exact (proj2 (proj2 (at_path_key_and_index
                         (Some (root_with "a" (sequence_of ["x"; "y"]))) "a" "1"
                         eq_refl eq_refl))).
Defined.

(** ** The printer and the emitter on flat mappings, read back *)

Lemma simple_text_facts (x : string) :
  simple_text x = true ->
  seq_item_text x = true /\ find "," x = None
  /\ indicator (front x) = false /\ mem (front x) BLANKS = false.
Proof.
  unfold simple_text. intros H. do 2 (apply andb_prop in H as [H ?]).
  split; [exact H|]. split; [now apply lacks_true|].
  split; [now apply negb_true_iff|].
  destruct (seq_item_text_facts x H) as (_ & _ & _ & Hne & Ht & _).
  unfold seq_item_text in H. apply andb_prop in H as [_ H].
  destruct (trimmed_text x H) as [Hl _].
  pose proof (lstrip_front x) as Hf. rewrite Hl in Hf. now apply Hf.
Qed.

Lemma indicator_cases (c : ascii) :
  indicator c = false ->
  Ascii.eqb c "-" = false /\ Ascii.eqb c "|" = false /\ Ascii.eqb c ">" = false
  /\ Ascii.eqb c "[" = false /\ Ascii.eqb c "{" = false /\ is_quote c = false.
Proof.
  unfold indicator, is_quote. cbn [mem]. intros H.
  repeat (apply orb_false_iff in H as [? H]). repeat split; auto.
  apply orb_false_iff. now split.
Qed.

Lemma getIndent_unindented (x : string) (ln : Z) :
  mem (front x) BLANKS = false -> getIndent x ln = Ok 0.
Proof.
  unfold getIndent. destruct x as [|c r]; [reflexivity|]. cbn [front getIndent_loop].
  unfold BLANKS. cbn [mem]. intros H.
  apply orb_false_iff in H as [H1 H]. apply orb_false_iff in H as [H2 _].
  now rewrite H1, H2.
Qed.

(** A plain text is the text of a key, and its own trimmed text. *)
Lemma simple_key_valid (x : string) :
  simple_text x = true -> valid_key_text x = true /\ trim x = x.
Proof.
  intros Hx. destruct (simple_text_facts x Hx) as (Hs & _ & Hi & Hb).
  destruct (seq_item_text_facts x Hs) as (X1 & X2 & X3 & X4 & X5 & X6).
  destruct (indicator_cases _ Hi) as (Hd & _).
  split; [|exact X5]. unfold valid_key_text, lacks.
  rewrite X1, X2, X3, X5, (getIndent_unindented x 0 Hb), Hd.
  destruct x; [congruence|reflexivity].
Qed.

Lemma simple_value_line (v : string) :
  simple_text v = true ->
  valid_value_text (" " ++ v) = true /\ trim (" " ++ v) = v
  /\ empty v = false /\ block_indicated v = false
  /\ dequote v = (v, false) /\ has_colon_space v = false
  /\ forall ln, value_node v ln = Ok (scalar_node v).
Proof.
  intros Hv. destruct (simple_text_facts v Hv) as (Hs & _ & Hi & Hb).
  destruct (seq_item_text_facts v Hs) as (X1 & X2 & X3 & X4 & X5 & X6).
  destruct (indicator_cases _ Hi) as (_ & I1 & I2 & I3 & I4 & I5).
  split; [|split; [|split; [|split; [|split; [|split]]]]].
  - unfold valid_value_text, lacks. cbn [append find].
    change (Ascii.eqb " " LF) with false. change (Ascii.eqb " " "#") with false.
    cbv iota. now rewrite X1, X2.
  - cbn [append]. now rewrite (trim_cons_blank " " v eq_refl).
  - destruct v; [congruence|reflexivity].
  - unfold block_indicated. now rewrite I1, I2.
  - unfold dequote. now rewrite I5.
  - unfold has_colon_space. now rewrite find_str_colon_none.
  - intros ln. unfold value_node. now rewrite I3, I4.
Qed.

Lemma printYamlNode_entry (k v : string) :
  printYamlNode (root_with k (scalar_node v)) 0 = (k ++ String ":" (" " ++ v)) ++ endl.
Proof.
  unfold root_with. cbn [printYamlNode Nat.mul fill append].
  change (isScalar (scalar_node v)) with true.
  change (scalarValue (scalar_node v)) with v. cbv iota.
  rewrite append_nil_r. now rewrite !append_assoc.
Qed.

(** What [printYamlNode] writes for a root mapping with one entry, a
    plain key with a plain scalar value, is read back by [parse] as that
    mapping. *)
Theorem print_parse_mapping_entry :
  forall k v : string,
    simple_text k = true -> simple_text v = true ->
    parse (printYamlNode (root_with k (scalar_node v)) 0)
    = Ok (root_with k (scalar_node v)).
Proof.
  intros k v Hk Hv. rewrite printYamlNode_entry.
  destruct (simple_key_valid k Hk) as [Hkv Hkt].
  destruct (simple_value_line v Hv) as (V1 & V2 & V3 & V4 & V5 & V6 & V7).
  assert (Hlf : find LF (k ++ String ":" (" " ++ v)) = None).
  { destruct (mapping_line_anatomy k (" " ++ v) 0 Hkv V1) as (_ & H & _). exact H. }
  rewrite (parse_one_value_line _ [] [] k (" " ++ v));
    try reflexivity; try assumption.
  - rewrite V2, V5. cbn [fst snd negb andb]. rewrite V6.
    rewrite <- V2 at 1. rewrite trim_idem, V2, V7, Hkt. reflexivity.
  - unfold endl. now rewrite getlines_line.
  - now rewrite V2.
  - now rewrite V2.
Qed.

Lemma print_parse_mapping_entry_witness :
  parse (printYamlNode (root_with "name" (scalar_node "Alice B")) 0)
  = Ok (root_with "name" (scalar_node "Alice B")).
Proof. apply print_parse_mapping_entry; vm_compute; reflexivity. Defined.

(** The body of the loop on a mapping line with a value, no block
    indicator, in the state the loop starts in. *)
Lemma parseLine_value_line (ln : Z) (s : istream) (k v : string) :
  valid_key_text k = true -> valid_value_text v = true ->
  empty (trim v) = false -> block_indicated (trim v) = false ->
  parseLine (mkState (newYamlNode Mapping) [([], (-1)%Z)] None ln s) (k ++ String ":" v)
  = if negb (snd (dequote (trim v))) && has_colon_space (fst (dequote (trim v)))
    then throw AmbiguousColon ln
    else
      newNode <- value_node (trim (fst (dequote (trim v)))) ln ;;
      Ok (mkState (root_with (trim k) newNode) [([], (-1)%Z)]
            (if YamlNodeType_eqb (type newNode) Scalar
             then Some [PKey (trim k)] else None)
            ln s).
Proof.
  intros Hk Hv Hne Hbi.
  destruct (parseLine_first_mapping
              (mkState (newYamlNode Mapping) [([], (-1)%Z)] None ln s)
              k v Hk Hv eq_refl eq_refl)
    as (indent & colonPos & content & _ & Hp & Hfc & Hkey & Hval & _).
  destruct (valid_key_text_facts k Hk) as (_ & _ & Hke).
  pose proof (mapping_line_value ln s indent colonPos (k ++ String ":" v) content
                Hfc) as Hm.
  rewrite Hkey, Hval in Hm. specialize (Hm Hke Hne Hbi). now rewrite Hp.
Qed.

(** With a last scalar recorded, a line that is not blank and whose
    indentation is accepted is refused. *)
Lemma parseLine_after_scalar_indent (st : pstate) (l : string) (target : path)
    (indent : nat) :
  bottom_indent (stack st) = Some (-1)%Z ->
  lastScalarNode st = Some target ->
  is_blank l = false ->
  getIndent (strip_comment l) 0 = Ok indent ->
  parseLine st l = throw UnexpectedIndentAfterScalar (linecount st).
Proof.
  intros Hb Hl Hn Hi. unfold parseLine. fold (is_blank l). rewrite Hn.
  rewrite (getIndent_loop_ln _ 0 0 (linecount st) indent Hi
           : getIndent _ (linecount st) = Ok indent).
  simpl bind.
  destruct (pop_frames_top (Z.of_nat indent) (stack st) ltac:(lia) Hb)
    as (cur & fi & below & -> & Hlt & _).
  now rewrite Hlt, Hl.
Qed.

Lemma brace_key_valid (k : string) :
  simple_text k = true ->
  valid_key_text ("{" ++ k) = true /\ trim ("{" ++ k) = "{" ++ k.
Proof.
  intros Hk. destruct (simple_text_facts k Hk) as (Hs & _).
  destruct (seq_item_text_facts k Hs) as (X1 & X2 & X3 & X4 & X5 & X6).
  assert (Ht : trim ("{" ++ k) = "{" ++ k).
  { rewrite trim_strip. cbn [append lstrip]. change (mem "{" BLANKS) with false.
    cbv iota. rewrite rstrip_cons by reflexivity. now rewrite X6. }
  split; [|exact Ht]. unfold valid_key_text, lacks. rewrite Ht.
  cbn [append find front empty]. change (Ascii.eqb "{" LF) with false.
  change (Ascii.eqb "{" "#") with false. change (Ascii.eqb "{" ":") with false.
  cbv iota. now rewrite X1, X2, X3.
Qed.

(** A value that starts with a plain text and ends with a closing brace. *)
Lemma brace_value_line (v mid : string) :
  simple_text v = true -> find LF mid = None -> find "#" mid = None ->
  valid_value_text (" " ++ v ++ mid ++ "}") = true
  /\ trim (" " ++ v ++ mid ++ "}") = v ++ mid ++ "}"
  /\ empty (v ++ mid ++ "}") = false
  /\ block_indicated (v ++ mid ++ "}") = false
  /\ dequote (v ++ mid ++ "}") = (v ++ mid ++ "}", false)
  /\ Ascii.eqb (front (v ++ mid ++ "}")) "[" = false
  /\ Ascii.eqb (front (v ++ mid ++ "}")) "{" = false.
Proof.
  intros Hv M1 M2. destruct (simple_text_facts v Hv) as (Hs & _ & Hi & Hb).
  destruct (seq_item_text_facts v Hs) as (X1 & X2 & X3 & X4 & X5 & X6).
  destruct (indicator_cases _ Hi) as (_ & I1 & I2 & I3 & I4 & I5).
  destruct v as [|c r]; [congruence|]. cbn [front] in *.
  split; [|split; [|split; [|split; [|split; [|split]]]]].
  - unfold valid_value_text, lacks. cbn [append find].
    change (Ascii.eqb " " LF) with false. change (Ascii.eqb " " "#") with false.
    cbv iota. cbn [find] in X1, X2.
    destruct (Ascii.eqb c LF); [discriminate|].
    destruct (Ascii.eqb c "#"); [discriminate|].
    assert (F1 : find LF r = None) by now destruct (find LF r).
    assert (F2 : find "#" r = None) by now destruct (find "#" r).
    rewrite (find_append_none LF r (mid ++ "}") F1)
      by (apply find_append_none; [exact M1|reflexivity]).
    rewrite (find_append_none "#" r (mid ++ "}") F2)
      by (apply find_append_none; [exact M2|reflexivity]).
    reflexivity.
  - change (" " ++ String c r ++ mid ++ "}")
      with (String " " (String c r ++ mid ++ "}")).
    rewrite (trim_cons_blank " " _ eq_refl). rewrite trim_strip.
    cbn [append lstrip]. rewrite Hb.
    change (String c (r ++ mid ++ "}")) with (String c r ++ mid ++ "}").
    rewrite <- append_assoc. now rewrite rstrip_append by discriminate.
  - reflexivity.
  - unfold block_indicated. cbn [append front]. now rewrite I1, I2.
  - unfold dequote. cbn [append front]. now rewrite I5.
  - exact I3.
  - exact I4.
Qed.

Lemma find_str_here (p a b : string) :
  starts_with p b = true -> find_str p (a ++ b) <> None.
Proof.
  intros H. induction a as [|c a IH].
  - cbn [append]. destruct b; cbn [find_str]; rewrite H; discriminate.
  - cbn [append find_str]. destruct (starts_with p (String c (a ++ b))); [discriminate|].
    destruct (find_str p (a ++ b)); [discriminate|congruence].
Qed.

Lemma entry_line_lacks (c : ascii) (kv : string * string) :
  c = LF \/ c = "#"%char ->
  simple_text (fst kv) && simple_text (snd kv) = true ->
  find c (entry_line kv) = None.
Proof.
  intros Hc H. apply andb_prop in H as [Hk Hv].
  destruct (simple_text_facts _ Hk) as (Ks & _).
  destruct (simple_text_facts _ Hv) as (Vs & _).
  destruct (seq_item_text_facts _ Ks) as (K1 & K2 & _).
  destruct (seq_item_text_facts _ Vs) as (V1 & V2 & _).
  unfold entry_line. apply find_append_none.
  - destruct Hc as [->| ->]; assumption.
  - cbn [append find].
    destruct Hc as [->| ->]; [change (Ascii.eqb ":" LF) with false;
                             change (Ascii.eqb " " LF) with false
                            |change (Ascii.eqb ":" "#") with false;
                             change (Ascii.eqb " " "#") with false];
      cbv iota; [now rewrite V1|now rewrite V2].
Qed.

Lemma entries_joined_lack (c : ascii) (kvs : list (string * string)) :
  c = LF \/ c = "#"%char ->
  forallb (fun kv => simple_text (fst kv) && simple_text (snd kv)) kvs = true ->
  find c (comma_joined (map entry_line kvs)) = None.
Proof.
  intros Hc H. apply find_comma_joined.
  - destruct Hc as [->| ->]; reflexivity.
  - destruct Hc as [->| ->]; reflexivity.
  - induction kvs as [|kv kvs IH]; [reflexivity|]. cbn [forallb map] in *.
    apply andb_prop in H as [H1 H2]. unfold lacks at 1.
    now rewrite (entry_line_lacks c kv Hc H1), IH.
Qed.

Lemma emitYaml_flat_plain (kvs : list (string * string)) :
  forallb (fun kv => plain_scalar (snd kv))
          (map (fun kv => (fst kv, scalar_node (snd kv))) kvs) = true
  /\ map (fun kv => fst kv ++ ": " ++ scalarValue (snd kv))
         (map (fun kv => (fst kv, scalar_node (snd kv))) kvs)
     = map entry_line kvs.
Proof.
  induction kvs as [|kv kvs [IH1 IH2]]; [split; reflexivity|].
  cbn [map forallb]. rewrite IH1, IH2. split; reflexivity.
Qed.

Lemma emitYaml_flat_short (kvs : list (string * string)) :
  List.length kvs <= 5 ->
  toYamlString (flat_mapping kvs)
  = ("{" ++ comma_joined (map entry_line kvs) ++ "}") ++ endl.
Proof.
  intros Hlen. unfold toYamlString, flat_mapping. cbn [emitYaml Nat.mul fill].
  destruct (emitYaml_flat_plain kvs) as [Hp Hm]. rewrite Hp, Hm.
  assert (Hle : (List.length (map (fun kv => (fst kv, scalar_node (snd kv))) kvs)
                 <=? 5)%nat = true).
  { apply Nat.leb_le. now rewrite length_map. }
  rewrite Hle. cbn [andb append]. now rewrite !append_assoc.
Qed.

Lemma emitYaml_flat_long (kvs : list (string * string)) :
  5 < List.length kvs ->
  toYamlString (flat_mapping kvs) = unlines (map entry_line kvs).
Proof.
  intros Hlen. unfold toYamlString, flat_mapping. cbn [emitYaml Nat.mul fill append].
  assert (Hle : (List.length (map (fun kv => (fst kv, scalar_node (snd kv))) kvs)
                 <=? 5)%nat = false).
  { apply Nat.leb_gt. now rewrite length_map. }
  rewrite Hle, andb_false_r. clear Hlen Hle.
  induction kvs as [|[k v] kvs IH]; [reflexivity|].
  cbn [map unlines fst snd]. rewrite <- IH.
  change (plain_scalar (scalar_node v)) with true.
  change (scalarValue (scalar_node v)) with v. cbv iota.
  unfold entry_line, endl. cbn [fst snd append]. now rewrite !append_assoc.
Qed.

Lemma comma_joined_cons (x : string) (xs : list string) :
  comma_joined (x :: xs)
  = x ++ match xs with [] => "" | _ :: _ => ", " ++ comma_joined xs end.
Proof. destruct xs; [cbn [comma_joined]; now rewrite append_nil_r|reflexivity]. Qed.

Lemma entry_lines_lack_LF (kvs : list (string * string)) :
  forallb (fun kv => simple_text (fst kv) && simple_text (snd kv)) kvs = true ->
  forallb (lacks LF) (map entry_line kvs) = true.
Proof.
  induction kvs as [|kv kvs IH]; [reflexivity|]. cbn [forallb map]. intros H.
  apply andb_prop in H as [H1 H2]. unfold lacks at 1.
  now rewrite (entry_line_lacks LF kv (or_introl eq_refl) H1), IH.
Qed.

(** What [toYamlString] writes for a root mapping of plain keys with
    plain scalar values is never read back by [parse] as that mapping.
    Up to five entries are written in braces on one line: of one entry
    [parse] makes an entry whose key starts with the brace and whose
    value ends with the other, more entries it refuses for the colon and
    space in what it takes for the value, and the empty pair of braces for
    the colon it misses.  More than five entries are written one on a
    line, and [parse] refuses the second line, coming after a scalar. *)
Theorem emit_parse_flat_mapping :
  forall kvs : list (string * string),
    forallb (fun kv => simple_text (fst kv) && simple_text (snd kv)) kvs = true ->
    parse (toYamlString (flat_mapping kvs))
    = match kvs with
      | [] => throw MissingColon 1
      | [kv] => Ok (root_with ("{" ++ fst kv) (scalar_node (snd kv ++ "}")))
      | _ :: _ :: _ =>
          if (List.length kvs <=? 5)%nat then throw AmbiguousColon 1
          else throw UnexpectedIndentAfterScalar 2
      end.
Proof.
  intros kvs Hs. destruct kvs as [|[k1 v1] [|[k2 v2] rest]].
  - vm_compute. reflexivity.
  - rewrite emitYaml_flat_short by (cbn; lia).
    cbn [forallb fst snd andb] in Hs. rewrite andb_true_r in Hs.
    apply andb_prop in Hs as [Hk Hv].
    destruct (brace_key_valid k1 Hk) as [K1 K2].
    destruct (brace_value_line v1 "" Hv eq_refl eq_refl)
      as (V1 & V2 & V3 & V4 & V5 & V6 & V7).
    assert (Et : "{" ++ comma_joined (map entry_line [(k1, v1)]) ++ "}"
                 = ("{" ++ k1) ++ String ":" (" " ++ v1 ++ "" ++ "}")).
    { cbn [map comma_joined entry_line fst snd append]. now rewrite !append_assoc. }
    rewrite Et.
    assert (Hlf : find LF (("{" ++ k1) ++ String ":" (" " ++ v1 ++ "" ++ "}")) = None).
    { destruct (mapping_line_anatomy _ _ 0 K1 V1) as (_ & H & _). exact H. }
    rewrite (parse_one_value_line _ [] [] ("{" ++ k1) (" " ++ v1 ++ "" ++ "}"));
      try reflexivity; try assumption.
    + rewrite V2, V5. cbn [fst snd negb andb].
      assert (Hc : has_colon_space (v1 ++ "" ++ "}") = false).
      { unfold has_colon_space. rewrite find_str_colon_none; [reflexivity|].
        destruct (simple_text_facts v1 Hv) as (Hs1 & _).
        destruct (seq_item_text_facts v1 Hs1) as (_ & _ & X3 & _).
        now apply find_append_none. }
      rewrite Hc. rewrite <- V2 at 1. rewrite trim_idem, V2.
      unfold value_node. rewrite V6, V7. cbn [andb bind]. now rewrite K2.
    + unfold endl. now rewrite getlines_line.
    + now rewrite V2.
    + now rewrite V2.
  - destruct (List.length ((k1, v1) :: (k2, v2) :: rest) <=? 5)%nat eqn:El.
    + apply Nat.leb_le in El. rewrite emitYaml_flat_short by exact El.
      destruct (andb_prop _ _
                  (Hs : simple_text k1 && simple_text v1
                        && forallb (fun kv => simple_text (fst kv) && simple_text (snd kv))
                             ((k2, v2) :: rest) = true)) as [H1 Hs2].
      pose proof H1 as H1'. apply andb_prop in H1' as [Hk Hv].
      destruct (brace_key_valid k1 Hk) as [K1 K2].
      set (mid := ", " ++ comma_joined (map entry_line ((k2, v2) :: rest))).
      assert (M1 : find LF mid = None).
      { unfold mid. cbn [append find]. change (Ascii.eqb "," LF) with false.
        change (Ascii.eqb " " LF) with false. cbv iota.
        now rewrite (entries_joined_lack LF _ (or_introl eq_refl) Hs2). }
      assert (M2 : find "#" mid = None).
      { unfold mid. cbn [append find]. change (Ascii.eqb "," "#") with false.
        change (Ascii.eqb " " "#") with false. cbv iota.
        now rewrite (entries_joined_lack "#" _ (or_intror eq_refl) Hs2). }
      destruct (brace_value_line v1 mid Hv M1 M2)
        as (V1 & V2 & V3 & V4 & V5 & V6 & V7).
      assert (Et : "{" ++ comma_joined (map entry_line ((k1, v1) :: (k2, v2) :: rest))
                       ++ "}"
                   = ("{" ++ k1) ++ String ":" (" " ++ v1 ++ mid ++ "}")).
      { change (map entry_line ((k1, v1) :: (k2, v2) :: rest))
          with (entry_line (k1, v1) :: map entry_line ((k2, v2) :: rest)).
        change (comma_joined (entry_line (k1, v1) :: map entry_line ((k2, v2) :: rest)))
          with (entry_line (k1, v1) ++ mid).
        unfold entry_line at 1. cbn [fst snd append]. now rewrite !append_assoc. }
      rewrite Et.
      assert (Hlf : find LF (("{" ++ k1) ++ String ":" (" " ++ v1 ++ mid ++ "}")) = None).
      { destruct (mapping_line_anatomy _ _ 0 K1 V1) as (_ & H & _). exact H. }
      rewrite (parse_one_value_line _ [] [] ("{" ++ k1) (" " ++ v1 ++ mid ++ "}"));
        try reflexivity; try assumption.
      * rewrite V2, V5. cbn [fst snd negb andb].
        assert (Hc : has_colon_space (v1 ++ mid ++ "}") = true).
        { unfold has_colon_space, mid.
          change (map entry_line ((k2, v2) :: rest))
            with (entry_line (k2, v2) :: map entry_line rest).
          rewrite comma_joined_cons. unfold entry_line at 1. cbn [fst snd].
          rewrite !append_assoc.
          rewrite <- (append_assoc v1 ", "). rewrite <- (append_assoc (v1 ++ ", ") k2).
          pose proof (find_str_here ": " ((v1 ++ ", ") ++ k2)
                        (": " ++ v2 ++ match map entry_line rest with
                                       | [] => ""
                                       | _ :: _ => ", " ++ comma_joined (map entry_line rest)
                                       end ++ "}") eq_refl) as Hf.
          destruct (find_str ": " _); [reflexivity|congruence]. }
        now rewrite Hc.
      * unfold endl. now rewrite getlines_line.
      * now rewrite V2.
      * now rewrite V2.
    + apply Nat.leb_gt in El. rewrite emitYaml_flat_long by exact El.
      pose proof (getlines_unlines _ (entry_lines_lack_LF _ Hs)) as Hl.
      cbn [map] in Hl. cbn [map].
      cbn [forallb fst snd] in Hs. apply andb_prop in Hs as [H1 Hs2].
      apply andb_prop in Hs2 as [H2 _].
      apply andb_prop in H1 as [Hk1 Hv1]. apply andb_prop in H2 as [Hk2 Hv2].
      destruct (simple_key_valid k1 Hk1) as [K1 K1t].
      destruct (simple_key_valid k2 Hk2) as [K2 _].
      destruct (simple_value_line v1 Hv1) as (V1 & V2 & V3 & V4 & V5 & V6 & V7).
      destruct (simple_value_line v2 Hv2) as (W1 & _).
      set (text := unlines (entry_line (k1, v1) :: entry_line (k2, v2)
                              :: map entry_line rest)) in *.
      unfold parse, parseStream. cbn [buf stringstream].
      remember (S (String.length text)) as fuel eqn:Hfuel.
      destruct (first_content_line [] "" text false
                  (initial_state (stringstream text)) fuel _ _
                  Hl eq_refl (initial_state_ok text) eq_refl ltac:(discriminate)
                  ltac:(subst fuel; apply (stream_at_calls "" text false)))
        as (pre' & rest' & e' & G1 & G2 & G3 & _ & G).
      rewrite G. clear G.
      cbn [root stack lastScalarNode linecount initial_state Z.add List.length Z.of_nat].
      change (entry_line (k1, v1)) with (k1 ++ String ":" (" " ++ v1)).
      assert (Hok1 : state_ok (mkState (newYamlNode Mapping) [([], (-1)%Z)] None 1
                                 (stream_at pre' rest' e'))).
      { repeat split; [exists (newYamlNode Mapping); reflexivity|apply stream_at_wf]. }
      pose proof (parseLine_value_line 1 (stream_at pre' rest' e') k1 (" " ++ v1) K1 V1)
        as Hp.
      rewrite V2, V5 in Hp. cbn [fst snd negb andb] in Hp. rewrite V6 in Hp.
      assert (T1 : trim v1 = v1).
      { destruct (simple_text_facts v1 Hv1) as (Hs1 & _).
        now destruct (seq_item_text_facts v1 Hs1) as (_ & _ & _ & _ & X5 & _). }
      rewrite T1, V7 in Hp.
      specialize (Hp V3 V4). simpl bind in Hp.
      change (YamlNodeType_eqb (type (scalar_node v1)) Scalar) with true in Hp.
      cbv iota in Hp. rewrite Hp. simpl bind.
      match goal with |- parseLoop fuel ?st = _ => set (st2 := st) end.
      assert (Hok2 : state_ok st2) by exact (parseLine_ok _ st2 _ Hok1 Hp).
      assert (Hf2 : calls_left (input st2) <= fuel).
      { cbn [input st2]. subst fuel. change ("" ++ text) with text in G1.
        pose proof (stream_at_calls pre' rest' e') as Hc. now rewrite G1 in Hc. }
      destruct (parseTurn_line st2 pre' rest' e' _ _ eq_refl G3 G2)
        as (pre2 & rest2 & e2 & _ & _ & _ & _ & Ht).
      rewrite (parseLoop_line fuel st2 _ _ Hok2 Hf2 Ht).
      destruct (mapping_line_anatomy k2 (" " ++ v2) 0 K2 W1)
        as (A1 & _ & A3 & indent & _ & A5 & _ & _ & A8 & _).
      rewrite (parseLine_after_scalar_indent _ (entry_line (k2, v2)) [PKey (trim k1)] indent);
        try reflexivity.
      * unfold is_blank. change (entry_line (k2, v2)) with (k2 ++ String ":" (" " ++ v2)).
        rewrite A1, A3, !empty_append_cons. reflexivity.
      * change (entry_line (k2, v2)) with (k2 ++ String ":" (" " ++ v2)).
        now rewrite A1.
Qed.

Lemma emit_parse_flat_mapping_witness :
  parse (toYamlString (flat_mapping [("a", "1")]))
  = Ok (root_with "{a" (scalar_node "1}")).
Proof. apply (emit_parse_flat_mapping [("a", "1")]). vm_compute. reflexivity. Defined.

(** ** Folded block scalars *)

(** The parse of the header of a block scalar, literal or folded, and the
    lines of the block to the end of the input. *)
Lemma parse_block_header (k v : string) (indent d : nat) (ls : list string) :
  valid_key_text k = true -> valid_value_text v = true ->
  block_indicated (trim v) = true ->
  getIndent k 0 = Ok indent -> indent < d ->
  forallb (block_line d) ls = true ->
  parse ((k ++ String ":" v) ++ String LF (unlines ls))
  = Ok (root_with (trim k)
          (set_scalarValue
             (applyChomp
                (if Ascii.eqb (front (trim v)) "|"
                 then block_content (block_texts d false ls)
                 else foldBlock (block_content (block_texts d false ls)))
                (chomp_of (trim v)))
             (set_style (if Ascii.eqb (front (trim v)) "|" then Literal else Folded)
                        (newYamlNode Scalar)))).
Proof.
  intros Hk Hv Hbi Hik Hd Hls.
  set (header := k ++ String ":" v).
  set (text := header ++ String LF (unlines ls)).
  set (st1 := mkState (newYamlNode Mapping) [([], (-1)%Z)] None 1
                (mkStream text (String.length header + 1) false false)).
  destruct (parseLine_first_mapping st1 k v Hk Hv eq_refl eq_refl)
    as (indent' & colonPos & content & Hik' & Hline & Hfind & Hkey & Hval & Hlf).
  rewrite Hik in Hik'. injection Hik' as <-.
  unfold parse, parseStream. change (buf (stringstream text)) with text.
  cbn [parseLoop]. unfold parseTurn.
  change (input (initial_state (stringstream text)))
    with (mkStream text (String.length "") false false).
  rewrite (getline_at text "" header (unlines ls) eq_refl Hlf).
  change (mkState _ _ _ _ _) with st1.
  fold header in Hline. rewrite Hline.
  unfold mapping_line. rewrite Hfind. cbv zeta. rewrite Hkey, Hval.
  destruct (valid_key_text_facts k Hk) as (_ & _ & Hke).
  assert (Hne : empty (trim v) = false).
  { unfold block_indicated in Hbi. destruct (trim v); [discriminate|reflexivity]. }
  rewrite Hke, Hne. cbn [negb]. cbv iota.
  unfold block_indicated in Hbi. rewrite Hbi.
  change (linecount st1) with 1%Z.
  change (input st1)
    with (mkStream text (String.length header + 1) false false).
  assert (Htext : text = (header ++ String LF "") ++ unlines ls ++ "").
  { unfold text. now rewrite append_nil_r, append_assoc. }
  assert (Hpre : String.length header + 1 = String.length (header ++ String LF "")).
  { rewrite length_append. reflexivity. }
  rewrite Htext, Hpre.
  rewrite (extract_block (Z.of_nat indent) d ls "" (header ++ String LF "") 1);
    [|lia|exact Hls|now left].
  rewrite <- Htext. simpl bind.
  destruct (length_pos text) as [fuel Hlen]; [unfold text; now destruct header|].
  rewrite Hlen, parseLoop_not_good by reflexivity.
  destruct (Ascii.eqb (front (trim v)) "|"); reflexivity.
Qed.

Lemma content_lines_block (d : nat) (ls : list string) :
  forallb (content_line d) ls = true ->
  forallb (block_line d) ls = true
  /\ block_texts d false ls = map (drop d) ls
  /\ forallb starts_text (map (drop d) ls) = true
  /\ forallb (lacks LF) (map (drop d) ls) = true.
Proof.
  intros H.
  assert (G : forall hc, forallb (block_line d) ls = true
                         /\ block_texts d hc ls = map (drop d) ls
                         /\ forallb starts_text (map (drop d) ls) = true
                         /\ forallb (lacks LF) (map (drop d) ls) = true).
  { induction ls as [|l ls IH]; intros hc; [repeat split|].
    cbn [forallb] in H. apply andb_prop in H as [Hl Hls].
    destruct (content_line_facts d l 0 Hl) as (F1 & _ & _ & _ & F5 & F6).
    destruct (IH Hls true) as (I1 & I2 & I3 & I4).
    cbn [forallb map block_texts]. unfold block_line at 1.
    rewrite Hl, orb_true_r, I1, F5, I2, F6, I3, I4. unfold lacks.
    now rewrite (find_drop_none LF l d F1). }
  apply G.
Qed.

Lemma foldBlock_step_texts (ts : list string) (folded : string) :
  forallb starts_text ts = true ->
  fold_left foldBlock_step ts (folded, (false, false))
  = (fold_left (fun f t => f ++ " " ++ rtrim t) ts folded, (false, false)).
Proof.
  revert folded; induction ts as [|t ts IH]; intros folded H; [reflexivity|].
  cbn [forallb] in H. apply andb_prop in H as [Ht Hts].
  cbn [fold_left]. unfold foldBlock_step at 2.
  destruct t as [|c r]; [discriminate|]. cbn [empty]. now rewrite IH.
Qed.

Lemma fold_space_joined (ts : list string) (t : string) :
  fold_left (fun f x => f ++ " " ++ rtrim x) ts (rtrim t)
  = space_joined (map rtrim (t :: ts)).
Proof.
  revert t. 
  assert (G : forall ts a, fold_left (fun f x => f ++ " " ++ rtrim x) ts a
                           = a ++ match ts with
                                  | [] => ""
                                  | _ :: _ => " " ++ space_joined (map rtrim ts)
                                  end).
  { clear. induction ts as [|x ts IH]; intros a; [now rewrite append_nil_r|].
    cbn [fold_left]. rewrite IH. rewrite append_assoc.
    destruct ts as [|y ts]; [now rewrite append_nil_r|reflexivity]. }
  intros t. rewrite G. cbn [map]. destruct ts; [apply append_nil_r|reflexivity].
Qed.

Lemma foldBlock_texts (t : string) (ts : list string) :
  forallb starts_text (t :: ts) = true ->
  forallb (lacks LF) (t :: ts) = true ->
  foldBlock (unlines (t :: ts)) = space_joined (map rtrim (t :: ts)).
Proof.
  intros Hs Hl. unfold foldBlock. rewrite (getlines_unlines _ Hl).
  cbn [forallb] in Hs. apply andb_prop in Hs as [Ht Hts].
  cbn [fold_left]. unfold foldBlock_step at 2.
  destruct t as [|c r] eqn:Et; [discriminate|]. cbn [empty].
  rewrite foldBlock_step_texts by exact Hts. cbn [fst append].
  apply fold_space_joined.
Qed.

Lemma rtrim_lacks (c : ascii) (t : string) : find c t = None -> find c (rtrim t) = None.
Proof.
  intros H. unfold rtrim. destruct (find_last_not_of BLANKS t); [|reflexivity].
  unfold substr. cbn [drop]. now apply find_take_none.
Qed.

Lemma space_joined_lacks_LF (ts : list string) :
  forallb (lacks LF) ts = true -> find LF (space_joined (map rtrim ts)) = None.
Proof.
  induction ts as [|t ts IH]; [reflexivity|]. cbn [forallb map]. intros H.
  apply andb_prop in H as [Ht Hts]. apply lacks_true in Ht. specialize (IH Hts).
  destruct ts as [|u ts]; [now apply rtrim_lacks|].
  change (space_joined (rtrim t :: map rtrim (u :: ts)))
    with (rtrim t ++ " " ++ space_joined (map rtrim (u :: ts))).
  apply find_append_none; [now apply rtrim_lacks|].
  cbn [append find]. change (Ascii.eqb " " LF) with false. cbv iota. now rewrite IH.
Qed.

Lemma space_joined_starts (t : string) (ts : list string) :
  starts_text t = true -> starts_text (space_joined (map rtrim (t :: ts))) = true.
Proof.
  intros Ht. destruct t as [|c r]; [discriminate|].
  destruct (starts_text_cons c r Ht) as (E1 & E2 & _).
  assert (Hb : mem c BLANKS = false).
  { unfold BLANKS, mem. now rewrite E1, E2. }
  destruct (rtrim_starts c r Hb) as [r' Hr].
  cbn [map]. rewrite Hr.
  assert (Hs : starts_text (String c r') = true).
  { unfold starts_text in *. exact Ht. }
  destruct ts as [|u ts]; [exact Hs|].
  change (space_joined (String c r' :: map rtrim (u :: ts)))
    with (String c r' ++ " " ++ space_joined (map rtrim (u :: ts))).
  now apply starts_text_append.
Qed.

Lemma chomp_of_cases (value : string) :
  chomp_of value = "-"%char \/ chomp_of value = "+"%char \/ chomp_of value = SPACE.
Proof.
  unfold chomp_of. destruct value as [|a [|c r]]; auto.
  destruct (Ascii.eqb c "-") eqn:E1; [apply Ascii.eqb_eq in E1; subst; auto|].
  destruct (Ascii.eqb c "+") eqn:E2; [apply Ascii.eqb_eq in E2; subst; auto|].
  auto.
Qed.

(** A folded block scalar: a key whose value starts with the folding
    indicator, and under it content lines without comment sign, all at
    the same indentation beyond the key's, to the end of the text.  The
    stored text is the lines, each without its indentation and trailing
    blanks, joined by one space; the clip default adds one newline to it,
    and the strip and the keep indicator add nothing. *)
Theorem parse_folded_block :
  forall (k v : string) (indent d : nat) (l : string) (ls : list string),
    valid_key_text k = true -> valid_value_text v = true ->
    Ascii.eqb (front (trim v)) ">" = true ->
    getIndent k 0 = Ok indent -> indent < d ->
    forallb (content_line d) (l :: ls) = true ->
    parse ((k ++ String ":" v) ++ String LF (unlines (l :: ls)))
    = Ok (root_with (trim k)
            (mkNode Scalar Folded
               (space_joined (map (fun x => rtrim (drop d x)) (l :: ls))
                ++ (if Ascii.eqb (chomp_of (trim v)) SPACE then nl else ""))
               [] [])).
Proof.
  intros k v indent d l ls Hk Hv Hf Hi Hd Hls.
  destruct (content_lines_block d (l :: ls) Hls) as (B1 & B2 & B3 & B4).
  assert (Hbi : block_indicated (trim v) = true).
  { unfold block_indicated. now rewrite Hf, orb_true_r. }
  rewrite (parse_block_header k v indent d (l :: ls) Hk Hv Hbi Hi Hd B1).
  assert (Hbar : Ascii.eqb (front (trim v)) "|" = false).
  { apply Ascii.eqb_eq in Hf. now rewrite Hf. }
  rewrite Hbar, B2, block_content_unlines.
  cbn [map] in B3, B4 |- *. rewrite (foldBlock_texts _ _ B3 B4).
  rewrite <- (map_map (drop d) rtrim ls).
  change (rtrim (drop d l) :: map rtrim (map (drop d) ls))
    with (map rtrim (drop d l :: map (drop d) ls)).
  set (F := space_joined (map rtrim (drop d l :: map (drop d) ls))).
  assert (Hs : starts_text F = true).
  { apply space_joined_starts. cbn [forallb] in B3. now apply andb_prop in B3 as [B3 _]. }
  assert (Hlf : find LF F = None) by now apply space_joined_lacks_LF.
  assert (Hne : F <> "") by (destruct F; [discriminate|discriminate]).
  assert (Hst : strip_trailing_newlines F = F).
  { pose proof (strip_append_newlines F 0 Hne (find_none_back LF F Hlf Hne)) as H.
    cbn [newlines] in H. now rewrite append_nil_r in H. }
  destruct (applyChomp_laws F (or_intror Hs)) as (C1 & C2 & C3).
  unfold root_with, set_scalarValue, set_style, newYamlNode. cbn [type style sequence mapping].
  destruct (chomp_of_cases (trim v)) as [-> | [-> | ->]].
  - rewrite C1, Hst. change (Ascii.eqb "-" SPACE) with false. cbv iota.
    now rewrite append_nil_r.
  - rewrite C2. change (Ascii.eqb "+" SPACE) with false. cbv iota.
    now rewrite append_nil_r.
  - rewrite (C3 SPACE eq_refl eq_refl), Hst. rewrite ascii_eqb_refl.
    destruct F; [congruence|reflexivity].
Qed.

Lemma parse_folded_block_witness :
  parse (("notes" ++ String ":" " >-") ++ String LF (unlines ["  one  "; "  two"]))
  = Ok (root_with "notes" (mkNode Scalar Folded "one two" [] [])).
Proof.
  apply (parse_folded_block "notes" " >-" 0 2 "  one  " ["  two"]);
    try (vm_compute; reflexivity); lia.
Defined.

(** ** The shape of the trees [parse] builds *)

Lemma node_okb_unfold (n : YamlNode) :
  node_okb n
  = shape_okb (type n) (sequence n) (mapping n)
    && forallb node_okb (sequence n)
    && forallb (fun kv => key_okb (fst kv) && node_okb (snd kv)) (mapping n).
Proof. destruct n. reflexivity. Qed.

Lemma node_okb_parts (n : YamlNode) :
  node_okb n = true ->
  shape_okb (type n) (sequence n) (mapping n) = true
  /\ forallb node_okb (sequence n) = true
  /\ forallb (fun kv => key_okb (fst kv) && node_okb (snd kv)) (mapping n) = true.
Proof.
  rewrite node_okb_unfold. intros H. apply andb_prop in H as [H H3].
  apply andb_prop in H as [H1 H2]. auto.
Qed.

Lemma node_okb_intro (n : YamlNode) :
  shape_okb (type n) (sequence n) (mapping n) = true ->
  forallb node_okb (sequence n) = true ->
  forallb (fun kv => key_okb (fst kv) && node_okb (snd kv)) (mapping n) = true ->
  node_okb n = true.
Proof. intros H1 H2 H3. now rewrite node_okb_unfold, H1, H2, H3. Qed.

Lemma forallb_list_alter {A : Type} (P : A -> bool) (f : A -> A) (i : nat) (l : list A) :
  forallb P l = true -> (forall x, P x = true -> P (f x) = true) ->
  forallb P (list_alter f i l) = true.
Proof.
  intros Hl Hf. revert i; induction l as [|x l IH]; intros [|i]; auto;
    cbn [forallb list_alter] in *; apply andb_prop in Hl as [Hx Hl].
  - now rewrite (Hf x Hx), Hl.
  - now rewrite Hx, (IH Hl).
Qed.

Lemma forallb_map_alter (f : YamlNode -> YamlNode) (key : string)
    (m : list (string * YamlNode)) :
  forallb (fun kv => key_okb (fst kv) && node_okb (snd kv)) m = true ->
  (forall x, node_okb x = true -> node_okb (f x) = true) ->
  forallb (fun kv => key_okb (fst kv) && node_okb (snd kv)) (map_alter f key m) = true.
Proof.
  intros Hm Hf. induction m as [|[k v] m IH]; [reflexivity|].
  cbn [forallb fst snd] in Hm. apply andb_prop in Hm as [Hkv Hm].
  apply andb_prop in Hkv as [Hk Hv]. cbn [map_alter].
  destruct (String.eqb k key); cbn [forallb fst snd].
  - now rewrite Hk, (Hf v Hv), Hm.
  - now rewrite Hk, Hv, (IH Hm).
Qed.

Lemma forallb_map_assign (key : string) (v : YamlNode) (m : list (string * YamlNode)) :
  forallb (fun kv => key_okb (fst kv) && node_okb (snd kv)) m = true ->
  key_okb key = true -> node_okb v = true ->
  forallb (fun kv => key_okb (fst kv) && node_okb (snd kv)) (map_assign key v m) = true.
Proof.
  intros Hm Hk Hv. induction m as [|[k w] m IH]; cbn [map_assign forallb fst snd].
  - now rewrite Hk, Hv.
  - cbn [forallb fst snd] in Hm. apply andb_prop in Hm as [Hkw Hm'].
    apply andb_prop in Hkw as [Hk' Hw].
    destruct (String.compare key k); cbn [forallb fst snd].
    + now rewrite Hk', Hv, Hm'.
    + now rewrite Hk, Hv, Hk', Hw, Hm'.
    + now rewrite Hk', Hw, (IH Hm').
Qed.

Lemma shape_okb_map_alter (t : YamlNodeType) (sq : list YamlNode)
    (f : YamlNode -> YamlNode) (key : string) (m : list (string * YamlNode)) :
  shape_okb t sq (map_alter f key m) = shape_okb t sq m.
Proof.
  destruct m as [|[k v] m]; [reflexivity|]. cbn [map_alter].
  now destruct (String.eqb k key), t, sq.
Qed.

Lemma shape_okb_list_alter (t : YamlNodeType) (sq : list YamlNode)
    (f : YamlNode -> YamlNode) (i : nat) (m : list (string * YamlNode)) :
  shape_okb t (list_alter f i sq) m = shape_okb t sq m.
Proof. destruct sq as [|x sq], i, t; reflexivity. Qed.

(** A write through a pointer keeps the tree in shape when it keeps the
    node it changes in shape. *)
Lemma node_update_ok (p : path) (f : YamlNode -> YamlNode) :
  (forall n, node_okb n = true -> node_okb (f n) = true) ->
  forall r, node_okb r = true -> node_okb (node_update p f r) = true.
Proof.
  intros Hf. induction p as [|[k|i] p IH]; intros r Hr; cbn [node_update]; auto.
  - destruct (node_okb_parts r Hr) as (H1 & H2 & H3). destruct r as [t sty sv sq mp].
    cbn [type sequence mapping set_mapping] in *. apply node_okb_intro;
      cbn [type style scalarValue sequence mapping set_mapping set_sequence].
    + now rewrite shape_okb_map_alter.
    + exact H2.
    + now apply forallb_map_alter.
  - destruct (node_okb_parts r Hr) as (H1 & H2 & H3). destruct r as [t sty sv sq mp].
    cbn [type sequence mapping set_sequence] in *. apply node_okb_intro;
      cbn [type style scalarValue sequence mapping set_mapping set_sequence].
    + now rewrite shape_okb_list_alter.
    + now apply forallb_list_alter.
    + exact H3.
Qed.

Lemma push_item_ok (item n : YamlNode) :
  node_okb item = true -> node_okb n = true -> node_okb (push_item item n) = true.
Proof.
  intros Hi Hn. destruct (node_okb_parts n Hn) as (H1 & H2 & H3).
  destruct (retype_fields Sequence n) as (R1 & _ & _ & R4).
  pose proof (retype_type Sequence n) as Rt.
  unfold push_item. destruct (retype Sequence n) as [t sty sv sq mp].
  cbn [type sequence mapping] in *. subst t mp.
  apply node_okb_intro; cbn [type sequence mapping set_sequence]; auto.
  rewrite forallb_app. cbn [forallb]. rewrite Hi, R4.
  destruct (YamlNodeType_eqb (type n) Sequence); [now rewrite H2|reflexivity].
Qed.

Lemma assign_child_ok (key : string) (newNode n : YamlNode) :
  key_okb key = true -> node_okb newNode = true -> node_okb n = true ->
  node_okb (assign_child key newNode n) = true.
Proof.
  intros Hk Hv Hn. destruct (node_okb_parts n Hn) as (H1 & H2 & H3).
  destruct (retype_fields Mapping n) as (R1 & _ & _ & R4).
  pose proof (retype_type Mapping n) as Rt.
  unfold assign_child. cbv zeta. destruct (retype Mapping n) as [t sty sv sq mp].
  cbn [type sequence mapping] in *. subst t mp.
  assert (Hsq : sq = []).
  { rewrite R4. destruct (type n) eqn:Et; cbn [YamlNodeType_eqb]; auto.
    destruct (sequence n); [reflexivity|discriminate]. }
  clear R4. subst sq. apply node_okb_intro; cbn [type sequence mapping set_mapping]; auto.
  now apply forallb_map_assign.
Qed.

Lemma trim_key_ok (s : string) : empty (trim s) = false -> key_okb (trim s) = true.
Proof. intros H. unfold key_okb. now rewrite H, trim_idem, String.eqb_refl. Qed.

Lemma sequence_item_ok (itemValue : string) : node_okb (sequence_item itemValue) = true.
Proof.
  unfold sequence_item. destruct (negb (empty itemValue)); [|reflexivity].
  destruct (find ":" itemValue) as [colonPos|]; [|reflexivity].
  cbv zeta. destruct (empty (trim (substr itemValue 0 colonPos))) eqn:E; [reflexivity|].
  cbn. now rewrite (trim_key_ok _ E).
Qed.

Lemma parseFlowSequence_ok (flowContent : string) (ln : Z) :
  node_okb (parseFlowSequence flowContent ln) = true.
Proof.
  unfold parseFlowSequence.
  assert (G : forall items acc,
             node_okb acc = true -> type acc = Sequence ->
             node_okb
               (fold_left
                  (fun seq item =>
                     let val := trim item in
                     if negb (empty val)
                     then set_sequence
                            (sequence seq ++ [scalar_node (dequote_flow val)])%list seq
                     else seq) items acc) = true).
  { induction items as [|x items IH]; intros acc Ha Ht; [exact Ha|].
    cbn [fold_left]. cbv zeta. destruct (negb (empty (trim x))); [|now apply IH].
    apply IH; [|now destruct acc].
    destruct (node_okb_parts acc Ha) as (H1 & H2 & H3). destruct acc as [t sty sv sq mp].
    cbn [type sequence mapping set_sequence] in *. subst t.
    apply node_okb_intro;
      cbn [type style scalarValue sequence mapping set_mapping set_sequence]; auto.
    rewrite forallb_app, H2. reflexivity. }
  now apply G.
Qed.

Lemma parseFlowMapping_ok (flowContent : string) (ln : Z) (n : YamlNode) :
  parseFlowMapping flowContent ln = Ok n -> node_okb n = true.
Proof.
  unfold parseFlowMapping.
  change (fold_left _ (getlines "," flowContent) (Ok (newYamlNode Mapping)))
    with (fold_left (flow_pair_step ln) (getlines "," flowContent)
            (Ok (newYamlNode Mapping))).
  assert (G : forall pairs acc,
             node_okb acc = true -> type acc = Mapping ->
             fold_left (flow_pair_step ln) pairs (Ok acc) = Ok n -> node_okb n = true).
  { induction pairs as [|p pairs IH]; intros acc Ha Ht H.
    - cbn [fold_left] in H. now injection H as <-.
    - cbn [fold_left] in H. unfold flow_pair_step at 2 in H. cbn [bind] in H.
      destruct (find ":" p) as [colon|];
        [|unfold throw in H; rewrite flow_fold_throw in H; discriminate].
      cbv zeta in H. destruct (empty (trim (substr p 0 colon))) eqn:Ek;
        [unfold throw in H; rewrite flow_fold_throw in H; discriminate|].
      refine (IH _ _ _ H); [|now destruct acc].
      destruct (node_okb_parts acc Ha) as (H1 & H2 & H3).
      destruct acc as [t sty sv sq mp].
      cbn [type sequence mapping set_mapping] in *. subst t.
      apply node_okb_intro;
      cbn [type style scalarValue sequence mapping set_mapping set_sequence]; auto.
      apply forallb_map_assign; auto. now apply trim_key_ok. }
  now apply G.
Qed.

Lemma value_node_ok (value2 : string) (ln : Z) (n : YamlNode) :
  value_node value2 ln = Ok n -> node_okb n = true.
Proof.
  unfold value_node. destruct (_ && _).
  - intros H. injection H as <-. apply parseFlowSequence_ok.
  - destruct (_ && _); [apply parseFlowMapping_ok|].
    intros H. now injection H as <-.
Qed.

Lemma node_update_root_fields (p : path) (f : YamlNode -> YamlNode) (r : YamlNode) :
  p <> [] ->
  type (node_update p f r) = type r
  /\ style (node_update p f r) = style r
  /\ scalarValue (node_update p f r) = scalarValue r.
Proof. destruct p as [|[k|i] p]; [congruence| |]; intros _; now destruct r. Qed.

Lemma root_okb_parts (r : YamlNode) :
  root_okb r = true ->
  node_okb r = true /\ type r <> Scalar /\ style r = Plain /\ scalarValue r = "".
Proof.
  unfold root_okb. intros H. do 3 (apply andb_prop in H as [H ?]).
  split; [exact H|]. split; [|split].
  - intros E. rewrite E in H2. discriminate.
  - now destruct (style r).
  - now destruct (scalarValue r).
Qed.

Lemma root_okb_intro (r : YamlNode) :
  node_okb r = true -> type r <> Scalar -> style r = Plain -> scalarValue r = "" ->
  root_okb r = true.
Proof.
  intros H1 H2 H3 H4. unfold root_okb. rewrite H1, H3, H4.
  destruct (type r); [congruence|reflexivity|reflexivity].
Qed.

(** A write that makes the node it changes a sequence or a mapping, and
    leaves its style and scalar text alone, keeps the root a root. *)
Lemma root_update_ok (p : path) (f : YamlNode -> YamlNode) (r : YamlNode) :
  (forall n, node_okb n = true -> node_okb (f n) = true) ->
  (forall n, type (f n) <> Scalar
             /\ style (f n) = style n /\ scalarValue (f n) = scalarValue n) ->
  root_okb r = true -> root_okb (node_update p f r) = true.
Proof.
  intros Hf Hfields Hr. destruct (root_okb_parts r Hr) as (R1 & R2 & R3 & R4).
  apply root_okb_intro.
  - now apply node_update_ok.
  - destruct p as [|s p]; [apply Hfields|].
    destruct (node_update_root_fields (s :: p) f r ltac:(discriminate)) as (-> & _). exact R2.
  - destruct p as [|s p]; [cbn [node_update]; now rewrite (proj1 (proj2 (Hfields r)))|].
    now destruct (node_update_root_fields (s :: p) f r ltac:(discriminate)) as (_ & -> & _).
  - destruct p as [|s p]; [cbn [node_update]; now rewrite (proj2 (proj2 (Hfields r)))|].
    now destruct (node_update_root_fields (s :: p) f r ltac:(discriminate)) as (_ & _ & ->).
Qed.

Lemma push_item_fields (item n : YamlNode) :
  type (push_item item n) <> Scalar
  /\ style (push_item item n) = style n
  /\ scalarValue (push_item item n) = scalarValue n.
Proof.
  destruct (retype_fields Sequence n) as (_ & R2 & R3 & _).
  pose proof (retype_type Sequence n) as Rt.
  unfold push_item. destruct (retype Sequence n). cbn in *. subst. repeat split.
  discriminate.
Qed.

Lemma assign_child_fields (key : string) (newNode n : YamlNode) :
  type (assign_child key newNode n) <> Scalar
  /\ style (assign_child key newNode n) = style n
  /\ scalarValue (assign_child key newNode n) = scalarValue n.
Proof.
  destruct (retype_fields Mapping n) as (_ & R2 & R3 & _).
  pose proof (retype_type Mapping n) as Rt.
  unfold assign_child. cbv zeta. destruct (retype Mapping n). cbn in *. subst.
  repeat split. discriminate.
Qed.

(** The body of the loop keeps the root a root. *)
Lemma parseLine_root_ok (st st' : pstate) (line0 : string) :
  bottom_indent (stack st) = Some (-1)%Z ->
  root_okb (root st) = true ->
  parseLine st line0 = Ok st' -> root_okb (root st') = true.
Proof.
  intros Hb Hr. unfold parseLine.
  destruct (empty (strip_comment line0) || empty (trim (strip_comment line0))).
  { intros H. now injection H as <-. }
  destruct (getIndent (strip_comment line0) (linecount st)) as [indent| |];
    simpl bind; try discriminate.
  destruct (pop_frames_top (Z.of_nat indent) (stack st) ltac:(lia) Hb)
    as (cur & fi & below & -> & Hlt & _).
  rewrite Hlt. cbn [andb].
  destruct (lastScalarNode st) eqn:El; [discriminate|].
  destruct (Ascii.eqb (front (trim (drop indent (strip_comment line0)))) "-").
  - unfold sequence_line. destruct (node_at cur (root st)); [|discriminate].
    intros H. injection H as <-. cbn [root].
    apply (root_update_ok cur (push_item (sequence_item _))); auto.
    + intros n. apply push_item_ok, sequence_item_ok.
    + intros n. apply push_item_fields.
  - unfold mapping_line. rewrite El.
    destruct (find ":" (trim (drop indent (strip_comment line0)))) as [colonPos|];
      [|discriminate].
    cbv zeta. destruct (empty (trim (substr _ 0 colonPos))) eqn:Ek; [discriminate|].
    pose proof (trim_key_ok _ Ek) as Hk.
    destruct (negb (empty _)).
    + destruct (Ascii.eqb _ "|" || Ascii.eqb _ ">").
      * destruct (parseBlockScalar _ _ _) as [[[block ln] input']| |];
          simpl bind; try discriminate.
        intros H. injection H as <-. cbn [root].
        apply root_update_ok; auto.
        -- intros n. apply assign_child_ok; auto;
             now destruct (Ascii.eqb _ "|").
        -- intros n. apply assign_child_fields.
      * destruct (dequote _) as [value1 wasQuoted].
        destruct (negb wasQuoted && _); [discriminate|].
        destruct (value_node (trim value1) (linecount st)) as [newNode| |] eqn:Ev;
          simpl bind; try discriminate.
        intros H. injection H as <-. cbn [root].
        apply root_update_ok; auto.
        -- intros n. apply assign_child_ok; auto; exact (value_node_ok _ _ _ Ev).
        -- intros n. apply assign_child_fields.
    + destruct (peek_type _ _) as [[ty input']| |]; simpl bind; try discriminate.
      intros H. injection H as <-. cbn [root].
      apply root_update_ok; auto.
      * intros n. apply assign_child_ok; auto; now destruct ty.
      * intros n. apply assign_child_fields.
Qed.

Lemma parseLoop_root_ok (fuel : nat) :
  forall (st : pstate) (n : YamlNode),
    state_ok st -> root_okb (root st) = true ->
    parseLoop fuel st = Ok n -> root_okb n = true.
Proof.
  induction fuel as [|fuel IH]; intros st n Hok Hr; [discriminate|].
  cbn [parseLoop]. destruct (parseTurn st) as [[r|st']|e|] eqn:Et; simpl bind;
    try discriminate.
  - intros H. injection H as <-. unfold parseTurn in Et.
    destruct (getline (input st)) as [[l|] s].
    + destruct (parseLine _ l); discriminate.
    + now injection Et as <-.
  - apply IH.
    + exact (proj1 (parseTurn_ok st st' Hok Et)).
    + unfold parseTurn in Et. destruct (getline (input st)) as [[l|] s]; [|discriminate].
      destruct (parseLine _ l) as [st''| |] eqn:Ep; simpl bind in Et; try discriminate.
      injection Et as <-. refine (parseLine_root_ok _ _ l _ _ Ep); [|exact Hr].
      exact (proj1 Hok).
Qed.

(** The trees [parse] returns.  The root is a mapping or a sequence, never
    a scalar, with the plain style and no scalar text.  In the whole tree
    a scalar has no children and a mapping has no sequence items, and
    every key of a mapping is not empty and has no blank at its ends. *)
Theorem parse_tree_shape :
  forall (text : string) (n : YamlNode),
    parse text = Ok n ->
    (type n = Mapping \/ type n = Sequence)
    /\ style n = Plain /\ scalarValue n = ""
    /\ node_okb n = true.
Proof.
  intros text n H. unfold parse, parseStream in H.
  pose proof (parseLoop_root_ok _ _ n (initial_state_ok text) eq_refl H) as Hr.
  destruct (root_okb_parts n Hr) as (R1 & R2 & R3 & R4).
  repeat split; auto. destruct (type n); [congruence|now right|now left].
Qed.

Lemma parse_tree_shape_witness :
  (type (sequence_of ["a"]) = Mapping \/ type (sequence_of ["a"]) = Sequence)
  /\ style (sequence_of ["a"]) = Plain /\ scalarValue (sequence_of ["a"]) = ""
  /\ node_okb (sequence_of ["a"]) = true.
Proof. apply (parse_tree_shape "- a"). vm_compute. reflexivity. Defined.

(** ** [countLeadingSpaces] and [ltrim] *)

Lemma drop_beyond (n : nat) (s : string) : String.length s <= n -> drop n s = "".
Proof.
  revert s; induction n as [|n IH]; intros [|c r] H; simpl in *; try lia; auto.
  apply IH. lia.
Qed.

Lemma ltrim_drop (s : string) (n : nat) : ltrim s n = drop n s.
Proof.
  unfold ltrim. destruct (String.length s <=? n)%nat eqn:E; [|reflexivity].
  apply Nat.leb_le in E. now rewrite drop_beyond.
Qed.

(** [ltrim] drops the first [count] bytes of the text, blank or not, and
    gives the empty text when there are no more; with the count of
    [countLeadingSpaces] it takes off the leading spaces, all of them and
    nothing else: what is left does not start with a space. *)
Theorem ltrim_leading_spaces :
  forall (line : string) (count : nat),
    String.length (ltrim line count) = String.length line - count
    /\ take count line ++ ltrim line count = line
    /\ line = fill (countLeadingSpaces line) SPACE
              ++ ltrim line (countLeadingSpaces line)
    /\ Ascii.eqb (front (ltrim line (countLeadingSpaces line))) SPACE = false.
Proof.
  intros line count. rewrite !ltrim_drop. split; [apply length_drop|].
  split; [apply take_drop|]. unfold countLeadingSpaces.
  induction line as [|c r [IH1 IH2]]; [split; reflexivity|].
  cbn [countLeadingSpaces_loop]. destruct (Ascii.eqb c SPACE) eqn:E.
  - rewrite (countLeadingSpaces_loop_shift r 1). cbn [Nat.add fill drop append].
    apply Ascii.eqb_eq in E. subst c. split; [now rewrite <- IH1|exact IH2].
  - cbn [fill drop append front]. split; [reflexivity|exact E].
Qed.

(** ** A document loaded and queried *)

Lemma index_key_root_with (k key : string) (child : YamlNode) :
  index_key (Some (root_with k child)) key
  = if String.eqb k key then Some child else None.
Proof. unfold index_key, root_with. cbn. now destruct (String.eqb k key). Qed.

(** A one-line document loaded and queried: for a plain key with a plain
    value, [loadString] returns a document in whose view the value is the
    text at the key, whatever the default, and every other key gives the
    default. *)
Theorem load_and_query :
  forall (k v other def : string),
    simple_text k = true -> path_key k = true -> simple_text v = true ->
    path_key other = true -> String.eqb k other = false ->
    exists d : Document,
      loadString (k ++ ": " ++ v) = Ok d
      /\ is_map (view d) = true
      /\ value_string (view d) k def = Ok v
      /\ value_string (view d) other def = Ok def.
Proof.
  intros k v other def Hk Hpk Hv Hpo Hne.
  destruct (simple_key_valid k Hk) as [Hkv Hkt].
  destruct (simple_value_line v Hv) as (V1 & V2 & V3 & V4 & V5 & V6 & V7).
  assert (Hp : parse (k ++ ": " ++ v) = Ok (root_with k (scalar_node v))).
  { change (k ++ ": " ++ v) with (k ++ String ":" (" " ++ v)).
    rewrite (parse_mapping_line k (" " ++ v) Hkv V1). unfold single_mapping_line.
    rewrite V2, V3, V4, V5. cbn [fst snd negb andb]. rewrite V6.
    assert (T : trim v = v) by (rewrite <- V2 at 1; now rewrite trim_idem).
    now rewrite T, V7, Hkt. }
  exists (mkDocument (root_with k (scalar_node v))).
  unfold loadString. rewrite Hp. simpl bind. split; [reflexivity|].
  unfold view. cbn [document_root]. split; [reflexivity|].
  unfold value_string. rewrite !at_path_one_key by assumption.
  rewrite !index_key_root_with, String.eqb_refl, Hne. split; reflexivity.
Qed.

Lemma load_and_query_witness :
  exists d : Document,
    loadString ("value" ++ ": " ++ "hello") = Ok d
    /\ is_map (view d) = true
    /\ value_string (view d) "value" "none" = Ok "hello"
    /\ value_string (view d) "missing" "none" = Ok "none".
Proof.
  apply (load_and_query "value" "hello" "missing" "none"); vm_compute; reflexivity.
Defined.

(** ** The emitter on a block scalar under a key, read back *)

Lemma emitYaml_block_entry (k : string) (sty : ScalarStyle) (text : string) :
  sty <> Plain -> has_newline text = true ->
  toYamlString (root_with k (mkNode Scalar sty text [] []))
  = (k ++ String ":" " ")
    ++ String LF (("  " ++ match sty with Literal => "|" | _ => ">" end)
                  ++ String LF (write_lines (fill 4 SPACE) text)).
Proof.
  intros Hs Hn. unfold toYamlString, root_with.
  cbn [emitYaml forallb snd plain_scalar type style YamlNodeType_eqb andb].
  destruct sty; [congruence| |]; cbn [andb Nat.mul fill append Nat.add];
    rewrite Hn; unfold endl; cbn [append]; rewrite append_nil_r;
    now rewrite append_assoc.
Qed.

(** What [toYamlString] writes for a root mapping with a literal or
    folded scalar of more than one line under a plain key is refused by
    [parse]: the indicator is written on a line of its own under the key,
    where [parse] takes it for a mapping line and misses the colon. *)
Theorem emit_parse_block_scalar :
  forall (k : string) (sty : ScalarStyle) (text : string),
    simple_text k = true -> sty <> Plain -> has_newline text = true ->
    parse (toYamlString (root_with k (mkNode Scalar sty text [] [])))
    = throw MissingColon 2.
Proof.
  intros k sty text Hk Hs Hn. rewrite (emitYaml_block_entry k sty text Hs Hn).
  destruct (simple_key_valid k Hk) as [Hkv Hkt].
  destruct (simple_text_facts k Hk) as (_ & _ & _ & Hkb).
  set (l2 := "  " ++ match sty with Literal => "|" | _ => ">" end).
  set (rest := write_lines (fill 4 SPACE) text).
  set (text' := (k ++ String ":" " ") ++ String LF (l2 ++ String LF rest)).
  assert (Hlf : find LF (k ++ String ":" " ") = None).
  { destruct (mapping_line_anatomy k " " 0 Hkv eq_refl) as (_ & H & _). exact H. }
  assert (Hl : getlines LF text' = (k ++ String ":" " ") :: l2 :: getlines LF rest).
  { unfold text'. rewrite getlines_line by exact Hlf.
    rewrite getlines_line by (unfold l2; now destruct sty). reflexivity. }
  unfold parse, parseStream. cbn [buf stringstream].
  remember (S (String.length text')) as fuel eqn:Hfuel.
  destruct (first_content_line [] "" text' false
              (initial_state (stringstream text')) fuel _ _
              Hl eq_refl (initial_state_ok text') eq_refl ltac:(discriminate)
              ltac:(subst fuel; apply (stream_at_calls "" text' false)))
    as (pre' & rest' & e' & G1 & G2 & G3 & _ & G).
  rewrite G. clear G.
  cbn [root stack lastScalarNode linecount initial_state Z.add List.length Z.of_nat].
  set (st1 := mkState (newYamlNode Mapping) [([], (-1)%Z)] None 1
                (stream_at pre' rest' e')).
  assert (Hok1 : state_ok st1).
  { repeat split; [exists (newYamlNode Mapping); reflexivity|apply stream_at_wf]. }
  destruct (parseLine_first_mapping st1 k " " Hkv eq_refl eq_refl eq_refl)
    as (indent & colonPos & content & Hi & Hp & Hfc & Hkey & Hval & _).
  rewrite (getIndent_unindented k 0 Hkb) in Hi. injection Hi as <-.
  destruct (valid_key_text_facts k Hkv) as (_ & _ & Hke).
  assert (Hpeek : peek_type 1 (stream_at pre' rest' e')
                  = Ok (Mapping, stream_at pre' rest' false)).
  { rewrite (peek_type_next_line 1 pre' rest' e' l2 (getlines LF rest) G3 G2).
    unfold l2. now destruct sty. }
  assert (Hp2 : parseLine st1 (k ++ String ":" " ")
                = Ok (mkState (root_with k (newYamlNode Mapping))
                        [([PKey k], 0%Z); ([], (-1)%Z)] None 1
                        (stream_at pre' rest' false))).
  { rewrite Hp. unfold mapping_line. rewrite Hfc. cbv zeta.
    rewrite Hkey, Hval, Hke, Hkt.
    change (trim " ") with "". cbn [empty negb]. cbv iota.
    cbn [linecount input st1]. rewrite Hpeek. reflexivity. }
  rewrite Hp2. simpl bind.
  match goal with |- parseLoop fuel ?st = _ => set (st2 := st) end.
  assert (Hok2 : state_ok st2) by exact (parseLine_ok st1 st2 _ Hok1 Hp2).
  assert (Hf2 : calls_left (input st2) <= fuel).
  { cbn [input st2]. subst fuel. change ("" ++ text') with text' in G1.
    pose proof (stream_at_calls pre' rest' false) as Hc. now rewrite G1 in Hc. }
  destruct (parseTurn_line st2 pre' rest' false _ _ eq_refl ltac:(discriminate) G2)
    as (pre2 & rest2 & e2 & _ & _ & _ & _ & Ht).
  rewrite (parseLoop_line fuel st2 _ _ Hok2 Hf2 Ht).
  unfold l2. destruct sty; [congruence|reflexivity|reflexivity].
Qed.

Lemma emit_parse_block_scalar_witness :
  parse (toYamlString
           (root_with "desc" (mkNode Scalar Literal ("Multi" ++ nl ++ "line" ++ nl) [] [])))
  = throw MissingColon 2.
Proof.
  apply emit_parse_block_scalar; [vm_compute; reflexivity|discriminate|reflexivity].
Defined.

(** ** Keys with block sequences, one after the other *)

(** The loop on the lines of plain sequence items, when lines follow. *)
Lemma dash_lines_steps (d : nat) (xs : list string) :
  forall (more : list string) (pre rest : string) (e : bool) (st : pstate)
         (fuel : nat) (cur : path) (fi : Z) (below : list (path * Z)) (n : YamlNode),
    getlines LF rest = (map (dash_line d) xs ++ more)%list ->
    forallb seq_item_text xs = true ->
    state_ok st -> input st = stream_at pre rest e -> (e = true -> rest = "") ->
    calls_left (input st) <= fuel ->
    stack st = (cur, fi) :: below -> (fi < Z.of_nat d)%Z ->
    lastScalarNode st = None -> node_at cur (root st) = Some n ->
    exists (pre' rest' : string) (e' : bool) (ln' : Z),
      getlines LF rest' = more
      /\ (e' = true -> rest' = "")
      /\ calls_left (stream_at pre' rest' e') <= calls_left (input st)
      /\ state_ok (mkState (node_update cur (fun _ => push_all xs n) (root st))
                     (stack st) None ln' (stream_at pre' rest' e'))
      /\ parseLoop fuel st
         = parseLoop fuel
             (mkState (node_update cur (fun _ => push_all xs n) (root st))
                (stack st) None ln' (stream_at pre' rest' e')).
Proof.
  induction xs as [|x xs IH];
    intros more pre rest e st fuel cur fi below n Hl Hx Hok Hin He Hf Hs Hfi Hls Hn.
  - exists pre, rest, e, (linecount st).
    rewrite (node_update_same cur (fun _ => push_all [] n) (root st) n Hn eq_refl).
    assert (Est : mkState (root st) (stack st) None (linecount st) (stream_at pre rest e)
                  = st).
    { destruct st as [r s l c i]. cbn in *. now subst. }
    rewrite Est. split; [exact Hl|]. split; [exact He|].
    split; [rewrite Hin; apply le_n|]. split; [exact Hok|reflexivity].
  - cbn [forallb map app] in Hx, Hl. apply andb_prop in Hx as [Hx1 Hx2].
    destruct (parseTurn_line st pre rest e _ _ Hin He Hl)
      as (pre1 & rest1 & e1 & H1 & H2 & H3 & H4 & Ht).
    rewrite (parseLine_dash_line (line_state st (stream_at pre1 rest1 e1))
               cur fi below n d x Hs Hfi Hls Hn Hx1) in Ht.
    simpl bind in Ht. cbn [root stack linecount input line_state] in Ht.
    destruct (parseTurn_ok st _ Hok Ht) as [Hok' Hlt].
    destruct (IH more pre1 rest1 e1 _ fuel cur fi below (push_item (scalar_node x) n)
                H2 Hx2 Hok' eq_refl H3)
      as (pre' & rest' & e' & ln' & G2 & G3 & G6 & G4 & G5);
      cbn [root stack lastScalarNode input]; auto.
    + cbn [input] in Hlt. lia.
    + now apply node_at_update.
    + exists pre', rest', e', ln'. cbn [root stack input] in G4, G5, G6, Hlt.
      rewrite node_update_update in G4, G5.
      split; [exact G2|]. split; [exact G3|]. split; [lia|].
      split; [exact G4|]. now rewrite (parseLoop_turn fuel st _ Hok Hf Ht).
Qed.

Lemma map_alter_assign {A : Type} (key : string) (a b : A) (m : list (string * A)) :
  map_alter (fun _ => b) key (map_assign key a m) = map_assign key b m.
Proof.
  induction m as [|[k w] m IH]; cbn [map_assign map_alter].
  - now rewrite String.eqb_refl.
  - destruct (String.compare key k) eqn:E; cbn [map_alter].
    + apply String.compare_eq_iff in E. subst k. now rewrite String.eqb_refl.
    + now rewrite String.eqb_refl.
    + destruct (String.eqb k key) eqn:Ek; [|now rewrite IH].
      apply String.eqb_eq in Ek. subst k.
      pose proof (String.compare_antisym key key) as Hr. rewrite E in Hr. discriminate.
Qed.

(** The body of the loop on the line of a plain key without value, at the
    start of its line, when a line of a sequence item follows: whatever
    the frames on the stack, the key goes to the root, gets a sequence,
    and a frame. *)
Lemma parseLine_key_line (st : pstate) (k : string) (pre rest : string) (e : bool)
    (d : nat) (x : string) (more : list string) :
  simple_text k = true ->
  pop_frames 0 (stack st) = [([], (-1)%Z)] ->
  lastScalarNode st = None ->
  input st = stream_at pre rest e -> (e = true -> rest = "") ->
  getlines LF rest = dash_line d x :: more ->
  seq_item_text x = true ->
  parseLine st (k ++ ":")
  = Ok (mkState (assign_child k (newYamlNode Sequence) (root st))
          [([PKey k], 0%Z); ([], (-1)%Z)] None (linecount st)
          (stream_at pre rest false)).
Proof.
  intros Hk Hpop Hls Hin He Hl Hx.
  destruct (simple_key_valid k Hk) as [Hkv Hkt].
  destruct (simple_text_facts k Hk) as (Hss & _ & Hind & Hkb).
  destruct (indicator_cases _ Hind) as (Hdash & _).
  destruct (seq_item_text_facts k Hss) as (K1 & K2 & K3 & K4 & K5 & K6).
  destruct (trimmed_text k ltac:(now apply String.eqb_eq)) as [Kl _].
  destruct (mapping_line_anatomy k "" (linecount st) Hkv eq_refl)
    as (A1 & A2 & A3 & indent & A4 & A5 & A6 & A7 & A8 & A9).
  rewrite (getIndent_unindented k 0 Hkb) in A4. injection A4 as <-.
  change (k ++ ":") with (k ++ String ":" "").
  unfold parseLine. rewrite A1, A3, !empty_append_cons. cbn [orb].
  rewrite A5. simpl bind. rewrite A3. change (Z.of_nat 0) with 0%Z.
  rewrite Hpop, Hls. cbv iota. rewrite andb_false_r.
  rewrite Kl. cbn [rstrip].
  assert (Hf : Ascii.eqb (front (k ++ String ":" "")) "-" = false).
  { destruct k; [congruence|exact Hdash]. }
  rewrite Hf. unfold mapping_line.
  rewrite (find_append_first ":" k "" K3). cbv zeta.
  unfold substr. cbn [drop]. rewrite take_append, drop_append_cons, K5.
  change (trim "") with "".
  assert (Hne : empty k = false) by (destruct k; [congruence|reflexivity]).
  rewrite Hne. cbn [empty negb]. cbv iota. rewrite Hin.
  rewrite (peek_type_next_line (linecount st) pre rest e _ _ He Hl).
  assert (Hgi : getIndent (dash_line d x) (linecount st + 1) = Ok d).
  { unfold getIndent, dash_line.
    now rewrite (getIndent_loop_spaces d 0 ("- " ++ x) _ eq_refl). }
  rewrite Hgi. simpl bind. unfold dash_line at 1 2. rewrite drop_spaces.
  destruct (seq_item_text_facts x Hx) as (_ & _ & _ & X4 & _ & X6).
  assert (Htd : trim ("- " ++ x) = "- " ++ x).
  { rewrite trim_strip. cbn [append lstrip].
    change (mem "-" BLANKS) with false. cbv iota.
    rewrite rstrip_cons by reflexivity.
    change (String " " x) with (" " ++ x).
    rewrite rstrip_append by (rewrite X6; exact X4). now rewrite X6. }
  rewrite Htd. reflexivity.
Qed.

Lemma sections_run (d : nat) (secs : list (string * list string)) :
  (0 < d) ->
  forall (pre rest : string) (e : bool) (st : pstate) (fuel : nat)
         (m : list (string * YamlNode)),
    getlines LF rest = concat (map (section_lines d) secs) ->
    forallb section_ok secs = true ->
    state_ok st -> input st = stream_at pre rest e -> (e = true -> rest = "") ->
    calls_left (input st) <= fuel ->
    pop_frames 0 (stack st) = [([], (-1)%Z)] ->
    lastScalarNode st = None ->
    root st = mkNode Mapping Plain "" [] m ->
    parseLoop fuel st
    = Ok (mkNode Mapping Plain ""
            [] (fold_left (fun m sec => map_assign (fst sec) (sequence_of (snd sec)) m)
                  secs m)).
Proof.
  intros Hd. induction secs as [|[k xs] secs IH];
    intros pre rest e st fuel m Hl Hs Hok Hin He Hf Hpop Hls Hr.
  - cbn [fold_left]. rewrite <- Hr. apply parseLoop_end; auto.
    now apply (parseTurn_no_line st pre rest e).
  - cbn [forallb map concat section_lines fst snd] in Hs, Hl.
    apply andb_prop in Hs as [Hsec Hsecs]. unfold section_ok in Hsec.
    cbn [fst snd] in Hsec. do 2 (apply andb_prop in Hsec as [Hsec ?]).
    destruct xs as [|x xs]; [discriminate|].
    cbn [app] in Hl.
    destruct (parseTurn_line st pre rest e _ _ Hin He Hl)
      as (pre1 & rest1 & e1 & H1 & H2 & H3 & H4 & Ht).
    cbn [map app fst snd] in H2, H4, Ht.
    assert (Hx1 : seq_item_text x = true)
      by (cbn [forallb] in H; now apply andb_prop in H as [? _]).
    rewrite (parseLine_key_line (line_state st (stream_at pre1 rest1 e1)) k
               pre1 rest1 e1 d x _ Hsec Hpop Hls eq_refl H3 H2 Hx1) in Ht.
    simpl bind in Ht. cbn [root linecount line_state] in Ht. rewrite Hr in Ht.
    rewrite (parseLoop_turn fuel st _ Hok Hf Ht).
    destruct (parseTurn_ok st _ Hok Ht) as [Hok' Hlt].
    change (dash_line d x :: (map (dash_line d) xs ++ concat (map (section_lines d) secs))%list)
      with (map (dash_line d) (x :: xs) ++ concat (map (section_lines d) secs))%list in H2.
    destruct (dash_lines_steps d (x :: xs) _ pre1 rest1 false _ fuel
                [PKey k] 0%Z [([], (-1)%Z)] (newYamlNode Sequence)
                H2 H Hok' eq_refl ltac:(discriminate))
      as (pre' & rest' & e' & ln' & G2 & G3 & G6 & G4 & G5);
      cbn [root stack lastScalarNode input]; auto; try lia.
    + cbn [input] in Hlt. lia.
    + unfold assign_child. cbn. now rewrite map_find_assign.
    + rewrite G5. cbn [root stack input] in G4, G6, Hlt |- *.
      rewrite (IH pre' rest' e' _ fuel
                  (map_assign k (sequence_of (x :: xs)) m) G2 Hsecs G4 eq_refl G3);
        cbn [root stack lastScalarNode input]; auto.
      * lia.
      * unfold assign_child. cbn [node_update]. cbn.
        rewrite map_alter_assign. unfold push_all.
        fold (push_all (x :: xs) (newYamlNode Sequence)).
        now rewrite push_all_sequence.
Qed.

Lemma sections_mapping_find (key : string) (secs : list (string * list string)) :
  forall m : list (string * YamlNode),
    map_find key
      (fold_left (fun m sec => map_assign (fst sec) (sequence_of (snd sec)) m) secs m)
    = fold_left
        (fun acc sec =>
           if String.eqb (fst sec) key then Some (sequence_of (snd sec)) else acc)
        secs (map_find key m).
Proof.
  induction secs as [|sec secs IH]; intros m; [reflexivity|].
  cbn [fold_left]. rewrite IH. f_equal. apply map_find_assign_any.
Qed.

(** A document of plain keys at the start of their lines, each with the
    lines of its plain sequence items under it, all items at the same
    indentation: [parse] returns a root mapping in which every key has the
    sequence of its items.  At the line of the next key the frame of the
    sequence before is popped, and the key goes to the root; a key that
    comes again replaces what it had, so that it has the items of its last
    section. *)
Theorem parse_keyed_sequences :
  forall (text : string) (d : nat) (secs : list (string * list string)),
    0 < d ->
    getlines LF text = concat (map (section_lines d) secs) ->
    forallb section_ok secs = true ->
    parse text = Ok (mkNode Mapping Plain "" [] (sections_mapping secs))
    /\ forall key, map_find key (sections_mapping secs) = sections_lookup key secs.
Proof.
  intros text d secs Hd Hl Hs. split.
  - unfold parse, parseStream.
    apply (sections_run d secs Hd "" text false _ _ [] Hl Hs (initial_state_ok text));
      try reflexivity; try discriminate.
    apply (stream_at_calls "" text false).
  - intros key. apply (sections_mapping_find key secs []).
Qed.

Lemma parse_keyed_sequences_witness :
  parse ("a:" ++ nl ++ "  - 1" ++ nl ++ "  - 2" ++ nl ++ "b:" ++ nl ++ "  - 3" ++ nl)
  = Ok (mkNode Mapping Plain "" []
          (sections_mapping [("a", ["1"; "2"]); ("b", ["3"])]))
  /\ forall key,
       map_find key (sections_mapping [("a", ["1"; "2"]); ("b", ["3"])])
       = sections_lookup key [("a", ["1"; "2"]); ("b", ["3"])].
Proof.
  apply (parse_keyed_sequences _ 2 [("a", ["1"; "2"]); ("b", ["3"])]);
    [lia|vm_compute; reflexivity|vm_compute; reflexivity].
Defined.

(** ** Carriage returns *)

(** The parse of the line of a plain key with a plain value, with its
    line end. *)
Lemma parse_entry_line (k v : string) :
  simple_text k = true -> simple_text v = true ->
  parse ((k ++ String ":" (" " ++ v)) ++ endl) = Ok (root_with k (scalar_node v)).
Proof.
  intros Hk Hv.
  destruct (simple_key_valid k Hk) as [Hkv Hkt].
  destruct (simple_value_line v Hv) as (V1 & V2 & V3 & V4 & V5 & V6 & V7).
  assert (Hlf : find LF (k ++ String ":" (" " ++ v)) = None).
  { destruct (mapping_line_anatomy k (" " ++ v) 0 Hkv V1) as (_ & H & _). exact H. }
  rewrite (parse_one_value_line _ [] [] k (" " ++ v));
    try reflexivity; try assumption.
  - rewrite V2, V5. cbn [fst snd negb andb]. rewrite V6.
    rewrite <- V2 at 1. rewrite trim_idem, V2, V7, Hkt. reflexivity.
  - unfold endl. now rewrite getlines_line.
  - now rewrite V2.
  - now rewrite V2.
Qed.

Lemma find_append_last (c d : ascii) (v : string) :
  find c v = None -> Ascii.eqb d c = false -> find c (v ++ String d "") = None.
Proof.
  intros Hv Hd. apply find_append_none; [exact Hv|]. cbn [find]. now rewrite Hd.
Qed.

Lemma simple_text_cr (v : string) :
  simple_text v = true -> simple_text (v ++ String CR "") = true.
Proof.
  intros Hv. destruct (simple_text_facts v Hv) as (Hs & Hc & Hi & Hb).
  destruct (seq_item_text_facts v Hs) as (X1 & X2 & X3 & X4 & X5 & X6).
  destruct (trimmed_text v ltac:(now apply String.eqb_eq)) as [Xl _].
  assert (Ht : trim (v ++ String CR "") = v ++ String CR "").
  { rewrite trim_strip. rewrite lstrip_append by (rewrite Xl; exact X4).
    rewrite Xl. now rewrite rstrip_append by discriminate. }
  assert (Hf : front (v ++ String CR "") = front v) by (destruct v; [congruence|reflexivity]).
  unfold simple_text, seq_item_text, lacks.
  rewrite !find_append_last by (auto; reflexivity).
  rewrite Ht, String.eqb_refl, Hf, Hi. destruct v; [congruence|reflexivity].
Qed.

(** A carriage return is no blank and no line end for the parser.  In a
    text with CR LF line ends the carriage return stays at the end of a
    plain value, and a line that holds nothing else is no blank line: it
    is refused as a mapping line without colon. *)
Theorem carriage_return_is_content :
  forall (k v : string) (blanks ls : list string),
    simple_text k = true -> simple_text v = true ->
    forallb is_blank blanks = true ->
    parse (k ++ ": " ++ v ++ String CR "" ++ String LF "")
    = Ok (root_with k (scalar_node (v ++ String CR "")))
    /\ (forall text,
          getlines LF text = (blanks ++ String CR "" :: ls)%list ->
          parse text = throw MissingColon (Z.of_nat (List.length blanks) + 1)).
Proof.
  intros k v blanks ls Hk Hv Hb. split.
  - pose proof (parse_entry_line k (v ++ String CR "") Hk (simple_text_cr v Hv)) as H.
    unfold endl in H. rewrite <- H. f_equal.
    rewrite !append_assoc. cbn [append]. rewrite ?append_assoc. reflexivity.
  - intros text Hl.
    apply (first_line_missing_colon text blanks (String CR "") ls 0 Hl Hb);
      reflexivity.
Qed.

Lemma carriage_return_is_content_witness :
  parse ("a" ++ ": " ++ "1" ++ String CR "" ++ String LF "")
  = Ok (root_with "a" (scalar_node ("1" ++ String CR "")))
  /\ (forall text,
        getlines LF text = ([] ++ String CR "" :: ["a: 1"])%list ->
        parse text = throw MissingColon (Z.of_nat (List.length (@nil string)) + 1)).
Proof.
  apply (carriage_return_is_content "a" "1" [] ["a: 1"]); vm_compute; reflexivity.
Defined.

(** ** The line that ends a block scalar *)

Lemma strip_comment_append (t cm : string) :
  find "#" t = None -> comment_text cm = true -> strip_comment (t ++ cm) = t.
Proof.
  intros Ht Hc. unfold comment_text in Hc. apply andb_prop in Hc as [_ Hc].
  unfold strip_comment. destruct cm as [|c cm].
  - now rewrite append_nil_r, Ht.
  - cbn [empty front orb] in Hc. apply Ascii.eqb_eq in Hc. subst c.
    now rewrite (find_append_first "#" t cm Ht), take_append.
Qed.

Lemma strip_comment_idem (l : string) : strip_comment (strip_comment l) = strip_comment l.
Proof.
  unfold strip_comment at 2 3. destruct (find "#" l) as [i|] eqn:Ef.
  - unfold strip_comment.
    destruct (find "#" (take i l)) as [j|] eqn:Eg; [|reflexivity].
    exfalso. revert i j Ef Eg. induction l as [|c r IH]; intros i j Ef Eg.
    + discriminate.
    + cbn [find] in Ef. destruct (Ascii.eqb c "#") eqn:Ec.
      * injection Ef as <-. discriminate.
      * destruct (find "#" r) as [i'|] eqn:Er; [|discriminate].
        injection Ef as <-. cbn [take find] in Eg. rewrite Ec in Eg.
        destruct (find "#" (take i' r)) as [j'|] eqn:Eg'; [|discriminate].
        exact (IH i' j' eq_refl Eg').
  - unfold strip_comment. now rewrite Ef.
Qed.

(** The body of the loop reads a line through its comment stripping only. *)
Lemma parseLine_strip (st : pstate) (l : string) :
  parseLine st l = parseLine st (strip_comment l).
Proof. unfold parseLine. now rewrite strip_comment_idem. Qed.

(** The body of the loop on the line of a plain key with a plain value and
    maybe a comment, in a state without open frame and last scalar. *)
Lemma parseLine_plain_entry (st : pstate) (q w cm : string) :
  simple_text q = true -> simple_text w = true -> comment_text cm = true ->
  stack st = [([], (-1)%Z)] -> lastScalarNode st = None ->
  parseLine st ((q ++ String ":" (" " ++ w)) ++ cm)
  = Ok (mkState (node_update [] (assign_child q (scalar_node w)) (root st))
          [([], (-1)%Z)] (Some [PKey q]) (linecount st) (input st)).
Proof.
  intros Hq Hw Hc Hs Hl.
  destruct (simple_key_valid q Hq) as [Hkv Hkt].
  destruct (simple_value_line w Hw) as (V1 & V2 & V3 & V4 & V5 & V6 & V7).
  destruct (mapping_line_anatomy q (" " ++ w) 0 Hkv V1) as (Hsc & _).
  assert (Hh : find "#" (q ++ String ":" (" " ++ w)) = None).
  { unfold strip_comment in Hsc.
    destruct (find "#" (q ++ String ":" (" " ++ w))) as [i|] eqn:Ef; [|reflexivity].
    exfalso. apply (f_equal String.length) in Hsc.
    pose proof (find_some_lt _ _ _ Ef) as Hlt.
    rewrite length_take in Hsc by lia. lia. }
  rewrite parseLine_strip, (strip_comment_append _ cm Hh Hc).
  destruct (parseLine_first_mapping st q (" " ++ w) Hkv V1 Hs Hl)
    as (indent & colonPos & content & _ & Hp & Hfc & Hkey & Hval & _).
  destruct (valid_key_text_facts q Hkv) as (_ & _ & Hke).
  rewrite Hp. unfold mapping_line. rewrite Hfc. cbv zeta. rewrite Hkey, Hval.
  rewrite Hkt in Hke |- *. rewrite V2, Hke, V3. cbn [negb]. cbv iota.
  unfold block_indicated in V4. rewrite V4, V5.
  unfold has_colon_space in V6.
  destruct (find_str ": " w); [discriminate|]. cbn [negb andb].
  destruct (simple_key_valid w Hw) as [_ Hwt].
  rewrite Hwt, V7. reflexivity.
Qed.

(** The extractor on a block that a line with a comment ends: the line is
    put back by the length of its text without the comment, so the stream
    is left as many bytes into the line as the comment is long. *)
Lemma extract_block_rewind (baseIndent : Z) (d : nat) (ls : list string)
    (t cm rest pre : string) (ln : Z) :
  (baseIndent < Z.of_nat d)%Z ->
  forallb (block_line d) ls = true ->
  terminator_line baseIndent t = true -> comment_text cm = true ->
  parseBlockScalar baseIndent ln
    (mkStream (pre ++ unlines ls ++ (t ++ cm) ++ String LF rest)
              (String.length pre) false false)
  = Ok (block_content (block_texts d false ls),
        (ln + Z.of_nat (List.length ls))%Z,
        mkStream (pre ++ unlines ls ++ (t ++ cm) ++ String LF rest)
                 (String.length pre + String.length (unlines ls) + String.length cm)
                 false false).
Proof.
  intros Hd Hls Ht Hc.
  set (text := pre ++ unlines ls ++ (t ++ cm) ++ String LF rest).
  assert (Hfuel : exists k, S (String.length text) = List.length ls + S k).
  { exists (String.length text - List.length ls).
    pose proof (length_unlines ls). unfold text. rewrite !length_append. lia. }
  destruct Hfuel as [k Hk].
  unfold parseBlockScalar. cbn [buf]. rewrite Hk.
  destruct (parseBlockScalar_loop_lines d baseIndent text
              ((t ++ cm) ++ String LF rest) Hd ls (S k) pre
              [] false INT_MAX ln Hls eq_refl) as [md' ->].
  rewrite parseBlockScalar_loop_turn. cbn [app orb].
  unfold terminator_line in Ht. do 3 (apply andb_prop in Ht as [Ht ?]).
  apply lacks_true in Ht, H1. apply negb_true_iff in H0.
  assert (Hcl : find LF cm = None).
  { unfold comment_text in Hc. apply andb_prop in Hc as [Hc _]. now apply lacks_true. }
  destruct (getIndent t 0) as [i| |] eqn:Ei; try discriminate.
  unfold getIndent in Ei.
  apply (getIndent_loop_ln _ _ _ (ln + Z.of_nat (List.length ls) + 1)) in Ei.
  replace (String.length pre + String.length (unlines ls))
    with (String.length (pre ++ unlines ls)) by now rewrite length_append.
  rewrite (getline_at text (pre ++ unlines ls) (t ++ cm) rest);
    [|unfold text; now rewrite !append_assoc|now apply find_append_none].
  rewrite (strip_comment_append t cm H1 Hc).
  unfold getIndent. rewrite Ei. simpl bind. rewrite H0, H.
  cbn [bind blockLines lineNum block_input].
  replace (ln + Z.of_nat (List.length ls) + 1 - 1)%Z
    with (ln + Z.of_nat (List.length ls))%Z by lia.
  unfold seekg_cur, seek_to. cbn [failbit gpos buf].
  assert (Hin : (0 <=? Z.of_nat (String.length (pre ++ unlines ls)
                                 + String.length (t ++ cm) + 1)
                       + - (Z.of_nat (String.length t) + 1))%Z
                && (Z.of_nat (String.length (pre ++ unlines ls)
                              + String.length (t ++ cm) + 1)
                    + - (Z.of_nat (String.length t) + 1)
                    <=? Z.of_nat (String.length text))%Z = true).
  { apply andb_true_intro. split; apply Z.leb_le; rewrite ?length_append; [lia|].
    unfold text. rewrite !length_append. simpl. lia. }
  rewrite Hin. do 3 f_equal. rewrite !length_append. lia.
Qed.

(** A block scalar is ended by the first line that is not blank and is
    indented no more than its header, and that line is put back for the
    loop of [parseStream]: by the length it has without its comment.
    Without a comment the line is read again as it stands, and an entry
    line adds its entry beside the block scalar.  With a comment the
    stream is left as many bytes into the line as the comment is long, so
    an entry line [p ++ q ++ ": " ++ w] followed by a comment as long as
    [p] is read again as [q ++ ": " ++ w]: the entry is stored under the
    key [q], without its front [p]. *)
Theorem parse_entry_after_block :
  forall (k v : string) (indent d : nat) (ls : list string) (p q w cm : string),
    valid_key_text k = true -> valid_value_text v = true ->
    block_indicated (trim v) = true ->
    getIndent k 0 = Ok indent -> indent < d ->
    forallb (block_line d) ls = true ->
    simple_text q = true -> simple_text w = true ->
    terminator_line (Z.of_nat indent) (p ++ q ++ ": " ++ w) = true ->
    comment_text cm = true ->
    String.length p = String.length cm ->
    parse ((k ++ String ":" v) ++ String LF "" ++ unlines ls
           ++ ((p ++ q ++ ": " ++ w) ++ cm) ++ String LF "")
    = Ok (mkNode Mapping Plain "" []
            (map_assign q (scalar_node w)
               [(trim k,
                 block_value (trim v) (block_content (block_texts d false ls)))])).
Proof.
  intros k v indent d ls p q w cm Hk Hv Hbi Hik Hd Hls Hq Hw Ht Hc Hlen.
  set (header := k ++ String ":" v).
  set (entry := q ++ String ":" (" " ++ w)).
  change (q ++ ": " ++ w) with entry in *.
  set (text := header ++ String LF "" ++ unlines ls ++ ((p ++ entry) ++ cm) ++ String LF "").
  set (st1 := mkState (newYamlNode Mapping) [([], (-1)%Z)] None 1
                (mkStream text (String.length header + 1) false false)).
  destruct (parseLine_first_mapping st1 k v Hk Hv eq_refl eq_refl)
    as (indent' & colonPos & content & Hik' & Hline & Hfind & Hkey & Hval & Hlf).
  rewrite Hik in Hik'. injection Hik' as <-.
  assert (Hcl : find LF cm = None).
  { unfold comment_text in Hc. apply andb_prop in Hc as [Hc' _]. now apply lacks_true. }
  assert (Hel : find LF entry = None).
  { destruct (simple_key_valid q Hq) as [Hkv _].
    destruct (simple_value_line w Hw) as (V1 & _).
    destruct (mapping_line_anatomy q (" " ++ w) 0 Hkv V1) as (_ & H & _). exact H. }
  assert (Hfuel : exists f, String.length text = S (S f)).
  { exists (String.length text - 2). unfold text. rewrite !length_append.
    cbn [String.length]. lia. }
  destruct Hfuel as [f Hf].
  unfold parse, parseStream. change (buf (stringstream text)) with text.
  cbn [parseLoop]. unfold parseTurn at 1.
  change (input (initial_state (stringstream text)))
    with (mkStream text (String.length "") false false).
  rewrite (getline_at text "" header
             (unlines ls ++ ((p ++ entry) ++ cm) ++ String LF "") eq_refl Hlf).
  change (mkState _ _ _ _ _) with st1.
  fold header in Hline. rewrite Hline.
  unfold mapping_line. rewrite Hfind. cbv zeta. rewrite Hkey, Hval.
  destruct (valid_key_text_facts k Hk) as (_ & _ & Hke).
  assert (Hne : empty (trim v) = false).
  { unfold block_indicated in Hbi. destruct (trim v); [discriminate|reflexivity]. }
  rewrite Hke, Hne. cbn [negb]. cbv iota.
  unfold block_indicated in Hbi. rewrite Hbi.
  change (linecount st1) with 1%Z.
  change (input st1)
    with (mkStream text (String.length header + 1) false false).
  assert (Htext : text = (header ++ String LF "") ++ unlines ls
                         ++ ((p ++ entry) ++ cm) ++ String LF "").
  { unfold text. now rewrite !append_assoc. }
  assert (Hpre : String.length header + 1 = String.length (header ++ String LF "")).
  { rewrite length_append. reflexivity. }
  rewrite Htext at 1. rewrite Hpre.
  rewrite (extract_block_rewind (Z.of_nat indent) d ls (p ++ entry) cm ""
             (header ++ String LF "") 1 ltac:(lia) Hls Ht Hc).
  rewrite <- Htext. simpl bind. rewrite Hf. cbn [parseLoop].
  unfold parseTurn at 1. cbn [input].
  set (pre2 := ((header ++ String LF "") ++ unlines ls) ++ p).
  assert (Hpos : String.length (header ++ String LF "") + String.length (unlines ls)
                 + String.length cm = String.length pre2).
  { unfold pre2. rewrite !length_append. lia. }
  assert (Htext2 : text = pre2 ++ (entry ++ cm) ++ String LF "").
  { rewrite Htext. unfold pre2. now rewrite !append_assoc. }
  rewrite Hpos, (getline_at text pre2 (entry ++ cm) "" Htext2)
    by now apply find_append_none.
  rewrite (parseLine_plain_entry _ q w cm) by (try assumption; reflexivity).
  cbn [bind parseLoop]. unfold parseTurn. cbn [input linecount root].
  replace (String.length pre2 + String.length (entry ++ cm) + 1)
    with (String.length text)
    by (rewrite Htext2, !length_append; cbn [String.length]; lia).
  rewrite getline_at_end. unfold block_value.
  destruct (Ascii.eqb (front (trim v)) "|"); reflexivity.
Qed.

Lemma parse_entry_after_block_witness :
  parse (("text" ++ String ":" " |") ++ String LF "" ++ unlines ["  hello"]
         ++ (("au" ++ "thor" ++ ": " ++ "me") ++ "#x") ++ String LF "")
  = Ok (mkNode Mapping Plain "" []
          (map_assign "thor" (scalar_node "me")
             [(trim "text",
               block_value (trim " |") (block_content (block_texts 2 false ["  hello"])))])).
Proof.
  apply (parse_entry_after_block "text" " |" 0 2 ["  hello"] "au" "thor" "me" "#x");
    try (vm_compute; reflexivity); lia.
Defined.

(** ** C7: one line [key: value] *)

Lemma escape_byte_cases (d : ascii) :
  (if Ascii.eqb d "n" then LF
   else if Ascii.eqb d "t" then TAB
   else if Ascii.eqb d BACKSLASH then BACKSLASH
   else if Ascii.eqb d SQUOTE then SQUOTE
   else if Ascii.eqb d DQUOTE then DQUOTE
   else d) = escape_byte d.
Proof.
  unfold escape_byte.
  destruct (Ascii.eqb d "n"); [reflexivity|].
  destruct (Ascii.eqb d "t"); [reflexivity|].
  destruct (Ascii.eqb d BACKSLASH) eqn:E1; [now apply Ascii.eqb_eq in E1|].
  destruct (Ascii.eqb d SQUOTE) eqn:E2; [now apply Ascii.eqb_eq in E2|].
  destruct (Ascii.eqb d DQUOTE) eqn:E3; [now apply Ascii.eqb_eq in E3|].
  reflexivity.
Qed.

(** [unescape] resolves the escapes. *)
Lemma unescape_resolved (s : string) : escapes_resolved s (unescape s).
Proof.
  assert (H : forall n s, String.length s <= n -> escapes_resolved s (unescape s)).
  { clear s. induction n as [|n IH]; intros s Hs.
    - destruct s; [apply resolved_nil|simpl in Hs; lia].
    - destruct s as [|c r]; [apply resolved_nil|]. cbn [String.length] in Hs.
      cbn [unescape]. destruct (Ascii.eqb c BACKSLASH) eqn:Ec.
      + apply Ascii.eqb_eq in Ec. subst c. destruct r as [|d r'].
        * apply resolved_lone.
        * rewrite escape_byte_cases. apply resolved_escape, IH.
          cbn [String.length] in Hs. lia.
      + apply resolved_byte; [|apply IH; lia].
        intros E. subst c. now rewrite ascii_eqb_refl in Ec. }
  apply (H (String.length s)). lia.
Qed.

(** The resolved text is determined by the text. *)
Lemma escapes_resolved_unique (s a b : string) :
  escapes_resolved s a -> escapes_resolved s b -> a = b.
Proof.
  intros Ha. revert b. induction Ha as [| |d r out Hr IH|c r out Hc Hr IH];
    intros b Hb; inversion Hb; subst; try congruence.
  - f_equal. now apply IH.
  - f_equal. now apply IH.
Qed.

(** A text of two bytes or more is its first byte, its middle and its last
    byte. *)
Lemma ends_split (r : string) :
  r <> "" -> r = take (String.length r - 1) r ++ String (back r) "".
Proof.
  induction r as [|c r IH]; [congruence|]. intros _.
  destruct r as [|d r']; [reflexivity|].
  rewrite back_cons by discriminate.
  replace (String.length (String c (String d r')) - 1)
    with (S (String.length (String d r') - 1)) by (cbn [String.length]; lia).
  cbn [take append]. f_equal. apply IH. discriminate.
Qed.

Lemma quoted_shape (value : string) :
  1 < String.length value ->
  value = String (front value)
            (substr value 1 (String.length value - 2) ++ String (back value) "").
Proof.
  destruct value as [|c r]; [simpl; lia|]. cbn [String.length]. intros H.
  assert (Hr : r <> "") by (destruct r; [simpl in H; lia|discriminate]).
  cbn [front]. rewrite back_cons by exact Hr. unfold substr. cbn [drop].
  replace (S (String.length r) - 2) with (String.length r - 1) by lia.
  f_equal. now apply ends_split.
Qed.

Lemma append_last_inj (a b : string) (c : ascii) :
  a ++ String c "" = b ++ String c "" -> a = b.
Proof.
  revert b; induction a as [|x a IH]; intros [|y b] H; cbn [append] in H.
  - reflexivity.
  - injection H as -> H. destruct b; discriminate.
  - injection H as -> H. destruct a; discriminate.
  - injection H as -> H. f_equal. now apply IH.
Qed.

(** The test of lines 852-855 holds of a text between two quotes of one
    kind, and of no other text. *)
Lemma dequote_test_quoted (q : ascii) (body : string) :
  q = DQUOTE \/ q = SQUOTE ->
  is_quote (front (String q (body ++ String q "")))
  && (1 <? String.length (String q (body ++ String q "")))%nat
  && Ascii.eqb (back (String q (body ++ String q "")))
               (front (String q (body ++ String q ""))) = true.
Proof.
  intros Hq. cbn [front String.length].
  rewrite back_cons by (destruct body; discriminate).
  rewrite back_append_last, ascii_eqb_refl, length_append. cbn [String.length].
  replace (1 <? S (String.length body + 1))%nat with true
    by (symmetry; apply Nat.ltb_lt; lia).
  destruct Hq as [-> | ->]; reflexivity.
Qed.

(** What [dequote] returns is the dequoted text of the value. *)
Lemma dequote_dequoted (value : string) : dequoted value (fst (dequote value)).
Proof.
  unfold dequote.
  destruct (is_quote (front value) && (1 <? String.length value)%nat
            && Ascii.eqb (back value) (front value)) eqn:E.
  - apply andb_prop in E as [E Hb]. apply andb_prop in E as [Hq Hl].
    apply Nat.ltb_lt in Hl. apply Ascii.eqb_eq in Hb.
    left. exists (front value), (substr value 1 (String.length value - 2)).
    cbn [fst]. split; [|split].
    + unfold is_quote in Hq. apply orb_prop in Hq as [H | H];
        apply Ascii.eqb_eq in H; auto.
    + pose proof (quoted_shape value Hl) as Hs. now rewrite Hb in Hs.
    + apply unescape_resolved.
  - right. cbn [fst]. split; [|reflexivity].
    intros q body Hq Hv. rewrite Hv, (dequote_test_quoted q body Hq) in E.
    discriminate.
Qed.

Lemma dequoted_unique (value a b : string) :
  dequoted value a -> dequoted value b -> a = b.
Proof.
  intros [(q & body & Hq & Hv & Hr) | [Hn ->]] [(q' & body' & Hq' & Hv' & Hr') | [Hn' ->]].
  - rewrite Hv in Hv'. injection Hv' as <- Hb. apply append_last_inj in Hb.
    subst body'. exact (escapes_resolved_unique body a b Hr Hr').
  - exfalso. exact (Hn' q body Hq Hv).
  - exfalso. exact (Hn q' body' Hq' Hv').
  - reflexivity.
Qed.

(** C7 as stated fails.  The value of the first input is the text [ hello ]
    in double quotes: trimmed and dequoted it keeps its blanks, and the
    scalar [parse] stores has none, as the value is trimmed once more after
    the quotes are taken off.  The value of the second input is a text in
    double quotes as well, and [parse] stores no scalar but a sequence, as
    the dequoted text is in brackets. *)
Lemma C7_counterexample_quoted_value :
  parse ("key: " ++ quoted " hello ") = Ok (root_with "key" (scalar_node "hello"))
  /\ fst (dequote (trim (" " ++ quoted " hello "))) = " hello "
  /\ String.eqb " hello " "hello" = false
  /\ valid_key_text "key" = true
  /\ valid_value_text (" " ++ quoted " hello ") = true
  /\ parse ("key: " ++ quoted "[a, b]") = Ok (root_with "key" (sequence_of ["a"; "b"]))
  /\ type (sequence_of ["a"; "b"]) = Sequence.
Proof. repeat split; vm_compute; reflexivity. Qed.

(** C7, amended.  For every input that is one line [k:v], where [k] is a
    valid text before the colon (no newline, comment sign or colon, no tab
    in its indentation, not blank, not starting with a dash) and [v] a
    valid scalar value (no newline or comment sign, not blank, no block
    indicator, no colon and space unless quoted, and not in brackets or
    braces once dequoted and trimmed), the parse succeeds, and the root is
    a Mapping with exactly one entry, whose key is [k] trimmed and whose
    node is a Plain Scalar without children.  Its text is the dequoted text
    of [v] trimmed, trimmed once more: for a value between two double or
    two single quotes, what is between the quotes with every escape
    resolved (a newline for [n], a tab for [t], the escaped byte itself
    otherwise, a backslash at the very end kept), and the value itself
    when it is not between such quotes.  The dequoted text is determined
    by the value. *)
Theorem C7_single_key_value_line :
  forall (k v : string),
    valid_key_text k = true ->
    valid_scalar_value v = true ->
    exists (r node : YamlNode) (text : string),
      parse (k ++ String ":" v) = Ok r
      /\ type r = Mapping
      /\ sequence r = []
      /\ mapping r = [(trim k, node)]
      /\ type node = Scalar
      /\ style node = Plain
      /\ sequence node = [] /\ mapping node = []
      /\ scalarValue node = trim text
      /\ dequoted (trim v) text
      /\ (forall text', dequoted (trim v) text' -> text' = text).
Proof.
  intros k v Hk Hv. unfold valid_scalar_value in Hv.
  do 4 (apply andb_prop in Hv as [Hv ?]).
  apply negb_true_iff in H, H0, H1, H2.
  rewrite (parse_mapping_line k v Hk Hv).
  unfold single_mapping_line. rewrite H2, H1, H0.
  unfold value_node. unfold flow_delimited in H.
  apply orb_false_elim in H as [Hf1 Hf2]. rewrite Hf1, Hf2. simpl bind.
  eexists _, _, (fst (dequote (trim v))). split; [reflexivity|].
  do 8 (split; [reflexivity|]). split.
  - apply dequote_dequoted.
  - intros text' Ht. exact (dequoted_unique _ _ _ Ht (dequote_dequoted (trim v))).
Qed.

Lemma C7_single_key_value_witness :
  exists (r node : YamlNode) (text : string),
    parse (" key " ++ String ":"
             (" " ++ quoted (" hello" ++ String BACKSLASH "t: world ") ++ " "))
    = Ok r
    /\ type r = Mapping
    /\ sequence r = []
    /\ mapping r = [(trim " key ", node)]
    /\ type node = Scalar
    /\ style node = Plain
    /\ sequence node = [] /\ mapping node = []
    /\ scalarValue node = trim text
    /\ dequoted
         (trim (" " ++ quoted (" hello" ++ String BACKSLASH "t: world ") ++ " ")) text
    /\ (forall text',
           dequoted
             (trim (" " ++ quoted (" hello" ++ String BACKSLASH "t: world ") ++ " "))
             text' ->
           text' = text).
Proof.
  apply (C7_single_key_value_line " key "
           (" " ++ quoted (" hello" ++ String BACKSLASH "t: world ") ++ " "));
    vm_compute; reflexivity.
Defined.

(** ** C10: the query layer does not throw *)

(** The index [at_path] reads from a run of digits is the number they
    write, modulo [2^64]. *)
Lemma scan_index_decimal (ds : string) :
  forall idx acc : N,
    all_digits ds = true -> idx = (acc mod 2 ^ 64)%N ->
    fst (scan_index ds idx) = (decimal_from ds acc mod 2 ^ 64)%N.
Proof.
  induction ds as [|c r IH]; intros idx acc Hd Hi; [exact Hi|].
  cbn [all_digits] in Hd. apply andb_prop in Hd as [Hc Hr].
  cbn [scan_index decimal_from]. rewrite Hc. apply IH; [exact Hr|].
  subst idx. set (M := (2 ^ 64)%N).
  rewrite <- (N.Div0.add_mod_idemp_l (acc mod M * 10)).
  rewrite N.Div0.mul_mod_idemp_l.
  now rewrite N.Div0.add_mod_idemp_l.
Qed.

Lemma at_path_dot (v : NodeView) (q : string) :
  at_path v (String "." q) = at_path v q.
Proof. reflexivity. Qed.

Lemma at_path_dot_append (v : NodeView) (p q : string) :
  at_path v (p ++ String "." q) = (w <- at_path v p ;; at_path w q).
Proof.
  unfold at_path.
  rewrite <- (at_path_loop_append (String.length p) q p v (le_n _)).
  apply at_path_loop_fuel; rewrite length_append; cbn [String.length]; lia.
Qed.

(** A step of [at_path] on an index in brackets: the lookup of the index,
    and the rest of the path from there. *)
Lemma at_path_index_step (v : NodeView) (ds rest : string) :
  all_digits ds = true ->
  at_path v ("[" ++ ds ++ "]" ++ rest)
  = at_path (index_at v (decimal ds mod 2 ^ 64)%N) rest.
Proof.
  intros Hd. unfold decimal.
  rewrite <- (scan_index_decimal ds 0%N 0%N Hd eq_refl).
  unfold at_path at 1. cbn [append String.length at_path_loop].
  change (Ascii.eqb "[" ".") with false. cbv iota.
  unfold at_path_turn. cbn [scan_token]. change (Ascii.eqb "[" ".") with false.
  change (Ascii.eqb "[" "[") with true. cbn [orb empty negb].
  cbn [at_path_index]. change (Ascii.eqb "[" "[") with true. cbv iota.
  pose proof (scan_index_digits ds (String "]" rest) 0%N Hd eq_refl) as H1.
  pose proof (scan_index_value ds (String "]" rest) 0%N Hd eq_refl) as H2.
  destruct (scan_index (ds ++ String "]" rest) 0%N) as [idx p2].
  cbn [fst snd] in H1, H2. subst p2. rewrite <- H2.
  change (Ascii.eqb "]" "]") with true. cbn [negb]. cbv iota.
  destruct (index_at v idx) as [n|].
  - unfold at_path. apply at_path_loop_fuel; [|lia].
    rewrite length_append. cbn [String.length]. lia.
  - symmetry. apply at_path_loop_null. lia.
Qed.

(** A step of [at_path] on a key: the lookup of the key, and the rest of
    the path from there. *)
Lemma at_path_key_step (v : NodeView) (k rest : string) :
  path_key k = true ->
  empty rest || Ascii.eqb (front rest) "." || Ascii.eqb (front rest) "[" = true ->
  at_path v (k ++ rest) = at_path (index_key v k) rest.
Proof.
  intros Hk Hr. destruct rest as [|d r].
  - rewrite append_nil_r. now rewrite at_path_one_key.
  - cbn [empty front orb] in Hr. destruct (Ascii.eqb d ".") eqn:Ed.
    + apply Ascii.eqb_eq in Ed. subst d.
      rewrite at_path_dot_append, at_path_one_key by exact Hk.
      cbn [bind]. now rewrite at_path_dot.
    + cbn [orb] in Hr. apply Ascii.eqb_eq in Hr. subst d.
      unfold path_key in Hk. do 2 (apply andb_prop in Hk as [Hk ?]).
      destruct k as [|c r0]; [discriminate|].
      assert (Hdot : Ascii.eqb c "." = false).
      { unfold lacks in H0. cbn [find] in H0. now destruct (Ascii.eqb c "."). }
      unfold at_path at 1. cbn [append String.length at_path_loop].
      rewrite Hdot. unfold at_path_turn.
      pose proof (scan_token_key_bracket (String c r0) r H0 H) as Hst.
      cbn [append] in Hst. rewrite Hst. cbn [empty negb].
      destruct (index_key v (String c r0)) as [n|];
        [|symmetry; apply at_path_loop_null; lia].
      unfold at_path. cbn [String.length at_path_loop].
      change (Ascii.eqb "[" ".") with false. cbv iota.
      unfold at_path_turn. cbn [scan_token]. change (Ascii.eqb "[" ".") with false.
      change (Ascii.eqb "[" "[") with true. cbn [orb empty negb].
      pose proof (at_path_index_spec (String "[" r) (Some n)) as Hs.
      destruct (at_path_index (String "[" r) (Some n)) as [w|[p' cur']];
        [reflexivity|].
      destruct Hs as [_ Hlt]. specialize (Hlt eq_refl). cbn [String.length] in Hlt.
      apply at_path_loop_fuel; [|lia]. rewrite length_append. cbn [String.length]. lia.
Qed.

(** An opening bracket that is not followed by digits and the closing
    bracket: [at_path] returns the null view. *)
Lemma at_path_bad_index (v : NodeView) (ds rest : string) :
  all_digits ds = true -> isdigit (front rest) = false ->
  Ascii.eqb (front rest) "]" = false ->
  at_path v ("[" ++ ds ++ rest) = Ok None.
Proof.
  intros Hd Hn Hb. unfold at_path. cbn [append String.length at_path_loop].
  change (Ascii.eqb "[" ".") with false. cbv iota.
  unfold at_path_turn. cbn [scan_token]. change (Ascii.eqb "[" ".") with false.
  change (Ascii.eqb "[" "[") with true. cbn [orb empty negb].
  cbn [at_path_index]. change (Ascii.eqb "[" "[") with true. cbv iota.
  pose proof (scan_index_digits ds rest 0%N Hd Hn) as H1.
  destruct (scan_index (ds ++ rest) 0%N) as [idx p2]. cbn [snd] in H1. subst p2.
  destruct rest as [|d p3]; [reflexivity|]. cbn [front] in Hb. now rewrite Hb.
Qed.


(** ** The tests of the repository, on the embedding *)

(** [PathLookup]. *)
Example test_path_lookup :
  value_integral (cast_signed 32) (view_of path_lookup_text) "a.b[1]" (-1)%Z = Ok 2%Z
  /\ value_string (view_of path_lookup_text) "a.c" "default" = Ok "three"
  /\ value_integral (cast_signed 32) (view_of path_lookup_text) "a.d" 99%Z = Ok 99%Z.
Proof. repeat split; vm_compute; reflexivity. Qed.

(** [SimpleSequence]. *)
Example test_simple_sequence :
  option_map (fun n => map scalarValue (sequence n))
    (index_key (view_of (nl ++ "items:" ++ nl ++ "  - apple" ++ nl ++ "  - banana"
                         ++ nl ++ "  - cherry" ++ nl ++ "    ")) "items")
  = Some ["apple"; "banana"; "cherry"].
Proof. vm_compute. reflexivity. Qed.

(** [InlineSequence]: the second item is a double and no integer. *)
Example test_inline_sequence :
  match index_key (view_of "scores: [85, 92.5, 78]") "scores" with
  | Some n => map toInt (sequence n)
  | None => []
  end = [Some 85%Z; None; Some 78%Z]
  /\ match index_key (view_of "scores: [85, 92.5, 78]") "scores" with
     | Some n => map (toDouble text_of_double no_range_error) (sequence n)
     | None => []
     end = [Some "85"; Some "92.5"; Some "78"].
Proof. split; vm_compute; reflexivity. Qed.

(** [NullScalar]: a key without a value is no scalar at all. *)
Example test_null_scalar :
  option_map toInt (index_key (view_of "null_val: null") "null_val") = Some None
  /\ option_map toInt (index_key (view_of "tilde_val: ~") "tilde_val") = Some None
  /\ option_map type (index_key (view_of "empty_val: ") "empty_val") = Some Mapping.
Proof. repeat split; vm_compute; reflexivity. Qed.

(** [BooleanScalar]. *)
Example test_boolean_scalar :
  option_map toBool (index_key (view_of "active: true") "active") = Some (Some true)
  /\ option_map toBool (index_key (view_of "inactive: False") "inactive")
     = Some (Some false).
Proof. split; vm_compute; reflexivity. Qed.

(** [FoldedScalarChompStrip]. *)
Example test_folded_strip :
  value_string
    (view_of (nl ++ "notes: >-" ++ nl ++ "  Note with trailing newline stripped."
              ++ nl ++ "  Last line without trailing space." ++ nl ++ "    "))
    "notes" ""
  = Ok "Note with trailing newline stripped. Last line without trailing space.".
Proof. vm_compute. reflexivity. Qed.

(** The tests that expect a [YamlError]: [FoldedScalarErrorNoIndent],
    [TabsInIndent], [InvalidIndent], [MissingColon], [EmptyKey] and
    [InvalidFlow]. *)
Example test_errors :
  parse (nl ++ "err: >" ++ nl ++ "non-indented line" ++ nl ++ "    ")
    = throw MissingColon 3
  /\ parse ("key:" ++ nl ++ String TAB "value: 1")
     = Throw (mkError TabsInIndentation 2 1)
  /\ parse (nl ++ "a: 1" ++ nl ++ "  b: 2" ++ nl ++ "c: 3" ++ nl ++ "    ")
     = throw UnexpectedIndentAfterScalar 3
  /\ parse "key value" = throw MissingColon 1
  /\ parse ": value" = throw EmptyKey 1
  /\ parse "map: {a: 1, b}" = throw AmbiguousColon 1.
Proof. repeat split; vm_compute; reflexivity. Qed.

(** [Variants] of [deduceType]. *)
Example test_deduceType_variants :
  deduceType text_of_double no_range_error "123" = DLong 123%Z
  /\ deduceType text_of_double no_range_error "3.14" = DDouble "3.14"
  /\ deduceType text_of_double no_range_error "True" = DBool true
  /\ deduceType text_of_double no_range_error "null" = DNull
  /\ deduceType text_of_double no_range_error "hello" = DString "hello".
Proof. repeat split; vm_compute; reflexivity. Qed.
